(** * Torrin: resumable chunked uploads

    A shallow embedding of the upload coordination engine:
    - [Core]: the pure chunk arithmetic of [@torrin/core] (utils.ts);
    - [TorrinUploadStore] / [TorrinStorageDriver]: the two interfaces the
      service is written against;
    - [Memory]: the reference in-memory store (memory-store.ts);
    - [Service]: [TorrinService] (service.ts);
    - [Local]: the local file-system driver (storage-local);
    - [Client]: [uploadChunkWithRetry] of the client pump (upload.ts);
    - [Float64], [Paths], [Interleaved]: the division of doubles, the
      paths of [path.join], and a request that runs among others.

    Conventions.  A JavaScript [number] that holds a byte count, a chunk
    index, a count of attempts or a number of milliseconds is a [Z]; the
    model covers the integer-valued inputs (no NaN, no fractions).  Up to
    [Number.MAX_SAFE_INTEGER] the arithmetic of these numbers is that of
    [Z], but for the division, which [Float64] rounds as the machine does;
    the theorems on the chunk arithmetic carry that bound.  A [Date]
    is its number of milliseconds since the epoch, a [Z] too.  An [async]
    function is run to completion before the next one starts: the model is
    the sequential semantics of each service call; [Interleaved] is the
    model of a call during which other requests write to the store.  A
    thrown exception is the [Throw] result of the [Run] monad.  Error
    messages (template strings) are not kept, the error code and the
    [details] payload are. *)

From Stdlib Require Import ZArith Lia List String Ascii.
From Stdlib Require QArith Qround.
From Equations Require Import Equations.
From stdpp Require Import sorting.
From stdpp Require Import base numbers strings gmap list.

Local Open Scope Z_scope.

(* ===================================================================== *)
(** * Data model (types.ts, errors.ts, constants.ts)                      *)
(* ===================================================================== *)

Inductive UploadStatus : Type :=
| pending | in_progress | completed | failed | canceled.

#[global] Instance UploadStatus_eq_dec : EqDecision UploadStatus.
Proof. solve_decision. Defined.

(** [Record<string, unknown>]: carried end to end, never inspected. *)
Definition Metadata : Type := list (string * string).

Record TorrinUploadSession : Type := mkSession {
  uploadId : string;
  fileName : option string;
  fileSize : Z;
  mimeType : option string;
  chunkSize : Z;
  totalChunks : Z;
  metadata : option Metadata;
  status : UploadStatus;
  createdAt : Z;
  updatedAt : Z;
  expiresAt : option Z
}.

(** [session.uploadId], for the places where [uploadId] names a parameter. *)
Abbreviation session_uploadId := uploadId (only parsing).

Record TorrinSessionInitInput : Type := mkInit {
  init_fileName : option string;
  init_fileSize : Z;
  init_mimeType : option string;
  init_metadata : option Metadata;
  init_desiredChunkSize : option Z
}.

(** [Partial<TorrinUploadSession>]: every field optional. *)
Record SessionPatch : Type := mkPatch {
  patch_uploadId : option string;
  patch_fileName : option (option string);
  patch_fileSize : option Z;
  patch_mimeType : option (option string);
  patch_chunkSize : option Z;
  patch_totalChunks : option Z;
  patch_metadata : option (option Metadata);
  patch_status : option UploadStatus;
  patch_createdAt : option Z;
  patch_updatedAt : option Z;
  patch_expiresAt : option (option Z)
}.

(** The object literal [{ status: st }]. *)
Definition statusPatch (st : UploadStatus) : SessionPatch :=
  mkPatch None None None None None None None (Some st) None None None.

Record TorrinUploadStatus : Type := mkStatus {
  st_uploadId : string;
  st_status : UploadStatus;
  st_fileName : option string;
  st_fileSize : Z;
  st_chunkSize : Z;
  st_totalChunks : Z;
  st_receivedChunks : list Z;
  st_missingChunks : list Z
}.

Inductive TorrinStorageLocation : Type :=
| LocalLocation (path : string)
| S3Location (bucket key : string) (url etag : option string).

Record TorrinCompleteResult : Type := mkComplete {
  cr_uploadId : string;
  cr_fileName : option string;
  cr_fileSize : Z;
  cr_location : TorrinStorageLocation;
  cr_metadata : option Metadata
}.

Inductive TorrinErrorCode : Type :=
| UPLOAD_NOT_FOUND
| UPLOAD_ALREADY_COMPLETED
| UPLOAD_CANCELED
| CHUNK_OUT_OF_RANGE
| CHUNK_SIZE_MISMATCH
| CHUNK_HASH_MISMATCH
| CHUNK_ALREADY_UPLOADED
| MISSING_CHUNKS
| FILE_HASH_MISMATCH
| STORAGE_ERROR
| INVALID_REQUEST
| NETWORK_ERROR
| TIMEOUT_ERROR
| INTERNAL_ERROR.

#[global] Instance TorrinErrorCode_eq_dec : EqDecision TorrinErrorCode.
Proof. solve_decision. Defined.

(** The [details] payloads the code builds. *)
Inductive ErrorDetails : Type :=
| NoDetails
| SizeDetails (expected actual : Z)
| IndexDetails (index total : Z)
| MissingDetails (missingChunks : list Z)
| CauseDetails (cause : string).

Record TorrinError : Type := mkError {
  code : TorrinErrorCode;
  details : ErrorDetails
}.

Definition errorCodeToStatusCode (c : TorrinErrorCode) : Z :=
  match c with
  | UPLOAD_NOT_FOUND => 404
  | UPLOAD_ALREADY_COMPLETED | UPLOAD_CANCELED | CHUNK_ALREADY_UPLOADED => 409
  | CHUNK_OUT_OF_RANGE | CHUNK_SIZE_MISMATCH | CHUNK_HASH_MISMATCH
  | MISSING_CHUNKS | FILE_HASH_MISMATCH | INVALID_REQUEST => 400
  | STORAGE_ERROR | INTERNAL_ERROR => 500
  | NETWORK_ERROR | TIMEOUT_ERROR => 503
  end.

(** What a [throw] carries: a [TorrinError] or any other [Error]. *)
Inductive Thrown : Type :=
| Typed (e : TorrinError)
| Untyped (message : string).

Definition DEFAULT_CHUNK_SIZE : Z := 1024 * 1024.
Definition MIN_CHUNK_SIZE : Z := 256 * 1024.
Definition MAX_CHUNK_SIZE : Z := 100 * 1024 * 1024.
Definition DEFAULT_RETRY_ATTEMPTS : Z := 3.
Definition DEFAULT_RETRY_DELAY : Z := 1000.
Definition DEFAULT_UPLOAD_TTL_MS : Z := 24 * 60 * 60 * 1000.

(* ===================================================================== *)
(** * Core utilities (utils.ts)                                           *)
(* ===================================================================== *)

Module Core.

(** [Math.ceil(fileSize / chunkSize)], with the quotient taken in the
    rationals.  The division of the machine, [Float64.divide], gives the
    same number of chunks for a file size and a chunk size up to
    [Number.MAX_SAFE_INTEGER] ([calculateTotalChunks_safe]) and can give
    one less above.  For
    [chunkSize = 0] JavaScript yields [Infinity] or [NaN]; the service
    never reaches that case, see [normalizeChunkSize]. *)
Definition calculateTotalChunks (fileSize chunkSize : Z) : Z :=
  Qround.Qceiling
    (QArith_base.Qdiv (QArith_base.inject_Z fileSize)
                      (QArith_base.inject_Z chunkSize)).

(** [desired ?? DEFAULT_CHUNK_SIZE], clamped, then capped to the file. *)
Definition normalizeChunkSize (desired : option Z) (fileSize : Z) : Z :=
  let size := default DEFAULT_CHUNK_SIZE desired in
  let size := Z.max MIN_CHUNK_SIZE (Z.min MAX_CHUNK_SIZE size) in
  if size >? fileSize then fileSize else size.

(** [for (i = 0; i < totalChunks; i++) if (!received.has(i)) push(i)]. *)
Definition getMissingChunks (totalChunks : Z) (receivedChunks : list Z)
  : list Z :=
  filter (λ i, i ∉ receivedChunks) (seqZ 0 totalChunks).

(** [None] is the thrown [Error("Chunk index ... out of range")].
    [%] is the JavaScript remainder, [Z.rem] (for [chunkSize = 0], which
    no session of the service has, JavaScript yields [NaN]). *)
Definition getExpectedChunkSize
  (chunkIndex totalChunks fileSize chunkSize : Z) : option Z :=
  if (chunkIndex <? 0) || (chunkIndex >=? totalChunks) then None
  else if chunkIndex =? totalChunks - 1 then
    let remainder := Z.rem fileSize chunkSize in
    Some (if remainder =? 0 then chunkSize else remainder)
  else Some chunkSize.

(** The sizes of all chunks, in index order; [None] if one index throws. *)
Definition expectedChunkSizes (totalChunks fileSize chunkSize : Z)
  : option (list Z) :=
  mapM (λ i, getExpectedChunkSize i totalChunks fileSize chunkSize)
       (seqZ 0 totalChunks).

Definition sumZ (l : list Z) : Z := foldr Z.add 0 l.

End Core.

(* ===================================================================== *)
(** * Effects: state passing with exceptions                              *)
(* ===================================================================== *)

Inductive Result (A : Type) : Type :=
| Ok (a : A)
| Throw (t : Thrown).
Arguments Ok {A} a.
Arguments Throw {A} t.

(** A computation over a state [W] that returns or throws. *)
Definition Run (W A : Type) : Type := W → W * Result A.

Definition ret {W A : Type} (a : A) : Run W A := λ w, (w, Ok a).

Definition throw {W A : Type} (t : Thrown) : Run W A := λ w, (w, Throw t).

Definition bind {W A B : Type} (c : Run W A) (k : A → Run W B) : Run W B :=
  λ w, match c w with
       | (w', Ok a) => k a w'
       | (w', Throw t) => (w', Throw t)
       end.

(** [try { c } catch (error) { h error }]. *)
Definition tryCatch {W A : Type} (c : Run W A) (h : Thrown → Run W A)
  : Run W A :=
  λ w, match c w with
       | (w', Ok a) => (w', Ok a)
       | (w', Throw t) => h t w'
       end.

Notation "'let*' x ':=' c 'in' k" := (bind c (λ x, k))
  (at level 10, x name, c at level 100, k at level 200, only parsing).

(** [throw new TorrinError(code, message, details)]. *)
Definition throwError {W A : Type} (c : TorrinErrorCode) (d : ErrorDetails)
  : Run W A :=
  throw (Typed (mkError c d)).

(** The result of a run, and its final state. *)
Definition resultOf {W A : Type} (r : W * Result A) : Result A := snd r.
Definition stateOf {W A : Type} (r : W * Result A) : W := fst r.

(* ===================================================================== *)
(** * The two interfaces (upload-store.ts, storage-driver.ts)             *)
(* ===================================================================== *)

Module Store.

(** [TorrinUploadStore]; the last two operations are optional. *)
Class TorrinUploadStore (S : Type) : Type := {
  createSession :
    TorrinSessionInitInput → Z → option Z → Run S TorrinUploadSession;
  getSession : string → Run S (option TorrinUploadSession);
  updateSession : string → SessionPatch → Run S TorrinUploadSession;
  markChunkReceived : string → Z → Run S unit;
  listReceivedChunks : string → Run S (list Z);
  deleteSession : string → Run S unit;
  listExpiredSessions : option (Run S (list TorrinUploadSession));
  listAllSessions : option (Run S (list TorrinUploadSession))
}.

End Store.

Module Driver.

(** A [Readable] is modelled by the bytes it delivers. *)
Definition Readable : Type := list Byte.byte.

(** [TorrinStorageDriver]. *)
Class TorrinStorageDriver (D : Type) : Type := {
  initUpload : TorrinUploadSession → Run D unit;
  writeChunk :
    TorrinUploadSession → Z → Readable → Z → option string → Run D unit;
  finalizeUpload : TorrinUploadSession → Run D TorrinStorageLocation;
  abortUpload : TorrinUploadSession → Run D unit
}.

End Driver.

(* ===================================================================== *)
(** * The reference in-memory store (memory-store.ts)                     *)
(* ===================================================================== *)

Module Memory.

(** [Set<number>], kept in insertion order as JavaScript does. *)
Definition Set_add (x : Z) (s : list Z) : list Z :=
  if decide (x ∈ s) then s else s ++ [x].

Record StoredSession : Type := mkStored {
  session : TorrinUploadSession;
  receivedChunks : list Z
}.

(** The closure state: the [sessions] map, and how many times the clock
    and the id generator have been read so far.  A [Map] iterates in
    insertion order; [gmap] fixes another order, which only permutes the
    sessions that [listExpiredSessions] and [listAllSessions] return. *)
Record State : Type := mkState {
  sessions : gmap string StoredSession;
  clockReads : nat;
  idReads : nat
}.

Definition empty : State := mkState ∅ 0 0.

(** [{ ...session, ...patch }]. *)
Definition applyPatch (s : TorrinUploadSession) (p : SessionPatch)
  : TorrinUploadSession :=
  {| uploadId := default (uploadId s) (patch_uploadId p);
     fileName := default (fileName s) (patch_fileName p);
     fileSize := default (fileSize s) (patch_fileSize p);
     mimeType := default (mimeType s) (patch_mimeType p);
     chunkSize := default (chunkSize s) (patch_chunkSize p);
     totalChunks := default (totalChunks s) (patch_totalChunks p);
     metadata := default (metadata s) (patch_metadata p);
     status := default (status s) (patch_status p);
     createdAt := default (createdAt s) (patch_createdAt p);
     updatedAt := default (updatedAt s) (patch_updatedAt p);
     expiresAt := default (expiresAt s) (patch_expiresAt p) |}.

Definition withUpdatedAt (s : TorrinUploadSession) (now : Z)
  : TorrinUploadSession :=
  {| uploadId := uploadId s; fileName := fileName s;
     fileSize := fileSize s; mimeType := mimeType s;
     chunkSize := chunkSize s; totalChunks := totalChunks s;
     metadata := metadata s; status := status s;
     createdAt := createdAt s; updatedAt := now;
     expiresAt := expiresAt s |}.

(** [expiresAt && expiresAt < now], on a session and a clock reading. *)
Definition isExpired (s : TorrinUploadSession) (now : Z) : bool :=
  match expiresAt s with
  | Some e => e <? now
  | None => false
  end.

Section WithOracles.

(** [clock n] is what the [n]-th evaluation of [new Date()] yields,
    [generateUploadId n] what the [n]-th call of [generateUploadId()]
    yields (a time stamp and [Math.random()] are behind it). *)
Context (clock : nat → Z) (generateUploadId : nat → string).

Definition newDate : Run State Z :=
  λ st, (mkState (sessions st) (S (clockReads st)) (idReads st),
         Ok (clock (clockReads st))).

Definition freshUploadId : Run State string :=
  λ st, (mkState (sessions st) (clockReads st) (S (idReads st)),
         Ok (generateUploadId (idReads st))).

Definition sessions_get (uploadId : string)
  : Run State (option StoredSession) :=
  λ st, (st, Ok (sessions st !! uploadId)).

Definition sessions_set (uploadId : string) (stored : StoredSession)
  : Run State unit :=
  λ st, (mkState (<[uploadId := stored]> (sessions st))
                 (clockReads st) (idReads st), Ok tt).

Definition sessions_delete (uploadId : string) : Run State unit :=
  λ st, (mkState (delete uploadId (sessions st))
                 (clockReads st) (idReads st), Ok tt).

Definition sessions_values : Run State (list StoredSession) :=
  λ st, (st, Ok ((map_to_list (sessions st)).*2)).

Definition createSession (init : TorrinSessionInitInput) (chunkSize : Z)
  (ttlMs : option Z) : Run State TorrinUploadSession :=
  let* uploadId := freshUploadId in
  let totalChunks :=
    Core.calculateTotalChunks (init_fileSize init) chunkSize in
  let* now := newDate in
  let session :=
    {| uploadId := uploadId;
       fileName := init_fileName init;
       fileSize := init_fileSize init;
       mimeType := init_mimeType init;
       chunkSize := chunkSize;
       totalChunks := totalChunks;
       metadata := init_metadata init;
       status := pending;
       createdAt := now;
       updatedAt := now;
       expiresAt :=
         match ttlMs with
         | Some ttl => if ttl =? 0 then None else Some (now + ttl)
         | None => None
         end |} in
  let* _ := sessions_set uploadId (mkStored session []) in
  ret session.

(** The clock is read only when [expiresAt] is set ([&&]). *)
Definition getSession (uploadId : string)
  : Run State (option TorrinUploadSession) :=
  let* stored := sessions_get uploadId in
  match stored with
  | None => ret None
  | Some stored =>
      match expiresAt (session stored) with
      | None => ret (Some (session stored))
      | Some e =>
          let* now := newDate in
          if e <? now then ret None else ret (Some (session stored))
      end
  end.

Definition updateSession (uploadId : string) (patch : SessionPatch)
  : Run State TorrinUploadSession :=
  let* stored := sessions_get uploadId in
  match stored with
  | None => throwError UPLOAD_NOT_FOUND NoDetails
  | Some stored =>
      let* now := newDate in
      let session' :=
        withUpdatedAt (applyPatch (session stored) patch) now in
      let* _ :=
        sessions_set uploadId (mkStored session' (receivedChunks stored)) in
      ret session'
  end.

Definition markChunkReceived (uploadId : string) (chunkIndex : Z)
  : Run State unit :=
  let* stored := sessions_get uploadId in
  match stored with
  | None => throwError UPLOAD_NOT_FOUND NoDetails
  | Some stored =>
      let received := Set_add chunkIndex (receivedChunks stored) in
      let* now := newDate in
      sessions_set uploadId
        (mkStored (withUpdatedAt (session stored) now) received)
  end.

(** [Array.from(set).sort((a, b) => a - b)]. *)
Definition listReceivedChunks (uploadId : string) : Run State (list Z) :=
  let* stored := sessions_get uploadId in
  match stored with
  | None => throwError UPLOAD_NOT_FOUND NoDetails
  | Some stored => ret (merge_sort Z.le (receivedChunks stored))
  end.

Definition deleteSession (uploadId : string) : Run State unit :=
  sessions_delete uploadId.

Definition listExpiredSessions : Run State (list TorrinUploadSession) :=
  let* now := newDate in
  let* values := sessions_values in
  ret (session <$>
         filter (λ stored, isExpired (session stored) now = true) values).

Definition listAllSessions : Run State (list TorrinUploadSession) :=
  let* values := sessions_values in
  ret (session <$> values).

Definition createInMemoryStore : Store.TorrinUploadStore State := {|
  Store.createSession := createSession;
  Store.getSession := getSession;
  Store.updateSession := updateSession;
  Store.markChunkReceived := markChunkReceived;
  Store.listReceivedChunks := listReceivedChunks;
  Store.deleteSession := deleteSession;
  Store.listExpiredSessions := Some listExpiredSessions;
  Store.listAllSessions := Some listAllSessions
|}.

End WithOracles.

End Memory.

(* ===================================================================== *)
(** * TorrinService (service.ts)                                          *)
(* ===================================================================== *)

Module Service.

Record TorrinServiceOptions : Type := mkOptions {
  opt_defaultChunkSize : option Z;
  opt_maxChunkSize : option Z;
  opt_uploadTtlMs : option Z
}.

(** The private fields the constructor sets. *)
Record TorrinService : Type := mkService {
  defaultChunkSize : Z;
  maxChunkSize : Z;
  uploadTtlMs : Z
}.

Definition new_TorrinService (options : TorrinServiceOptions)
  : TorrinService :=
  {| defaultChunkSize :=
       default DEFAULT_CHUNK_SIZE (opt_defaultChunkSize options);
     maxChunkSize := default MAX_CHUNK_SIZE (opt_maxChunkSize options);
     uploadTtlMs := default DEFAULT_UPLOAD_TTL_MS (opt_uploadTtlMs options) |}.

Record HandleChunkInput : Type := mkChunkInput {
  hc_uploadId : string;
  hc_index : Z;
  hc_size : Z;
  hc_hash : option string;
  hc_stream : Driver.Readable
}.

(** Every call the service makes on its store and on its driver, in the
    order it makes them. *)
Inductive Call : Type :=
| StoreCreateSession (init : TorrinSessionInitInput) (chunkSize : Z)
    (ttlMs : option Z)
| StoreGetSession (uploadId : string)
| StoreUpdateSession (uploadId : string) (patch : SessionPatch)
| StoreMarkChunkReceived (uploadId : string) (chunkIndex : Z)
| StoreListReceivedChunks (uploadId : string)
| StoreDeleteSession (uploadId : string)
| StoreListExpiredSessions
| StoreListAllSessions
| DriverInitUpload (session : TorrinUploadSession)
| DriverWriteChunk (session : TorrinUploadSession) (chunkIndex : Z)
    (stream : Driver.Readable) (expectedSize : Z) (hash : option string)
| DriverFinalizeUpload (session : TorrinUploadSession)
| DriverAbortUpload (session : TorrinUploadSession).

(** One entry of the [errors] array of a cleanup. *)
Inductive CleanupError : Type :=
| NotSupported
| FailedToCleanup (uploadId : string) (error : Thrown).

Record CleanupResult : Type := mkCleanup {
  cleaned : Z;
  errors : list CleanupError
}.

(** [for (const x of l) { acc = body(x, acc) }]. *)
Fixpoint forOf {W A B : Type} (l : list A) (body : A → B → Run W B)
  (acc : B) : Run W B :=
  match l with
  | [] => ret acc
  | x :: l' => let* acc' := body x acc in forOf l' body acc'
  end.

Section WithStoreAndDriver.

Context {S D : Type}.
Context {storeImpl : Store.TorrinUploadStore S}.
Context {driverImpl : Driver.TorrinStorageDriver D}.

(** What the service acts on: the state behind its store, the state
    behind its driver, and the calls made so far. *)
Record World : Type := mkWorld {
  store : S;
  storage : D;
  log : list Call
}.

Definition onStore {A : Type} (c : Call) (op : Run S A) : Run World A :=
  λ w, let '(s', r) := op (store w) in
       (mkWorld s' (storage w) (log w ++ [c]), r).

Definition onDriver {A : Type} (c : Call) (op : Run D A) : Run World A :=
  λ w, let '(d', r) := op (storage w) in
       (mkWorld (store w) d' (log w ++ [c]), r).

Context (this : TorrinService).

Definition getSessionOrThrow (uploadId : string)
  : Run World TorrinUploadSession :=
  let* session :=
    onStore (StoreGetSession uploadId) (Store.getSession uploadId) in
  match session with
  | None => throwError UPLOAD_NOT_FOUND NoDetails
  | Some session => ret session
  end.

Definition validateSessionForChunk (session : TorrinUploadSession)
  : Run World unit :=
  if decide (status session = completed)
  then throwError UPLOAD_ALREADY_COMPLETED NoDetails
  else if decide (status session = canceled)
  then throwError UPLOAD_CANCELED NoDetails
  else ret tt.

Definition validateChunkIndex (index totalChunks : Z) : Run World unit :=
  if (index <? 0) || (index >=? totalChunks)
  then throwError CHUNK_OUT_OF_RANGE (IndexDetails index totalChunks)
  else ret tt.

Definition initUpload (input : TorrinSessionInitInput)
  : Run World TorrinUploadSession :=
  if init_fileSize input <=? 0
  then throwError INVALID_REQUEST NoDetails
  else
    let chunkSize :=
      Core.normalizeChunkSize
        (Some (default (defaultChunkSize this)
                       (init_desiredChunkSize input)))
        (init_fileSize input) in
    let ttl := Some (uploadTtlMs this) in
    let* session :=
      onStore (StoreCreateSession input chunkSize ttl)
              (Store.createSession input chunkSize ttl) in
    let* _ :=
      onDriver (DriverInitUpload session) (Driver.initUpload session) in
    ret session.

Definition handleChunk (input : HandleChunkInput) : Run World unit :=
  let* session := getSessionOrThrow (hc_uploadId input) in
  let* _ := validateSessionForChunk session in
  let* _ := validateChunkIndex (hc_index input) (totalChunks session) in
  let* expectedSize :=
    match Core.getExpectedChunkSize (hc_index input)
            (totalChunks session) (fileSize session) (chunkSize session)
    with
    | Some size => ret size
    | None => throw (Untyped "Chunk index out of range")
    end in
  if negb (hc_size input =? expectedSize)
  then throwError CHUNK_SIZE_MISMATCH
         (SizeDetails expectedSize (hc_size input))
  else
    let* _ :=
      onDriver
        (DriverWriteChunk session (hc_index input) (hc_stream input)
           expectedSize (hc_hash input))
        (Driver.writeChunk session (hc_index input) (hc_stream input)
           expectedSize (hc_hash input)) in
    let* _ :=
      onStore
        (StoreMarkChunkReceived (hc_uploadId input) (hc_index input))
        (Store.markChunkReceived (hc_uploadId input) (hc_index input)) in
    if decide (status session = pending)
    then
      let* _ :=
        onStore
          (StoreUpdateSession (hc_uploadId input) (statusPatch in_progress))
          (Store.updateSession (hc_uploadId input)
             (statusPatch in_progress)) in
      ret tt
    else ret tt.

Definition getStatus (uploadId : string) : Run World TorrinUploadStatus :=
  let* session := getSessionOrThrow uploadId in
  let* receivedChunks :=
    onStore (StoreListReceivedChunks uploadId)
            (Store.listReceivedChunks uploadId) in
  let missingChunks :=
    Core.getMissingChunks (totalChunks session) receivedChunks in
  ret {| st_uploadId := session_uploadId session;
         st_status := status session;
         st_fileName := fileName session;
         st_fileSize := fileSize session;
         st_chunkSize := chunkSize session;
         st_totalChunks := totalChunks session;
         st_receivedChunks := receivedChunks;
         st_missingChunks := missingChunks |}.

Definition completeUpload (uploadId : string) (hash : option string)
  : Run World TorrinCompleteResult :=
  let* session := getSessionOrThrow uploadId in
  if decide (status session = completed)
  then throwError UPLOAD_ALREADY_COMPLETED NoDetails
  else if decide (status session = canceled)
  then throwError UPLOAD_CANCELED NoDetails
  else
    let* receivedChunks :=
      onStore (StoreListReceivedChunks uploadId)
              (Store.listReceivedChunks uploadId) in
    let missingChunks :=
      Core.getMissingChunks (totalChunks session) receivedChunks in
    if (0 <? Z.of_nat (length missingChunks))
    then throwError MISSING_CHUNKS (MissingDetails missingChunks)
    else
      let* location :=
        onDriver (DriverFinalizeUpload session)
                 (Driver.finalizeUpload session) in
      let* _ :=
        onStore (StoreUpdateSession uploadId (statusPatch completed))
                (Store.updateSession uploadId (statusPatch completed)) in
      ret {| cr_uploadId := session_uploadId session;
             cr_fileName := fileName session;
             cr_fileSize := fileSize session;
             cr_location := location;
             cr_metadata := metadata session |}.

Definition abortUpload (uploadId : string) : Run World unit :=
  let* session := getSessionOrThrow uploadId in
  if decide (status session = completed)
  then throwError UPLOAD_ALREADY_COMPLETED NoDetails
  else
    let* _ :=
      onDriver (DriverAbortUpload session) (Driver.abortUpload session) in
    let* _ :=
      onStore (StoreUpdateSession uploadId (statusPatch canceled))
              (Store.updateSession uploadId (statusPatch canceled)) in
    ret tt.

(** The body of the sweep loop, with its [try]/[catch]. *)
Definition cleanupExpiredOne (session : TorrinUploadSession)
  (acc : CleanupResult) : Run World CleanupResult :=
  tryCatch
    (let* _ :=
       if decide (status session ≠ completed)
       then onDriver (DriverAbortUpload session)
                     (Driver.abortUpload session)
       else ret tt in
     let* _ :=
       onStore (StoreDeleteSession (session_uploadId session))
               (Store.deleteSession (session_uploadId session)) in
     ret (mkCleanup (cleaned acc + 1) (errors acc)))
    (λ error,
       ret (mkCleanup (cleaned acc)
              (errors acc ++
               [FailedToCleanup (session_uploadId session) error]))).

Definition cleanupExpiredUploads : Run World CleanupResult :=
  match Store.listExpiredSessions with
  | None => ret (mkCleanup 0 [NotSupported])
  | Some listExpiredSessions =>
      let* expired :=
        onStore StoreListExpiredSessions listExpiredSessions in
      forOf expired cleanupExpiredOne (mkCleanup 0 [])
  end.

Definition cleanupStaleOne (maxAgeMs now : Z)
  (session : TorrinUploadSession) (acc : CleanupResult)
  : Run World CleanupResult :=
  let age := now - updatedAt session in
  let isStale :=
    (age >? maxAgeMs) && negb (bool_decide (status session = completed)) in
  if isStale
  then
    tryCatch
      (let* _ :=
         onDriver (DriverAbortUpload session)
                  (Driver.abortUpload session) in
       let* _ :=
         onStore (StoreDeleteSession (session_uploadId session))
                 (Store.deleteSession (session_uploadId session)) in
       ret (mkCleanup (cleaned acc + 1) (errors acc)))
      (λ error,
         ret (mkCleanup (cleaned acc)
                (errors acc ++
                 [FailedToCleanup (session_uploadId session) error])))
  else ret acc.

(** [now] is the value [Date.now()] returns in the call. *)
Definition cleanupStaleUploads (maxAgeMs now : Z)
  : Run World CleanupResult :=
  match Store.listAllSessions with
  | None => ret (mkCleanup 0 [NotSupported])
  | Some listAllSessions =>
      let* allSessions := onStore StoreListAllSessions listAllSessions in
      forOf allSessions (cleanupStaleOne maxAgeMs now) (mkCleanup 0 [])
  end.

End WithStoreAndDriver.

Arguments World : clear implicits.

End Service.

(* ===================================================================== *)
(** * The local file-system driver (storage-local)                        *)
(* ===================================================================== *)

Module Local.

Record LocalStorageOptions : Type := mkLocalOptions {
  opt_baseDir : string;
  opt_tempDir : option string;
  opt_preserveFileName : option bool
}.

(** [path.join(a, b)] on two plain segments. *)
Definition join (a b : string) : string := (a ++ "/" ++ b)%string.

(** The character of a decimal digit. *)
Definition digitChar (d : Z) : ascii := ascii_of_N (48 + Z.to_N d).

(** The decimal digits of a non-negative integer, most significant
    first, in front of [acc]. *)
Equations? digits (n : Z) (acc : string) : string
  by wf (Z.to_nat n) lt :=
  digits n acc with Z_lt_dec n 10 => {
    | left _ := String (digitChar n) acc;
    | right _ := digits (n / 10) (String (digitChar (n mod 10)) acc) }.
Proof. apply Z2Nat.inj_lt; [apply Z.div_pos; lia | lia |]. apply Z.div_lt; lia. Qed.

(** The [width] low decimal digits of [n], zero-padded, in front of
    [acc]. *)
Fixpoint fixedDigits (width : nat) (n : Z) (acc : string) : string :=
  match width with
  | O => acc
  | S width' =>
      fixedDigits width' (n / 10) (String (digitChar (n mod 10)) acc)
  end.

(** [Number.prototype.toString()] on an integer below [10^21]: its
    decimal digits (from [10^21] on JavaScript prints an exponent). *)
Definition toString (n : Z) : string :=
  if n <? 0 then String "-" (digits (- n) "") else digits n "".

(** [s.padStart(targetLength, "0")]: pads, never truncates. *)
Fixpoint zeros (n : nat) : string :=
  match n with
  | O => EmptyString
  | S n' => String "0" (zeros n')
  end.

Definition padStart (targetLength : nat) (s : string) : string :=
  (zeros (targetLength - String.length s) ++ s)%string.

(** The file name of a staged chunk, [`chunk_${...padStart(6, "0")}`]. *)
Definition chunkFileName (chunkIndex : Z) : string :=
  ("chunk_" ++ padStart 6 (toString chunkIndex))%string.

(** [fileName.lastIndexOf(".")], [-1] when there is no dot; [i] is the
    position of the head of [s], [last] the last dot seen so far. *)
Fixpoint lastIndexOfDot (s : string) (i last : Z) : Z :=
  match s with
  | EmptyString => last
  | String c s' =>
      lastIndexOfDot s' (i + 1) (if Ascii.eqb c "." then i else last)
  end.

Definition getExtension (fileName : string) : string :=
  let lastDot := lastIndexOfDot fileName 0 (-1) in
  if lastDot >? 0
  then String.substring (Z.to_nat lastDot)
         (String.length fileName - Z.to_nat lastDot) fileName
  else "".

(** The part of the file system the driver touches: the directories
    (by path, each with its files by name) and the regular files written
    outside of them (by path).  Operations fail only where the driver's
    own logic can observe it (a missing directory). *)
Record FS : Type := mkFS {
  dirs : gmap string (gmap string (list Byte.byte));
  files : gmap string (list Byte.byte)
}.

Definition emptyFS : FS := mkFS ∅ ∅.

(** [mkdir(path, { recursive: true })]. *)
Definition mkdir (path : string) : Run FS unit :=
  λ fs, (match dirs fs !! path with
         | Some _ => fs
         | None => mkFS (<[path := ∅]> (dirs fs)) (files fs)
         end, Ok tt).

(** [rm(path, { recursive: true, force: true })] on a directory. *)
Definition rmdir (path : string) : Run FS unit :=
  λ fs, (mkFS (delete path (dirs fs)) (files fs), Ok tt).

(** [readdir(path)]: the names in the directory. *)
Definition readdir (path : string) : Run FS (list string) :=
  λ fs, match dirs fs !! path with
        | Some d => (fs, Ok ((map_to_list d).*1))
        | None => (fs, Throw (Untyped "ENOENT"))
        end.

(** [pipeline(stream, createWriteStream(join(dir, name)))]. *)
Definition writeFileIn (dir name : string) (content : list Byte.byte)
  : Run FS unit :=
  λ fs, match dirs fs !! dir with
        | Some d => (mkFS (<[dir := <[name := content]> d]> (dirs fs))
                          (files fs), Ok tt)
        | None => (fs, Throw (Untyped "ENOENT"))
        end.

(** [rm(join(dir, name), { force: true })]. *)
Definition rmFileIn (dir name : string) : Run FS unit :=
  λ fs, match dirs fs !! dir with
        | Some d => (mkFS (<[dir := delete name d]> (dirs fs)) (files fs),
                     Ok tt)
        | None => (fs, Ok tt)
        end.

(** The bytes of [join(dir, name)]. *)
Definition readFileIn (dir name : string) : Run FS (list Byte.byte) :=
  λ fs, match dirs fs !! dir ≫= (λ d, d !! name) with
        | Some content => (fs, Ok content)
        | None => (fs, Throw (Untyped "ENOENT"))
        end.

(** [createWriteStream(path)] followed by the writes and [end()]. *)
Definition writeFile (path : string) (content : list Byte.byte)
  : Run FS unit :=
  λ fs, (mkFS (dirs fs) (<[path := content]> (files fs)), Ok tt).

Section WithOptions.

Context (options : LocalStorageOptions).

Definition baseDir : string := opt_baseDir options.
Definition tempDir : string :=
  default (join baseDir ".temp") (opt_tempDir options).
Definition preserveFileName : bool :=
  default false (opt_preserveFileName options).

Definition getUploadTempDir (uploadId : string) : string :=
  join tempDir uploadId.

Definition getChunkPath (uploadId : string) (chunkIndex : Z) : string :=
  join (getUploadTempDir uploadId) (chunkFileName chunkIndex).

Definition getFinalPath (session : TorrinUploadSession) : string :=
  match fileName session with
  | Some name =>
      if preserveFileName && negb (String.eqb name "")
      then join (join baseDir (uploadId session)) name
      else join baseDir (uploadId session ++ getExtension name)
  | None => join baseDir (uploadId session)
  end.

(** [join(finalPath, "..")]: the directory of the final path. *)
Definition getFinalDir (session : TorrinUploadSession) : string :=
  match fileName session with
  | Some name =>
      if preserveFileName && negb (String.eqb name "")
      then join baseDir (uploadId session)
      else baseDir
  | None => baseDir
  end.

Definition storageError {A : Type} (error : Thrown) : Run FS A :=
  throwError STORAGE_ERROR
    (CauseDetails match error with
                  | Untyped m => m
                  | Typed _ => "TorrinError"
                  end).

Definition initUpload (session : TorrinUploadSession) : Run FS unit :=
  tryCatch (mkdir (getUploadTempDir (uploadId session))) storageError.

Definition writeChunk (session : TorrinUploadSession) (chunkIndex : Z)
  (stream : Driver.Readable) (expectedSize : Z) (_hash : option string)
  : Run FS unit :=
  let dir := getUploadTempDir (uploadId session) in
  let name := chunkFileName chunkIndex in
  tryCatch
    (let* _ := writeFileIn dir name stream in
     let size := Z.of_nat (length stream) in
     if negb (size =? expectedSize)
     then
       let* _ := rmFileIn dir name in
       throwError CHUNK_SIZE_MISMATCH (SizeDetails expectedSize size)
     else ret tt)
    (λ error,
       match error with
       | Typed e => throw (Typed e)
       | Untyped _ => storageError error
       end).

(** [for (const chunkFile of chunks) pipeline(read, writeStream)]: the
    bytes that reach the write stream, in the order of [chunks]. *)
Definition concatChunks (dir : string) (chunks : list string)
  : Run FS (list Byte.byte) :=
  Service.forOf chunks
    (λ chunkFile written,
       let* content := readFileIn dir chunkFile in
       ret (written ++ content))
    [].

Definition finalizeUpload (session : TorrinUploadSession)
  : Run FS TorrinStorageLocation :=
  let uploadTempDir := getUploadTempDir (uploadId session) in
  let finalPath := getFinalPath session in
  tryCatch
    (let* _ := mkdir (getFinalDir session) in
     let* chunks := readdir uploadTempDir in
     let chunks := merge_sort String.le chunks in
     let* written := concatChunks uploadTempDir chunks in
     let* _ := writeFile finalPath written in
     let* _ := rmdir uploadTempDir in
     ret (LocalLocation finalPath))
    storageError.

Definition abortUpload (session : TorrinUploadSession) : Run FS unit :=
  tryCatch (rmdir (getUploadTempDir (uploadId session))) storageError.

Definition createLocalStorageDriver
  : Driver.TorrinStorageDriver FS := {|
  Driver.initUpload := initUpload;
  Driver.writeChunk := writeChunk;
  Driver.finalizeUpload := finalizeUpload;
  Driver.abortUpload := abortUpload
|}.

End WithOptions.

End Local.

(* ===================================================================== *)
(** * The client's chunk retry (client/upload.ts)                         *)
(* ===================================================================== *)

Module Client.

(** What the environment decides during attempt number [n] of one chunk:
    the value of [_isCanceled] at each of the three places it is read,
    and whether the body of the [try] block (slice, PUT, bookkeeping,
    [saveState]) returns or throws.  A pause is assumed to be released:
    [waitIfPaused] returns. *)
Record AttemptEnv : Type := mkAttemptEnv {
  canceledOnEntry : bool;
  canceledAfterPause : bool;
  outcome : Result unit;
  canceledInCatch : bool
}.

(** What one call of [uploadChunkWithRetry] does, in order. *)
Inductive Event : Type :=
| Attempt (attempt : Z)
| Sleep (ms : Z).

#[global] Instance Event_eq_dec : EqDecision Event.
Proof. solve_decision. Defined.

Definition canceledError : Thrown := Typed (mkError UPLOAD_CANCELED NoDetails).

Section WithOptions.

Context (retryAttempts retryDelay : Z) (env : Z → AttemptEnv).

(** [uploadChunkWithRetry(chunkIndex, attempt)]: the events of the call
    and of the calls it makes in turn, and the result. *)
Equations? uploadChunkWithRetry (attempt : Z) : list Event * Result unit
  by wf (Z.to_nat (retryAttempts - attempt)) lt :=
  uploadChunkWithRetry attempt with canceledOnEntry (env attempt) => {
    | true := ([], Throw canceledError);
    | false with canceledAfterPause (env attempt) => {
      | true := ([], Throw canceledError);
      | false with outcome (env attempt) => {
        | Ok _ := ([Attempt attempt], Ok tt);
        | Throw error with canceledInCatch (env attempt) => {
          | true := ([Attempt attempt], Throw canceledError);
          | false with Z_lt_dec attempt retryAttempts => {
            | left _ :=
                let delay := retryDelay * 2 ^ (attempt - 1) in
                let '(events, result) :=
                  uploadChunkWithRetry (attempt + 1) in
                (Attempt attempt :: Sleep delay :: events, result);
            | right _ := ([Attempt attempt], Throw error) } } } } }.
Proof. lia. Qed.

End WithOptions.

(** [retryDelay * Math.pow(2, attempt - 1)]. *)
Definition backoff (retryDelay attempt : Z) : Z :=
  retryDelay * 2 ^ (attempt - 1).

(** [n] attempts in a row, numbered from [first], each followed by its
    back-off sleep. *)
Fixpoint retried (retryDelay first : Z) (n : nat) : list Event :=
  match n with
  | O => []
  | S n' =>
      Attempt first :: Sleep (backoff retryDelay first)
        :: retried retryDelay (first + 1) n'
  end.

Definition isAttempt (e : Event) : bool :=
  match e with Attempt _ => true | Sleep _ => false end.

(** How many times the chunk was attempted. *)
Definition attempts (events : list Event) : Z :=
  Z.of_nat (length (filter (λ e, isAttempt e = true) events)).

End Client.


(* ===================================================================== *)
(** * The service on the in-memory store                                  *)
(* ===================================================================== *)

Module System.

Import Service.

(** Every stored session sits under its own [uploadId]. *)
Definition wellKeyed (st : Memory.State) : Prop :=
  ∀ id stored,
    Memory.sessions st !! id = Some stored →
    uploadId (Memory.session stored) = id.

(** Every received index is an index of the session, and is held once. *)
Definition receivedInRange (st : Memory.State) : Prop :=
  ∀ id stored,
    Memory.sessions st !! id = Some stored →
    NoDup (Memory.receivedChunks stored)
    ∧ ∀ i, i ∈ Memory.receivedChunks stored →
           0 ≤ i < totalChunks (Memory.session stored).

(** Every session has at least one chunk. *)
Definition hasChunks (st : Memory.State) : Prop :=
  ∀ id stored,
    Memory.sessions st !! id = Some stored →
    1 ≤ totalChunks (Memory.session stored).

Definition consistent (st : Memory.State) : Prop :=
  wellKeyed st ∧ receivedInRange st ∧ hasChunks st.

(** Sessions that agree on what identifies an upload and its chunks. *)
Definition sameUpload (s s' : TorrinUploadSession) : Prop :=
  uploadId s' = uploadId s ∧ totalChunks s' = totalChunks s.

(** What the service can do to the map of sessions: create a session
    under its id, touch the session record of an entry, add to an entry
    an index its session has, delete an entry. *)
Inductive storeStep
  : gmap string Memory.StoredSession → gmap string Memory.StoredSession → Prop :=
| step_none m : storeStep m m
| step_create m s :
    1 ≤ totalChunks s →
    storeStep m (<[uploadId s := Memory.mkStored s []]> m)
| step_touch m id stored s' :
    m !! id = Some stored →
    sameUpload (Memory.session stored) s' →
    storeStep m (<[id := Memory.mkStored s' (Memory.receivedChunks stored)]> m)
| step_mark m id stored s' i :
    m !! id = Some stored →
    sameUpload (Memory.session stored) s' →
    0 ≤ i < totalChunks (Memory.session stored) →
    storeStep m
      (<[id := Memory.mkStored s'
                 (Memory.Set_add i (Memory.receivedChunks stored))]> m)
| step_delete m id : storeStep m (delete id m)
| step_then m1 m2 m3 : storeStep m1 m2 → storeStep m2 m3 → storeStep m1 m3.



Section WithDriver.

Context {D : Type} {driverImpl : Driver.TorrinStorageDriver D}.
Context (clock : nat → Z) (generateUploadId : nat → string).
Context (this : TorrinService).

#[local] Instance memoryStore : Store.TorrinUploadStore Memory.State :=
  Memory.createInMemoryStore clock generateUploadId.

(** The service methods, on the in-memory store. *)
Definition initUpload := Service.initUpload (S := Memory.State) (D := D) this.
Definition handleChunk := Service.handleChunk (S := Memory.State) (D := D).
Definition getStatus := Service.getStatus (S := Memory.State) (D := D).
Definition completeUpload :=
  Service.completeUpload (S := Memory.State) (D := D).
Definition abortUpload := Service.abortUpload (S := Memory.State) (D := D).
Definition cleanupExpiredUploads :=
  Service.cleanupExpiredUploads (S := Memory.State) (D := D).
Definition cleanupStaleUploads :=
  Service.cleanupStaleUploads (S := Memory.State) (D := D).

(** The calls the HTTP surface can make on the service. *)
Inductive Request : Type :=
| InitUpload (input : TorrinSessionInitInput)
| HandleChunk (input : HandleChunkInput)
| GetStatus (uploadId : string)
| CompleteUpload (uploadId : string) (hash : option string)
| AbortUpload (uploadId : string)
| CleanupExpiredUploads
| CleanupStaleUploads (maxAgeMs now : Z).

(** The state after the service has served a request. *)
Definition serve (r : Request) (w : World Memory.State D)
  : World Memory.State D :=
  match r with
  | InitUpload input => stateOf (initUpload input w)
  | HandleChunk input => stateOf (handleChunk input w)
  | GetStatus uploadId => stateOf (getStatus uploadId w)
  | CompleteUpload uploadId hash => stateOf (completeUpload uploadId hash w)
  | AbortUpload uploadId => stateOf (abortUpload uploadId w)
  | CleanupExpiredUploads => stateOf (cleanupExpiredUploads w)
  | CleanupStaleUploads maxAgeMs now =>
      stateOf (cleanupStaleUploads maxAgeMs now w)
  end.

(** The states the service can be in between two requests when it
    serves them one after the other: it starts on an empty store and a
    driver state [d0], and then serves requests, each to its end
    before the next.  (For requests that overlap, see
    [Interleaved].) *)
Inductive reachable (d0 : D) : World Memory.State D → Prop :=
| reachable_start : reachable d0 (mkWorld Memory.empty d0 [])
| reachable_serve w r : reachable d0 w → reachable d0 (serve r w).

(** The sessions before and after a run are related by [storeStep]. *)
Definition steps (w w' : World Memory.State D) : Prop :=
  storeStep (Memory.sessions (store w)) (Memory.sessions (store w')).

(** What a sweep over [l] makes of a state: it only deletes, and only
    under the ids of [l]; the entry of a [completed] session of [l] is
    gone; the driver is asked to abort no [completed] session. *)
Definition swept (l : list TorrinUploadSession)
  (w w' : World Memory.State D) : Prop :=
  (∀ id, (∀ s, s ∈ l → uploadId s ≠ id) →
         Memory.sessions (store w') !! id = Memory.sessions (store w) !! id)
  ∧ (∀ s, s ∈ l → status s = completed →
          Memory.sessions (store w') !! uploadId s = None)
  ∧ (∀ id, Memory.sessions (store w) !! id = None →
           Memory.sessions (store w') !! id = None)
  ∧ ∃ calls,
      log w' = log w ++ calls
      ∧ Forall (λ c, ∀ s, c = DriverAbortUpload s → status s ≠ completed)
               calls.

(** The reading of the clock that the next [new Date()] of the store
    yields. *)
Definition now (w : World Memory.State D) : Z :=
  clock (Memory.clockReads (store w)).

(** The session that the next [getSession(uploadId)] yields. *)
Definition visibleSession (uploadId : string) (w : World Memory.State D)
  : option TorrinUploadSession :=
  match resultOf (Memory.getSession clock uploadId (store w)) with
  | Ok session => session
  | Throw _ => None
  end.

End WithDriver.

End System.

(** Concrete instances, for running the model. *)
Module Examples.

Definition clock (n : nat) : Z := 1000 + Z.of_nat n.

Definition generateUploadId (n : nat) : string :=
  ("u_" ++ Local.toString (Z.of_nat n))%string.

Definition service : Service.TorrinService :=
  Service.new_TorrinService (Service.mkOptions None None None).

Definition localOptions : Local.LocalStorageOptions :=
  Local.mkLocalOptions "uploads" None None.

Definition localDriver : Driver.TorrinStorageDriver Local.FS :=
  Local.createLocalStorageDriver localOptions.

(** An upload of 1,000,001 chunks of 256 KiB. *)
Definition bigSession : TorrinUploadSession :=
  {| uploadId := "u_big"; fileName := None;
     fileSize := 262144 * 1000001; mimeType := None;
     chunkSize := 262144; totalChunks := 1000001; metadata := None;
     status := in_progress; createdAt := 0; updatedAt := 0;
     expiresAt := None |}.

(** Its last two chunks, as [writeChunk] stages them. *)
Definition lastTwoChunks : list (Z * Driver.Readable) :=
  [(999999, [Byte.x41]); (1000000, [Byte.x42])].

Definition stagedLastTwo : Local.FS :=
  Local.mkFS
    {[ Local.getUploadTempDir localOptions "u_big" :=
         list_to_map
           ((λ c, (Local.chunkFileName c.1, c.2)) <$> lastTwoChunks) ]}
    ∅.

Definition start : Service.World Memory.State Local.FS :=
  Service.mkWorld Memory.empty Local.emptyFS [].

Definition serve :=
  System.serve (driverImpl := localDriver) clock generateUploadId service.

(** A store with one session that expires at 1000. *)
Definition expiringSession : TorrinUploadSession :=
  mkSession "u_1" None 10 None 10 1 None pending 0 0 (Some 1000).

Definition expiringStore : Memory.State :=
  Memory.mkState {["u_1" := Memory.mkStored expiringSession []]} 0 0.

(** A file of three chunks: 262144, 262144 and 75712 bytes. *)
Definition threeChunks : TorrinSessionInitInput :=
  mkInit (Some "video.bin") 600000 None None (Some 262144).

Definition zeroBytes (n : Z) : Driver.Readable :=
  replicate (Z.to_nat n) Byte.x00.

(** The upload is created, then chunk 2 arrives, then chunk 0. *)
Definition twoOfThree : Service.World Memory.State Local.FS :=
  foldl (λ w r, serve r w) start
    [System.InitUpload threeChunks;
     System.HandleChunk
       (Service.mkChunkInput "u_0" 2 75712 None (zeroBytes 75712));
     System.HandleChunk
       (Service.mkChunkInput "u_0" 0 262144 None (zeroBytes 262144))].

(** A service whose uploads live for 10 ms. *)
Definition shortLived : Service.TorrinService :=
  Service.new_TorrinService (Service.mkOptions None None (Some 10)).

Definition serveShortLived :=
  System.serve (driverImpl := localDriver) clock generateUploadId shortLived.

Definition fiveBytes : Driver.Readable :=
  [Byte.x01; Byte.x02; Byte.x03; Byte.x04; Byte.x05].

(** A five-byte upload is created, written, completed, and then polled
    until its time to live has passed. *)
Definition completedAndExpired : Service.World Memory.State Local.FS :=
  foldl (λ w r, serveShortLived r w) start
    [System.InitUpload (mkInit (Some "a.txt") 5 None None None);
     System.HandleChunk (Service.mkChunkInput "u_0" 0 5 None fiveBytes);
     System.CompleteUpload "u_0" None;
     System.GetStatus "u_0"; System.GetStatus "u_0"; System.GetStatus "u_0";
     System.GetStatus "u_0"; System.GetStatus "u_0"].

Definition initUpload :=
  System.initUpload (driverImpl := localDriver) clock generateUploadId
    service.
Definition handleChunk :=
  System.handleChunk (driverImpl := localDriver) clock generateUploadId.
Definition getStatus :=
  System.getStatus (D := Local.FS) clock generateUploadId.
Definition completeUpload :=
  System.completeUpload (driverImpl := localDriver) clock generateUploadId.
Definition cleanupExpiredUploads :=
  System.cleanupExpiredUploads (driverImpl := localDriver) clock
    generateUploadId.

(** What the store holds for that upload in the end. *)
Definition completedStored : Memory.StoredSession :=
  Memory.mkStored
    {| uploadId := "u_0"; fileName := Some "a.txt"; fileSize := 5;
       mimeType := None; chunkSize := 5; totalChunks := 1;
       metadata := None; status := completed; createdAt := 1000;
       updatedAt := 1005; expiresAt := Some 1010 |}
    [0].

End Examples.

(* ===================================================================== *)
(** * Double-precision division ([Math.ceil(fileSize / chunkSize)])       *)
(* ===================================================================== *)

Module Float64.

(** [Number.MAX_SAFE_INTEGER].  Up to this bound every integer is a
    double, and sums, differences and products of integers whose exact
    result stays within the bound are computed exactly: there [+], [-],
    [*], [%], [Math.min] and the comparisons on a JavaScript [number] are
    those of [Z].  The division is not exact; it is modelled here. *)
Definition MAX_SAFE_INTEGER : Z := 2 ^ 53 - 1.

(** [floor(log2(a / b))] for positive [a] and [b]. *)
Definition exponent (a b : Z) : Z :=
  let e := Z.log2 a - Z.log2 b in
  if a * 2 ^ Z.log2 b <? b * 2 ^ Z.log2 a then e - 1 else e.

(** The integer nearest to [n / d], for [d > 0]; of two integers at the
    same distance, the even one. *)
Definition nearestEven (n d : Z) : Z :=
  let q := n / d in
  let r := n mod d in
  if 2 * r <? d then q
  else if d <? 2 * r then q + 1
  else if Z.even q then q else q + 1.

(** The double nearest to [a / b], for positive [a] and [b] (IEEE 754
    binary64, round to nearest, ties to even): a multiple of [2^p], where
    [p] leaves 53 significant bits and is at least [-1074] (the
    subnormal numbers).  [None] is [Infinity]. *)
Definition roundQuotient (a b : Z) : option QArith_base.Q :=
  let p := Z.max (exponent a b - 52) (-1074) in
  if 0 <=? p
  then
    let m := nearestEven a (b * 2 ^ p) in
    if m * 2 ^ p <? 2 ^ 1024
    then Some (QArith_base.inject_Z (m * 2 ^ p))
    else None
  else
    Some (QArith_base.Qmake (nearestEven (a * 2 ^ (- p)) b)
                            (Z.to_pos (2 ^ (- p)))).

(** [a / b] on integer-valued doubles.  [None] is [NaN] or an infinity
    (a division by zero). *)
Definition divide (a b : Z) : option QArith_base.Q :=
  if b =? 0 then None
  else if a =? 0 then Some (QArith_base.inject_Z 0)
  else
    (if Z.sgn a =? Z.sgn b then id else QArith_base.Qopp)
      <$> roundQuotient (Z.abs a) (Z.abs b).

(** [Math.ceil(x)]. *)
Definition ceil (x : option QArith_base.Q) : option Z :=
  Qround.Qceiling <$> x.

(** [calculateTotalChunks] of utils.ts on integer-valued doubles:
    [Math.ceil(fileSize / chunkSize)] with the division rounded as the
    machine rounds it. *)
Definition calculateTotalChunks (fileSize chunkSize : Z) : option Z :=
  ceil (divide fileSize chunkSize).

(** An integer that is a double: at most 53 significant bits. *)
Definition representable (n : Z) : bool :=
  (n =? 0)
  || ((Z.abs n <? 2 ^ 1024)
      && (Z.abs n mod 2 ^ Z.max 0 (Z.log2 (Z.abs n) - 52) =? 0)).

End Float64.

(* ===================================================================== *)
(** * Paths of the local driver ([join] of node:path)                     *)
(* ===================================================================== *)

Module Paths.

(** The local driver builds its paths with [path.join], which joins
    with a slash (POSIX) and normalises the result: it drops empty and
    [.] segments and resolves [..].  [Local.join] is the concatenation
    with a slash: the two agree on a normalised path and one plain
    segment.  [Local.FS] keeps directories and regular files by their
    path strings: it describes the file system when different strings
    are different places, and when no file is written where a directory
    is or inside a directory that is removed.  What follows states
    these conditions. *)

Fixpoint noSlash (s : string) : bool :=
  match s with
  | EmptyString => true
  | String c s' => negb (Ascii.eqb c "/") && noSlash s'
  end.

(** A plain segment: a name that is not empty, is neither [.] nor [..],
    and holds no slash. *)
Definition segment (s : string) : bool :=
  negb (String.eqb s "") && negb (String.eqb s ".")
  && negb (String.eqb s "..") && noSlash s.

(** The pieces of a path between its slashes. *)
Fixpoint split (p : string) : list string :=
  match p with
  | EmptyString => [EmptyString]
  | String c p' =>
      if Ascii.eqb c "/" then EmptyString :: split p'
      else match split p' with
           | piece :: pieces => String c piece :: pieces
           | [] => [String c EmptyString]
           end
  end.

Definition absolute (p : string) : bool :=
  match p with
  | String c _ => Ascii.eqb c "/"
  | EmptyString => false
  end.

(** A normalised path: plain segments with one slash between them,
    after a leading slash when the path is absolute. *)
Definition normalized (p : string) : bool :=
  match split p with
  | EmptyString :: first :: rest => forallb segment (first :: rest)
  | segments => forallb segment segments
  end.

(** [path] is [dir] or lies inside it. *)
Definition under (dir path : string) : bool :=
  String.eqb path dir || String.prefix (dir ++ "/") path.

(** Nothing that [fs] holds lies inside the directory [dir], apart from
    the files that [fs] keeps in [dir] itself: no regular file and no
    other directory.  Then the removal of [dir] from [Local.dirs] is
    what [rm -r] does, and a [dir] that [Local.dirs] does not hold does
    not exist. *)
Definition selfContained (dir : string) (fs : Local.FS) : Prop :=
  (∀ path, is_Some (Local.files fs !! path) → under dir path = false)
  ∧ (∀ d, is_Some (Local.dirs fs !! d) → under dir d = true → d = dir).

Section WithOptions.

Context (options : Local.LocalStorageOptions).

(** The last segment of the final path of a session. *)
Definition finalName (session : TorrinUploadSession) : string :=
  match fileName session with
  | Some name =>
      if Local.preserveFileName options && negb (String.eqb name "")
      then name
      else (uploadId session ++ Local.getExtension name)%string
  | None => uploadId session
  end.

(** The paths of an upload are plain: the two directories of the
    driver are normalised and both absolute or both relative, the
    upload id and the name of the final file are plain segments, and
    the final path and the staging directory do not contain one
    another. *)
Definition plain (session : TorrinUploadSession) : bool :=
  let staging := Local.getUploadTempDir options (uploadId session) in
  let final := Local.getFinalPath options session in
  normalized (Local.baseDir options)
  && normalized (Local.tempDir options)
  && Bool.eqb (absolute (Local.baseDir options))
              (absolute (Local.tempDir options))
  && segment (uploadId session)
  && segment (finalName session)
  && negb (under staging final)
  && negb (under final staging).

End WithOptions.

End Paths.

(* ===================================================================== *)
(** * The client's chunker (client/chunker.ts, client/upload.ts)          *)
(* ===================================================================== *)

Module Chunker.

Record ChunkInfo : Type := mkChunkInfo {
  ci_index : Z;
  ci_start : Z;
  ci_end : Z;
  ci_size : Z
}.

(** The [while (start < fileSize)] loop of [calculateChunks], run for at
    most [fuel] iterations: [None] when the loop has not exited by
    then. *)
Fixpoint calculateChunks_loop (fuel : nat) (fileSize chunkSize : Z)
  (chunks : list ChunkInfo) (index start : Z) {struct fuel}
  : option (list ChunkInfo) :=
  if start <? fileSize
  then
    match fuel with
    | O => None
    | S fuel' =>
        let end_ := Z.min (start + chunkSize) fileSize in
        calculateChunks_loop fuel' fileSize chunkSize
          (chunks ++ [mkChunkInfo index start end_ (end_ - start)])
          (index + 1) end_
    end
  else Some chunks.

Definition calculateChunks (fuel : nat) (fileSize chunkSize : Z)
  : option (list ChunkInfo) :=
  calculateChunks_loop fuel fileSize chunkSize [] 0 0.

(** What a client uploads from: a [File] (a [Blob] with a name and a
    modification time), a [Blob], an [ArrayBuffer], a [Uint8Array]; and
    whatever else an untyped caller may pass. *)
Inductive Source : Type :=
| FileSource (name : string) (lastModified : Z) (bytes : list Byte.byte)
| BlobSource (bytes : list Byte.byte)
| ArrayBufferSource (bytes : list Byte.byte)
| Uint8ArraySource (bytes : list Byte.byte)
| OtherSource.

(** How [slice] and [subarray] read a bound: a negative one counts from
    the end, and both are clamped to the length. *)
Definition relativeIndex (len i : Z) : Z :=
  if i <? 0 then Z.max (len + i) 0 else Z.min i len.

(** [Blob.prototype.slice(start, end)], [ArrayBuffer.prototype.slice]
    and [Uint8Array.prototype.subarray] agree on the bytes they select. *)
Definition slice (bytes : list Byte.byte) (start end_ : Z)
  : list Byte.byte :=
  let len := Z.of_nat (length bytes) in
  let first := relativeIndex len start in
  let final := relativeIndex len end_ in
  take (Z.to_nat (Z.max (final - first) 0)) (drop (Z.to_nat first) bytes).

(** The bytes a supported source holds. *)
Definition contents (source : Source) : option (list Byte.byte) :=
  match source with
  | FileSource _ _ bytes | BlobSource bytes
  | ArrayBufferSource bytes | Uint8ArraySource bytes => Some bytes
  | OtherSource => None
  end.

(** [None] is the thrown [Error("Unsupported source type")]. *)
Definition getChunkBlob (source : Source) (chunkInfo : ChunkInfo)
  : option (list Byte.byte) :=
  match source with
  | FileSource _ _ bytes | BlobSource bytes
  | ArrayBufferSource bytes | Uint8ArraySource bytes =>
      Some (slice bytes (ci_start chunkInfo) (ci_end chunkInfo))
  | OtherSource => None
  end.

(** [`${name}-${fileSize}-${lastModified}`]. *)
Definition getFileKey (file : Source) (fileSize : Z)
  (fileName : option string) : string :=
  let name :=
    match file with
    | FileSource name _ _ => name
    | _ => default "blob" fileName
    end in
  let lastModified :=
    match file with
    | FileSource _ lastModified _ => lastModified
    | _ => 0
    end in
  (name ++ "-" ++ Local.toString fileSize ++ "-"
        ++ Local.toString lastModified)%string.

(** The two local functions of [createUploadImpl] (upload.ts) that
    compute with chunks; [_chunkSize] and [fileSize] are the closure
    variables they read. *)
Definition getChunkInfo (_chunkSize fileSize index : Z) : ChunkInfo :=
  let start := index * _chunkSize in
  let end_ := Z.min (start + _chunkSize) fileSize in
  mkChunkInfo index start end_ (end_ - start).

(** [totalSize % chunkSize || chunkSize] picks [chunkSize] when the
    remainder is [0]. *)
Definition calculateBytesUploaded (receivedChunks : list Z)
  (chunkSize totalSize : Z) : Z :=
  let lastChunkIndex := Core.calculateTotalChunks totalSize chunkSize - 1 in
  foldl (λ bytes index,
           if index =? lastChunkIndex
           then bytes + (if Z.rem totalSize chunkSize =? 0 then chunkSize
                         else Z.rem totalSize chunkSize)
           else bytes + chunkSize)
        0 receivedChunks.

(** The indices [uploadChunks] queues: those of [0 .. _totalChunks - 1]
    that [_receivedChunks] does not hold, in ascending order. *)
Definition pendingChunks (_totalChunks : Z) (_receivedChunks : list Z)
  : list Z :=
  filter (λ i, i ∉ _receivedChunks) (seqZ 0 _totalChunks).

End Chunker.

(* ===================================================================== *)
(** * The client's in-memory resume store (client/resume-stores.ts)       *)
(* ===================================================================== *)

Module ResumeStores.

Record TorrinUploadState : Type := mkUploadState {
  us_uploadId : string;
  us_fileName : option string;
  us_fileSize : Z;
  us_chunkSize : Z;
  us_totalChunks : Z;
  us_receivedChunks : list Z;
  us_metadata : option Metadata
}.

(** The closure of [createInMemoryResumeStore]: the two maps. *)
Record InMemory : Type := mkInMemory {
  uploads : gmap string TorrinUploadState;
  fileIndex : gmap string string
}.

Definition empty : InMemory := mkInMemory ∅ ∅.

Definition save (uploadId : string) (state : TorrinUploadState)
  (m : InMemory) : InMemory :=
  mkInMemory (<[uploadId := state]> (uploads m)) (fileIndex m).

(** [uploads.get(uploadId) ?? null]. *)
Definition load (uploadId : string) (m : InMemory)
  : option TorrinUploadState :=
  uploads m !! uploadId.

(** [uploads.delete(uploadId)], then every entry of [fileIndex] whose
    value is [uploadId] is deleted. *)
Definition remove (uploadId : string) (m : InMemory) : InMemory :=
  mkInMemory (delete uploadId (uploads m))
             (filter (λ entry, entry.2 ≠ uploadId) (fileIndex m)).

Definition saveFileKey (fileKey uploadId : string) (m : InMemory)
  : InMemory :=
  mkInMemory (uploads m) (<[fileKey := uploadId]> (fileIndex m)).

Definition removeFileKey (fileKey : string) (m : InMemory) : InMemory :=
  mkInMemory (uploads m) (delete fileKey (fileIndex m)).

(** [if (!uploadId) return null]: an empty id counts as none. *)
Definition findByFile (fileKey : string) (m : InMemory)
  : option TorrinUploadState :=
  match fileIndex m !! fileKey with
  | Some uploadId =>
      if String.eqb uploadId "" then None else uploads m !! uploadId
  | None => None
  end.

End ResumeStores.

(* ===================================================================== *)
(** * Time spent waiting between attempts (client/upload.ts)              *)
(* ===================================================================== *)

Module Backoff.

(** The milliseconds of the [setTimeout] sleeps among [events]. *)
Definition slept (events : list Client.Event) : Z :=
  Core.sumZ (omap (λ e, match e with
                        | Client.Sleep ms => Some ms
                        | Client.Attempt _ => None
                        end) events).

End Backoff.

(* ===================================================================== *)
(** * The S3 driver (storage-s3/src/index.ts)                             *)
(* ===================================================================== *)

Module S3.

(** The options the driver's own logic reads; [region], [endpoint],
    [credentials], [forcePathStyle] and [s3ClientConfig] only configure
    the client. *)
Record S3StorageOptions : Type := mkS3Options {
  opt_bucket : string;
  opt_keyPrefix : option string;
  opt_getObjectKey : option (TorrinUploadSession → string)
}.

Record CompletedPart : Type := mkPart {
  ETag : option string;
  PartNumber : Z
}.

(** [parts] is a JavaScript array: an entry is a part or a hole. *)
Record MultipartState : Type := mkMultipart {
  mp_uploadId : string;
  parts : list (option CompletedPart)
}.

(** The commands the driver sends, with the fields it sets. *)
Inductive Command : Type :=
| CreateMultipartUpload (Bucket Key : string) (ContentType : option string)
    (torrinUploadId torrinFileName : string)
| UploadPart (Bucket Key UploadId : string) (partNumber : Z)
    (Body : list Byte.byte) (ContentLength : Z)
| CompleteMultipartUpload (Bucket Key UploadId : string)
    (Parts : list CompletedPart)
| AbortMultipartUpload (Bucket Key UploadId : string).

(** The fields of a response that the driver reads. *)
Record Response : Type := mkS3Response {
  res_UploadId : option string;
  res_ETag : option string;
  res_Location : option string
}.

(** The closure of the driver ([multipartUploads]), the commands it has
    sent, and how many times it has read the clock. *)
Record State : Type := mkState {
  multipartUploads : gmap string MultipartState;
  sent : list Command;
  dateReads : nat
}.

Definition empty : State := mkState ∅ [] 0.

(** [array[index] = value]: an index past the end extends the array with
    holes; a negative index sets a property that is no element. *)
Definition arraySet {A : Type} (index : Z) (value : A)
  (array : list (option A)) : list (option A) :=
  if index <? 0 then array
  else if index <? Z.of_nat (length array)
  then <[Z.to_nat index := Some value]> array
  else array ++ replicate (Z.to_nat index - length array) None
             ++ [Some value].

(** [(a.PartNumber ?? 0) - (b.PartNumber ?? 0) <= 0]. *)
Definition byPartNumber (a b : CompletedPart) : Prop :=
  PartNumber a ≤ PartNumber b.

#[global] Instance byPartNumber_dec : RelDecision byPartNumber.
Proof. intros a b. unfold byPartNumber. apply _. Defined.

(** [parts.filter((p) => p !== undefined).sort(...)]. *)
Definition sortedParts (parts : list (option CompletedPart))
  : list CompletedPart :=
  merge_sort byPartNumber (omap id parts).

Section WithClient.

Context (options : S3StorageOptions).

(** [send n command] is what [client.send(command)] yields when [n]
    commands have been sent before; [date n] is the year and the month
    (0 to 11) of the [n]-th [new Date()]. *)
Context (send : nat → Command → Result Response).
Context (date : nat → Z * Z).

Definition bucket : string := opt_bucket options.
Definition keyPrefix : string := default "uploads/" (opt_keyPrefix options).

Definition clientSend (command : Command) : Run State Response :=
  λ st, (mkState (multipartUploads st) (sent st ++ [command])
                 (dateReads st),
         send (length (sent st)) command).

Definition newDate : Run State (Z * Z) :=
  λ st, (mkState (multipartUploads st) (sent st) (S (dateReads st)),
         Ok (date (dateReads st))).

Definition multipartUploads_get (uploadId : string)
  : Run State (option MultipartState) :=
  λ st, (st, Ok (multipartUploads st !! uploadId)).

Definition multipartUploads_set (uploadId : string)
  (state : MultipartState) : Run State unit :=
  λ st, (mkState (<[uploadId := state]> (multipartUploads st))
                 (sent st) (dateReads st), Ok tt).

Definition multipartUploads_delete (uploadId : string) : Run State unit :=
  λ st, (mkState (delete uploadId (multipartUploads st))
                 (sent st) (dateReads st), Ok tt).

(** [`${keyPrefix}${year}/${month}/${session.uploadId}${ext}`]. *)
Definition defaultKey (year month : Z) (session : TorrinUploadSession)
  : string :=
  let month := Local.padStart 2 (Local.toString (month + 1)) in
  let ext :=
    match fileName session with
    | Some name => Local.getExtension name
    | None => ""
    end in
  (keyPrefix ++ Local.toString year ++ "/" ++ month ++ "/"
             ++ uploadId session ++ ext)%string.

Definition buildObjectKey (session : TorrinUploadSession)
  : Run State string :=
  match opt_getObjectKey options with
  | Some getObjectKey => ret (getObjectKey session)
  | None =>
      let* d := newDate in
      ret (defaultKey d.1 d.2 session)
  end.

Definition storageError {A : Type} (error : Thrown) : Run State A :=
  throwError STORAGE_ERROR
    (CauseDetails match error with
                  | Untyped m => m
                  | Typed _ => "TorrinError"
                  end).

Definition noMultipartUpload {A : Type} : Run State A :=
  throwError STORAGE_ERROR NoDetails.

Definition initUpload (session : TorrinUploadSession) : Run State unit :=
  let* key := buildObjectKey session in
  tryCatch
    (let* response :=
       clientSend
         (CreateMultipartUpload bucket key (mimeType session)
            (uploadId session) (default "" (fileName session))) in
     match res_UploadId response with
     | Some id =>
         if String.eqb id ""
         then throw (Untyped "Failed to get S3 upload ID")
         else multipartUploads_set (uploadId session) (mkMultipart id [])
     | None => throw (Untyped "Failed to get S3 upload ID")
     end)
    storageError.

Definition writeChunk (session : TorrinUploadSession) (chunkIndex : Z)
  (stream : Driver.Readable) (expectedSize : Z) (_hash : option string)
  : Run State unit :=
  let* state := multipartUploads_get (uploadId session) in
  match state with
  | None => noMultipartUpload
  | Some state =>
      let* key := buildObjectKey session in
      let partNumber := chunkIndex + 1 in
      tryCatch
        (let body := stream in
         if negb (Z.of_nat (length body) =? expectedSize)
         then throwError CHUNK_SIZE_MISMATCH
                (SizeDetails expectedSize (Z.of_nat (length body)))
         else
           let* response :=
             clientSend
               (UploadPart bucket key (mp_uploadId state) partNumber
                  body expectedSize) in
           multipartUploads_set (uploadId session)
             (mkMultipart (mp_uploadId state)
                (arraySet chunkIndex
                   (mkPart (res_ETag response) partNumber)
                   (parts state))))
        (λ error,
           match error with
           | Typed e => throw (Typed e)
           | Untyped _ => storageError error
           end)
  end.

Definition finalizeUpload (session : TorrinUploadSession)
  : Run State TorrinStorageLocation :=
  let* state := multipartUploads_get (uploadId session) in
  match state with
  | None => noMultipartUpload
  | Some state =>
      let* key := buildObjectKey session in
      tryCatch
        (let* response :=
           clientSend
             (CompleteMultipartUpload bucket key (mp_uploadId state)
                (sortedParts (parts state))) in
         let* _ := multipartUploads_delete (uploadId session) in
         ret (S3Location bucket key (res_Location response)
                (res_ETag response)))
        storageError
  end.

Definition abortUpload (session : TorrinUploadSession) : Run State unit :=
  let* state := multipartUploads_get (uploadId session) in
  match state with
  | None => ret tt
  | Some state =>
      let* key := buildObjectKey session in
      tryCatch
        (let* _ :=
           clientSend
             (AbortMultipartUpload bucket key (mp_uploadId state)) in
         multipartUploads_delete (uploadId session))
        storageError
  end.

Definition createS3StorageDriver : Driver.TorrinStorageDriver State := {|
  Driver.initUpload := initUpload;
  Driver.writeChunk := writeChunk;
  Driver.finalizeUpload := finalizeUpload;
  Driver.abortUpload := abortUpload
|}.

(** The calls the service makes on a driver. *)
Inductive Call : Type :=
| InitUpload (session : TorrinUploadSession)
| WriteChunk (session : TorrinUploadSession) (chunkIndex : Z)
    (stream : Driver.Readable) (expectedSize : Z) (hash : option string)
| FinalizeUpload (session : TorrinUploadSession)
| AbortUpload (session : TorrinUploadSession).

Definition call (c : Call) (st : State) : State :=
  match c with
  | InitUpload session => stateOf (initUpload session st)
  | WriteChunk session chunkIndex stream expectedSize hash =>
      stateOf (writeChunk session chunkIndex stream expectedSize hash st)
  | FinalizeUpload session => stateOf (finalizeUpload session st)
  | AbortUpload session => stateOf (abortUpload session st)
  end.

(** The states of a driver that starts empty. *)
Inductive reachable : State → Prop :=
| reachable_empty : reachable empty
| reachable_call st c : reachable st → reachable (call c st).

(** Every part sits at the index of its chunk: its number is its index
    plus one. *)
Definition aligned (parts : list (option CompletedPart)) : Prop :=
  ∀ (i : nat) part,
    parts !! i = Some (Some part) → PartNumber part = Z.of_nat i + 1.

End WithClient.

End S3.

(* ===================================================================== *)
(** * JavaScript built-ins of the HTTP surface                            *)
(* ===================================================================== *)

Module Js.

(** The white space [parseInt] skips, among the characters below 256. *)
Definition isWhiteSpace (c : ascii) : bool :=
  let n := N_of_ascii c in
  ((9 <=? n) && (n <=? 13) || (n =? 32) || (n =? 160))%N.

Fixpoint trimStart (s : string) : string :=
  match s with
  | String c s' => if isWhiteSpace c then trimStart s' else s
  | EmptyString => EmptyString
  end.

Definition digitValue (c : ascii) : option Z :=
  let n := Z.of_N (N_of_ascii c) in
  if (48 <=? n) && (n <=? 57) then Some (n - 48) else None.

(** The value of the longest prefix of decimal digits of [s], read after
    the digits that made [acc]; [acc = None]: no digit read so far. *)
Fixpoint readDigits (s : string) (acc : option Z) : option Z :=
  match s with
  | String c s' =>
      match digitValue c with
      | Some d => readDigits s' (Some (10 * default 0 acc + d))
      | None => acc
      end
  | EmptyString => acc
  end.

(** Every character of [s] is a decimal digit. *)
Fixpoint allDigits (s : string) : bool :=
  match s with
  | String c s' => bool_decide (is_Some (digitValue c)) && allDigits s'
  | EmptyString => true
  end.

(** [parseInt(s, 10)]: skip white space, read a sign, read decimal
    digits up to the first other character; [None] is [NaN] (no digit).
    [-0] is [0]. *)
Definition parseInt (s : string) : option Z :=
  match trimStart s with
  | String c s' =>
      if Ascii.eqb c "-" then Z.opp <$> readDigits s' None
      else if Ascii.eqb c "+" then readDigits s' None
      else readDigits (String c s') None
  | EmptyString => None
  end.

End Js.

(* ===================================================================== *)
(** * What travels between the client and the router                      *)
(* ===================================================================== *)

Module Http.

(** A [PUT /:uploadId/chunks/:index] request: the two path parameters,
    the two headers the handler reads, and the body. *)
Record ChunkRequest : Type := mkChunkRequest {
  params_uploadId : string;
  params_index : string;
  content_length : option string;
  chunk_hash : option string;
  req_body : Driver.Readable
}.

Record InitUploadResponse : Type := mkInitResponse {
  ir_uploadId : string;
  ir_fileName : option string;
  ir_fileSize : Z;
  ir_mimeType : option string;
  ir_chunkSize : Z;
  ir_totalChunks : Z;
  ir_metadata : option Metadata;
  ir_status : UploadStatus
}.

(** The JSON bodies of the responses, as the values they encode. *)
Inductive Body : Type :=
| InitBody (session : InitUploadResponse)
| ChunkBody (uploadId : string) (receivedIndex : Z) (status : UploadStatus)
| StatusBody (status : TorrinUploadStatus)
| CompleteBody (result : TorrinCompleteResult)
| ErrorBody (code : TorrinErrorCode) (details : ErrorDetails)
| EmptyBody.

Record Response : Type := mkResponse {
  res_status : Z;
  res_body : Body
}.

(** [response.ok]. *)
Definition ok (response : Response) : bool :=
  (200 <=? res_status response) && (res_status response <=? 299).

(** What is left of the [details] of an error between
    [res.json(err.toJSON())] and [response.json()], that is, after
    [JSON.stringify] and [JSON.parse].  Numbers and arrays of numbers
    arrive as they are, and [undefined] is left out.  A cause is the
    [Error] that a driver caught: [JSON.stringify] keeps its own
    enumerable properties and nothing else (none for a plain [Error],
    whose [message] and [stack] are not enumerable; the result of
    [toJSON()] for a [TorrinError]), so what arrives is an object that
    is not the error; [JsonCause] stands for it. *)
Inductive JsonDetails : Type :=
| JsonNone
| JsonSize (expected actual : Z)
| JsonIndex (index total : Z)
| JsonMissing (missingChunks : list Z)
| JsonCause.

Definition toJSON (details : ErrorDetails) : JsonDetails :=
  match details with
  | NoDetails => JsonNone
  | SizeDetails expected actual => JsonSize expected actual
  | IndexDetails index total => JsonIndex index total
  | MissingDetails missingChunks => JsonMissing missingChunks
  | CauseDetails _ => JsonCause
  end.

End Http.

(* ===================================================================== *)
(** * The Express router (server-express/src/index.ts)                    *)
(* ===================================================================== *)

Module Express.

Import Http.

(** [handleError(err, res)]: the response it sends. *)
Definition handleError (err : Thrown) : Response :=
  match err with
  | Typed e =>
      mkResponse (errorCodeToStatusCode (code e))
                 (ErrorBody (code e) (details e))
  | Untyped _ => mkResponse 500 (ErrorBody INTERNAL_ERROR NoDetails)
  end.

Section WithStoreAndDriver.

Context {S D : Type}.
Context {storeImpl : Store.TorrinUploadStore S}.
Context {driverImpl : Driver.TorrinStorageDriver D}.

(** An [onBefore...] callback: it returns the response it has sent
    ([res.headersSent]) or [None]; it may throw (then it has sent
    nothing). *)
Definition Hook : Type := Run (Service.World S D) (option Response).

Record TorrinExpressOptions : Type := mkExpressOptions {
  onBeforeInit : option Hook;
  onBeforeChunk : option Hook;
  onBeforeComplete : option Hook;
  onBeforeStatus : option Hook
}.

Context (service : Service.TorrinService).
Context (options : TorrinExpressOptions).

(** [if (hook) { await hook(req, res); if (res.headersSent) return; }]
    in front of the rest of a handler. *)
Definition afterHook (hook : option Hook)
  (rest : Run (Service.World S D) Response)
  : Run (Service.World S D) Response :=
  match hook with
  | Some hook =>
      let* sent := hook in
      match sent with
      | Some response => ret response
      | None => rest
      end
  | None => rest
  end.

(** [router.post("/")]. *)
Definition postInit (input : TorrinSessionInitInput)
  : Run (Service.World S D) Response :=
  tryCatch
    (afterHook (onBeforeInit options)
       (let* session := Service.initUpload service input in
        ret (mkResponse 201
               (InitBody
                  {| ir_uploadId := session_uploadId session;
                     ir_fileName := fileName session;
                     ir_fileSize := fileSize session;
                     ir_mimeType := mimeType session;
                     ir_chunkSize := chunkSize session;
                     ir_totalChunks := totalChunks session;
                     ir_metadata := metadata session;
                     ir_status := status session |}))))
    (λ err, ret (handleError err)).

(** [router.put("/:uploadId/chunks/:index")].  A [Content-Length] that
    is not a number makes [size] [NaN], which passes [size <= 0] and
    reaches [handleChunk]; the integer model does not cover that call:
    the result is [None] then. *)
Definition putChunk (req : ChunkRequest)
  : Run (Service.World S D) (option Response) :=
  tryCatch
    (let* sent :=
       match onBeforeChunk options with
       | Some hook => hook
       | None => ret None
       end in
     match sent with
     | Some response => ret (Some response)
     | None =>
         let uploadId := params_uploadId req in
         let index := Js.parseInt (params_index req) in
         let size := Js.parseInt (default "0" (content_length req)) in
         let hash := chunk_hash req in
         match index with
         | None => throwError INVALID_REQUEST NoDetails
         | Some index =>
             match size with
             | None => ret None
             | Some size =>
                 if size <=? 0
                 then throwError INVALID_REQUEST NoDetails
                 else
                   let* _ :=
                     Service.handleChunk
                       (Service.mkChunkInput uploadId index size hash
                          (req_body req)) in
                   ret (Some (mkResponse 200
                                (ChunkBody uploadId index in_progress)))
             end
         end
     end)
    (λ err, ret (Some (handleError err))).

(** [router.get("/:uploadId/status")]. *)
Definition getStatus (uploadId : string)
  : Run (Service.World S D) Response :=
  tryCatch
    (afterHook (onBeforeStatus options)
       (let* status := Service.getStatus uploadId in
        ret (mkResponse 200 (StatusBody status))))
    (λ err, ret (handleError err)).

(** [router.post("/:uploadId/complete")]. *)
Definition postComplete (uploadId : string) (hash : option string)
  : Run (Service.World S D) Response :=
  tryCatch
    (afterHook (onBeforeComplete options)
       (let* result := Service.completeUpload uploadId hash in
        ret (mkResponse 200 (CompleteBody result))))
    (λ err, ret (handleError err)).

(** [router.delete("/:uploadId")]. *)
Definition deleteUpload (uploadId : string)
  : Run (Service.World S D) Response :=
  tryCatch
    (let* _ := Service.abortUpload uploadId in
     ret (mkResponse 204 EmptyBody))
    (λ err, ret (handleError err)).

End WithStoreAndDriver.

Arguments TorrinExpressOptions : clear implicits.

(** A router without callbacks. *)
Definition noHooks {S D : Type} : TorrinExpressOptions S D :=
  mkExpressOptions None None None None.

End Express.

(* ===================================================================== *)
(** * The client's HTTP calls (client/http.ts)                            *)
(* ===================================================================== *)

Module HttpClient.

Import Http.

(** The request [uploadChunk(uploadId, index, chunk, hash)] sends:
    [`${endpoint}/${uploadId}/chunks/${index}`], with
    ["Content-Length": body.size.toString()] and, [if (hash)], the hash
    header. *)
Definition uploadChunkRequest (uploadId : string) (index : Z)
  (chunk : Driver.Readable) (hash : option string) : ChunkRequest :=
  {| params_uploadId := uploadId;
     params_index := Local.toString index;
     content_length := Some (Local.toString (Z.of_nat (length chunk)));
     chunk_hash :=
       match hash with
       | Some h => if String.eqb h "" then None else Some h
       | None => None
       end;
     req_body := chunk |}.

(** The [TorrinError] that the client builds from a response:
    [new TorrinError(code, message, errorData?.error?.details)], with the
    details as they were parsed from the body. *)
Record ClientError : Type := mkClientError {
  ce_code : TorrinErrorCode;
  ce_details : JsonDetails
}.

(** How a call of the client ends. *)
Inductive Outcome (A : Type) : Type :=
| Resolved (a : A)
| Rejected (error : ClientError).
Arguments Resolved {A} a.
Arguments Rejected {A} error.

(** [handleResponse(response)]: the body, or the [TorrinError] thrown
    for a response that is not [ok], with
    [errorData?.error?.code ?? "NETWORK_ERROR"] and the details that
    [response.json()] has parsed. *)
Definition handleResponse (response : Response) : Outcome Body :=
  if ok response then Resolved (res_body response)
  else
    match res_body response with
    | ErrorBody code details =>
        Rejected (mkClientError code (toJSON details))
    | _ => Rejected (mkClientError NETWORK_ERROR JsonNone)
    end.

(** [abort(uploadId)], on the response to its [DELETE]. *)
Definition abort (response : Response) : Outcome unit :=
  if negb (ok response) && negb (res_status response =? 404)
  then match handleResponse response with
       | Resolved _ => Resolved tt
       | Rejected error => Rejected error
       end
  else Resolved tt.

End HttpClient.

(* ===================================================================== *)
(** * The life of an upload on the in-memory store                        *)
(* ===================================================================== *)

Module Lifecycle.

Import Service.

(** Sessions that agree on everything but [status] and [updatedAt]. *)
Definition sameRecord (s s' : TorrinUploadSession) : Prop :=
  uploadId s' = uploadId s ∧ fileName s' = fileName s
  ∧ fileSize s' = fileSize s ∧ mimeType s' = mimeType s
  ∧ chunkSize s' = chunkSize s ∧ totalChunks s' = totalChunks s
  ∧ metadata s' = metadata s ∧ createdAt s' = createdAt s
  ∧ expiresAt s' = expiresAt s.

(** [age > maxAgeMs && session.status !== "completed"], with
    [age = now - session.updatedAt.getTime()]. *)
Definition isStale (maxAgeMs now : Z) (session : TorrinUploadSession)
  : bool :=
  (now - updatedAt session >? maxAgeMs)
  && negb (bool_decide (status session = completed)).

Section WithService.

Context (this : TorrinService).

(** The expiry of a session created at [createdAt]. *)
Definition expiryFrom (createdAt : Z) : option Z :=
  if uploadTtlMs this =? 0 then None
  else Some (createdAt + uploadTtlMs this).

(** [totalChunks] is what [calculateTotalChunks] returns, for a file
    size that JavaScript holds exactly. *)
Definition counted (s : TorrinUploadSession) : Prop :=
  fileSize s ≤ Float64.MAX_SAFE_INTEGER →
  Float64.calculateTotalChunks (fileSize s) (chunkSize s)
  = Some (totalChunks s).

(** A session as [initUpload] stores it. *)
Definition fresh (s : TorrinUploadSession) : Prop :=
  status s = pending
  ∧ 0 < fileSize s
  ∧ (∃ desired, chunkSize s = Core.normalizeChunkSize desired (fileSize s))
  ∧ counted s
  ∧ expiresAt s = expiryFrom (createdAt s).

(** What holds of a stored upload at any moment.  A [pending] upload
    may hold chunks: [handleChunk] marks the chunk before it updates
    the status. *)
Definition sound (stored : Memory.StoredSession) : Prop :=
  let s := Memory.session stored in
  let received := Memory.receivedChunks stored in
  status s ≠ failed
  ∧ 0 < fileSize s
  ∧ 1 ≤ chunkSize s ≤ MAX_CHUNK_SIZE
  ∧ chunkSize s ≤ fileSize s
  ∧ counted s
  ∧ expiresAt s = expiryFrom (createdAt s)
  ∧ (status s = in_progress → received ≠ [])
  ∧ (status s = completed →
     ∀ i, 0 ≤ i < totalChunks s → i ∈ received).

Context (generateUploadId : nat → string).

(** One call of a store method, as the service makes it.  [move_read]
    is a call that reads ([getSession], [listReceivedChunks], the two
    listings) or throws; [move_create] is [createSession] under an id
    that [generateUploadId] returns now; [move_chunk] is
    [markChunkReceived]; [move_progress], [move_complete] and
    [move_cancel] are the three [updateSession] calls of the service;
    [move_delete] is [deleteSession].  The count of the readings of
    the clock is left open. *)
Inductive move (m m' : Memory.State) : Prop :=
| move_read :
    Memory.sessions m' = Memory.sessions m →
    Memory.idReads m' = Memory.idReads m →
    move m m'
| move_create s :
    fresh s →
    uploadId s = generateUploadId (Memory.idReads m) →
    Memory.sessions m !! uploadId s = None →
    Memory.sessions m'
    = <[uploadId s := Memory.mkStored s []]> (Memory.sessions m) →
    Memory.idReads m' = S (Memory.idReads m) →
    move m m'
| move_chunk id stored s' i :
    Memory.sessions m !! id = Some stored →
    0 ≤ i < totalChunks (Memory.session stored) →
    sameRecord (Memory.session stored) s' →
    status s' = status (Memory.session stored) →
    Memory.sessions m'
    = <[id := Memory.mkStored s'
                (Memory.Set_add i (Memory.receivedChunks stored))]>
        (Memory.sessions m) →
    Memory.idReads m' = Memory.idReads m →
    move m m'
| move_progress id stored s' :
    Memory.sessions m !! id = Some stored →
    Memory.receivedChunks stored ≠ [] →
    sameRecord (Memory.session stored) s' →
    status s' = in_progress →
    Memory.sessions m'
    = <[id := Memory.mkStored s' (Memory.receivedChunks stored)]>
        (Memory.sessions m) →
    Memory.idReads m' = Memory.idReads m →
    move m m'
| move_complete id stored s' :
    Memory.sessions m !! id = Some stored →
    (∀ i, 0 ≤ i < totalChunks (Memory.session stored) →
          i ∈ Memory.receivedChunks stored) →
    sameRecord (Memory.session stored) s' →
    status s' = completed →
    Memory.sessions m'
    = <[id := Memory.mkStored s' (Memory.receivedChunks stored)]>
        (Memory.sessions m) →
    Memory.idReads m' = Memory.idReads m →
    move m m'
| move_cancel id stored s' :
    Memory.sessions m !! id = Some stored →
    sameRecord (Memory.session stored) s' →
    status s' = canceled →
    Memory.sessions m'
    = <[id := Memory.mkStored s' (Memory.receivedChunks stored)]>
        (Memory.sessions m) →
    Memory.idReads m' = Memory.idReads m →
    move m m'
| move_delete id :
    Memory.sessions m' = delete id (Memory.sessions m) →
    Memory.idReads m' = Memory.idReads m →
    move m m'.

(** The log of the calls of a request on a store that it found as
    [m] (for each call, the state it found and the state it left)
    shows moves of the others only: from [m] to what the first call
    found, and from what each call left to what the next one found. *)
Fixpoint relied (m : Memory.State)
  (steps : list (Memory.State * Memory.State)) : Prop :=
  match steps with
  | [] => True
  | step :: steps' => rtc move m step.1 ∧ relied step.2 steps'
  end.

(** Every id in the store is one that [generateUploadId] has
    returned. *)
Definition issued (m : Memory.State) : Prop :=
  ∀ id, is_Some (Memory.sessions m !! id) →
        ∃ k, (k < Memory.idReads m)%nat ∧ id = generateUploadId k.

Definition soundStore (m : Memory.State) : Prop :=
  issued m
  ∧ ∀ id stored, Memory.sessions m !! id = Some stored → sound stored.

End WithService.

End Lifecycle.

(* ===================================================================== *)
(** * One request among others                                            *)
(* ===================================================================== *)

Module Interleaved.

Import Service.

(** The in-memory store as one request sees it while others are served.
    No method of memory-store.ts contains an [await], so each runs in
    one piece; the service awaits every call it makes on the store and
    on the driver, and other requests run at each [await].  [memory] is
    the store as this request left it at its last call, [calls] the
    number of calls it has made on the store, and [writes] the state
    each of these calls found and the state it left. *)
Record State : Type := mkState {
  memory : Memory.State;
  calls : nat;
  writes : list (Memory.State * Memory.State)
}.

Section WithOthers.

Context {D : Type} {driverImpl : Driver.TorrinStorageDriver D}.
Context (clock : nat → Z) (generateUploadId : nat → string).
Context (this : TorrinService).

(** [others k m] is what the other requests have made of the store
    when this request makes call [k], having left it as [m] at call
    [k - 1] (for [k = 0]: having found it as [m] when it started). *)
Context (others : nat → Memory.State → Memory.State).

Definition atomically {A : Type} (op : Run Memory.State A)
  : Run State A :=
  λ st,
    let found := others (calls st) (memory st) in
    let '(after, result) := op found in
    (mkState after (S (calls st)) (writes st ++ [(found, after)]),
     result).

#[local] Instance interleavedStore : Store.TorrinUploadStore State := {|
  Store.createSession init chunkSize ttlMs :=
    atomically
      (Memory.createSession clock generateUploadId init chunkSize ttlMs);
  Store.getSession uploadId :=
    atomically (Memory.getSession clock uploadId);
  Store.updateSession uploadId patch :=
    atomically (Memory.updateSession clock uploadId patch);
  Store.markChunkReceived uploadId chunkIndex :=
    atomically (Memory.markChunkReceived clock uploadId chunkIndex);
  Store.listReceivedChunks uploadId :=
    atomically (Memory.listReceivedChunks uploadId);
  Store.deleteSession uploadId :=
    atomically (Memory.deleteSession uploadId);
  Store.listExpiredSessions :=
    Some (atomically (Memory.listExpiredSessions clock));
  Store.listAllSessions := Some (atomically Memory.listAllSessions)
|}.

(** The state after the request has been served, the other requests
    writing to the store in between. *)
Definition serve (r : System.Request) (w : World State D)
  : World State D :=
  match r with
  | System.InitUpload input => stateOf (Service.initUpload this input w)
  | System.HandleChunk input => stateOf (Service.handleChunk input w)
  | System.GetStatus uploadId => stateOf (Service.getStatus uploadId w)
  | System.CompleteUpload uploadId hash =>
      stateOf (Service.completeUpload uploadId hash w)
  | System.AbortUpload uploadId =>
      stateOf (Service.abortUpload uploadId w)
  | System.CleanupExpiredUploads =>
      stateOf (Service.cleanupExpiredUploads w)
  | System.CleanupStaleUploads maxAgeMs now =>
      stateOf (Service.cleanupStaleUploads maxAgeMs now w)
  end.

End WithOthers.

End Interleaved.

(* ===================================================================== *)
(** * A whole upload: the client against the service                      *)
(* ===================================================================== *)

Module Transfer.

Section WithDeployment.

(** A service on the in-memory store and the local driver. *)
Context (options : Local.LocalStorageOptions).
Context (clock : nat → Z) (generateUploadId : nat → string).
Context (this : Service.TorrinService).

Definition driver : Driver.TorrinStorageDriver Local.FS :=
  Local.createLocalStorageDriver options.

(** What reaches [handleChunk] when [uploadChunkWithRetry] sends chunk
    [index] of [bytes]: the blob [getChunkBlob] cuts at [getChunkInfo],
    with its size as [Content-Length]. *)
Definition chunkInput (bytes : list Byte.byte) (_chunkSize : Z)
  (_uploadId : string) (index : Z) : Service.HandleChunkInput :=
  let chunkInfo :=
    Chunker.getChunkInfo _chunkSize (Z.of_nat (length bytes)) index in
  let chunkBlob :=
    Chunker.slice bytes (Chunker.ci_start chunkInfo)
      (Chunker.ci_end chunkInfo) in
  Service.mkChunkInput _uploadId index (Z.of_nat (length chunkBlob))
    None chunkBlob.

(** The requests of one upload of [bytes], served one after the
    other, each to its end before the next: [initUpload]; one
    [handleChunk] per chunk with the [chunkSize] of the response, in
    the order [arrival]; [completeUpload].  The first request that
    fails ends the run with its error.  (This is a sequence of calls of
    the service, not the client's [start()], which also looks for an
    upload to resume, retries, and keeps several requests in
    flight.) *)
Definition upload (fileName mimeType : option string)
  (metadata : option Metadata) (desiredChunkSize : option Z)
  (bytes : list Byte.byte) (arrival : list Z)
  : Run (Service.World Memory.State Local.FS) TorrinCompleteResult :=
  let* response :=
    System.initUpload (driverImpl := driver) clock generateUploadId this
      (mkInit fileName (Z.of_nat (length bytes)) mimeType metadata
         desiredChunkSize) in
  let* _ :=
    Service.forOf arrival
      (λ index (_ : unit),
         System.handleChunk (driverImpl := driver) clock generateUploadId
           (chunkInput bytes (chunkSize response)
              (session_uploadId response) index))
      tt in
  System.completeUpload (driverImpl := driver) clock generateUploadId
    (session_uploadId response) None.

End WithDeployment.

End Transfer.

(* ===================================================================== *)
(** * More runs of the service                                            *)
(* ===================================================================== *)

Module Scenarios.

Definition memoryStore : Store.TorrinUploadStore Memory.State :=
  Memory.createInMemoryStore Examples.clock Examples.generateUploadId.

(** A five-byte upload [u_0] has been created. *)
Definition created : Service.World Memory.State Local.FS :=
  Examples.serve
    (System.InitUpload (mkInit (Some "a.txt") 5 None None None))
    Examples.start.

(** Its only chunk has arrived. *)
Definition uploaded : Service.World Memory.State Local.FS :=
  Examples.serve
    (System.HandleChunk
       (Service.mkChunkInput "u_0" 0 5 None Examples.fiveBytes))
    created.

(** It has been completed. *)
Definition finished : Service.World Memory.State Local.FS :=
  Examples.serve (System.CompleteUpload "u_0" None) uploaded.

(** It has been aborted instead. *)
Definition aborted : Service.World Memory.State Local.FS :=
  Examples.serve (System.AbortUpload "u_0") uploaded.

(** A service whose uploads never expire. *)
Definition noExpiry : Service.TorrinService :=
  Service.new_TorrinService (Service.mkOptions None None (Some 0)).

(** The upload [u_0] as the store holds it in [uploaded]. *)
Definition uploadedStored : Memory.StoredSession :=
  Memory.mkStored
    {| uploadId := "u_0"; fileName := Some "a.txt"; fileSize := 5;
       mimeType := None; chunkSize := 5; totalChunks := 1;
       metadata := None; status := in_progress; createdAt := 1000;
       updatedAt := 1003;
       expiresAt := Some (1000 + DEFAULT_UPLOAD_TTL_MS) |}
    [0].

(** The same upload as the store holds it in [finished]. *)
Definition finishedStored : Memory.StoredSession :=
  Memory.mkStored
    {| uploadId := "u_0"; fileName := Some "a.txt"; fileSize := 5;
       mimeType := None; chunkSize := 5; totalChunks := 1;
       metadata := None; status := completed; createdAt := 1000;
       updatedAt := 1005;
       expiresAt := Some (1000 + DEFAULT_UPLOAD_TTL_MS) |}
    [0].

(** The staging directory of [u_1] holds a good copy of chunk 0. *)
Definition stagedChunk : Local.FS :=
  Local.mkFS
    {[ Local.getUploadTempDir Examples.localOptions "u_1" :=
         {[ Local.chunkFileName 0 := Examples.fiveBytes ]} ]}
    ∅.

(** Three bytes in two chunks. *)
Definition twoChunks (i : Z) : list Byte.byte :=
  if i =? 0 then [Byte.x01; Byte.x02] else [Byte.x03].

(** An S3 driver with the default keys, a client that always answers,
    and a clock that passes from December 2025 to January 2026 after
    its third reading. *)
Definition s3Options : S3.S3StorageOptions :=
  S3.mkS3Options "bucket" None None.

Definition s3Send (n : nat) (command : S3.Command) : Result S3.Response :=
  Ok (S3.mkS3Response (Some "mp-1") (Some "etag") None).

Definition s3Date (n : nat) : Z * Z :=
  if (n <? 3)%nat then (2025, 11) else (2026, 0).

Definition s3Session : TorrinUploadSession :=
  mkSession "u_2" (Some "a.txt") 3 None 2 2 None in_progress 0 0 None.

(** The multipart upload of [u_2] is initiated, then chunk 1 arrives,
    then chunk 0. *)
Definition s3Uploaded : S3.State :=
  foldl (λ st c, S3.call s3Options s3Send s3Date c st) S3.empty
    [S3.InitUpload s3Session;
     S3.WriteChunk s3Session 1 (twoChunks 1) 1 None;
     S3.WriteChunk s3Session 0 (twoChunks 0) 2 None].

(** No other request writes to the store. *)
Definition alone (k : nat) (m : Memory.State) : Memory.State := m.

(** The five-byte upload [u_0] has been created; a request is about to
    start. *)
Definition racing : Service.World Interleaved.State Local.FS :=
  let w :=
    Interleaved.serve (driverImpl := Examples.localDriver) Examples.clock
      Examples.generateUploadId Examples.service alone
      (System.InitUpload (mkInit (Some "a.txt") 5 None None None))
      (Service.mkWorld (Interleaved.mkState Memory.empty 0 [])
         Local.emptyFS []) in
  Service.mkWorld
    (Interleaved.mkState (Interleaved.memory (Service.store w)) 0 [])
    (Service.storage w) [].

(** Another request aborts [u_0]: its [updateSession] runs between the
    first and the second call of this request on the store. *)
Definition abortedMeanwhile (k : nat) (m : Memory.State) : Memory.State :=
  if (k =? 1)%nat
  then stateOf (Memory.updateSession Examples.clock "u_0"
                  (statusPatch canceled) m)
  else m.

(** [handleChunk] stores the only chunk of [u_0] in the meantime: it
    reads the upload as [pending], the upload is canceled, and
    [handleChunk] marks the chunk and sets the upload to
    [in_progress]. *)
Definition raced : Service.World Interleaved.State Local.FS :=
  Interleaved.serve (driverImpl := Examples.localDriver) Examples.clock
    Examples.generateUploadId Examples.service abortedMeanwhile
    (System.HandleChunk
       (Service.mkChunkInput "u_0" 0 5 None Examples.fiveBytes))
    racing.

End Scenarios.

(* ===================================================================== *)
(** * Properties                                                          *)
(* ===================================================================== *)

(** ** Chunk arithmetic *)

Section ChunkArithmetic.

Import Core.

Lemma calculateTotalChunks_pos (fileSize chunkSize : Z) :
  0 < chunkSize →
  calculateTotalChunks fileSize chunkSize = - ((- fileSize) / chunkSize).
Proof.
  intros Hc. unfold calculateTotalChunks, Qround.Qceiling, Qround.Qfloor.
  destruct chunkSize as [|p|p]; try lia.
  cbn. rewrite Z.mul_1_r. reflexivity.
Qed.

(** The result is the ceiling of the quotient: the least [n] with
    [fileSize ≤ n * chunkSize]. *)
Lemma calculateTotalChunks_ceiling (fileSize chunkSize : Z) :
  0 < chunkSize →
  let n := calculateTotalChunks fileSize chunkSize in
  (n - 1) * chunkSize < fileSize ≤ n * chunkSize.
Proof.
  intros Hc. rewrite calculateTotalChunks_pos by done. cbn zeta.
  pose proof (Z.div_mod (- fileSize) chunkSize ltac:(lia)) as Hdm.
  pose proof (Z.mod_pos_bound (- fileSize) chunkSize Hc) as Hb.
  nia.
Qed.

Lemma calculateTotalChunks_ge_1 (fileSize chunkSize : Z) :
  0 < fileSize → 0 < chunkSize →
  1 ≤ calculateTotalChunks fileSize chunkSize.
Proof.
  intros Hf Hc.
  pose proof (calculateTotalChunks_ceiling fileSize chunkSize Hc) as H.
  cbn zeta in H. nia.
Qed.

Lemma getExpectedChunkSize_inner (i totalChunks fileSize chunkSize : Z) :
  0 ≤ i < totalChunks - 1 →
  getExpectedChunkSize i totalChunks fileSize chunkSize = Some chunkSize.
Proof.
  intros Hi. unfold getExpectedChunkSize.
  destruct (Z.ltb_spec i 0); [lia|].
  destruct (Z.geb_spec i totalChunks); [lia|]. cbn.
  destruct (Z.eqb_spec i (totalChunks - 1)); [lia|done].
Qed.

Lemma getExpectedChunkSize_last (totalChunks fileSize chunkSize : Z) :
  1 ≤ totalChunks →
  getExpectedChunkSize (totalChunks - 1) totalChunks fileSize chunkSize =
  Some (if Z.rem fileSize chunkSize =? 0 then chunkSize
        else Z.rem fileSize chunkSize).
Proof.
  intros Ht. unfold getExpectedChunkSize.
  destruct (Z.ltb_spec (totalChunks - 1) 0); [lia|].
  destruct (Z.geb_spec (totalChunks - 1) totalChunks); [lia|]. cbn.
  by rewrite Z.eqb_refl.
Qed.

Lemma getExpectedChunkSize_in_range (i totalChunks fileSize chunkSize : Z) :
  0 ≤ i < totalChunks →
  is_Some (getExpectedChunkSize i totalChunks fileSize chunkSize).
Proof.
  intros Hi. unfold getExpectedChunkSize.
  destruct (Z.ltb_spec i 0); [lia|].
  destruct (Z.geb_spec i totalChunks); [lia|]. cbn.
  destruct (i =? totalChunks - 1); eauto.
Qed.

Lemma getExpectedChunkSize_out_of_range (i totalChunks fileSize chunkSize : Z) :
  ¬ (0 ≤ i < totalChunks) →
  getExpectedChunkSize i totalChunks fileSize chunkSize = None.
Proof.
  intros Hi. unfold getExpectedChunkSize.
  destruct (Z.ltb_spec i 0); [done|].
  destruct (Z.geb_spec i totalChunks); [done|lia].
Qed.

Lemma sumZ_app (l1 l2 : list Z) : sumZ (l1 ++ l2) = sumZ l1 + sumZ l2.
Proof. unfold sumZ. induction l1 as [|x l1 IH]; cbn; lia. Qed.

Lemma sumZ_constant_nat (g : Z → Z) (c : Z) (k : nat) :
  (∀ i, 0 ≤ i < Z.of_nat k → g i = c) →
  sumZ (g <$> seqZ 0 (Z.of_nat k)) = Z.of_nat k * c.
Proof.
  induction k as [|k IH]; intros Hg; [done|].
  rewrite seqZ_S, fmap_app, sumZ_app, IH by (intros; apply Hg; lia).
  cbn. rewrite Hg by lia. lia.
Qed.

Lemma sumZ_constant (g : Z → Z) (c n : Z) :
  0 ≤ n → (∀ i, 0 ≤ i < n → g i = c) →
  sumZ (g <$> seqZ 0 n) = n * c.
Proof.
  intros Hn Hg. rewrite <- (Z2Nat.id n Hn) in *.
  by apply sumZ_constant_nat.
Qed.

Lemma seqZ_snoc (n : Z) : 1 ≤ n → seqZ 0 n = seqZ 0 (n - 1) ++ [n - 1].
Proof.
  intros Hn. pose proof (seqZ_app 0 (n - 1) 1 ltac:(lia) ltac:(lia)) as H.
  replace (n - 1 + 1) with n in H by lia. rewrite H. f_equal.
Qed.

(** The last chunk takes what the full chunks before it leave. *)
Lemma last_chunk_remainder (fileSize chunkSize : Z) :
  0 < fileSize → 0 < chunkSize →
  let n := calculateTotalChunks fileSize chunkSize in
  (if Z.rem fileSize chunkSize =? 0 then chunkSize
   else Z.rem fileSize chunkSize) = fileSize - (n - 1) * chunkSize.
Proof.
  intros Hf Hc. cbn zeta.
  pose proof (calculateTotalChunks_ceiling fileSize chunkSize Hc) as Hn.
  cbn zeta in Hn.
  rewrite Z.rem_mod_nonneg by lia.
  pose proof (Z.div_mod fileSize chunkSize ltac:(lia)) as Hdm.
  pose proof (Z.mod_pos_bound fileSize chunkSize Hc) as Hb.
  set (q := fileSize `div` chunkSize) in *.
  set (r := fileSize `mod` chunkSize) in *.
  destruct (Z.eqb_spec r 0) as [Hr|Hr].
  - assert (n_eq : calculateTotalChunks fileSize chunkSize = q).
    { assert (calculateTotalChunks fileSize chunkSize - 1 < q)
        by (apply (Z.mul_lt_mono_pos_r chunkSize); lia).
      assert (q ≤ calculateTotalChunks fileSize chunkSize)
        by (apply (Z.mul_le_mono_pos_r _ _ chunkSize); lia).
      lia. }
    rewrite n_eq. lia.
  - assert (n_eq : calculateTotalChunks fileSize chunkSize = q + 1).
    { assert (calculateTotalChunks fileSize chunkSize - 1 < q + 1)
        by (apply (Z.mul_lt_mono_pos_r chunkSize); lia).
      assert (q < calculateTotalChunks fileSize chunkSize)
        by (apply (Z.mul_lt_mono_pos_r chunkSize); lia).
      lia. }
    rewrite n_eq. lia.
Qed.

(** *** The division in double precision *)

Lemma ceil_div_unique (x y c : Z) :
  0 < y → (c - 1) * y < x ≤ c * y → - ((- x) / y) = c.
Proof.
  intros Hy Hc.
  pose proof (Z.div_mod (- x) y ltac:(lia)) as Hdm.
  pose proof (Z.mod_pos_bound (- x) y Hy) as Hb.
  nia.
Qed.

Lemma nearestEven_bounds (n d : Z) :
  0 < d →
  n / d ≤ Float64.nearestEven n d ≤ n / d + 1
  ∧ (n mod d = 0 → Float64.nearestEven n d = n / d)
  ∧ (d < 2 * (n mod d) → Float64.nearestEven n d = n / d + 1).
Proof.
  intros Hd. unfold Float64.nearestEven.
  destruct (Z.ltb_spec (2 * (n mod d)) d);
    [|destruct (Z.ltb_spec d (2 * (n mod d)));
      [|destruct (Z.even (n / d))]];
    repeat split; intros; lia.
Qed.

(** The quotient of a safe integer by a positive integer, scaled by its
    exponent, has its integer part in [[2^52, 2^53)]. *)
Lemma exponent_scaled (a b : Z) :
  0 < a < 2 ^ 53 → 0 < b →
  let e := Float64.exponent a b in
  e ≤ 52 ∧ b * 2 ^ 52 ≤ a * 2 ^ (52 - e) < b * 2 ^ 53.
Proof.
  intros Ha Hb. unfold Float64.exponent. cbn zeta.
  pose proof (Z.log2_spec a ltac:(lia)) as Hla.
  pose proof (Z.log2_spec b ltac:(lia)) as Hlb.
  pose proof (Z.log2_nonneg a) as Hla0.
  pose proof (Z.log2_nonneg b) as Hlb0.
  assert (Z.log2 a < 53) as Hla53 by (apply Z.log2_lt_pow2; lia).
  rewrite !Z.pow_succ_r in Hla, Hlb by done.
  set (la := Z.log2 a) in *. set (lb := Z.log2 b) in *.
  assert (H52 : 2 ^ 52 = 2 ^ la * 2 ^ (52 - la)).
  { rewrite <- Z.pow_add_r by lia. f_equal. lia. }
  assert (H53 : 2 ^ 53 = 2 * (2 ^ la * 2 ^ (52 - la))).
  { rewrite <- H52. reflexivity. }
  assert (0 < 2 ^ (52 - la)) as HP by (apply Z.pow_pos_nonneg; lia).
  destruct (Z.ltb_spec (a * 2 ^ lb) (b * 2 ^ la)) as [Hlt|Hge].
  - split; [lia|].
    replace (52 - (la - lb - 1)) with (Z.succ (lb + (52 - la))) by lia.
    rewrite Z.pow_succ_r, Z.pow_add_r by lia. rewrite H52, H53.
    generalize dependent (2 ^ (52 - la)). generalize dependent (2 ^ la).
    generalize dependent (2 ^ lb). intros B HB A HA Hlt P. intros.
    assert (b * A ≤ 2 * (a * B)) by nia.
    split.
    + replace (b * (A * P)) with (b * A * P) by ring.
      replace (a * (2 * (B * P))) with (2 * (a * B) * P) by ring.
      apply Z.mul_le_mono_nonneg_r; lia.
    + replace (b * (2 * (A * P))) with (2 * (b * A) * P) by ring.
      replace (a * (2 * (B * P))) with (2 * (a * B) * P) by ring.
      apply Z.mul_lt_mono_pos_r; lia.
  - split; [lia|].
    replace (52 - (la - lb)) with (lb + (52 - la)) by lia.
    rewrite Z.pow_add_r by lia. rewrite H52, H53.
    generalize dependent (2 ^ (52 - la)). generalize dependent (2 ^ la).
    generalize dependent (2 ^ lb). intros B HB A HA Hge P. intros.
    assert (a * B < 2 * (b * A)) by nia.
    split.
    + replace (b * (A * P)) with (b * A * P) by ring.
      replace (a * (B * P)) with (a * B * P) by ring.
      apply Z.mul_le_mono_nonneg_r; lia.
    + replace (b * (2 * (A * P))) with (2 * (b * A) * P) by ring.
      replace (a * (B * P)) with (a * B * P) by ring.
      apply Z.mul_lt_mono_pos_r; lia.
Qed.

(** On safe integers the rounded division does not change the ceiling:
    there the integer model [calculateTotalChunks] is
    [Math.ceil(fileSize / chunkSize)] as the machine computes it. *)
Lemma calculateTotalChunks_safe (fileSize chunkSize : Z) :
  0 ≤ fileSize ≤ Float64.MAX_SAFE_INTEGER →
  0 < chunkSize ≤ Float64.MAX_SAFE_INTEGER →
  Float64.calculateTotalChunks fileSize chunkSize
  = Some (calculateTotalChunks fileSize chunkSize).
Proof.
  unfold Float64.MAX_SAFE_INTEGER. intros Hf Hc.
  rewrite calculateTotalChunks_pos by lia.
  unfold Float64.calculateTotalChunks, Float64.divide, Float64.ceil.
  destruct (Z.eqb_spec chunkSize 0); [lia|].
  destruct (Z.eqb_spec fileSize 0) as [->|Hf0]; [done|].
  rewrite !Z.sgn_pos, Z.eqb_refl, !Z.abs_eq by lia.
  destruct (exponent_scaled fileSize chunkSize ltac:(lia) ltac:(lia))
    as [He Hscaled].
  unfold Float64.roundQuotient.
  set (e := Float64.exponent fileSize chunkSize) in *.
  assert (2 ^ (52 - e) < 2 ^ 106) as Hk.
  { change (2 ^ 106) with (2 ^ 53 * 2 ^ 53). nia. }
  apply Z.pow_lt_mono_r_iff in Hk; [|lia..].
  rewrite Z.max_l by lia.
  pose proof (nearestEven_bounds (fileSize * 2 ^ (52 - e)) chunkSize
                ltac:(lia)) as (Hm & Hexact & Hup).
  pose proof (calculateTotalChunks_ceiling fileSize chunkSize ltac:(lia))
    as Hceil.
  cbn zeta in Hceil. rewrite calculateTotalChunks_pos in Hceil by lia.
  set (c := - (- fileSize / chunkSize)) in *.
  destruct (Z.leb_spec 0 (e - 52)) as [He0|He0].
  - assert (e = 52) as He52 by lia.
    rewrite He52 in *. change (52 - 52) with 0 in *.
    change (2 ^ 0) with 1 in *. rewrite !Z.mul_1_r in *.
    assert (chunkSize = 1) as -> by nia.
    assert (Float64.nearestEven fileSize 1 = fileSize) as ->.
    { rewrite Hexact by apply Z.mod_1_r. apply Z.div_1_r. }
    destruct (Z.ltb_spec fileSize (2 ^ 1024)); [|lia].
    reflexivity.
  - replace (- (e - 52)) with (52 - e) by lia.
    set (K := 2 ^ (52 - e)) in *.
    assert (0 < K) as HK by (apply Z.pow_pos_nonneg; lia).
    set (m := Float64.nearestEven (fileSize * K) chunkSize) in *.
    cbn [fmap option_fmap option_map id]. f_equal.
    unfold Qround.Qceiling, Qround.Qfloor.
    cbn [QArith_base.Qopp QArith_base.Qnum QArith_base.Qden].
    rewrite Z2Pos.id by done.
    apply ceil_div_unique; [done|].
    pose proof (Z.div_mod (fileSize * K) chunkSize ltac:(lia)) as Hdm.
    pose proof (Z.mod_pos_bound (fileSize * K) chunkSize ltac:(lia)) as Hr.
    set (t := fileSize * K / chunkSize) in *.
    set (r := (fileSize * K) mod chunkSize) in *.
    assert (chunkSize < 2 * K) as HcK.
    { change (2 ^ 53) with (2 * 2 ^ 52) in *. nia. }
    split.
    + destruct (Z.lt_ge_cases ((c - 1) * K) t) as [Ht|Ht]; [lia|].
      assert (t = (c - 1) * K) as Ht' by nia.
      assert (K ≤ r) as HKr by nia.
      rewrite Hup by lia. lia.
    + destruct (Z.lt_ge_cases t (c * K)) as [Ht|Ht]; [lia|].
      assert (r = 0) as Hr0 by nia.
      rewrite Hexact by done. nia.
Qed.


(** The expected sizes of the chunks [0 .. totalChunks - 1], whatever
    [totalChunks] is: full chunks and then the remainder. *)
Lemma expectedChunkSizes_sum (totalChunks fileSize chunkSize : Z) :
  1 ≤ totalChunks →
  ∃ sizes,
    expectedChunkSizes totalChunks fileSize chunkSize = Some sizes
    ∧ sumZ sizes
      = (totalChunks - 1) * chunkSize
        + (if Z.rem fileSize chunkSize =? 0 then chunkSize
           else Z.rem fileSize chunkSize).
Proof.
  intros Hge.
  set (last := if Z.rem fileSize chunkSize =? 0 then chunkSize
               else Z.rem fileSize chunkSize).
  exists ((λ i, if i =? totalChunks - 1 then last else chunkSize)
            <$> seqZ 0 totalChunks).
  split.
  - unfold expectedChunkSizes. apply mapM_Some.
    apply Forall2_fmap_r, Forall_Forall2_diag, Forall_seqZ.
    intros i Hi. unfold compose.
    destruct (Z.eqb_spec i (totalChunks - 1)) as [->|Hne].
    + by apply getExpectedChunkSize_last.
    + apply getExpectedChunkSize_inner. lia.
  - rewrite (seqZ_snoc totalChunks Hge), fmap_app, sumZ_app.
    rewrite (sumZ_constant _ chunkSize).
    + cbn. rewrite Z.eqb_refl. lia.
    + lia.
    + intros i Hi. destruct (Z.eqb_spec i (totalChunks - 1)); [lia|done].
Qed.

(** C1, as amended.  For [0 < fileSize ≤ Number.MAX_SAFE_INTEGER] and
    [chunkSize] in [[MIN_CHUNK_SIZE, min(MAX_CHUNK_SIZE, fileSize)]]:
    [Math.ceil(fileSize / chunkSize)], with the division rounded as the
    machine rounds it, is the ceiling of [fileSize / chunkSize]; the
    expected sizes of the chunks [0 .. totalChunks - 1] add up to
    [fileSize]; the last one lies in [(0, chunkSize]]; every other one is
    [chunkSize]. *)
Theorem chunk_size_arithmetic (fileSize chunkSize : Z) :
  0 < fileSize ≤ Float64.MAX_SAFE_INTEGER →
  MIN_CHUNK_SIZE ≤ chunkSize ≤ Z.min MAX_CHUNK_SIZE fileSize →
  ∃ totalChunks,
    Float64.calculateTotalChunks fileSize chunkSize = Some totalChunks
    ∧ ((totalChunks - 1) * chunkSize < fileSize ≤ totalChunks * chunkSize)
    ∧ (∃ sizes,
          expectedChunkSizes totalChunks fileSize chunkSize = Some sizes
          ∧ sumZ sizes = fileSize)
    ∧ (∃ last,
          getExpectedChunkSize (totalChunks - 1) totalChunks fileSize
            chunkSize
          = Some last
          ∧ 0 < last ≤ chunkSize)
    ∧ (∀ i, 0 ≤ i < totalChunks - 1 →
          getExpectedChunkSize i totalChunks fileSize chunkSize
          = Some chunkSize).
Proof.
  intros Hf [Hmin Hmax].
  assert (0 < chunkSize) as Hc by (unfold MIN_CHUNK_SIZE in Hmin; lia).
  exists (calculateTotalChunks fileSize chunkSize).
  split; [apply calculateTotalChunks_safe; lia|].
  pose proof (calculateTotalChunks_ceiling fileSize chunkSize Hc) as Hceil.
  pose proof (calculateTotalChunks_ge_1 fileSize chunkSize
                ltac:(lia) Hc) as Hge.
  pose proof (last_chunk_remainder fileSize chunkSize ltac:(lia) Hc)
    as Hlast.
  cbn zeta in Hceil, Hlast.
  set (n := calculateTotalChunks fileSize chunkSize) in *.
  set (last := if Z.rem fileSize chunkSize =? 0 then chunkSize
               else Z.rem fileSize chunkSize) in *.
  split; [done|]. split; [|split].
  - destruct (expectedChunkSizes_sum n fileSize chunkSize Hge)
      as (sizes & Hsizes & Hsum).
    exists sizes. split; [done|]. fold last in Hsum. lia.
  - exists last. split; [by apply getExpectedChunkSize_last|]. nia.
  - intros i Hi. by apply getExpectedChunkSize_inner.
Qed.

Lemma chunk_size_arithmetic_witness :
  Float64.calculateTotalChunks 2500000 1000000 = Some 3
  ∧ expectedChunkSizes 3 2500000 1000000
    = Some [1000000; 1000000; 500000]
  ∧ ∃ totalChunks,
      Float64.calculateTotalChunks 2500000 1000000 = Some totalChunks
      ∧ ((totalChunks - 1) * 1000000 < 2500000 ≤ totalChunks * 1000000)
      ∧ (∃ sizes,
            expectedChunkSizes totalChunks 2500000 1000000 = Some sizes
            ∧ sumZ sizes = 2500000).
Proof.
  split; [vm_compute; reflexivity|]. split; [reflexivity|].
  destruct (chunk_size_arithmetic 2500000 1000000)
    as (totalChunks & H0 & H1 & H2 & _).
  - unfold Float64.MAX_SAFE_INTEGER. lia.
  - vm_compute. split; discriminate.
  - exists totalChunks. split; [exact H0|]. split; [exact H1|exact H2].
Defined.

(** C1 as it was stated fails from [2^53] on.  The file size
    [9007199456067586] is a double and the chunk size [2^26 + 1] is in
    range; the quotient is [134217729 + 1/67108865], which is nearer to
    [134217729] than to the next double, so the division yields
    [134217729] and [calculateTotalChunks] is one less than the ceiling
    [134217730]; the expected sizes of the [134217729] chunks then add
    up to [fileSize - chunkSize]. *)
Lemma chunk_size_arithmetic_counterexample :
  let fileSize := 9007199456067586 in
  let chunkSize := 67108865 in
  0 < fileSize
  ∧ MIN_CHUNK_SIZE ≤ chunkSize ≤ Z.min MAX_CHUNK_SIZE fileSize
  ∧ Float64.representable fileSize = true
  ∧ Float64.representable chunkSize = true
  ∧ Float64.calculateTotalChunks fileSize chunkSize = Some 134217729
  ∧ calculateTotalChunks fileSize chunkSize = 134217730
  ∧ ¬ (fileSize ≤ 134217729 * chunkSize)
  ∧ ∃ sizes,
      expectedChunkSizes 134217729 fileSize chunkSize = Some sizes
      ∧ sumZ sizes = fileSize - chunkSize.
Proof.
  cbn zeta.
  split; [done|]. split; [vm_compute; split; discriminate|].
  split; [vm_compute; reflexivity|]. split; [vm_compute; reflexivity|].
  split; [vm_compute; reflexivity|]. split; [vm_compute; reflexivity|].
  split; [vm_compute; intros H; apply H; reflexivity|].
  destruct (expectedChunkSizes_sum 134217729 9007199456067586 67108865)
    as (sizes & Hsizes & Hsum); [lia|].
  exists sizes. split; [exact Hsizes|]. rewrite Hsum.
  vm_compute. reflexivity.
Qed.

End ChunkArithmetic.

(** ** Running the monad *)

Ltac run_unfold :=
  unfold Service.getSessionOrThrow, Service.validateSessionForChunk,
    Service.validateChunkIndex, Service.onStore, Service.onDriver,
    bind, ret, throw, throwError, tryCatch, stateOf, resultOf in *.

Ltac run_simpl := run_unfold; cbn in *.

(** ** The in-memory store *)

Section MemoryStore.

Context (clock : nat → Z) (generateUploadId : nat → string).

Import Memory.

Lemma getSession_sessions (uploadId : string) (st : State) :
  sessions (stateOf (getSession clock uploadId st)) = sessions st.
Proof.
  unfold getSession, sessions_get. run_simpl.
  destruct (sessions st !! uploadId) as [stored|]; [|done].
  destruct (expiresAt (session stored)) as [e|]; [|done]. cbn.
  by destruct (e <? clock (clockReads st)).
Qed.

Lemma getSession_result (uploadId : string) (st : State) :
  resultOf (getSession clock uploadId st) =
  Ok (stored ← sessions st !! uploadId;
      if isExpired (session stored) (clock (clockReads st))
      then None else Some (session stored)).
Proof.
  unfold getSession, sessions_get, isExpired. run_simpl.
  destruct (sessions st !! uploadId) as [stored|]; [|done]. cbn.
  destruct (expiresAt (session stored)) as [e|]; [|done]. cbn.
  by destruct (e <? clock (clockReads st)).
Qed.

Lemma getSession_Some (uploadId : string) (st : State)
  (s : TorrinUploadSession) :
  resultOf (getSession clock uploadId st) = Ok (Some s) →
  ∃ stored, sessions st !! uploadId = Some stored ∧ session stored = s.
Proof.
  rewrite getSession_result.
  destruct (sessions st !! uploadId) as [stored|]; [|done]. cbn.
  destruct (isExpired _ _); [done|]. intros [= <-]. eauto.
Qed.

(** C8, as the code has it.  [getSession] returns [null] for an unknown
    [uploadId] and for a session whose [expiresAt] is strictly before the
    clock reading; it returns the session when [expiresAt] is at or after
    the reading (so also at the exact moment [expiresAt = now]) and when
    no [expiresAt] is set.  The map of sessions is left as it was. *)
Theorem getSession_expiry (uploadId : string) (st : State) :
  let now := clock (clockReads st) in
  let result := resultOf (getSession clock uploadId st) in
  (sessions st !! uploadId = None → result = Ok None)
  ∧ (∀ stored e,
        sessions st !! uploadId = Some stored →
        expiresAt (session stored) = Some e →
        (e < now → result = Ok None)
        ∧ (now ≤ e → result = Ok (Some (session stored))))
  ∧ (∀ stored,
        sessions st !! uploadId = Some stored →
        expiresAt (session stored) = None →
        result = Ok (Some (session stored)))
  ∧ sessions (stateOf (getSession clock uploadId st)) = sessions st.
Proof.
  cbn zeta. rewrite getSession_result.
  split; [by intros ->|]. split; [|split].
  - intros stored e -> He. cbn. unfold isExpired. rewrite He.
    split; intros Hlt.
    + by destruct (Z.ltb_spec e (clock (clockReads st))); [|lia].
    + by destruct (Z.ltb_spec e (clock (clockReads st))); [lia|].
  - intros stored -> He. cbn. unfold isExpired. by rewrite He.
  - apply getSession_sessions.
Qed.

End MemoryStore.

(** C8, as the claim has it, fails at the exact moment [expiresAt = now]:
    the session is still returned. *)
Lemma getSession_at_expiry_counterexample :
  ¬ (∀ (clock : nat → Z) (uploadId : string) (st : Memory.State)
       (stored : Memory.StoredSession) (e : Z),
        Memory.sessions st !! uploadId = Some stored →
        expiresAt (Memory.session stored) = Some e →
        e ≤ clock (Memory.clockReads st) →
        resultOf (Memory.getSession clock uploadId st) = Ok None).
Proof.
  intros H.
  specialize (H (λ _, 1000) "u_1" Examples.expiringStore
                (Memory.mkStored Examples.expiringSession []) 1000).
  discriminate H; [reflexivity | reflexivity | cbn; lia].
Qed.

(** ** Chunk size of a new session *)

Lemma normalizeChunkSize_bounds (desired : option Z) (fileSize : Z) :
  0 < fileSize →
  let size := Core.normalizeChunkSize desired fileSize in
  1 ≤ size ≤ MAX_CHUNK_SIZE
  ∧ size ≤ fileSize
  ∧ (MIN_CHUNK_SIZE ≤ fileSize → MIN_CHUNK_SIZE ≤ size)
  ∧ (fileSize < MIN_CHUNK_SIZE → size = fileSize).
Proof.
  intros Hf. unfold Core.normalizeChunkSize. cbn zeta.
  set (d := default DEFAULT_CHUNK_SIZE desired).
  unfold MIN_CHUNK_SIZE, MAX_CHUNK_SIZE.
  destruct (Z.gtb_spec (Z.max (256 * 1024) (Z.min (100 * 1024 * 1024) d))
              fileSize); lia.
Qed.

Section InitUpload.

Context {D : Type} {driverImpl : Driver.TorrinStorageDriver D}.
Context (clock : nat → Z) (generateUploadId : nat → string).
Context (this : Service.TorrinService).

(** C6, as the code has it.  For [fileSize > 0] and any
    [desiredChunkSize], [initUpload] stores a new session under the
    generated id, whose [chunkSize] is at most 100 MiB and at most
    [fileSize]; it is at least 256 KiB when the file is, and it is
    [fileSize] itself when the file is smaller than 256 KiB.  The call
    returns that session, unless the driver's [initUpload] throws. *)
Theorem initUpload_chunkSize (input : TorrinSessionInitInput)
  (w : Service.World Memory.State D) :
  0 < init_fileSize input →
  let r := System.initUpload clock generateUploadId this input w in
  let id := generateUploadId (Memory.idReads (Service.store w)) in
  ∃ session,
    Memory.sessions (Service.store (stateOf r)) !! id
    = Some (Memory.mkStored session [])
    ∧ uploadId session = id
    ∧ fileSize session = init_fileSize input
    ∧ (resultOf r = Ok session ∨ ∃ t, resultOf r = Throw t)
    ∧ 1 ≤ chunkSize session ≤ MAX_CHUNK_SIZE
    ∧ chunkSize session ≤ fileSize session
    ∧ (MIN_CHUNK_SIZE ≤ fileSize session →
       MIN_CHUNK_SIZE ≤ chunkSize session)
    ∧ (fileSize session < MIN_CHUNK_SIZE →
       chunkSize session = fileSize session).
Proof.
  intros Hf. cbn zeta.
  unfold System.initUpload, Service.initUpload.
  destruct (Z.leb_spec (init_fileSize input) 0) as [|_]; [lia|].
  set (size := Core.normalizeChunkSize _ _).
  pose proof (normalizeChunkSize_bounds
                (Some (default (Service.defaultChunkSize this)
                         (init_desiredChunkSize input)))
                (init_fileSize input) Hf) as Hb.
  cbn zeta in Hb. fold size in Hb.
  run_simpl.
  match goal with
  | |- context [Driver.initUpload ?s ?d] =>
      exists s; destruct (Driver.initUpload s d) as [d' [[]|t]]
  end; cbn; rewrite lookup_insert_eq; repeat split; eauto; tauto.
Qed.

End InitUpload.

Lemma initUpload_chunkSize_witness :
  let input := mkInit (Some "a.bin") 600000 None None (Some 1) in
  let r := Examples.initUpload input Examples.start in
  ∃ session,
    resultOf r = Ok session
    ∧ chunkSize session = 262144
    ∧ Memory.sessions (Service.store (stateOf r)) !! "u_0"
      = Some (Memory.mkStored session []).
Proof.
  cbn zeta.
  destruct (initUpload_chunkSize (driverImpl := Examples.localDriver)
              Examples.clock Examples.generateUploadId Examples.service
              (mkInit (Some "a.bin") 600000 None None (Some 1))
              Examples.start)
    as (session & Hstored & _ & _ & _ & _).
  - reflexivity.
  - exists session. revert Hstored. vm_compute. intros [= <-]. done.
Defined.

(** C6, as the claim has it, fails for a file smaller than 256 KiB: the
    chunk size is the file size. *)
Lemma initUpload_small_file_counterexample :
  ∃ input session w',
    0 < init_fileSize input
    ∧ Examples.initUpload input Examples.start = (w', Ok session)
    ∧ ¬ (MIN_CHUNK_SIZE ≤ chunkSize session ≤ MAX_CHUNK_SIZE).
Proof.
  eexists (mkInit None 1000 None None None), _, _.
  split; [reflexivity|]. split; [vm_compute; reflexivity|].
  vm_compute. intros [H _]. by apply H.
Qed.

(** ** handleChunk: the order of the checks *)

Section HandleChunk.

Import Service.

Context {S D : Type}.
Context {storeImpl : Store.TorrinUploadStore S}.
Context {driverImpl : Driver.TorrinStorageDriver D}.

(** C2.  [handleChunk] first asks the store for the session.  Then, in
    this order: no session, [UPLOAD_NOT_FOUND]; status [completed],
    [UPLOAD_ALREADY_COMPLETED]; status [canceled], [UPLOAD_CANCELED];
    index outside [[0, totalChunks)], [CHUNK_OUT_OF_RANGE]; size
    different from the expected size, [CHUNK_SIZE_MISMATCH] with
    [{expected, actual}].  In all these cases nothing else is called.
    Otherwise the driver's [writeChunk] is called with the expected
    size; if it returns, the store's [markChunkReceived] is called next,
    and a [pending] session is then patched to [in_progress]. *)
Theorem handleChunk_checks (input : HandleChunkInput) (w : World S D) :
  let r := handleChunk input w in
  let id := hc_uploadId input in
  let index := hc_index input in
  let got := Store.getSession id (store w) in
  let w1 := mkWorld (stateOf got) (storage w) (log w ++ [StoreGetSession id]) in
  (resultOf got = Ok None →
   r = (w1, Throw (Typed (mkError UPLOAD_NOT_FOUND NoDetails))))
  ∧ ∀ session, resultOf got = Ok (Some session) →
    (status session = completed →
     r = (w1, Throw (Typed (mkError UPLOAD_ALREADY_COMPLETED NoDetails))))
    ∧ (status session = canceled →
       r = (w1, Throw (Typed (mkError UPLOAD_CANCELED NoDetails))))
    ∧ (status session ≠ completed → status session ≠ canceled →
       (¬ (0 ≤ index < totalChunks session) →
        r = (w1, Throw (Typed (mkError CHUNK_OUT_OF_RANGE
                                 (IndexDetails index (totalChunks session))))))
       ∧ (0 ≤ index < totalChunks session →
          ∃ expected,
            Core.getExpectedChunkSize index (totalChunks session)
              (fileSize session) (chunkSize session) = Some expected
            ∧ (hc_size input ≠ expected →
               r = (w1, Throw (Typed (mkError CHUNK_SIZE_MISMATCH
                                        (SizeDetails expected (hc_size input))))))
            ∧ (hc_size input = expected →
               let write :=
                 Driver.writeChunk session index (hc_stream input) expected
                   (hc_hash input) (storage w) in
               let w2 :=
                 mkWorld (stateOf got) (stateOf write)
                   (log w ++ [StoreGetSession id;
                              DriverWriteChunk session index (hc_stream input)
                                expected (hc_hash input)]) in
               (∀ t, resultOf write = Throw t → r = (w2, Throw t))
               ∧ (resultOf write = Ok tt →
                  let mark := Store.markChunkReceived id index (stateOf got) in
                  let w3 :=
                    mkWorld (stateOf mark) (stateOf write)
                      (log w2 ++ [StoreMarkChunkReceived id index]) in
                  (∀ t, resultOf mark = Throw t → r = (w3, Throw t))
                  ∧ (resultOf mark = Ok tt → status session ≠ pending →
                     r = (w3, Ok tt))
                  ∧ (resultOf mark = Ok tt → status session = pending →
                     let update :=
                       Store.updateSession id (statusPatch in_progress)
                         (stateOf mark) in
                     stateOf r =
                       mkWorld (stateOf update) (stateOf write)
                         (log w3 ++ [StoreUpdateSession id
                                       (statusPatch in_progress)])
                     ∧ resultOf r =
                         match resultOf update with
                         | Ok _ => Ok tt
                         | Throw t => Throw t
                         end))))).
Proof.
  cbn zeta. unfold handleChunk. run_unfold.
  destruct (Store.getSession (hc_uploadId input) (store w)) as [s1 got].
  cbn. split; [by intros ->|]. intros session ->. cbn.
  destruct (decide (status session = completed)) as [Hc|Hc];
    [by rewrite Hc|].
  destruct (decide (status session = canceled)) as [Hx|Hx];
    [by rewrite Hx|].
  do 2 (split; [done|]). intros _ _.
  destruct (Z.ltb_spec (hc_index input) 0) as [Hlo|Hlo]; cbn;
    [split; [done|lia]|].
  destruct (Z.geb_spec (hc_index input) (totalChunks session)) as [Hhi|Hhi];
    cbn; [split; [done|lia]|].
  split; [lia|]. intros _.
  destruct (getExpectedChunkSize_in_range (hc_index input)
              (totalChunks session) (fileSize session) (chunkSize session))
    as [expected Hexp]; [lia|].
  exists expected. rewrite Hexp. split; [done|]. cbn.
  destruct (Z.eqb_spec (hc_size input) expected) as [Heq|Hne]; cbn;
    [|by split].
  split; [done|]. intros _.
  destruct (Driver.writeChunk session (hc_index input) (hc_stream input)
              expected (hc_hash input) (storage w)) as [d1 [[]|t]]; cbn;
    rewrite <- ?app_assoc; cbn;
    [|split; [by intros ? [= ->]|done]].
  split; [done|]. intros _.
  destruct (Store.markChunkReceived (hc_uploadId input) (hc_index input) s1)
    as [s2 [[]|t]]; cbn; rewrite <- ?app_assoc; cbn;
    [|split; [by intros ? [= ->]|by split]].
  split; [done|].
  destruct (decide (status session = pending)) as [Hp|Hp]; cbn.
  - split; [done|]. intros _ _.
    destruct (Store.updateSession (hc_uploadId input)
                (statusPatch in_progress) s2) as [s3 [?|t]]; cbn;
      by rewrite <- ?app_assoc.
  - by split.
Qed.

End HandleChunk.

(** ** The service on the in-memory store *)

Section MemoryRuns.

Context (clock : nat → Z).

Import Memory.

Lemma markChunkReceived_run (uploadId : string) (chunkIndex : Z)
  (st : State) (stored : StoredSession) :
  sessions st !! uploadId = Some stored →
  markChunkReceived clock uploadId chunkIndex st =
  (mkState
     (<[uploadId :=
          mkStored (withUpdatedAt (session stored) (clock (clockReads st)))
            (Set_add chunkIndex (receivedChunks stored))]> (sessions st))
     (S (clockReads st)) (idReads st),
   Ok tt).
Proof.
  intros Hst. unfold markChunkReceived, sessions_get, sessions_set.
  run_simpl. by rewrite Hst.
Qed.

Lemma updateSession_run (uploadId : string) (patch : SessionPatch)
  (st : State) (stored : StoredSession) :
  sessions st !! uploadId = Some stored →
  let session' :=
    withUpdatedAt (applyPatch (session stored) patch)
      (clock (clockReads st)) in
  updateSession clock uploadId patch st =
  (mkState
     (<[uploadId := mkStored session' (receivedChunks stored)]> (sessions st))
     (S (clockReads st)) (idReads st),
   Ok session').
Proof.
  intros Hst. unfold updateSession, sessions_get, sessions_set.
  run_simpl. by rewrite Hst.
Qed.

Lemma listReceivedChunks_run (uploadId : string) (st : State)
  (stored : StoredSession) :
  sessions st !! uploadId = Some stored →
  listReceivedChunks uploadId st =
  (st, Ok (merge_sort Z.le (receivedChunks stored))).
Proof.
  intros Hst. unfold listReceivedChunks, sessions_get.
  run_simpl. by rewrite Hst.
Qed.

(** [getSession] only ever advances the count of clock readings. *)
Lemma getSession_run (uploadId : string) (st : State) :
  ∃ reads,
    getSession clock uploadId st =
    (mkState (sessions st) reads (idReads st),
     Ok (stored ← sessions st !! uploadId;
         if isExpired (session stored) (clock (clockReads st))
         then None else Some (session stored))).
Proof.
  unfold getSession, sessions_get, isExpired. run_simpl.
  destruct st as [m c i]. cbn.
  destruct (m !! uploadId) as [stored|]; cbn; [|by eexists].
  destruct (expiresAt (session stored)) as [e|]; cbn; [|by eexists].
  destruct (e <? clock c); by eexists.
Qed.

End MemoryRuns.

Ltac memory_unfold :=
  unfold System.initUpload, System.handleChunk, System.getStatus,
    System.completeUpload, System.abortUpload, System.cleanupExpiredUploads,
    System.cleanupStaleUploads, System.memoryStore,
    Memory.createInMemoryStore in *.

Ltac memory_simpl :=
  cbn -[Memory.getSession Memory.markChunkReceived Memory.updateSession
        Memory.listReceivedChunks Memory.createSession Memory.deleteSession
        Memory.listExpiredSessions Memory.listAllSessions] in *.

Section HandleChunkOnMemory.

Import Service.

Context {D : Type} {driverImpl : Driver.TorrinStorageDriver D}.
Context (clock : nat → Z) (generateUploadId : nat → string).



End HandleChunkOnMemory.

(** ** Missing chunks *)

Section MissingChunks.

Lemma StronglySorted_filter {A : Type} (R : relation A) (P : A → Prop)
  `{∀ x, Decision (P x)} (l : list A) :
  StronglySorted R l → StronglySorted R (filter P l).
Proof.
  induction 1 as [|x l Hl IH Hx]; [constructor|].
  rewrite filter_cons. destruct (decide (P x)); [|done].
  constructor; [done|].
  rewrite Forall_forall in *. intros y [_ Hy]%list_elem_of_filter.
  by apply Hx.
Qed.

Lemma StronglySorted_seqZ (m n : Z) : StronglySorted Z.lt (seqZ m n).
Proof.
  destruct (decide (0 ≤ n)) as [Hn|Hn]; [|rewrite seqZ_nil by lia; constructor].
  rewrite <- (Z2Nat.id n Hn). generalize (Z.to_nat n) as k. clear n Hn.
  intros k. revert m. induction k as [|k IH]; intros m; [constructor|].
  rewrite seqZ_cons by lia.
  replace (Z.pred (Z.of_nat (S k))) with (Z.of_nat k) by lia.
  constructor; [apply IH|].
  apply Forall_seqZ. lia.
Qed.

Lemma StronglySorted_le_lt (l : list Z) :
  StronglySorted Z.le l → NoDup l → StronglySorted Z.lt l.
Proof.
  induction 1 as [|x l Hl IH Hx]; [constructor|].
  intros [Hnotin Hnd]%NoDup_cons. constructor; [by apply IH|].
  rewrite Forall_forall in *. intros y Hy.
  specialize (Hx y Hy). assert (x ≠ y) by (intros ->; done). lia.
Qed.

Lemma elem_of_getMissingChunks (totalChunks : Z) (received : list Z) (i : Z) :
  i ∈ Core.getMissingChunks totalChunks received
  ↔ 0 ≤ i < totalChunks ∧ i ∉ received.
Proof.
  unfold Core.getMissingChunks.
  rewrite list_elem_of_filter, elem_of_seqZ. split; intros []; split; done || lia.
Qed.

Lemma getMissingChunks_sorted (totalChunks : Z) (received : list Z) :
  StronglySorted Z.lt (Core.getMissingChunks totalChunks received).
Proof. apply StronglySorted_filter, StronglySorted_seqZ. Qed.

Lemma elem_of_sorted_received (l : list Z) (i : Z) :
  i ∈ merge_sort Z.le l ↔ i ∈ l.
Proof. by rewrite merge_sort_Permutation. Qed.

Lemma sorted_received_lt (l : list Z) :
  NoDup l → StronglySorted Z.lt (merge_sort Z.le l).
Proof.
  intros Hnd. apply StronglySorted_le_lt.
  - apply StronglySorted_merge_sort; apply _.
  - by rewrite merge_sort_Permutation.
Qed.

End MissingChunks.

(** ** completeUpload with a gap *)

Section CompleteUploadOnMemory.

Import Service.

Context {D : Type} {driverImpl : Driver.TorrinStorageDriver D}.
Context (clock : nat → Z) (generateUploadId : nat → string).

(** C3.  Let the store hold a session that [getSession] returns (it is
    not expired), neither [completed] nor [canceled], with some index of
    [[0, totalChunks)] not received.  Then [completeUpload] throws
    [MISSING_CHUNKS]; [details.missingChunks] is sorted ascending and
    holds exactly the indices of [[0, totalChunks)] that are not
    received; the service has only called [getSession] and
    [listReceivedChunks], so the driver's [finalizeUpload] is not invoked,
    and the stored session (its status too) is unchanged. *)
Theorem completeUpload_missing_chunks (uploadId : string)
  (hash : option string) (w : World Memory.State D)
  (stored : Memory.StoredSession) :
  Memory.sessions (store w) !! uploadId = Some stored →
  Memory.isExpired (Memory.session stored)
    (System.now (D := D) clock w) = false →
  status (Memory.session stored) ≠ completed →
  status (Memory.session stored) ≠ canceled →
  (∃ i, 0 ≤ i < totalChunks (Memory.session stored)
        ∧ i ∉ Memory.receivedChunks stored) →
  let r := System.completeUpload clock generateUploadId uploadId hash w in
  ∃ missing,
    resultOf r
    = Throw (Typed (mkError MISSING_CHUNKS (MissingDetails missing)))
    ∧ StronglySorted Z.lt missing
    ∧ (∀ i, i ∈ missing
            ↔ 0 ≤ i < totalChunks (Memory.session stored)
              ∧ i ∉ Memory.receivedChunks stored)
    ∧ log (stateOf r)
      = log w ++ [StoreGetSession uploadId; StoreListReceivedChunks uploadId]
    ∧ (∀ session, DriverFinalizeUpload session ∈ log (stateOf r) →
                  DriverFinalizeUpload session ∈ log w)
    ∧ storage (stateOf r) = storage w
    ∧ Memory.sessions (store (stateOf r)) = Memory.sessions (store w)
    ∧ Memory.sessions (store (stateOf r)) !! uploadId = Some stored.
Proof.
  intros Hst Hexp Hc Hx (i & Hi & Hmiss). cbn zeta.
  exists (Core.getMissingChunks (totalChunks (Memory.session stored))
            (merge_sort Z.le (Memory.receivedChunks stored))).
  assert (Hin : ∀ j,
             j ∈ Core.getMissingChunks (totalChunks (Memory.session stored))
                   (merge_sort Z.le (Memory.receivedChunks stored))
             ↔ 0 ≤ j < totalChunks (Memory.session stored)
               ∧ j ∉ Memory.receivedChunks stored).
  { intros j. by rewrite elem_of_getMissingChunks, elem_of_sorted_received. }
  memory_unfold. unfold completeUpload. run_unfold. memory_simpl.
  destruct (getSession_run clock uploadId (store w)) as [reads ->].
  rewrite Hst. unfold System.now in Hexp. memory_simpl. rewrite Hexp.
  memory_simpl.
  destruct (decide (status (Memory.session stored) = completed)); [done|].
  destruct (decide (status (Memory.session stored) = canceled)); [done|].
  memory_simpl.
  rewrite (listReceivedChunks_run _ _ stored) by done. memory_simpl.
  assert (Hlen : (0 <? Z.of_nat (length
              (Core.getMissingChunks (totalChunks (Memory.session stored))
                 (merge_sort Z.le (Memory.receivedChunks stored))))) = true).
  { apply Z.ltb_lt.
    destruct (Core.getMissingChunks _ _) as [|j missing]; [|cbn; lia].
    exfalso. eapply (not_elem_of_nil i). apply Hin. done. }
  rewrite Hlen. cbn. rewrite <- app_assoc. cbn.
  split; [done|]. split; [apply getMissingChunks_sorted|].
  split; [done|]. split; [done|]. split; [|done].
  intros session. rewrite elem_of_app, !elem_of_cons, elem_of_nil.
  by intros [?|[?|[?|[]]]].
Qed.

End CompleteUploadOnMemory.

(** ** What the service does to the store *)

Section StoreSteps.

Import Service.

Lemma elem_of_Set_add (x y : Z) (s : list Z) :
  y ∈ Memory.Set_add x s ↔ y = x ∨ y ∈ s.
Proof.
  unfold Memory.Set_add. destruct (decide (x ∈ s)).
  - split; [by right|]. by intros [->|].
  - rewrite elem_of_app, list_elem_of_singleton. tauto.
Qed.

Lemma NoDup_Set_add (x : Z) (s : list Z) :
  NoDup s → NoDup (Memory.Set_add x s).
Proof.
  intros Hs. unfold Memory.Set_add. destruct (decide (x ∈ s)); [done|].
  apply NoDup_app. split; [done|]. split; [|apply NoDup_singleton].
  intros y Hy ->%list_elem_of_singleton. done.
Qed.

Lemma storeStep_consistent m m' :
  System.storeStep m m' →
  ∀ c i c' i',
    System.consistent (Memory.mkState m c i) →
    System.consistent (Memory.mkState m' c' i').
Proof.
  unfold System.consistent, System.wellKeyed, System.receivedInRange,
    System.hasChunks.
  induction 1 as [m|m s Hs|m id stored s' Hst [Hid Htot]
                 |m id stored s' j Hst [Hid Htot] Hj|m id|m1 m2 m3 _ IH1 _ IH2];
    intros c i c' i' (Hkey & Hrange & Htotal); cbn in *.
  - done.
  - (split; [|split]);
      intros id stored [[<- <-]|[_ Hst]]%lookup_insert_Some; cbn; eauto.
    split; [apply NoDup_nil_2|]. by intros j ?%elem_of_nil.
  - (split; [|split]);
      intros id' st' [[<- <-]|[_ Hst']]%lookup_insert_Some; cbn; eauto.
    + rewrite Hid. eauto.
    + rewrite Htot. eauto.
    + rewrite Htot. eauto.
  - (split; [|split]);
      intros id' st' [[<- <-]|[_ Hst']]%lookup_insert_Some; cbn; eauto.
    + rewrite Hid. eauto.
    + destruct (Hrange _ _ Hst) as [Hnd Hin].
      split; [by apply NoDup_Set_add|].
      intros k [->|Hk]%elem_of_Set_add; rewrite Htot; eauto.
    + rewrite Htot. eauto.
  - (split; [|split]); intros id' st' [_ Hst']%lookup_delete_Some; eauto.
  - apply (IH2 0%nat 0%nat c' i'), (IH1 c i 0%nat 0%nat). by split.
Qed.

Lemma forOf_steps {W A B : Type} (R : W → W → Prop) (l : list A)
  (body : A → B → Run W B) :
  (∀ w, R w w) → (∀ w1 w2 w3, R w1 w2 → R w2 w3 → R w1 w3) →
  (∀ x acc w, R w (stateOf (body x acc w))) →
  ∀ acc w, R w (stateOf (forOf l body acc w)).
Proof.
  intros Hrefl Htrans Hbody.
  induction l as [|x l IH]; intros acc w; cbn; [apply Hrefl|].
  unfold bind. specialize (Hbody x acc w).
  destruct (body x acc w) as [w' [acc'|t]]; cbn in *; [|done].
  eapply Htrans; [done|apply IH].
Qed.

Context {D : Type} {driverImpl : Driver.TorrinStorageDriver D}.
Context (clock : nat → Z) (generateUploadId : nat → string).
Context (this : TorrinService).

Lemma initUpload_steps input w :
  System.steps (D := D) w
    (stateOf (System.initUpload clock generateUploadId this input w)).
Proof.
  unfold System.steps. memory_unfold. unfold initUpload.
  destruct (Z.leb_spec (init_fileSize input) 0) as [|Hf];
    [apply System.step_none|].
  pose proof (normalizeChunkSize_bounds
                (Some (default (defaultChunkSize this)
                         (init_desiredChunkSize input)))
                (init_fileSize input) Hf) as (Hb & _).
  cbn zeta in Hb.
  pose proof (calculateTotalChunks_ge_1 (init_fileSize input) _ Hf
                ltac:(apply Z.lt_le_trans with 1; [done|apply Hb])) as Hge.
  run_simpl.
  match goal with
  | |- context [Driver.initUpload ?s ?d] =>
      destruct (Driver.initUpload s d) as [d' [[]|t]];
      cbn; by apply (System.step_create _ s)
  end.
Qed.

Lemma handleChunk_steps input w :
  System.steps (D := D) w
    (stateOf (System.handleChunk clock generateUploadId input w)).
Proof.
  unfold System.steps. memory_unfold. unfold handleChunk. run_unfold. memory_simpl.
  destruct (getSession_run clock (hc_uploadId input) (store w))
    as [reads ->].
  destruct (Memory.sessions (store w) !! hc_uploadId input)
    as [stored|] eqn:Hst; memory_simpl; [|apply System.step_none].
  destruct (Memory.isExpired _ _); memory_simpl; [apply System.step_none|].
  set (session := Memory.session stored).
  destruct (decide (status session = completed)); memory_simpl;
    [apply System.step_none|].
  destruct (decide (status session = canceled)); memory_simpl;
    [apply System.step_none|].
  destruct (Z.ltb_spec (hc_index input) 0); memory_simpl;
    [apply System.step_none|].
  destruct (Z.geb_spec (hc_index input) (totalChunks session)); memory_simpl;
    [apply System.step_none|].
  destruct (Core.getExpectedChunkSize _ _ _ _) as [expected|]; memory_simpl;
    [|apply System.step_none].
  destruct (hc_size input =? expected); memory_simpl;
    [|apply System.step_none].
  destruct (Driver.writeChunk _ _ _ _ _ _) as [d1 [[]|t1]]; memory_simpl;
    [|apply System.step_none].
  rewrite (markChunkReceived_run clock _ _ _ stored) by done. memory_simpl.
  assert (System.storeStep (Memory.sessions (store w))
            (<[hc_uploadId input :=
                 Memory.mkStored
                   (Memory.withUpdatedAt session (clock reads))
                   (Memory.Set_add (hc_index input)
                      (Memory.receivedChunks stored))]>
               (Memory.sessions (store w)))) as Hmark.
  { apply System.step_mark; [done|by split|]. fold session. lia. }
  destruct (decide (status session = pending)); memory_simpl; [|done].
  erewrite updateSession_run by (cbn; apply lookup_insert_eq). cbn.
  eapply System.step_then; [exact Hmark|].
  apply (System.step_touch _ _
           (Memory.mkStored (Memory.withUpdatedAt session (clock reads))
              (Memory.Set_add (hc_index input)
                 (Memory.receivedChunks stored))));
    [apply lookup_insert_eq|by split].
Qed.

Lemma getStatus_steps uploadId w :
  System.steps (D := D) w
    (stateOf (System.getStatus clock generateUploadId uploadId w)).
Proof.
  unfold System.steps. memory_unfold. unfold getStatus. run_unfold. memory_simpl.
  destruct (getSession_run clock uploadId (store w)) as [reads ->].
  destruct (Memory.sessions (store w) !! uploadId)
    as [stored|] eqn:Hst; memory_simpl; [|apply System.step_none].
  destruct (Memory.isExpired _ _); memory_simpl; [apply System.step_none|].
  rewrite (listReceivedChunks_run _ _ stored) by done. cbn.
  apply System.step_none.
Qed.

Lemma completeUpload_steps uploadId hash w :
  System.steps (D := D) w
    (stateOf (System.completeUpload clock generateUploadId
                      uploadId hash w)).
Proof.
  unfold System.steps. memory_unfold. unfold completeUpload. run_unfold.
  memory_simpl.
  destruct (getSession_run clock uploadId (store w)) as [reads ->].
  destruct (Memory.sessions (store w) !! uploadId)
    as [stored|] eqn:Hst; memory_simpl; [|apply System.step_none].
  destruct (Memory.isExpired _ _); memory_simpl; [apply System.step_none|].
  destruct (decide (status _ = completed)); memory_simpl;
    [apply System.step_none|].
  destruct (decide (status _ = canceled)); memory_simpl;
    [apply System.step_none|].
  rewrite (listReceivedChunks_run _ _ stored) by done. memory_simpl.
  destruct (0 <? _); memory_simpl; [apply System.step_none|].
  destruct (Driver.finalizeUpload _ _) as [d1 [location|t1]]; memory_simpl;
    [|apply System.step_none].
  erewrite updateSession_run by done. cbn.
  eapply System.step_touch; [done|]. by split.
Qed.

Lemma abortUpload_steps uploadId w :
  System.steps (D := D) w
    (stateOf (System.abortUpload clock generateUploadId uploadId w)).
Proof.
  unfold System.steps. memory_unfold. unfold abortUpload. run_unfold. memory_simpl.
  destruct (getSession_run clock uploadId (store w)) as [reads ->].
  destruct (Memory.sessions (store w) !! uploadId)
    as [stored|] eqn:Hst; memory_simpl; [|apply System.step_none].
  destruct (Memory.isExpired _ _); memory_simpl; [apply System.step_none|].
  destruct (decide (status _ = completed)); memory_simpl;
    [apply System.step_none|].
  destruct (Driver.abortUpload _ _) as [d1 [[]|t1]]; memory_simpl;
    [|apply System.step_none].
  erewrite updateSession_run by done. cbn.
  eapply System.step_touch; [done|]. by split.
Qed.

Lemma cleanupExpiredOne_steps session acc w :
  System.steps (D := D) w
    (stateOf (cleanupExpiredOne (storeImpl := System.memoryStore
                                         clock generateUploadId)
                      session acc w)).
Proof.
  unfold System.steps, cleanupExpiredOne. memory_unfold. run_unfold.
  destruct (decide (status session ≠ completed)); cbn.
  - destruct (Driver.abortUpload _ _) as [d1 [[]|t1]]; cbn;
      [apply System.step_delete|apply System.step_none].
  - apply System.step_delete.
Qed.

Lemma cleanupStaleOne_steps maxAgeMs now session acc w :
  System.steps (D := D) w
    (stateOf (cleanupStaleOne (storeImpl := System.memoryStore
                                       clock generateUploadId)
                      maxAgeMs now session acc w)).
Proof.
  unfold System.steps, cleanupStaleOne. memory_unfold. run_unfold.
  destruct (_ && _); cbn; [|apply System.step_none].
  destruct (Driver.abortUpload _ _) as [d1 [[]|t1]]; cbn;
    [apply System.step_delete|apply System.step_none].
Qed.

Lemma steps_refl w : System.steps (D := D) w w.
Proof. apply System.step_none. Qed.

Lemma steps_trans w1 w2 w3 :
  System.steps (D := D) w1 w2 → System.steps w2 w3 → System.steps w1 w3.
Proof. apply System.step_then. Qed.

Lemma cleanupExpiredUploads_steps w :
  System.steps (D := D) w
    (stateOf (System.cleanupExpiredUploads clock generateUploadId w)).
Proof.
  unfold System.cleanupExpiredUploads, cleanupExpiredUploads.
  cbn [Store.listExpiredSessions System.memoryStore
       Memory.createInMemoryStore].
  unfold bind at 1, onStore.
  destruct (Memory.listExpiredSessions clock (store w))
    as [s1 [expired|t]] eqn:Hlist;
    unfold Memory.listExpiredSessions, Memory.newDate,
      Memory.sessions_values in Hlist; run_simpl;
    injection Hlist as <- ?; [|done].
  eapply steps_trans;
    [|apply (forOf_steps (System.steps (D := D)));
      [apply steps_refl|apply steps_trans|apply cleanupExpiredOne_steps]].
  unfold System.steps. cbn. apply System.step_none.
Qed.

Lemma cleanupStaleUploads_steps maxAgeMs now w :
  System.steps (D := D) w
    (stateOf (System.cleanupStaleUploads clock generateUploadId
                      maxAgeMs now w)).
Proof.
  unfold System.cleanupStaleUploads, cleanupStaleUploads.
  cbn [Store.listAllSessions System.memoryStore
       Memory.createInMemoryStore].
  unfold bind at 1, onStore.
  destruct (Memory.listAllSessions (store w))
    as [s1 [allSessions|t]] eqn:Hlist;
    unfold Memory.listAllSessions, Memory.sessions_values in Hlist;
    run_simpl; injection Hlist as <- ?; [|done].
  eapply steps_trans;
    [|apply (forOf_steps (System.steps (D := D)));
      [apply steps_refl|apply steps_trans|apply cleanupStaleOne_steps]].
  unfold System.steps. cbn. apply System.step_none.
Qed.

Lemma serve_steps r w :
  System.steps (D := D) w (System.serve clock generateUploadId this r w).
Proof.
  destruct r; unfold System.serve.
  - apply initUpload_steps.
  - apply handleChunk_steps.
  - apply getStatus_steps.
  - apply completeUpload_steps.
  - apply abortUpload_steps.
  - apply cleanupExpiredUploads_steps.
  - apply cleanupStaleUploads_steps.
Qed.

(** Every state the service reaches has a consistent store. *)
Lemma reachable_consistent d0 w :
  System.reachable clock generateUploadId this d0 w →
  System.consistent (store w).
Proof.
  induction 1 as [|w r _ IH].
  - (split; [|split]); intros id stored; cbn; by rewrite lookup_empty.
  - pose proof (serve_steps r w) as Hstep. unfold System.steps in Hstep.
    destruct (store w) as [m c i].
    destruct (store (System.serve clock generateUploadId this r w))
      as [m' c' i'].
    by eapply storeStep_consistent.
Qed.

End StoreSteps.

(** ** getStatus *)

Section GetStatus.

Import Service.

Context {D : Type} {driverImpl : Driver.TorrinStorageDriver D}.
Context (clock : nat → Z) (generateUploadId : nat → string).
Context (this : TorrinService).

Lemma visibleSession_Some uploadId (w : World Memory.State D) session :
  System.visibleSession clock uploadId w = Some session →
  ∃ stored,
    Memory.sessions (store w) !! uploadId = Some stored
    ∧ Memory.session stored = session
    ∧ Memory.isExpired session (System.now (D := D) clock w) = false.
Proof.
  unfold System.visibleSession, System.now.
  rewrite getSession_result.
  destruct (Memory.sessions (store w) !! uploadId) as [stored|]; [|done].
  cbn. destruct (Memory.isExpired _ _) eqn:Hexp; [done|].
  intros [= <-]. eauto.
Qed.

(** C4.  In every state the service can reach, for every session that
    [getSession] returns, [getStatus] returns a status whose
    [receivedChunks] and [missingChunks] are each sorted ascending,
    disjoint, together exactly the integers of [[0, totalChunks)], with no
    more received chunks than [totalChunks]. *)
Theorem getStatus_partition (d0 : D) (w : World Memory.State D)
  (uploadId : string) (session : TorrinUploadSession) :
  System.reachable clock generateUploadId this d0 w →
  System.visibleSession clock uploadId w = Some session →
  ∃ st,
    resultOf (System.getStatus clock generateUploadId uploadId w) = Ok st
    ∧ st_totalChunks st = totalChunks session
    ∧ StronglySorted Z.lt (st_receivedChunks st)
    ∧ StronglySorted Z.lt (st_missingChunks st)
    ∧ (∀ i, ¬ (i ∈ st_receivedChunks st ∧ i ∈ st_missingChunks st))
    ∧ (∀ i, i ∈ st_receivedChunks st ∨ i ∈ st_missingChunks st
            ↔ 0 ≤ i < st_totalChunks st)
    ∧ Z.of_nat (length (st_receivedChunks st)) ≤ st_totalChunks st.
Proof.
  intros Hreach (stored & Hst & <- & Hexp)%visibleSession_Some.
  destruct (reachable_consistent _ _ _ _ _ Hreach) as (_ & Hrange & Htotal).
  destruct (Hrange _ _ Hst) as [Hnd Hin]. specialize (Htotal _ _ Hst).
  memory_unfold. unfold getStatus. run_unfold. memory_simpl.
  destruct (getSession_run clock uploadId (store w)) as [reads ->].
  rewrite Hst. unfold System.now in Hexp. memory_simpl. rewrite Hexp.
  memory_simpl.
  rewrite (listReceivedChunks_run _ _ stored) by done. memory_simpl.
  eexists. split; [done|]. cbn.
  set (total := totalChunks (Memory.session stored)) in *.
  set (received := merge_sort Z.le (Memory.receivedChunks stored)).
  assert (Hrec : ∀ i, i ∈ received ↔ i ∈ Memory.receivedChunks stored)
    by (intros; apply elem_of_sorted_received).
  split; [done|]. split; [by apply sorted_received_lt|].
  split; [apply getMissingChunks_sorted|].
  split; [|split].
  - intros i [Hi1 [_ Hi2]%elem_of_getMissingChunks]. done.
  - intros i. rewrite elem_of_getMissingChunks.
    destruct (decide (i ∈ received)) as [Hi|Hi].
    + pose proof (Hin i (proj1 (Hrec i) Hi)). fold total in H. tauto.
    + tauto.
  - assert (received ⊆+ seqZ 0 total) as Hsub.
    { apply NoDup_submseteq.
      - unfold received. by rewrite merge_sort_Permutation.
      - intros i Hi%Hrec%Hin. apply elem_of_seqZ. lia. }
    apply submseteq_length in Hsub. rewrite length_seqZ in Hsub. lia.
Qed.

End GetStatus.

(** ** The sweep of expired uploads *)

Section CleanupExpired.

Import Service.

Context {D : Type} {driverImpl : Driver.TorrinStorageDriver D}.
Context (clock : nat → Z) (generateUploadId : nat → string).

Lemma listExpiredSessions_run (st : Memory.State) :
  Memory.listExpiredSessions clock st =
  (Memory.mkState (Memory.sessions st) (S (Memory.clockReads st))
     (Memory.idReads st),
   Ok (Memory.session <$>
         filter (λ stored,
                   Memory.isExpired (Memory.session stored)
                     (clock (Memory.clockReads st)) = true)
                (map_to_list (Memory.sessions st)).*2)).
Proof. reflexivity. Qed.

Lemma elem_of_expired (st : Memory.State) (now : Z)
  (s : TorrinUploadSession) :
  s ∈ Memory.session <$>
        filter (λ stored, Memory.isExpired (Memory.session stored) now = true)
               (map_to_list (Memory.sessions st)).*2
  ↔ ∃ id stored,
      Memory.sessions st !! id = Some stored
      ∧ Memory.session stored = s
      ∧ Memory.isExpired s now = true.
Proof.
  rewrite list_elem_of_fmap. split.
  - intros (stored & -> & [Hexp Hin]%list_elem_of_filter).
    apply list_elem_of_fmap in Hin as ([id st'] & -> & Hin).
    apply elem_of_map_to_list in Hin. eauto.
  - intros (id & stored & Hst & <- & Hexp). exists stored. split; [done|].
    apply list_elem_of_filter. split; [done|].
    apply list_elem_of_fmap. exists (id, stored). split; [done|].
    by apply elem_of_map_to_list.
Qed.

Lemma cleanupExpired_swept (l : list TorrinUploadSession) :
  ∀ acc w,
    System.swept l w
      (stateOf (forOf l
                  (cleanupExpiredOne
                     (storeImpl := System.memoryStore clock generateUploadId))
                  acc w)).
Proof.
  induction l as [|x l IH]; intros acc w.
  - cbn. repeat split; try done.
    + by intros s ?%elem_of_nil.
    + exists []. by rewrite app_nil_r.
  - cbn [forOf]. unfold bind at 1.
    assert (∃ w1 acc1,
               cleanupExpiredOne
                 (storeImpl := System.memoryStore clock generateUploadId)
                 x acc w = (w1, Ok acc1)
               ∧ (Memory.sessions (store w1) = Memory.sessions (store w)
                  ∧ status x ≠ completed
                  ∨ Memory.sessions (store w1)
                    = delete (uploadId x) (Memory.sessions (store w)))
               ∧ ∃ calls,
                   log w1 = log w ++ calls
                   ∧ Forall (λ c, ∀ s, c = DriverAbortUpload s →
                                       status s ≠ completed) calls)
      as (w1 & acc1 & -> & Hsess & calls1 & Hlog1 & Hcalls1).
    { unfold cleanupExpiredOne. memory_unfold. run_unfold.
      destruct (decide (status x ≠ completed)) as [Hx|Hx]; cbn.
      - destruct (Driver.abortUpload x (storage w)) as [d1 [[]|t1]]; cbn.
        + do 2 eexists. split; [done|]. cbn. split; [by right|].
          rewrite <- app_assoc. eexists. split; [done|].
          repeat constructor; by intros ? [= <-].
        + do 2 eexists. split; [done|]. cbn. split; [by left|].
          eexists. split; [done|]. repeat constructor. by intros ? [= <-].
      - do 2 eexists. split; [done|]. cbn. split; [by right|].
        eexists. split; [done|]. by repeat constructor. }
    destruct (IH acc1 w1) as (Hother & Hdone & Hnone & calls & Hlog & Hcalls).
    split; [|split; [|split]].
    + intros id Hid. rewrite Hother by (intros s Hs; apply Hid; by right).
      destruct Hsess as [[-> _]| ->]; [done|].
      apply lookup_delete_ne. apply Hid. by left.
    + intros s [->|Hs]%elem_of_cons Hcompleted; [|by apply Hdone].
      apply Hnone. destruct Hsess as [[_ ?]| ->]; [done|].
      apply lookup_delete_eq.
    + intros id Hid. apply Hnone.
      destruct Hsess as [[-> _]| ->]; [done|].
      by apply lookup_delete_None; right.
    + exists (calls1 ++ calls). rewrite Hlog, Hlog1, app_assoc.
      split; [done|]. by apply Forall_app.
Qed.

Context (this : TorrinService).

(** C5, as the code has it.  On the in-memory store,
    [listExpiredSessions] returns every session whose [expiresAt] is set
    and before the clock reading, whatever its status.  A sweep never asks
    the driver to abort a [completed] session; it deletes the record of a
    [completed] session that is expired, and keeps the record of one that
    is not. *)
Theorem cleanupExpiredUploads_completed (d0 : D) (w : World Memory.State D) :
  System.reachable clock generateUploadId this d0 w →
  let now := System.now (D := D) clock w in
  let r := System.cleanupExpiredUploads clock generateUploadId w in
  (∃ expired,
      resultOf (Memory.listExpiredSessions clock (store w)) = Ok expired
      ∧ ∀ s, s ∈ expired
             ↔ ∃ id stored,
                 Memory.sessions (store w) !! id = Some stored
                 ∧ Memory.session stored = s
                 ∧ Memory.isExpired s now = true)
  ∧ (∀ s, DriverAbortUpload s ∈ log (stateOf r) →
          DriverAbortUpload s ∈ log w ∨ status s ≠ completed)
  ∧ (∀ id stored,
        Memory.sessions (store w) !! id = Some stored →
        status (Memory.session stored) = completed →
        if Memory.isExpired (Memory.session stored) now
        then Memory.sessions (store (stateOf r)) !! id = None
        else Memory.sessions (store (stateOf r)) !! id = Some stored).
Proof.
  intros Hreach. cbn zeta.
  destruct (reachable_consistent _ _ _ _ _ Hreach) as (Hkey & _ & _).
  split.
  { eexists. split; [by rewrite listExpiredSessions_run|].
    intros s. apply elem_of_expired. }
  unfold System.cleanupExpiredUploads, cleanupExpiredUploads.
  cbn [Store.listExpiredSessions System.memoryStore
       Memory.createInMemoryStore].
  unfold bind at 1, onStore. rewrite listExpiredSessions_run.
  match goal with
  | |- context [forOf ?l ?body ?acc ?w1] =>
      destruct (cleanupExpired_swept l acc w1)
        as (Hother & Hdone & Hnone & calls & Hlog & Hcalls);
      set (r := forOf l body acc w1) in *
  end.
  cbn [store log Memory.sessions] in *. split.
  - intros s. rewrite Hlog, <- app_assoc, !elem_of_app.
    intros [?|[Hin|Hin]]; [by left| |].
    + by apply list_elem_of_singleton in Hin.
    + right. rewrite Forall_forall in Hcalls. by eapply Hcalls.
  - intros id stored Hst Hcompleted. unfold System.now.
    destruct (Memory.isExpired _ _) eqn:Hexp.
    + rewrite <- (Hkey _ _ Hst). apply Hdone; [|done].
      apply elem_of_expired. eauto.
    + rewrite Hother; [done|].
      intros s (id' & stored' & Hst' & <- & Hexp')%elem_of_expired.
      rewrite (Hkey _ _ Hst'). intros ->. congruence.
Qed.

End CleanupExpired.

Lemma completedAndExpired_reachable :
  System.reachable (driverImpl := Examples.localDriver) Examples.clock
    Examples.generateUploadId Examples.shortLived Local.emptyFS
    Examples.completedAndExpired.
Proof.
  unfold Examples.completedAndExpired, Examples.serveShortLived. cbn [foldl].
  repeat apply System.reachable_serve. apply System.reachable_start.
Qed.

Lemma cleanupExpiredUploads_completed_witness :
  Memory.sessions (Service.store Examples.completedAndExpired) !! "u_0"
  = Some Examples.completedStored
  ∧ Memory.sessions
      (Service.store
         (stateOf (Examples.cleanupExpiredUploads
                     Examples.completedAndExpired))) !! "u_0"
    = None.
Proof.
  split; [vm_compute; reflexivity|].
  destruct (cleanupExpiredUploads_completed
              (driverImpl := Examples.localDriver)
              Examples.clock Examples.generateUploadId Examples.shortLived
              Local.emptyFS Examples.completedAndExpired
              completedAndExpired_reachable) as (_ & _ & H).
  specialize (H "u_0" Examples.completedStored).
  assert (Hexp : Memory.isExpired
                   (Memory.session Examples.completedStored)
                   (System.now (D := Local.FS) Examples.clock
                      Examples.completedAndExpired) = true)
    by (vm_compute; reflexivity).
  rewrite Hexp in H. apply H; [vm_compute; reflexivity|reflexivity].
Defined.

(** C5, as the claim has it, fails: a [completed] session whose time to
    live has passed is returned by [listExpiredSessions], and the sweep
    deletes its record. *)
Lemma cleanup_deletes_completed_counterexample :
  let w := Examples.completedAndExpired in
  ∃ stored,
    Memory.sessions (Service.store w) !! "u_0" = Some stored
    ∧ status (Memory.session stored) = completed
    ∧ resultOf (Memory.listExpiredSessions Examples.clock (Service.store w))
      = Ok [Memory.session stored]
    ∧ Memory.sessions
        (Service.store (stateOf (Examples.cleanupExpiredUploads w))) !! "u_0"
      = None.
Proof.
  cbn zeta. eexists. split; [vm_compute; reflexivity|].
  split; [reflexivity|]. split; vm_compute; reflexivity.
Qed.

(** ** Names of the staged chunks *)

Section ChunkNames.

Import Local.

Lemma digits_small (n : Z) (acc : string) :
  n < 10 → digits n acc = String (digitChar n) acc.
Proof.
  intros Hn. simp digits. destruct (Z_lt_dec n 10); [|lia]. by simp digits.
Qed.

Lemma digits_large (n : Z) (acc : string) :
  10 ≤ n → digits n acc = digits (n / 10) (String (digitChar (n mod 10)) acc).
Proof.
  intros Hn. rewrite digits_equation_1. destruct (Z_lt_dec n 10); [lia|].
  by simp digits.
Qed.

(** [digits] writes the least number [p ≥ 1] of digits that hold [n]. *)
Lemma digits_fixed (w : nat) :
  ∀ n acc, 0 ≤ n < 10 ^ Z.of_nat w →
    ∃ p : nat, (1 ≤ p)%nat ∧ (p ≤ Nat.max 1 w)%nat
               ∧ n < 10 ^ Z.of_nat p
               ∧ digits n acc = fixedDigits p n acc.
Proof.
  induction w as [|w IH]; intros n acc Hn.
  - exists 1%nat. cbn in Hn. repeat split; try lia.
    rewrite digits_small by lia. cbn. by rewrite Z.mod_small by lia.
  - destruct (decide (n < 10)) as [Hlt|Hge].
    + exists 1%nat. repeat split; try lia.
      rewrite digits_small by lia. cbn. by rewrite Z.mod_small by lia.
    + rewrite Nat2Z.inj_succ, Z.pow_succ_r in Hn by lia.
      destruct (IH (n / 10) (String (digitChar (n mod 10)) acc))
        as (p & Hp1 & Hp2 & Hp3 & Hp4).
      { split; [apply Z.div_pos; lia|].
        apply Z.div_lt_upper_bound; lia. }
      exists (S p). assert (1 ≤ w)%nat.
      { destruct w; [|lia]. cbn in Hn. lia. }
      repeat split; try lia.
      * rewrite Nat2Z.inj_succ, Z.pow_succ_r by lia.
        pose proof (Z.div_mod n 10 ltac:(lia)).
        pose proof (Z.mod_pos_bound n 10 ltac:(lia)). lia.
      * rewrite digits_large by lia. by rewrite Hp4.
Qed.

Lemma fixedDigits_length (w : nat) :
  ∀ n acc, String.length (fixedDigits w n acc)
           = (w + String.length acc)%nat.
Proof.
  induction w as [|w IH]; intros n acc; [done|].
  cbn [fixedDigits]. rewrite IH. cbn. lia.
Qed.

Lemma string_app_assoc (s1 s2 s3 : string) :
  ((s1 ++ s2) ++ s3 = s1 ++ (s2 ++ s3))%string.
Proof.
  induction s1 as [|c s1 IH]; [done|].
  change (String c ((s1 ++ s2) ++ s3) = String c (s1 ++ (s2 ++ s3)))%string.
  by f_equal.
Qed.

Lemma fixedDigits_acc (w : nat) :
  ∀ n acc, fixedDigits w n acc = (fixedDigits w n "" ++ acc)%string.
Proof.
  induction w as [|w IH]; intros n acc; [done|].
  cbn [fixedDigits].
  rewrite (IH (n / 10) (String (digitChar (n mod 10)) acc)).
  rewrite (IH (n / 10) (String (digitChar (n mod 10)) "")).
  by rewrite string_app_assoc.
Qed.

Lemma zeros_snoc (w : nat) (acc : string) :
  (zeros w ++ String "0" acc = String "0" (zeros w ++ acc))%string.
Proof.
  induction w as [|w IH]; [done|].
  change (String "0" (zeros w ++ String "0" acc)
          = String "0" (String "0" (zeros w ++ acc)))%string.
  by f_equal.
Qed.

Lemma fixedDigits_zero (w : nat) (acc : string) :
  fixedDigits w 0 acc = (zeros w ++ acc)%string.
Proof.
  revert acc. induction w as [|w IH]; intros acc; [done|].
  cbn [fixedDigits]. rewrite Z.div_0_l, Z.mod_0_l by lia. rewrite IH.
  apply zeros_snoc.
Qed.

(** More digits than needed are zeros in front. *)
Lemma fixedDigits_pad (p : nat) :
  ∀ (extra : nat) n acc, 0 ≤ n < 10 ^ Z.of_nat p →
    fixedDigits (extra + p) n acc
    = (zeros extra ++ fixedDigits p n acc)%string.
Proof.
  induction p as [|p IH]; intros extra n acc Hn.
  - cbn in Hn. assert (n = 0) as -> by lia.
    rewrite Nat.add_0_r. cbn. apply fixedDigits_zero.
  - rewrite Nat.add_succ_r. cbn [fixedDigits]. apply IH.
    rewrite Nat2Z.inj_succ, Z.pow_succ_r in Hn by lia.
    split; [apply Z.div_pos; lia|apply Z.div_lt_upper_bound; lia].
Qed.

(** Below [10^width], [padStart] yields exactly [width] digits. *)
Lemma padStart_toString (width : nat) (n : Z) :
  (1 ≤ width)%nat → 0 ≤ n < 10 ^ Z.of_nat width →
  padStart width (toString n) = fixedDigits width n "".
Proof.
  intros Hw Hn. unfold toString, padStart.
  destruct (Z.ltb_spec n 0); [lia|].
  destruct (digits_fixed width n "" Hn) as (p & Hp1 & Hp2 & Hp3 & ->).
  rewrite fixedDigits_length. cbn [String.length].
  replace width with ((width - p) + p)%nat at 2 by lia.
  rewrite fixedDigits_pad by lia. by rewrite Nat.add_0_r.
Qed.

Lemma digitChar_compare (x y : Z) :
  0 ≤ x < 10 → 0 ≤ y < 10 →
  Ascii.compare (digitChar x) (digitChar y) = Z.compare x y.
Proof.
  intros Hx Hy.
  assert (x = 0 ∨ x = 1 ∨ x = 2 ∨ x = 3 ∨ x = 4 ∨ x = 5 ∨ x = 6 ∨ x = 7
          ∨ x = 8 ∨ x = 9) as Hxs by lia.
  assert (y = 0 ∨ y = 1 ∨ y = 2 ∨ y = 3 ∨ y = 4 ∨ y = 5 ∨ y = 6 ∨ y = 7
          ∨ y = 8 ∨ y = 9) as Hys by lia.
  destruct Hxs as [->|[->|[->|[->|[->|[->|[->|[->|[->| ->]]]]]]]]];
    destruct Hys as [->|[->|[->|[->|[->|[->|[->|[->|[->| ->]]]]]]]]];
    reflexivity.
Qed.

(** Strings of [w] digits compare as the numbers they write. *)
Lemma fixedDigits_compare (w : nat) :
  ∀ a b acc1 acc2,
    String.compare (fixedDigits w a acc1) (fixedDigits w b acc2)
    = match Z.compare (a mod 10 ^ Z.of_nat w) (b mod 10 ^ Z.of_nat w) with
      | Eq => String.compare acc1 acc2
      | c => c
      end.
Proof.
  induction w as [|w IH]; intros a b acc1 acc2.
  - cbn. by rewrite !Z.mod_1_r.
  - cbn [fixedDigits]. rewrite IH. cbn [String.compare].
    rewrite digitChar_compare by (apply Z.mod_pos_bound; lia).
    rewrite Nat2Z.inj_succ, Z.pow_succ_r by lia.
    rewrite !(Z.rem_mul_r _ 10 (10 ^ Z.of_nat w)) by lia.
    pose proof (Z.mod_pos_bound a 10 ltac:(lia)).
    pose proof (Z.mod_pos_bound b 10 ltac:(lia)).
    set (A := (a / 10) mod 10 ^ Z.of_nat w).
    set (B := (b / 10) mod 10 ^ Z.of_nat w).
    destruct (Z.compare_spec A B) as [Heq|Hlt|Hgt].
    + rewrite Heq.
      destruct (Z.compare_spec (a mod 10) (b mod 10)) as [Heq'|Hlt'|Hgt'].
      * rewrite Heq'. by rewrite Z.compare_refl.
      * by rewrite (proj2 (Z.compare_lt_iff _ _)) by lia.
      * by rewrite (proj2 (Z.compare_gt_iff _ _)) by lia.
    + by rewrite (proj2 (Z.compare_lt_iff _ _)) by lia.
    + by rewrite (proj2 (Z.compare_gt_iff _ _)) by lia.
Qed.

Lemma compare_common_prefix (p s1 s2 : string) :
  String.compare (p ++ s1) (p ++ s2) = String.compare s1 s2.
Proof.
  induction p as [|c p IH]; [done|].
  change (match Ascii.compare c c with
          | Eq => String.compare (p ++ s1) (p ++ s2)
          | o => o
          end = String.compare s1 s2).
  unfold Ascii.compare. by rewrite N.compare_refl.
Qed.

(** Below a million, chunk names compare as their indices. *)
Lemma chunkFileName_compare (a b : Z) :
  0 ≤ a < 1000000 → 0 ≤ b < 1000000 →
  String.compare (chunkFileName a) (chunkFileName b) = Z.compare a b.
Proof.
  intros Ha Hb. unfold chunkFileName.
  rewrite !padStart_toString by (cbn; lia).
  rewrite compare_common_prefix, fixedDigits_compare. cbn [String.compare].
  change (10 ^ Z.of_nat 6) with 1000000.
  rewrite !Z.mod_small by lia. by destruct (a ?= b).
Qed.

Lemma chunkFileName_le (a b : Z) :
  0 ≤ a < 1000000 → 0 ≤ b < 1000000 → a ≤ b →
  String.le (chunkFileName a) (chunkFileName b).
Proof.
  intros Ha Hb Hab. unfold String.le, String.leb.
  rewrite chunkFileName_compare by done.
  destruct (Z.compare_spec a b); [done|done|lia].
Qed.

Lemma chunkFileName_inj (a b : Z) :
  0 ≤ a < 1000000 → 0 ≤ b < 1000000 →
  chunkFileName a = chunkFileName b → a = b.
Proof.
  intros Ha Hb Heq. apply Z.compare_eq.
  rewrite <- chunkFileName_compare, Heq by done.
  destruct (String.compare _ _) eqn:Hc; [done|..];
    pose proof (String.compare_antisym (chunkFileName b) (chunkFileName b))
      as Hanti; rewrite Hc in Hanti; discriminate.
Qed.

Lemma chunkFileNames_sorted (indices : list Z) :
  Forall (λ i, 0 ≤ i < 1000000) indices →
  StronglySorted Z.le indices →
  StronglySorted String.le (chunkFileName <$> indices).
Proof.
  intros Hrange Hsorted.
  induction Hsorted as [|i l Hl IH Hi]; [constructor|].
  apply Forall_cons in Hrange as [Hi_range Hl_range].
  cbn. constructor; [by apply IH|].
  apply Forall_fmap. rewrite Forall_forall in *.
  intros j Hj. cbn. apply chunkFileName_le; auto.
Qed.

(** Sorting the names of chunks below a million as strings lists the
    chunks by ascending index. *)
Lemma sort_chunkFileNames (names : list string) (indices : list Z) :
  Forall (λ i, 0 ≤ i < 1000000) indices →
  names ≡ₚ chunkFileName <$> indices →
  merge_sort String.le names = chunkFileName <$> merge_sort Z.le indices.
Proof.
  intros Hrange Hperm.
  apply (StronglySorted_unique String.le).
  - apply StronglySorted_merge_sort; apply _.
  - apply chunkFileNames_sorted.
    + by rewrite merge_sort_Permutation.
    + apply StronglySorted_merge_sort; apply _.
  - by rewrite !merge_sort_Permutation, Hperm.
Qed.

End ChunkNames.

(** ** finalizeUpload of the local driver *)

Section LocalFinalize.

Import Local.

Context (options : LocalStorageOptions).

Lemma mkdir_lookup (path dir : string) (fs : FS) d :
  dirs fs !! dir = Some d →
  ∃ fs', mkdir path fs = (fs', Ok tt)
         ∧ dirs fs' !! dir = Some d ∧ files fs' = files fs.
Proof.
  intros Hd. unfold mkdir.
  destruct (dirs fs !! path) eqn:Hp; eexists; (split; [done|]); [done|].
  cbn. split; [|done]. rewrite lookup_insert_ne; [done|]. congruence.
Qed.

Lemma concatChunks_run (dir : string) (fs : FS) (content : Z → list Byte.byte)
  (indices : list Z) :
  (∀ i, i ∈ indices →
        dirs fs !! dir ≫= (λ d, d !! chunkFileName i) = Some (content i)) →
  concatChunks dir (chunkFileName <$> indices) fs
  = (fs, Ok (mjoin (content <$> indices))).
Proof.
  intros Hfound. unfold concatChunks.
  enough (∀ written,
             Service.forOf (chunkFileName <$> indices)
               (λ chunkFile written,
                  bind (readFileIn dir chunkFile)
                    (λ content, ret (written ++ content)))
               written fs
             = (fs, Ok (written ++ mjoin (content <$> indices))))
    as Hgen by apply (Hgen []).
  induction indices as [|i l IH]; intros written.
  - cbn. unfold ret. by rewrite app_nil_r.
  - rewrite !fmap_cons. cbn [Service.forOf mjoin list_join].
    unfold bind at 1. unfold bind at 1.
    unfold readFileIn at 1. rewrite Hfound by (by left). unfold ret at 1.
    rewrite IH by (intros; apply Hfound; by right).
    by rewrite <- app_assoc.
Qed.

(** The part of C7 that holds: when every staged chunk has an index
    below a million, [finalizeUpload] writes the chunks to the final path
    in ascending order of their indices. *)
Lemma finalizeUpload_index_order (session : TorrinUploadSession) (fs : FS)
  (indices : list Z) (content : Z → list Byte.byte) :
  NoDup indices →
  Forall (λ i, 0 ≤ i < 1000000) indices →
  dirs fs !! getUploadTempDir options (uploadId session)
  = Some (list_to_map ((λ i, (chunkFileName i, content i)) <$> indices)) →
  let r := finalizeUpload options session fs in
  resultOf r = Ok (LocalLocation (getFinalPath options session))
  ∧ files (stateOf r) !! getFinalPath options session
    = Some (mjoin (content <$> merge_sort Z.le indices)).
Proof.
  intros Hnd Hrange Hdir. cbn zeta.
  set (staged := (λ i, (chunkFileName i, content i)) <$> indices) in *.
  assert (Hkeys : staged.*1 = chunkFileName <$> indices).
  { unfold staged. rewrite <- list_fmap_compose. done. }
  assert (Hnames : NoDup (chunkFileName <$> indices)).
  { apply NoDup_fmap_2_strong; [|done].
    rewrite Forall_forall in Hrange.
    intros i j Hi Hj. apply chunkFileName_inj; auto. }
  destruct (finalizeUpload options session fs) as [fs' r] eqn:Hrun.
  unfold finalizeUpload in Hrun. unfold tryCatch, bind at 1 in Hrun.
  destruct (mkdir_lookup (getFinalDir options session) _ fs _ Hdir)
    as (fs1 & Hmk & Hdir1 & Hfiles1).
  rewrite Hmk in Hrun. unfold bind at 1, readdir in Hrun.
  rewrite Hdir1 in Hrun.
  erewrite sort_chunkFileNames in Hrun; [|done|];
    [|by rewrite map_to_list_to_map, Hkeys by (by rewrite Hkeys)].
  unfold bind at 1 in Hrun.
  rewrite (concatChunks_run _ _ content) in Hrun.
  - unfold bind, writeFile, rmdir, ret in Hrun.
    injection Hrun as <- <-. unfold resultOf, stateOf.
    cbn [fst snd files]. by rewrite lookup_insert_eq.
  - intros i Hi. rewrite elem_of_sorted_received in Hi.
    rewrite Hdir1. cbn.
    apply elem_of_list_to_map_1; [by rewrite Hkeys|].
    unfold staged. apply list_elem_of_fmap. exists i.
    split; [reflexivity|exact Hi].
Qed.

End LocalFinalize.

(** C7 fails from chunk index 1,000,000 on: the name of that chunk has
    seven digits and sorts before the name of chunk 999,999 (and of every
    chunk from 100,001 on), in any listing of the staging directory; on the
    last two chunks of an upload of 1,000,001 chunks, [finalizeUpload]
    writes chunk 1,000,000 before chunk 999,999. *)
Theorem finalizeUpload_seven_digit_index_out_of_order :
  Local.chunkFileName 1000000 = "chunk_1000000"
  ∧ Local.chunkFileName 999999 = "chunk_999999"
  ∧ (∀ names l1 l2 l3,
        merge_sort String.le names
        = l1 ++ Local.chunkFileName 999999 :: l2
             ++ Local.chunkFileName 1000000 :: l3 → False)
  ∧ merge_sort String.le
      [Local.chunkFileName 999999; Local.chunkFileName 1000000]
    = [Local.chunkFileName 1000000; Local.chunkFileName 999999]
  ∧ (let r :=
       Local.finalizeUpload Examples.localOptions Examples.bigSession
         Examples.stagedLastTwo in
     resultOf r = Ok (LocalLocation "uploads/u_big")
     ∧ Local.files (stateOf r) !! "uploads/u_big"
       = Some [Byte.x42; Byte.x41]).
Proof.
  split; [by vm_compute|]. split; [by vm_compute|]. split; [|split].
  - intros names l1 l2 l3 Heq.
    pose proof (StronglySorted_merge_sort String.le names) as Hsorted.
    rewrite Heq in Hsorted.
    apply StronglySorted_app_1_r in Hsorted.
    apply StronglySorted_inv in Hsorted as [_ Hall].
    rewrite Forall_forall in Hall.
    specialize (Hall (Local.chunkFileName 1000000)).
    assert (Hle : String.le (Local.chunkFileName 999999)
                    (Local.chunkFileName 1000000)).
    { apply Hall. apply elem_of_app. right. by left. }
    vm_compute in Hle. done.
  - by vm_compute.
  - by vm_compute.
Qed.

(** ** The client's retry loop *)

Section Retry.

Import Client.

Context (retryAttempts retryDelay : Z) (env : Z → AttemptEnv).

(** The run from attempt number [attempt] on: [n] failed attempts, each
    followed by its sleep, and then either a cancellation seen before the
    next attempt, or one last attempt. *)
Lemma uploadChunkWithRetry_trace (attempt : Z) :
  let r := uploadChunkWithRetry retryAttempts retryDelay env attempt in
  ∃ n : nat,
    (∀ k, attempt ≤ k < attempt + Z.of_nat n → k < retryAttempts)
    ∧ (r = (retried retryDelay attempt n, Throw canceledError)
       ∧ (canceledOnEntry (env (attempt + Z.of_nat n)) = true
          ∨ canceledAfterPause (env (attempt + Z.of_nat n)) = true)
       ∨ ∃ result,
           r = (retried retryDelay attempt n
                  ++ [Attempt (attempt + Z.of_nat n)], result)
           ∧ (outcome (env (attempt + Z.of_nat n)) = Ok tt
              ∧ result = Ok tt
              ∨ ∃ error,
                  outcome (env (attempt + Z.of_nat n)) = Throw error
                  ∧ (canceledInCatch (env (attempt + Z.of_nat n)) = true
                     ∧ result = Throw canceledError
                     ∨ canceledInCatch (env (attempt + Z.of_nat n)) = false
                       ∧ retryAttempts ≤ attempt + Z.of_nat n
                       ∧ result = Throw error))).
Proof.
  cbn zeta.
  funelim (uploadChunkWithRetry retryAttempts retryDelay env attempt).
  5: { destruct H as (n & Hk & Hcase). exists (S n).
       replace (attempt + Z.of_nat (S n)) with (attempt + 1 + Z.of_nat n)
         by lia.
       split; [intros k Hk'; destruct (decide (k = attempt)); [lia|];
               apply Hk; lia|].
       cbn [retried]. unfold backoff.
       destruct Hcase as [[-> ?] | (result & -> & Hres)]; [by left|].
       right. by exists result. }
  all: exists 0%nat; cbn [retried app Z.of_nat]; rewrite ?Z.add_0_r;
    (split; [lia|]).
  - left. split; [done|]. by left.
  - left. split; [done|]. by right.
  - right. eexists. split; [done|]. left.
    match goal with H : outcome _ = Ok ?u |- _ => by destruct u end.
  - right. eexists. split; [done|]. right. eauto.
  - right. eexists. split; [done|]. right. eexists. split; [done|]. right.
    split; [done|]. split; [lia|done].
Qed.

Lemma attempts_retried (first : Z) (n : nat) :
  attempts (retried retryDelay first n) = Z.of_nat n.
Proof.
  unfold attempts. revert first.
  induction n as [|n IH]; intros first; [done|].
  cbn [retried]. rewrite filter_cons_True, filter_cons_False by done.
  cbn [length]. rewrite Nat2Z.inj_succ. specialize (IH (first + 1)). lia.
Qed.

Lemma attempts_app (l1 l2 : list Event) :
  attempts (l1 ++ l2) = attempts l1 + attempts l2.
Proof. unfold attempts. rewrite filter_app, length_app. lia. Qed.

Lemma attempts_one (k : Z) : attempts [Attempt k] = 1.
Proof. unfold attempts. by rewrite filter_cons_True. Qed.

Lemma elem_of_retried (first : Z) (n : nat) (k : Z) :
  Attempt k ∈ retried retryDelay first n ↔ first ≤ k < first + Z.of_nat n.
Proof.
  revert first. induction n as [|n IH]; intros first; cbn [retried].
  - rewrite elem_of_nil. lia.
  - rewrite !elem_of_cons, IH. split.
    + intros [[= ->]|[[=]|?]]; lia.
    + intros ?. destruct (decide (k = first)) as [->|]; [by left|].
      right. right. lia.
Qed.

(** An attempt of the retried part is followed by its sleep, and that
    by the next attempt, if any. *)
Lemma retried_split (first : Z) (n : nat) (k : Z) :
  first ≤ k < first + Z.of_nat n →
  ∃ pre m,
    retried retryDelay first n
    = pre ++ Attempt k :: Sleep (backoff retryDelay k)
          :: retried retryDelay (k + 1) m
    ∧ k + 1 + Z.of_nat m = first + Z.of_nat n.
Proof.
  revert first. induction n as [|n IH]; intros first Hk; [lia|].
  cbn [retried]. destruct (decide (k = first)) as [->|Hne].
  - exists [], n. split; [done|lia].
  - destruct (IH (first + 1)) as (pre & m & -> & Hm); [lia|].
    exists (Attempt first :: Sleep (backoff retryDelay first) :: pre), m.
    split; [done|lia].
Qed.

(** C9, as the code has it.  One chunk is attempted at most
    [max(1, retryAttempts)] times, the first attempt included.  After a
    failed attempt number [k < retryAttempts] with cancellation not set,
    the client sleeps exactly [retryDelay * 2^(k-1)] ms, and attempt
    [k + 1] is the next thing it does (unless it finds the upload
    canceled after the sleep).  When attempt number
    [max(1, retryAttempts)] fails with cancellation not set, its error is
    what the caller gets; if no attempt succeeds and the upload is never
    canceled, that attempt is reached. *)
Theorem retry_schedule :
  let r := uploadChunkWithRetry retryAttempts retryDelay env 1 in
  let events := fst r in
  let last := Z.max 1 retryAttempts in
  attempts events ≤ last
  ∧ (∀ k error,
        Attempt k ∈ events → k < retryAttempts →
        outcome (env k) = Throw error →
        canceledInCatch (env k) = false →
        ∃ pre post,
          events
          = pre ++ Attempt k :: Sleep (retryDelay * 2 ^ (k - 1)) :: post
          ∧ (post = [] ∨ ∃ post', post = Attempt (k + 1) :: post'))
  ∧ (∀ error,
        Attempt last ∈ events →
        outcome (env last) = Throw error →
        canceledInCatch (env last) = false →
        snd r = Throw error)
  ∧ ((∀ k, canceledOnEntry (env k) = false
           ∧ canceledAfterPause (env k) = false
           ∧ canceledInCatch (env k) = false
           ∧ ∃ error, outcome (env k) = Throw error) →
     attempts events = last
     ∧ ∃ error, outcome (env last) = Throw error ∧ snd r = Throw error).
Proof.
  cbn zeta.
  destruct (uploadChunkWithRetry_trace 1) as (n & Hk & Hcase).
  cbn zeta in Hcase.
  destruct Hcase as [[-> Hcanceled] | (result & -> & Hfinal)];
    cbn [fst snd].
  - (* canceled before an attempt *)
    split; [|split; [|split]].
    + rewrite attempts_retried. destruct n; [lia|].
      specialize (Hk (Z.of_nat (S n))). lia.
    + intros k error Hin%elem_of_retried _ _ _.
      destruct (retried_split 1 n k Hin) as (pre & m & -> & Hm).
      exists pre, (retried retryDelay (k + 1) m). split; [done|].
      destruct m; [by left|right]. cbn [retried]. eauto.
    + intros error Hin%elem_of_retried. specialize (Hk _ Hin). lia.
    + intros Hall. destruct (Hall (1 + Z.of_nat n)) as (? & ? & _).
      destruct Hcanceled; congruence.
  - (* one last attempt *)
    assert (Hbound : Z.of_nat n + 1 ≤ Z.max 1 retryAttempts).
    { destruct n; [lia|]. specialize (Hk (Z.of_nat (S n))). lia. }
    split; [|split; [|split]].
    + rewrite attempts_app, attempts_retried, attempts_one. lia.
    + intros k error [Hin%elem_of_retried|Hin]%elem_of_app Hlt Hout Hcatch.
      * destruct (retried_split 1 n k Hin) as (pre & m & -> & Hm).
        exists pre, (retried retryDelay (k + 1) m
                       ++ [Attempt (1 + Z.of_nat n)]).
        split; [by rewrite <- app_assoc|].
        right. destruct m; cbn [retried app]; [|eauto].
        replace (1 + Z.of_nat n) with (k + 1) by lia. eauto.
      * apply list_elem_of_singleton in Hin as [= ->]. exfalso.
        destruct Hfinal as [[Hok _]|(e & He & [[Hc _]|(_ & Hge & _)])];
          [congruence|congruence|lia].
    + intros error [Hin%elem_of_retried|Hin]%elem_of_app Hout Hcatch.
      * specialize (Hk _ Hin). lia.
      * apply list_elem_of_singleton in Hin as [= Hlast].
        rewrite Hlast in *.
        destruct Hfinal as [[Hok _]|(e & He & [[Hc _]|(_ & _ & ->)])];
          congruence.
    + intros Hall.
      destruct (Hall (1 + Z.of_nat n)) as (_ & _ & Hcatch & error & Hout).
      destruct Hfinal as [[Hok _]|(e & He & [[Hc _]|(_ & Hge & ->)])];
        [congruence|congruence|].
      assert (Z.max 1 retryAttempts = 1 + Z.of_nat n) as -> by lia.
      split; [|eauto].
      rewrite attempts_app, attempts_retried, attempts_one. lia.
Qed.

End Retry.

(** C9, as the claim has it, fails for [retryAttempts = 0]: the chunk is
    attempted once. *)
Lemma retry_attempts_counterexample :
  ¬ (∀ (retryAttempts retryDelay : Z) (env : Z → Client.AttemptEnv),
        Client.attempts
          (fst (Client.uploadChunkWithRetry retryAttempts retryDelay env 1))
        ≤ retryAttempts).
Proof.
  intros H.
  specialize (H 0 1000
                (λ _, Client.mkAttemptEnv false false
                        (Throw (Untyped "network")) false)).
  vm_compute in H. by apply H.
Qed.

(** ** The theorems at work on concrete runs *)

Lemma twoOfThree_reachable :
  System.reachable (driverImpl := Examples.localDriver) Examples.clock
    Examples.generateUploadId Examples.service Local.emptyFS
    Examples.twoOfThree.
Proof.
  unfold Examples.twoOfThree, Examples.serve. cbn [foldl].
  repeat apply System.reachable_serve. apply System.reachable_start.
Qed.

(** A chunk index past the last one is refused by the fourth check. *)
Lemma handleChunk_checks_witness :
  resultOf (Examples.handleChunk (Service.mkChunkInput "u_0" 3 75712 None [])
              Examples.twoOfThree)
  = Throw (Typed (mkError CHUNK_OUT_OF_RANGE (IndexDetails 3 3))).
Proof.
  destruct (handleChunk_checks
              (storeImpl := System.memoryStore Examples.clock
                              Examples.generateUploadId)
              (driverImpl := Examples.localDriver)
              (Service.mkChunkInput "u_0" 3 75712 None [])
              Examples.twoOfThree) as [_ H].
  edestruct H as (_ & _ & Hrange); [vm_compute; reflexivity|].
  destruct Hrange as [Hout _]; [vm_compute; discriminate..|].
  unfold Examples.handleChunk, System.handleChunk.
  rewrite Hout; [vm_compute; reflexivity|].
  vm_compute. intros [_ Hlt]. discriminate Hlt.
Defined.


(** Scenario "complete with gap": chunks 0 and 2 are in, chunk 1 is not. *)
Lemma completeUpload_missing_chunks_witness :
  let r := Examples.completeUpload "u_0" None Examples.twoOfThree in
  ∃ stored missing,
    Memory.sessions (Service.store Examples.twoOfThree) !! "u_0" = Some stored
    ∧ resultOf r
      = Throw (Typed (mkError MISSING_CHUNKS (MissingDetails missing)))
    ∧ (∀ i, i ∈ missing
            ↔ 0 ≤ i < totalChunks (Memory.session stored)
              ∧ i ∉ Memory.receivedChunks stored)
    ∧ Memory.sessions (Service.store (stateOf r)) !! "u_0" = Some stored.
Proof.
  cbn zeta. eexists.
  edestruct (completeUpload_missing_chunks
               (driverImpl := Examples.localDriver)
               Examples.clock Examples.generateUploadId "u_0" None
               Examples.twoOfThree)
    as (missing & Hr & _ & Hin & _ & _ & _ & _ & Hst).
  - vm_compute. reflexivity.
  - vm_compute. reflexivity.
  - vm_compute. discriminate.
  - vm_compute. discriminate.
  - exists 1. split; [vm_compute; split; [discriminate|reflexivity]|].
    cbn. intros Hin.
    repeat (apply elem_of_cons in Hin as [Hin|Hin]; [discriminate Hin|]).
    by apply elem_of_nil in Hin.
  - exists missing. split; [vm_compute; reflexivity|].
    split; [exact Hr|]. split; [exact Hin|exact Hst].
Defined.

(** Scenario "out-of-order upload", after chunks 2 and 0. *)
Lemma getStatus_partition_witness :
  ∃ session st,
    System.visibleSession Examples.clock "u_0" Examples.twoOfThree
    = Some session
    ∧ resultOf (Examples.getStatus "u_0" Examples.twoOfThree) = Ok st
    ∧ st_receivedChunks st = [0; 2]
    ∧ st_missingChunks st = [1]
    ∧ StronglySorted Z.lt (st_receivedChunks st)
    ∧ StronglySorted Z.lt (st_missingChunks st)
    ∧ (∀ i, i ∈ st_receivedChunks st ∨ i ∈ st_missingChunks st
            ↔ 0 ≤ i < st_totalChunks st)
    ∧ Z.of_nat (length (st_receivedChunks st)) ≤ st_totalChunks st.
Proof.
  eexists.
  edestruct (getStatus_partition (driverImpl := Examples.localDriver)
               Examples.clock Examples.generateUploadId Examples.service
               Local.emptyFS Examples.twoOfThree "u_0")
    as (st & Hr & _ & Hrec & Hmiss & _ & Hunion & Hlen).
  - apply twoOfThree_reachable.
  - vm_compute. reflexivity.
  - exists st. split; [vm_compute; reflexivity|]. split; [exact Hr|].
    assert (st = mkStatus "u_0" in_progress (Some "video.bin") 600000 262144 3
                   [0; 2] [1]) as Hst.
    { revert Hr. vm_compute. by intros [= <-]. }
    split; [by rewrite Hst|]. split; [by rewrite Hst|]. eauto.
Defined.

(** At the exact moment [expiresAt = now] the session is still there. *)
Lemma getSession_expiry_witness :
  resultOf (Memory.getSession (λ _, 1000) "u_1" Examples.expiringStore)
  = Ok (Some Examples.expiringSession)
  ∧ resultOf (Memory.getSession (λ _, 1001) "u_1" Examples.expiringStore)
    = Ok None.
Proof.
  split.
  - destruct (getSession_expiry (λ _, 1000) "u_1" Examples.expiringStore)
      as (_ & H & _).
    destruct (H (Memory.mkStored Examples.expiringSession []) 1000
                eq_refl eq_refl) as [_ Hat].
    apply Hat. cbn. lia.
  - destruct (getSession_expiry (λ _, 1001) "u_1" Examples.expiringStore)
      as (_ & H & _).
    destruct (H (Memory.mkStored Examples.expiringSession []) 1000
                eq_refl eq_refl) as [Hpast _].
    apply Hpast. cbn. lia.
Defined.

(** Three attempts that fail, with the default options: sleeps of 1000 ms
    and 2000 ms, and the third error is the caller's. *)
Lemma retry_schedule_witness :
  let env := λ _, Client.mkAttemptEnv false false
                    (Throw (Untyped "network")) false in
  let r := Client.uploadChunkWithRetry DEFAULT_RETRY_ATTEMPTS
             DEFAULT_RETRY_DELAY env 1 in
  fst r = [Client.Attempt 1; Client.Sleep 1000; Client.Attempt 2;
           Client.Sleep 2000; Client.Attempt 3]
  ∧ Client.attempts (fst r) = 3
  ∧ ∃ error, snd r = Throw error.
Proof.
  cbn zeta. split; [vm_compute; reflexivity|].
  destruct (retry_schedule DEFAULT_RETRY_ATTEMPTS DEFAULT_RETRY_DELAY
              (λ _, Client.mkAttemptEnv false false
                      (Throw (Untyped "network")) false))
    as (_ & _ & _ & Hall).
  destruct Hall as (Hattempts & error & _ & Hresult).
  - intros k. cbn. eauto.
  - split; [exact Hattempts|]. eauto.
Defined.

(** ** The client's chunker *)

Section ClientChunks.

Import Core Chunker.

Context (fileSize chunkSize : Z).
Context (file_pos : 0 < fileSize) (chunk_pos : 0 < chunkSize).

Let totalChunks : Z := calculateTotalChunks fileSize chunkSize.

Lemma index_lt_totalChunks (k : Z) :
  k * chunkSize < fileSize ↔ k < totalChunks.
Proof.
  pose proof (calculateTotalChunks_ceiling fileSize chunkSize chunk_pos) as H.
  cbn zeta in H. fold totalChunks in H. split; intros Hk.
  - apply (Z.mul_lt_mono_pos_r chunkSize); lia.
  - assert (k * chunkSize ≤ (totalChunks - 1) * chunkSize)
      by (apply Z.mul_le_mono_pos_r; lia).
    lia.
Qed.

Lemma getChunkInfo_size_inner (k : Z) :
  0 ≤ k < totalChunks - 1 →
  ci_size (getChunkInfo chunkSize fileSize k) = chunkSize.
Proof.
  intros Hk. unfold getChunkInfo. cbn.
  assert ((k + 1) * chunkSize < fileSize)
    by (apply index_lt_totalChunks; lia).
  lia.
Qed.

Lemma getChunkInfo_size_last :
  ci_size (getChunkInfo chunkSize fileSize (totalChunks - 1))
  = fileSize - (totalChunks - 1) * chunkSize.
Proof.
  unfold getChunkInfo. cbn.
  pose proof (calculateTotalChunks_ceiling fileSize chunkSize chunk_pos) as H.
  cbn zeta in H. fold totalChunks in H. lia.
Qed.

Lemma getChunkInfo_bounds (k : Z) :
  0 ≤ k < totalChunks →
  0 ≤ ci_start (getChunkInfo chunkSize fileSize k)
    ≤ ci_end (getChunkInfo chunkSize fileSize k)
  ∧ ci_end (getChunkInfo chunkSize fileSize k) ≤ fileSize.
Proof.
  intros Hk. pose proof (proj2 (index_lt_totalChunks k) (proj2 Hk)).
  unfold getChunkInfo. cbn. nia.
Qed.

Lemma getChunkInfo_expected (k : Z) :
  0 ≤ k < totalChunks →
  getExpectedChunkSize k totalChunks fileSize chunkSize
  = Some (ci_size (getChunkInfo chunkSize fileSize k)).
Proof.
  intros Hk. destruct (decide (k = totalChunks - 1)) as [->|Hne].
  - rewrite getExpectedChunkSize_last by lia.
    rewrite getChunkInfo_size_last. f_equal.
    by apply last_chunk_remainder.
  - rewrite getExpectedChunkSize_inner by lia.
    by rewrite getChunkInfo_size_inner by lia.
Qed.

(** The sizes of the chunks the client cuts add up to the file. *)
Lemma getChunkInfo_sizes_sum :
  sumZ (ci_size ∘ getChunkInfo chunkSize fileSize <$> seqZ 0 totalChunks)
  = fileSize.
Proof.
  pose proof (calculateTotalChunks_ge_1 fileSize chunkSize file_pos chunk_pos)
    as Hge. fold totalChunks in Hge.
  rewrite seqZ_snoc, fmap_app, sumZ_app by done.
  rewrite (sumZ_constant _ chunkSize) by
    (try lia; intros; unfold compose; apply getChunkInfo_size_inner; lia).
  change (sumZ (ci_size ∘ getChunkInfo chunkSize fileSize
                  <$> [totalChunks - 1]))
    with (ci_size (getChunkInfo chunkSize fileSize (totalChunks - 1)) + 0).
  rewrite getChunkInfo_size_last. lia.
Qed.

(** With [fileSize + chunkSize] a safe integer, every number the
    client's chunk arithmetic computes ([index * chunkSize],
    [start + chunkSize], [end - start], the sums of sizes) is an integer
    of at most [2^53], where the arithmetic of doubles is exact; and the
    one division, in [Math.ceil(fileSize / chunkSize)], rounds to the
    ceiling. *)
Lemma totalChunks_safe :
  fileSize + chunkSize ≤ Float64.MAX_SAFE_INTEGER →
  Float64.calculateTotalChunks fileSize chunkSize = Some totalChunks.
Proof. intros Hsafe. apply calculateTotalChunks_safe; lia. Qed.

(** X1.  For a file and a chunk size with [fileSize + chunkSize] a safe
    integer (at most [2^53 - 1]), a chunk that the client cuts at a
    valid index has exactly the size the service expects for that index
    ([getChunkInfo] against [getExpectedChunkSize], with [totalChunks]
    the [Math.ceil(fileSize / chunkSize)] of the machine); it is not
    empty and not longer than [chunkSize], it starts at
    [index * chunkSize], and it ends at the end of the file exactly when
    it is the last chunk. *)
Theorem getChunkInfo_matches_expected_size (index : Z) :
  fileSize + chunkSize ≤ Float64.MAX_SAFE_INTEGER →
  0 ≤ index < totalChunks →
  let info := getChunkInfo chunkSize fileSize index in
  Float64.calculateTotalChunks fileSize chunkSize = Some totalChunks
  ∧ getExpectedChunkSize index totalChunks fileSize chunkSize
    = Some (ci_size info)
  ∧ 0 < ci_size info ≤ chunkSize
  ∧ ci_start info = index * chunkSize
  ∧ ci_end info ≤ fileSize
  ∧ (ci_end info = fileSize ↔ index = totalChunks - 1).
Proof.
  intros Hsafe Hk info. split; [by apply totalChunks_safe|].
  split; [by apply getChunkInfo_expected|].
  pose proof (proj2 (index_lt_totalChunks index) (proj2 Hk)) as Hlt.
  pose proof (index_lt_totalChunks (index + 1)) as Hnext.
  subst info. unfold getChunkInfo. cbn.
  repeat split; lia.
Qed.

(** The loop of [calculateChunks], from any iteration on: it exits when
    the fuel covers the chunks that are left, with the chunks that
    [getChunkInfo] describes, and has not exited otherwise. *)
Lemma calculateChunks_loop_run (fuel : nat) :
  ∀ (k : Z) (chunks : list ChunkInfo),
    0 ≤ k ≤ totalChunks →
    calculateChunks_loop fuel fileSize chunkSize chunks k
      (Z.min (k * chunkSize) fileSize)
    = if decide (Z.to_nat (totalChunks - k) ≤ fuel)%nat
      then Some (chunks ++ (getChunkInfo chunkSize fileSize
                              <$> seqZ k (totalChunks - k)))
      else None.
Proof.
  pose proof (calculateTotalChunks_ceiling fileSize chunkSize chunk_pos) as Hc.
  cbn zeta in Hc. fold totalChunks in Hc.
  assert (Hexit : ∀ k chunks fuel,
             0 ≤ k ≤ totalChunks → ¬ k < totalChunks →
             Some chunks
             = if decide (Z.to_nat (totalChunks - k) ≤ fuel)%nat
               then Some (chunks ++ (getChunkInfo chunkSize fileSize
                                       <$> seqZ k (totalChunks - k)))
               else None).
  { intros k chunks fuel' Hk Hnlt. destruct (decide _); [|lia].
    rewrite seqZ_nil by lia. by rewrite app_nil_r. }
  induction fuel as [|fuel IH]; intros k chunks Hk.
  - cbn [calculateChunks_loop].
    destruct (Z.ltb_spec (Z.min (k * chunkSize) fileSize) fileSize) as [Hlt|Hge].
    + assert (k < totalChunks) by (apply index_lt_totalChunks; lia).
      destruct (decide _); [lia|done].
    + apply Hexit; [done|]. rewrite <- index_lt_totalChunks. lia.
  - cbn [calculateChunks_loop].
    destruct (Z.ltb_spec (Z.min (k * chunkSize) fileSize) fileSize) as [Hlt|Hge].
    + assert (k < totalChunks) by (apply index_lt_totalChunks; lia).
      cbn zeta.
      replace (Z.min (Z.min (k * chunkSize) fileSize + chunkSize) fileSize)
        with (Z.min ((k + 1) * chunkSize) fileSize) by lia.
      rewrite IH by lia.
      destruct (decide (Z.to_nat (totalChunks - (k + 1)) ≤ fuel)%nat);
        destruct (decide (Z.to_nat (totalChunks - k) ≤ S fuel)%nat);
        try lia; [|done].
      f_equal. rewrite <- app_assoc. f_equal.
      rewrite (seqZ_cons k) by lia. cbn.
      replace (Z.pred (totalChunks - k)) with (totalChunks - (k + 1)) by lia.
      replace (Z.succ k) with (k + 1) by lia.
      f_equal. unfold getChunkInfo. f_equal; lia.
    + apply Hexit; [done|]. rewrite <- index_lt_totalChunks. lia.
Qed.

Lemma calculateChunks_run (fuel : nat) :
  calculateChunks fuel fileSize chunkSize
  = if decide (Z.to_nat totalChunks ≤ fuel)%nat
    then Some (getChunkInfo chunkSize fileSize <$> seqZ 0 totalChunks)
    else None.
Proof.
  pose proof (calculateTotalChunks_ge_1 fileSize chunkSize file_pos chunk_pos)
    as Hge. fold totalChunks in Hge.
  unfold calculateChunks.
  pose proof (calculateChunks_loop_run fuel 0 [] ltac:(lia)) as Hrun.
  rewrite Z.mul_0_l, Z.min_l, Z.sub_0_r in Hrun by lia. exact Hrun.
Qed.

(** X2.  With a positive [chunkSize] and [fileSize + chunkSize] a safe
    integer (at most [2^53 - 1]), [calculateChunks] returns after
    [totalChunks] iterations of its loop, where [totalChunks] is the
    [Math.ceil(fileSize / chunkSize)] of the machine, and the chunks it
    returns are those of [getChunkInfo] at the indices
    [0 .. totalChunks - 1], in that order: the list has [totalChunks]
    entries, and their sizes add up to [fileSize]. *)
Theorem calculateChunks_lists_every_chunk (fuel : nat) :
  fileSize + chunkSize ≤ Float64.MAX_SAFE_INTEGER →
  (Z.to_nat totalChunks ≤ fuel)%nat →
  ∃ chunks,
    Float64.calculateTotalChunks fileSize chunkSize = Some totalChunks
    ∧ calculateChunks fuel fileSize chunkSize = Some chunks
    ∧ chunks = (getChunkInfo chunkSize fileSize <$> seqZ 0 totalChunks)
    ∧ Z.of_nat (length chunks) = totalChunks
    ∧ sumZ (ci_size <$> chunks) = fileSize.
Proof.
  intros Hsafe Hfuel. eexists. split; [by apply totalChunks_safe|].
  rewrite calculateChunks_run.
  destruct (decide _); [|lia]. split; [reflexivity|]. split; [reflexivity|].
  pose proof (calculateTotalChunks_ge_1 fileSize chunkSize file_pos chunk_pos)
    as Hge. fold totalChunks in Hge.
  split.
  - rewrite length_fmap, length_seqZ. lia.
  - rewrite <- list_fmap_compose. apply getChunkInfo_sizes_sum.
Qed.

Lemma mapM_total {A B : Type} (g : A → B) (l : list A) :
  mapM (λ x, Some (g x)) l = Some (g <$> l).
Proof. induction l as [|x l IH]; [done|]. cbn. by rewrite IH. Qed.

(** Reading the chunks of [getChunkInfo] off a byte sequence of length
    [fileSize], one after the other. *)
Lemma slices_take (bytes : list Byte.byte) (n : nat) :
  Z.of_nat (length bytes) = fileSize →
  mjoin ((λ info, slice bytes (ci_start info) (ci_end info))
           <$> (getChunkInfo chunkSize fileSize <$> seqZ 0 (Z.of_nat n)))
  = take (Z.to_nat (Z.min (Z.of_nat n * chunkSize) fileSize)) bytes.
Proof.
  intros Hlen. induction n as [|n IH].
  - change (Z.of_nat 0) with 0. rewrite Z.mul_0_l, Z.min_l by lia. done.
  - rewrite seqZ_S, !fmap_app, join_app, IH.
    cbn [fmap list_fmap mjoin list_join].
    rewrite app_nil_r. unfold getChunkInfo. cbn [ci_start ci_end].
    unfold slice, relativeIndex. rewrite Hlen.
    rewrite Z.add_0_l.
    destruct (Z.ltb_spec (Z.of_nat n * chunkSize) 0); [nia|].
    destruct (Z.ltb_spec
                (Z.min (Z.of_nat n * chunkSize + chunkSize) fileSize) 0);
      [nia|].
    rewrite take_take_drop. f_equal. nia.
Qed.

(** X4.  Cutting a source with the chunks of [calculateChunks] and
    putting the pieces that [getChunkBlob] reads one after the other
    gives back the bytes of the source, whatever the kind of source
    ([File], [Blob], [ArrayBuffer] or [Uint8Array]). *)
Theorem chunks_reassemble_source (source : Source) (bytes : list Byte.byte)
  (fuel : nat) (chunks : list ChunkInfo) :
  contents source = Some bytes →
  Z.of_nat (length bytes) = fileSize →
  calculateChunks fuel fileSize chunkSize = Some chunks →
  mjoin <$> mapM (getChunkBlob source) chunks = Some bytes.
Proof.
  intros Hsrc Hlen Hrun. rewrite calculateChunks_run in Hrun.
  destruct (decide _); [|done]. injection Hrun as <-.
  pose proof (calculateTotalChunks_ge_1 fileSize chunkSize file_pos chunk_pos)
    as Hge. fold totalChunks in Hge.
  pose proof (calculateTotalChunks_ceiling fileSize chunkSize chunk_pos) as Hc.
  cbn zeta in Hc. fold totalChunks in Hc.
  assert (getChunkBlob source
          = λ info, Some (slice bytes (ci_start info) (ci_end info))) as ->.
  { destruct source; cbn in Hsrc; try done; by injection Hsrc as ->. }
  rewrite mapM_total. cbn [fmap option_fmap option_map]. f_equal.
  rewrite <- (Z2Nat.id totalChunks) by lia.
  rewrite slices_take by done. rewrite Z2Nat.id by lia.
  rewrite Z.min_r by lia. rewrite <- Hlen, Nat2Z.id. apply firstn_all.
Qed.

Lemma calculateBytesUploaded_sum (received : list Z) :
  (∀ i, i ∈ received → 0 ≤ i < totalChunks) →
  calculateBytesUploaded received chunkSize fileSize
  = sumZ (ci_size ∘ getChunkInfo chunkSize fileSize <$> received).
Proof.
  intros Hrange. unfold calculateBytesUploaded. fold totalChunks.
  enough (∀ bytes,
             foldl (λ bytes index,
                      if index =? totalChunks - 1
                      then bytes + (if Z.rem fileSize chunkSize =? 0
                                    then chunkSize
                                    else Z.rem fileSize chunkSize)
                      else bytes + chunkSize) bytes received
             = bytes + sumZ (ci_size ∘ getChunkInfo chunkSize fileSize
                               <$> received)) as Hgen by apply (Hgen 0).
  induction received as [|i l IH]; intros bytes; [cbn; lia|].
  cbn [foldl]. rewrite IH by (intros; apply Hrange; by right).
  rewrite fmap_cons. cbn [sumZ foldr].
  fold (sumZ (ci_size ∘ getChunkInfo chunkSize fileSize <$> l)).
  assert (0 ≤ i < totalChunks) as Hi by (apply Hrange; by left).
  unfold compose at 2.
  destruct (Z.eqb_spec i (totalChunks - 1)) as [->|Hne].
  - rewrite getChunkInfo_size_last.
    rewrite last_chunk_remainder by done. fold totalChunks. lia.
  - rewrite getChunkInfo_size_inner by lia. lia.
Qed.

Lemma sumZ_Permutation (l l' : list Z) : l ≡ₚ l' → sumZ l = sumZ l'.
Proof.
  unfold sumZ.
  induction 1 as [|x l l' _ IH|x y l|l l' l'' _ IH1 _ IH2]; cbn in *; lia.
Qed.

Lemma received_pending_all (received : list Z) :
  NoDup received →
  (∀ i, i ∈ received → 0 ≤ i < totalChunks) →
  received ++ pendingChunks totalChunks received ≡ₚ seqZ 0 totalChunks.
Proof.
  intros Hnd Hrange. unfold pendingChunks.
  rewrite <- (filter_app_complement (λ i, i ∈ received) (seqZ 0 totalChunks))
    at 2.
  apply Permutation_app; [|done].
  apply NoDup_Permutation; [done|apply NoDup_filter, NoDup_seqZ|].
  intros i. rewrite list_elem_of_filter, elem_of_seqZ.
  split; [|tauto]. intros Hi. split; [done|]. apply Hrange in Hi. lia.
Qed.

Lemma chunk_sizes_pos (l : list Z) :
  (∀ i, i ∈ l → 0 ≤ i < totalChunks) →
  l = [] ∨ 0 < sumZ (ci_size ∘ getChunkInfo chunkSize fileSize <$> l).
Proof.
  induction l as [|i l IH]; intros Hl; [by left|right].
  assert (0 < (ci_size ∘ getChunkInfo chunkSize fileSize) i) as Hi.
  { pose proof (proj2 (index_lt_totalChunks i)
                  (proj2 (Hl i ltac:(by left)))).
    pose proof (proj1 (Hl i ltac:(by left))).
    unfold getChunkInfo, compose. cbn. nia. }
  assert (l = [] ∨ 0 < sumZ (ci_size ∘ getChunkInfo chunkSize fileSize <$> l))
    as [->|Hl'] by (apply IH; intros; apply Hl; by right).
  - change (0 < (ci_size ∘ getChunkInfo chunkSize fileSize) i + 0). lia.
  - change (0 < (ci_size ∘ getChunkInfo chunkSize fileSize) i
                + sumZ (ci_size ∘ getChunkInfo chunkSize fileSize <$> l)).
    lia.
Qed.

(** X5.  For [fileSize + chunkSize] a safe integer (at most
    [2^53 - 1]) and [totalChunks] the [Math.ceil(fileSize / chunkSize)]
    of the machine: on resuming, the bytes that [calculateBytesUploaded]
    credits
    for the chunks the server has already received, together with the
    sizes of the chunks still queued ([pendingChunks], each counted with
    its [getChunkInfo] size as [uploadChunkWithRetry] does), are exactly
    [fileSize]: a resumed upload ends with [bytesUploaded = totalBytes].
    The credited bytes never exceed [fileSize], and reach it exactly when
    nothing is left to upload. *)
Theorem resumed_upload_accounts_for_every_byte (received : list Z) :
  fileSize + chunkSize ≤ Float64.MAX_SAFE_INTEGER →
  NoDup received →
  (∀ i, i ∈ received → 0 ≤ i < totalChunks) →
  let credited := calculateBytesUploaded received chunkSize fileSize in
  let queued := pendingChunks totalChunks received in
  Float64.calculateTotalChunks fileSize chunkSize = Some totalChunks
  ∧ credited + sumZ (ci_size ∘ getChunkInfo chunkSize fileSize <$> queued)
    = fileSize
  ∧ 0 ≤ credited ≤ fileSize
  ∧ (credited = fileSize ↔ queued = []).
Proof.
  intros Hsafe Hnd Hrange credited queued.
  split; [by apply totalChunks_safe|].
  assert (Hsum : credited
                 + sumZ (ci_size ∘ getChunkInfo chunkSize fileSize <$> queued)
                 = fileSize).
  { subst credited. rewrite calculateBytesUploaded_sum by done.
    rewrite <- sumZ_app, <- fmap_app.
    etrans; [|apply getChunkInfo_sizes_sum]. apply sumZ_Permutation.
    subst queued. by rewrite received_pending_all. }
  assert (Hq : ∀ i, i ∈ queued → 0 ≤ i < totalChunks).
  { intros i Hi. subst queued. unfold pendingChunks in Hi.
    apply list_elem_of_filter in Hi as [_ Hi].
    apply elem_of_seqZ in Hi. lia. }
  assert (Hcred : credited = sumZ (ci_size ∘ getChunkInfo chunkSize fileSize
                                     <$> received))
    by (subst credited; by apply calculateBytesUploaded_sum).
  split; [done|].
  destruct (chunk_sizes_pos queued Hq) as [Hnil|Hqpos];
    destruct (chunk_sizes_pos received Hrange) as [Hr|Hr].
  - rewrite Hnil in *. cbn in Hsum. split; [lia|]. split; [done|lia].
  - rewrite Hnil in *. cbn in Hsum. split; [lia|]. split; [done|lia].
  - rewrite Hr in Hcred. cbn in Hcred. split; [lia|].
    split; [lia|]. intros Hn. rewrite Hn in Hqpos. cbn in Hqpos. lia.
  - split; [lia|]. split; [lia|].
    intros Hn. rewrite Hn in Hqpos. cbn in Hqpos. lia.
Qed.

End ClientChunks.

(** X3.  With a [chunkSize] that is zero or negative and a file that is
    not empty, the loop of [calculateChunks] never exits: whatever the
    number of iterations, it has not returned. *)
Theorem calculateChunks_never_returns (fileSize chunkSize : Z) (fuel : nat) :
  0 < fileSize → chunkSize ≤ 0 →
  Chunker.calculateChunks fuel fileSize chunkSize = None.
Proof.
  intros Hf Hc. unfold Chunker.calculateChunks.
  enough (∀ chunks index start,
             start < fileSize →
             Chunker.calculateChunks_loop fuel fileSize chunkSize chunks
               index start = None) as Hgen by (apply Hgen; lia).
  induction fuel as [|fuel IH]; intros chunks index start Hs;
    cbn [Chunker.calculateChunks_loop];
    destruct (Z.ltb_spec start fileSize); try lia; [done|].
  apply IH. lia.
Qed.

(** The last chunk of a file of 600000 bytes cut at 262144 has the 75712
    bytes the service expects. *)
Lemma getChunkInfo_matches_expected_size_witness :
  Float64.calculateTotalChunks 600000 262144 = Some 3
  ∧ Core.getExpectedChunkSize 2 3 600000 262144 = Some 75712
  ∧ Chunker.ci_size (Chunker.getChunkInfo 262144 600000 2) = 75712.
Proof.
  destruct (getChunkInfo_matches_expected_size 600000 262144
              ltac:(lia) ltac:(lia) 2) as (H0 & H & _).
  - vm_compute. discriminate.
  - vm_compute. split; [discriminate|reflexivity].
  - split; [exact H0|]. split; [exact H|reflexivity].
Defined.

Lemma calculateChunks_lists_every_chunk_witness :
  ∃ chunks,
    Float64.calculateTotalChunks 600000 262144 = Some 3
    ∧ Chunker.calculateChunks 3 600000 262144 = Some chunks
    ∧ Z.of_nat (length chunks) = 3
    ∧ Core.sumZ (Chunker.ci_size <$> chunks) = 600000.
Proof.
  destruct (calculateChunks_lists_every_chunk 600000 262144
              ltac:(lia) ltac:(lia) 3) as (chunks & H0 & H1 & _ & H3 & H4).
  - vm_compute. discriminate.
  - vm_compute. lia.
  - exists chunks. split; [exact H0|]. split; [exact H1|].
    split; [exact H3|exact H4].
Defined.

Lemma calculateChunks_never_returns_witness :
  Chunker.calculateChunks 1000 5 0 = None.
Proof. apply (calculateChunks_never_returns 5 0 1000); lia. Defined.

Lemma chunks_reassemble_source_witness :
  ∃ chunks,
    Chunker.calculateChunks 3 5 2 = Some chunks
    ∧ mjoin <$> mapM (Chunker.getChunkBlob
                        (Chunker.BlobSource Examples.fiveBytes)) chunks
      = Some Examples.fiveBytes.
Proof.
  eexists. split; [vm_compute; reflexivity|].
  apply (chunks_reassemble_source 5 2 ltac:(lia) ltac:(lia)
           (Chunker.BlobSource Examples.fiveBytes) Examples.fiveBytes 3);
    reflexivity.
Defined.

(** Chunks 2 and 0 of three are on the server: 337856 bytes are credited
    and chunk 1 is queued. *)
Lemma resumed_upload_accounts_for_every_byte_witness :
  Chunker.calculateBytesUploaded [2; 0] 262144 600000 = 337856
  ∧ Chunker.pendingChunks 3 [2; 0] = [1]
  ∧ 337856 + Core.sumZ (Chunker.ci_size ∘ Chunker.getChunkInfo 262144 600000
                          <$> [1]) = 600000.
Proof.
  destruct (resumed_upload_accounts_for_every_byte 600000 262144
              ltac:(lia) ltac:(lia) [2; 0]) as (_ & H & _).
  - vm_compute. discriminate.
  - apply (bool_decide_unpack _). vm_compute. reflexivity.
  - intros i Hi. apply elem_of_cons in Hi as [->|Hi];
      [vm_compute; split; [discriminate|reflexivity]|].
    apply list_elem_of_singleton in Hi as ->.
    vm_compute. split; [discriminate|reflexivity].
  - split; [reflexivity|]. split; [reflexivity|exact H].
Defined.

(** ** Numbers in requests: [toString] and [parseInt] *)

Section ParseInt.

Import Local Js.

Lemma digitValue_digitChar (d : Z) :
  0 ≤ d < 10 → digitValue (digitChar d) = Some d.
Proof.
  intros Hd.
  assert (d = 0 ∨ d = 1 ∨ d = 2 ∨ d = 3 ∨ d = 4 ∨ d = 5 ∨ d = 6 ∨ d = 7
          ∨ d = 8 ∨ d = 9) as Hds by lia.
  destruct Hds as [->|[->|[->|[->|[->|[->|[->|[->|[->| ->]]]]]]]]];
    reflexivity.
Qed.

(** A string that starts with a digit is read from its first character. *)
Lemma parseInt_digit_first (c : ascii) (s : string) :
  is_Some (digitValue c) →
  parseInt (String c s) = readDigits (String c s) None.
Proof.
  intros [d Hd]. unfold parseInt. cbn [trimStart].
  assert (isWhiteSpace c = false ∧ Ascii.eqb c "-" = false
          ∧ Ascii.eqb c "+" = false) as (-> & -> & ->); [|done].
  destruct c as [[] [] [] [] [] [] [] []]; try discriminate Hd; done.
Qed.

Lemma readDigits_junk (junk : string) (acc : option Z) :
  (∀ c s, junk = String c s → digitValue c = None) →
  readDigits junk acc = acc.
Proof.
  intros Hjunk. destruct junk as [|c s]; [done|].
  cbn. by rewrite (Hjunk c s).
Qed.

(** Reading [p + 1] digits in a row. *)
Lemma readDigits_fixedDigits (p : nat) :
  ∀ n rest acc, 0 ≤ n →
    readDigits (fixedDigits (S p) n rest) acc
    = readDigits rest
        (Some (default 0 acc * 10 ^ Z.of_nat (S p)
               + n mod 10 ^ Z.of_nat (S p))).
Proof.
  induction p as [|p IH]; intros n rest acc Hn.
  - cbn [fixedDigits readDigits].
    rewrite digitValue_digitChar by (apply Z.mod_pos_bound; lia).
    do 2 f_equal. change (10 ^ Z.of_nat 1) with 10. lia.
  - change (fixedDigits (S (S p)) n rest)
      with (fixedDigits (S p) (n / 10) (String (digitChar (n mod 10)) rest)).
    rewrite IH by (apply Z.div_pos; lia).
    cbn [readDigits].
    rewrite digitValue_digitChar by (apply Z.mod_pos_bound; lia).
    do 2 f_equal. cbn [default].
    rewrite (Nat2Z.inj_succ (S p)), Z.pow_succ_r by lia.
    rewrite (Z.rem_mul_r n 10 (10 ^ Z.of_nat (S p))) by lia.
    unfold id. ring.
Qed.

Lemma fixedDigits_head (p : nat) :
  ∀ n rest, 0 ≤ n →
    ∃ d s, 0 ≤ d < 10 ∧ fixedDigits (S p) n rest = String (digitChar d) s.
Proof.
  induction p as [|p IH]; intros n rest Hn.
  - exists (n mod 10), rest. split; [apply Z.mod_pos_bound; lia|done].
  - change (fixedDigits (S (S p)) n rest)
      with (fixedDigits (S p) (n / 10) (String (digitChar (n mod 10)) rest)).
    apply IH. apply Z.div_pos; lia.
Qed.

Lemma allDigits_fixedDigits (p : nat) :
  ∀ n rest, 0 ≤ n →
    allDigits (fixedDigits p n rest) = allDigits rest.
Proof.
  induction p as [|p IH]; intros n rest Hn; [done|].
  cbn [fixedDigits]. rewrite IH by (apply Z.div_pos; lia).
  cbn [allDigits].
  rewrite digitValue_digitChar by (apply Z.mod_pos_bound; lia).
  rewrite bool_decide_eq_true_2 by eauto. done.
Qed.

(** [digits] writes some [p + 1] digits, whatever follows them. *)
Lemma digits_as_fixed_bounded (w : nat) :
  ∀ n, 0 ≤ n < 10 ^ Z.of_nat w →
    ∃ p : nat, n < 10 ^ Z.of_nat (S p)
               ∧ ∀ rest, digits n rest = fixedDigits (S p) n rest.
Proof.
  induction w as [|w IH]; intros n Hn.
  - exists 0%nat. change (10 ^ Z.of_nat 0) with 1 in Hn.
    split; [change (10 ^ Z.of_nat 1) with 10; lia|]. intros rest.
    rewrite digits_small by lia. cbn. by rewrite Z.mod_small by lia.
  - destruct (decide (n < 10)) as [Hlt|Hge].
    + exists 0%nat. split; [change (10 ^ Z.of_nat 1) with 10; lia|].
      intros rest. rewrite digits_small by lia. cbn.
      by rewrite Z.mod_small by lia.
    + rewrite Nat2Z.inj_succ, Z.pow_succ_r in Hn by lia.
      destruct (IH (n / 10)) as (p & Hp & Hdigits).
      { split; [apply Z.div_pos; lia|].
        apply Z.div_lt_upper_bound; lia. }
      exists (S p). split.
      * rewrite (Nat2Z.inj_succ (S p)), Z.pow_succ_r by lia.
        pose proof (Z.div_mod n 10 ltac:(lia)).
        pose proof (Z.mod_pos_bound n 10 ltac:(lia)). lia.
      * intros rest. rewrite digits_large by lia. by rewrite Hdigits.
Qed.

Lemma digits_as_fixed (n : Z) :
  0 ≤ n →
  ∃ p : nat, n < 10 ^ Z.of_nat (S p)
             ∧ ∀ rest, digits n rest = fixedDigits (S p) n rest.
Proof.
  intros Hn. apply (digits_as_fixed_bounded (Z.to_nat n + 1)).
  split; [done|]. rewrite Nat2Z.inj_add, Z2Nat.id by lia.
  pose proof (Z.pow_gt_lin_r 10 (n + 1) ltac:(lia) ltac:(lia)). lia.
Qed.

Lemma digits_app (n : Z) (rest : string) :
  0 ≤ n → (digits n "" ++ rest)%string = digits n rest.
Proof.
  intros Hn. destruct (digits_as_fixed n Hn) as (p & _ & Hdigits).
  by rewrite !Hdigits, <- fixedDigits_acc.
Qed.

(** What [parseInt] makes of the digits of [n] followed by anything
    that does not go on with a digit. *)
Lemma readDigits_digits (n : Z) (junk : string) :
  0 ≤ n →
  (∀ c s, junk = String c s → digitValue c = None) →
  parseInt (digits n junk) = Some n
  ∧ readDigits (digits n junk) None = Some n.
Proof.
  intros Hn Hjunk. destruct (digits_as_fixed n Hn) as (p & Hp & Hdigits).
  rewrite Hdigits.
  assert (readDigits (fixedDigits (S p) n junk) None = Some n) as Hread.
  { rewrite readDigits_fixedDigits by done.
    rewrite readDigits_junk by done.
    cbn [default]. rewrite Z.mod_small by lia. done. }
  split; [|done].
  destruct (fixedDigits_head p n junk Hn) as (d & s & Hd & Hhead).
  rewrite Hhead in *. rewrite parseInt_digit_first; [done|].
  rewrite digitValue_digitChar by done. eauto.
Qed.

(** [parseInt] reads back what [toString] writes, and stops at the
    first character that is not a digit. *)
Lemma parseInt_toString (n : Z) (junk : string) :
  (∀ c s, junk = String c s → digitValue c = None) →
  parseInt (toString n ++ junk) = Some n.
Proof.
  intros Hjunk. unfold toString. destruct (Z.ltb_spec n 0) as [Hneg|Hpos].
  - change (String "-" (digits (- n) "") ++ junk)%string
      with (String "-" (digits (- n) "" ++ junk))%string.
    rewrite digits_app by lia.
    change (parseInt (String "-" (digits (- n) junk)))
      with (Z.opp <$> readDigits (digits (- n) junk) None).
    destruct (readDigits_digits (- n) junk ltac:(lia) Hjunk) as [_ ->].
    cbn. f_equal. lia.
  - rewrite digits_app by lia. by apply readDigits_digits.
Qed.

Lemma string_app_nil_r (s : string) : (s ++ "")%string = s.
Proof.
  induction s as [|c s IH]; [done|].
  change (String c (s ++ "") = String c s)%string. by rewrite IH.
Qed.

Lemma parseInt_toString_exact (n : Z) : parseInt (toString n) = Some n.
Proof.
  rewrite <- (string_app_nil_r (toString n)). by apply parseInt_toString.
Qed.

Lemma toString_inj (a b : Z) : toString a = toString b → a = b.
Proof.
  intros Heq. pose proof (parseInt_toString_exact a) as Ha.
  rewrite Heq, parseInt_toString_exact in Ha. by injection Ha.
Qed.

End ParseInt.

(** ** The resume key of a file *)

Section FileKey.

Import Local Js Chunker.

Lemma allDigits_toString (n : Z) : 0 ≤ n → allDigits (toString n) = true.
Proof.
  intros Hn. unfold toString. destruct (Z.ltb_spec n 0); [lia|].
  destruct (digits_as_fixed n Hn) as (p & _ & ->).
  by rewrite allDigits_fixedDigits.
Qed.

Lemma allDigits_dash (s d : string) :
  allDigits (s ++ String "-" d) = false.
Proof.
  induction s as [|c s IH]; [done|].
  change (allDigits (String c (s ++ String "-" d)) = false).
  cbn [allDigits]. rewrite IH. apply andb_false_r.
Qed.

(** A string is cut in one way only at the dash in front of its final
    run of digits. *)
Lemma split_at_last_dash (a : string) :
  ∀ b d1 d2,
    allDigits d1 = true → allDigits d2 = true →
    (a ++ String "-" d1 = b ++ String "-" d2)%string →
    a = b ∧ d1 = d2.
Proof.
  induction a as [|c a IH]; intros [|c' b] d1 d2 H1 H2 Heq.
  - by injection Heq as ->.
  - injection Heq as <- ->. by rewrite allDigits_dash in H1.
  - injection Heq as -> <-. by rewrite allDigits_dash in H2.
  - injection Heq as -> Heq.
    destruct (IH b d1 d2 H1 H2 Heq) as [-> ->]. done.
Qed.

(** X6.  Two files get the same resume key only if they agree on name,
    size and modification time: a dash inside a file name cannot make
    the keys of different files collide. *)
Theorem getFileKey_injective (name1 name2 : string) (lastModified1 lastModified2 : Z)
  (bytes1 bytes2 : list Byte.byte) (size1 size2 : Z)
  (fileName1 fileName2 : option string) :
  0 ≤ size1 → 0 ≤ size2 → 0 ≤ lastModified1 → 0 ≤ lastModified2 →
  getFileKey (FileSource name1 lastModified1 bytes1) size1 fileName1
  = getFileKey (FileSource name2 lastModified2 bytes2) size2 fileName2 →
  name1 = name2 ∧ size1 = size2 ∧ lastModified1 = lastModified2.
Proof.
  intros Hs1 Hs2 Hl1 Hl2. unfold getFileKey.
  assert (Hkey : ∀ n s l : string,
             (n ++ "-" ++ s ++ "-" ++ l
              = (n ++ String "-" s) ++ String "-" l)%string).
  { intros n s l. rewrite string_app_assoc. reflexivity. }
  rewrite !Hkey. intros Heq.
  apply split_at_last_dash in Heq as [Heq Hl];
    [|by apply allDigits_toString..].
  apply split_at_last_dash in Heq as [Hn Hs];
    [|by apply allDigits_toString..].
  by apply toString_inj in Hl, Hs.
Qed.

End FileKey.

Lemma getFileKey_injective_witness :
  Chunker.getFileKey (Chunker.FileSource "a-1.txt" 7 []) 5 None = "a-1.txt-5-7"
  ∧ ("a-1.txt" = "a-1.txt" ∧ 5 = 5 ∧ 7 = 7).
Proof.
  split; [reflexivity|].
  apply (getFileKey_injective "a-1.txt" "a-1.txt" 7 7 [] [] 5 5 None None);
    (lia || reflexivity).
Defined.

(** ** The router and the client's HTTP calls *)

Section Routes.

Import Http.

Context {S D : Type}.
Context {storeImpl : Store.TorrinUploadStore S}.
Context {driverImpl : Driver.TorrinStorageDriver D}.
Context (service : Service.TorrinService).

Lemma errorCodeToStatusCode_ge_400 (c : TorrinErrorCode) :
  400 ≤ errorCodeToStatusCode c < 600.
Proof. destruct c; cbn; lia. Qed.

Lemma error_response_not_ok (err : Thrown) :
  ok (Express.handleError err) = false.
Proof.
  unfold ok. destruct err as [[c d]|m]; cbn [Express.handleError res_status].
  - pose proof (errorCodeToStatusCode_ge_400 c). cbn [code].
    destruct (Z.leb_spec (errorCodeToStatusCode c) 299); [lia|].
    apply andb_false_r.
  - done.
Qed.

(** The error the client throws for an error of the service: the code
    of a [TorrinError] with what JSON carries of its details;
    [INTERNAL_ERROR] for any other exception. *)
Let seen (err : Thrown) : HttpClient.ClientError :=
  match err with
  | Typed e => HttpClient.mkClientError (code e) (toJSON (details e))
  | Untyped _ => HttpClient.mkClientError INTERNAL_ERROR JsonNone
  end.

Lemma handleResponse_handleError (err : Thrown) :
  HttpClient.handleResponse (Express.handleError err)
  = HttpClient.Rejected (seen err).
Proof.
  unfold HttpClient.handleResponse. rewrite error_response_not_ok.
  by destruct err as [[c d]|m].
Qed.

Lemma abort_handleError (err : Thrown) :
  HttpClient.abort (Express.handleError err)
  = if decide (HttpClient.ce_code (seen err) = UPLOAD_NOT_FOUND)
    then HttpClient.Resolved tt
    else HttpClient.Rejected (seen err).
Proof.
  unfold HttpClient.abort. rewrite handleResponse_handleError.
  rewrite error_response_not_ok. cbn [negb andb].
  destruct err as [[c d]|m]; [|done]. cbn.
  destruct c; done.
Qed.

(** X9.  How an error of the service reaches the client.  The response
    [handleError] sends is never [ok] (its status is in [400 .. 599]),
    and [handleResponse] throws a [TorrinError] with the code of the one
    the service threw and with what JSON carries of its details: the
    expected and actual size, the index, the missing chunks arrive as
    they were; of a cause (the [Error] a driver caught) only the JSON
    image arrives, not the error nor its message.  Any other exception
    arrives as [INTERNAL_ERROR] without details.  [abort] swallows the
    error exactly when its code is [UPLOAD_NOT_FOUND]. *)
Theorem errors_reach_the_client (err : Thrown) :
  let response := Express.handleError err in
  let thrown :=
    match err with
    | Typed e =>
        HttpClient.mkClientError (code e)
          match details e with
          | NoDetails => JsonNone
          | SizeDetails expected actual => JsonSize expected actual
          | IndexDetails index total => JsonIndex index total
          | MissingDetails missingChunks => JsonMissing missingChunks
          | CauseDetails _ => JsonCause
          end
    | Untyped _ => HttpClient.mkClientError INTERNAL_ERROR JsonNone
    end in
  400 ≤ res_status response < 600
  ∧ HttpClient.handleResponse response = HttpClient.Rejected thrown
  ∧ HttpClient.abort response
    = if decide (HttpClient.ce_code thrown = UPLOAD_NOT_FOUND)
      then HttpClient.Resolved tt
      else HttpClient.Rejected thrown.
Proof.
  intros response thrown.
  assert (thrown = seen err) as -> by (by destruct err as [[c []]|m]).
  split.
  { subst response. destruct err as [[c d]|m]; cbn; [|lia].
    apply errorCodeToStatusCode_ge_400. }
  split; [apply handleResponse_handleError|apply abort_handleError].
Qed.

(** A handler that runs one call of the service and wraps its result. *)
Lemma handler_run {A : Type} (call : Run (Service.World S D) A)
  (respond : A → Response) (w : Service.World S D) :
  tryCatch (let* a := call in ret (respond a))
           (λ err, ret (Express.handleError err)) w
  = (stateOf (call w),
     Ok match resultOf (call w) with
        | Ok a => respond a
        | Throw err => Express.handleError err
        end).
Proof.
  unfold tryCatch, bind, ret, stateOf, resultOf.
  by destruct (call w) as [w' [a|err]].
Qed.

Context (options : Express.TorrinExpressOptions S D).

(** X7.  A chunk that the client sends with [uploadChunk] reaches
    [handleChunk] with the index, the size and the bytes it was sent
    with: the router reads the index back from the path and the size
    back from [Content-Length].  The client sees the outcome of
    [handleChunk]: the body of the 200 response, or a [TorrinError] with
    the code of the error that was thrown and what JSON carries of its
    details (see [toJSON]; [INTERNAL_ERROR] for an exception that is no
    [TorrinError]).  (A router without [onBeforeChunk]; a chunk that is
    not empty.) *)
Theorem uploadChunk_reaches_handleChunk (uploadId : string) (index : Z)
  (chunk : Driver.Readable) (hash : option string) (w : Service.World S D) :
  Express.onBeforeChunk options = None →
  chunk ≠ [] →
  let req := HttpClient.uploadChunkRequest uploadId index chunk hash in
  let served :=
    Service.handleChunk
      (Service.mkChunkInput uploadId index (Z.of_nat (length chunk))
         (chunk_hash req) chunk) w in
  ∃ response,
    Express.putChunk options req w = (stateOf served, Ok (Some response))
    ∧ HttpClient.handleResponse response
      = match resultOf served with
        | Ok _ =>
            HttpClient.Resolved (ChunkBody uploadId index in_progress)
        | Throw (Typed e) =>
            HttpClient.Rejected
              (HttpClient.mkClientError (code e) (toJSON (details e)))
        | Throw (Untyped _) =>
            HttpClient.Rejected
              (HttpClient.mkClientError INTERNAL_ERROR JsonNone)
        end.
Proof.
  intros Hhook Hchunk req served.
  unfold Express.putChunk. rewrite Hhook.
  unfold tryCatch, bind at 1, ret at 1.
  subst req. unfold HttpClient.uploadChunkRequest.
  cbn [params_index content_length params_uploadId chunk_hash req_body
       default from_option id].
  unfold id. rewrite !parseInt_toString_exact.
  destruct (Z.leb_spec (Z.of_nat (length chunk)) 0) as [Hle|Hgt].
  { destruct chunk; [done|cbn in Hle; lia]. }
  subst served. cbn [chunk_hash].
  unfold bind, ret, stateOf, resultOf.
  destruct (Service.handleChunk _ w) as [w' [[]|err]]; cbn [fst snd].
  - eexists. split; [reflexivity|]. done.
  - eexists. split; [reflexivity|].
    rewrite handleResponse_handleError. by destruct err.
Qed.

(** X8.  The chunk route answers 400 [INVALID_REQUEST] without calling
    the service (the state is left as it was) when the index in the path
    holds no number, and when [Content-Length] is missing, zero or
    negative. *)
Theorem putChunk_rejects_malformed_requests (req : ChunkRequest)
  (w : Service.World S D) :
  Express.onBeforeChunk options = None →
  Js.parseInt (params_index req) = None
  ∨ (is_Some (Js.parseInt (params_index req))
     ∧ (content_length req = None
        ∨ ∃ size, content_length req ≫= Js.parseInt = Some size
                  ∧ size ≤ 0)) →
  Express.putChunk options req w
  = (w, Ok (Some (mkResponse 400 (ErrorBody INVALID_REQUEST NoDetails)))).
Proof.
  intros Hhook Hbad. unfold Express.putChunk. rewrite Hhook.
  unfold tryCatch, bind, ret, throwError, throw.
  destruct Hbad as [->|[[index ->] Hsize]]; [done|].
  destruct Hsize as [->|(size & Hsize & Hle)]; [done|].
  destruct (content_length req) as [header|]; [|done].
  cbn in Hsize. cbn [default from_option]. unfold id. rewrite Hsize.
  destruct (Z.leb_spec size 0); [done|lia].
Qed.

(** X10.  The other routes hand the request to the service and the
    outcome back to the client.  [POST /] answers 201 with the fields of
    the created session, [GET /:uploadId/status] and
    [POST /:uploadId/complete] answer 200 with what the service returned,
    [DELETE /:uploadId] answers 204; and when the service throws, the
    state is the one the service left and the client is thrown a
    [TorrinError] with the same code and what JSON carries of the
    details (see [toJSON]; [INTERNAL_ERROR] without details for an
    exception that is no [TorrinError]).  (A router without
    callbacks.) *)
Theorem router_hands_over_to_service (w : Service.World S D) :
  Express.onBeforeInit options = None →
  Express.onBeforeStatus options = None →
  Express.onBeforeComplete options = None →
  let thrown (err : Thrown) : HttpClient.ClientError :=
    match err with
    | Typed e => HttpClient.mkClientError (code e) (toJSON (details e))
    | Untyped _ => HttpClient.mkClientError INTERNAL_ERROR JsonNone
    end in
  (∀ input,
      let served := Service.initUpload service input w in
      ∃ response,
        Express.postInit service options input w
        = (stateOf served, Ok response)
        ∧ match resultOf served with
          | Ok session =>
              res_status response = 201
              ∧ ∃ body, HttpClient.handleResponse response
                        = HttpClient.Resolved (InitBody body)
                        ∧ ir_uploadId body = uploadId session
                        ∧ ir_chunkSize body = chunkSize session
                        ∧ ir_totalChunks body = totalChunks session
                        ∧ ir_status body = status session
          | Throw err =>
              HttpClient.handleResponse response
              = HttpClient.Rejected (thrown err)
          end)
  ∧ (∀ uploadId,
        let served := Service.getStatus uploadId w in
        ∃ response,
          Express.getStatus options uploadId w
          = (stateOf served, Ok response)
          ∧ HttpClient.handleResponse response
            = match resultOf served with
              | Ok status => HttpClient.Resolved (StatusBody status)
              | Throw err => HttpClient.Rejected (thrown err)
              end)
  ∧ (∀ uploadId hash,
        let served := Service.completeUpload uploadId hash w in
        ∃ response,
          Express.postComplete options uploadId hash w
          = (stateOf served, Ok response)
          ∧ HttpClient.handleResponse response
            = match resultOf served with
              | Ok result => HttpClient.Resolved (CompleteBody result)
              | Throw err => HttpClient.Rejected (thrown err)
              end)
  ∧ (∀ uploadId,
        let served := Service.abortUpload uploadId w in
        ∃ response,
          Express.deleteUpload uploadId w = (stateOf served, Ok response)
          ∧ HttpClient.abort response
            = match resultOf served with
              | Ok _ => HttpClient.Resolved tt
              | Throw err =>
                  if decide (HttpClient.ce_code (thrown err)
                             = UPLOAD_NOT_FOUND)
                  then HttpClient.Resolved tt
                  else HttpClient.Rejected (thrown err)
              end).
Proof.
  intros Hinit Hstatus Hcomplete thrown.
  change thrown with seen. clear thrown.
  pose proof handleResponse_handleError as Hseen.
  split; [|split; [|split]].
  - intros input served. eexists.
    unfold Express.postInit. rewrite Hinit. cbn [Express.afterHook].
    rewrite handler_run. split; [reflexivity|].
    subst served. destruct (resultOf _) as [session|err]; [|apply Hseen].
    split; [done|]. eexists. split; [reflexivity|]. done.
  - intros uploadId served. eexists.
    unfold Express.getStatus. rewrite Hstatus. cbn [Express.afterHook].
    rewrite handler_run. split; [reflexivity|].
    subst served. destruct (resultOf _) as [st|err]; [done|apply Hseen].
  - intros uploadId hash served. eexists.
    unfold Express.postComplete. rewrite Hcomplete. cbn [Express.afterHook].
    rewrite handler_run. split; [reflexivity|].
    subst served. destruct (resultOf _) as [st|err]; [done|apply Hseen].
  - intros uploadId served. eexists.
    unfold Express.deleteUpload.
    rewrite (handler_run _ (λ _, mkResponse 204 EmptyBody)).
    split; [reflexivity|].
    subst served. destruct (resultOf _) as [[]|err]; [done|].
    apply abort_handleError.
Qed.

End Routes.

(** The five bytes of [u_0] travel as [PUT .../u_0/chunks/0] with
    [Content-Length: 5]. *)
Lemma uploadChunk_reaches_handleChunk_witness :
  ∃ response,
    Express.putChunk (storeImpl := Scenarios.memoryStore)
      (driverImpl := Examples.localDriver) Express.noHooks
      (HttpClient.uploadChunkRequest "u_0" 0 Examples.fiveBytes None)
      Scenarios.created
    = (Scenarios.uploaded, Ok (Some response))
    ∧ HttpClient.handleResponse response
      = HttpClient.Resolved (Http.ChunkBody "u_0" 0 in_progress).
Proof.
  destruct (uploadChunk_reaches_handleChunk
              (storeImpl := Scenarios.memoryStore)
              (driverImpl := Examples.localDriver) Express.noHooks
              "u_0" 0 Examples.fiveBytes None Scenarios.created)
    as (response & Hrun & Hseen); [reflexivity|discriminate|].
  exists response. split; [exact Hrun|exact Hseen].
Defined.

Lemma putChunk_rejects_malformed_requests_witness :
  Express.putChunk (storeImpl := Scenarios.memoryStore)
    (driverImpl := Examples.localDriver) Express.noHooks
    (Http.mkChunkRequest "u_0" "first" (Some "5") None Examples.fiveBytes)
    Scenarios.created
  = (Scenarios.created,
     Ok (Some (Http.mkResponse 400 (Http.ErrorBody INVALID_REQUEST NoDetails)))).
Proof.
  apply (putChunk_rejects_malformed_requests
           (storeImpl := Scenarios.memoryStore)
           (driverImpl := Examples.localDriver) Express.noHooks);
    [reflexivity|]. left. reflexivity.
Defined.

(** Aborting an upload the server does not know is not an error for the
    client. *)
Lemma router_hands_over_to_service_witness :
  ∃ response,
    Express.deleteUpload (storeImpl := Scenarios.memoryStore)
      (driverImpl := Examples.localDriver) "u_404" Scenarios.created
    = (stateOf (Examples.serve (System.AbortUpload "u_404") Scenarios.created,
                Ok tt),
       Ok response)
    ∧ Http.res_status response = 404
    ∧ HttpClient.abort response = HttpClient.Resolved tt.
Proof.
  destruct (router_hands_over_to_service
              (storeImpl := Scenarios.memoryStore)
              (driverImpl := Examples.localDriver) Examples.service
              Express.noHooks Scenarios.created)
    as (_ & _ & _ & Habort); [reflexivity..|].
  destruct (Habort "u_404") as (response & Hrun & Hseen).
  exists response. split; [exact Hrun|]. split; [|exact Hseen].
  injection Hrun as <-. reflexivity.
Defined.

(** ** The local driver: staging, assembling, releasing *)

Section LocalDriver.

Import Local.

Context (options : LocalStorageOptions).

(** [writeChunk] on an upload whose staging directory exists. *)
Lemma writeChunk_run (session : TorrinUploadSession) (chunkIndex : Z)
  (stream : Driver.Readable) (expectedSize : Z) (hash : option string)
  (fs : FS) (d : gmap string (list Byte.byte)) :
  let dir := getUploadTempDir options (uploadId session) in
  dirs fs !! dir = Some d →
  writeChunk options session chunkIndex stream expectedSize hash fs
  = if Z.of_nat (length stream) =? expectedSize
    then (mkFS (<[dir := <[chunkFileName chunkIndex := stream]> d]> (dirs fs))
               (files fs), Ok tt)
    else (mkFS (<[dir := delete (chunkFileName chunkIndex) d]> (dirs fs))
               (files fs),
          Throw (Typed (mkError CHUNK_SIZE_MISMATCH
                          (SizeDetails expectedSize
                             (Z.of_nat (length stream)))))).
Proof.
  intros dir Hd. unfold writeChunk. fold dir.
  unfold tryCatch, bind at 1, writeFileIn. rewrite Hd.
  destruct (Z.eqb_spec (Z.of_nat (length stream)) expectedSize) as [Heq|Hne].
  - done.
  - cbn [negb]. unfold bind, rmFileIn, throwError, throw. cbn [dirs files].
    rewrite lookup_insert_eq, insert_insert_eq, delete_insert_eq. done.
Qed.

(** X11.  A chunk whose bytes do not have the expected length is
    refused with [CHUNK_SIZE_MISMATCH] (expected and actual length in the
    details), and no file is left for that index in the staging
    directory: a copy of the chunk that an earlier call had staged is
    gone as well.  The other staged chunks and the final files are left
    as they were. *)
Theorem writeChunk_size_mismatch_removes_chunk
  (session : TorrinUploadSession) (chunkIndex : Z)
  (stream : Driver.Readable) (expectedSize : Z) (hash : option string)
  (fs : FS) (d : gmap string (list Byte.byte)) :
  let dir := getUploadTempDir options (uploadId session) in
  dirs fs !! dir = Some d →
  Z.of_nat (length stream) ≠ expectedSize →
  let r := writeChunk options session chunkIndex stream expectedSize hash fs in
  resultOf r
  = Throw (Typed (mkError CHUNK_SIZE_MISMATCH
                    (SizeDetails expectedSize (Z.of_nat (length stream)))))
  ∧ dirs (stateOf r) !! dir ≫= (λ d', d' !! chunkFileName chunkIndex) = None
  ∧ (∀ name, name ≠ chunkFileName chunkIndex →
             dirs (stateOf r) !! dir ≫= (λ d', d' !! name) = d !! name)
  ∧ (∀ other, other ≠ dir → dirs (stateOf r) !! other = dirs fs !! other)
  ∧ files (stateOf r) = files fs.
Proof.
  intros dir Hd Hne r. subst r. rewrite (writeChunk_run _ _ _ _ _ _ d Hd).
  fold dir. destruct (Z.eqb_spec (Z.of_nat (length stream)) expectedSize);
    [done|].
  unfold resultOf, stateOf. cbn [fst snd dirs files].
  split; [done|]. rewrite lookup_insert_eq. cbn.
  split; [apply lookup_delete_eq|].
  split; [intros name Hname; by apply lookup_delete_ne|].
  split; [intros other Hother; by apply lookup_insert_ne|done].
Qed.

(** X12.  A chunk written for an upload whose staging directory does
    not exist ([initUpload] was not called, or the upload was finalized
    or aborted since) fails with [STORAGE_ERROR] and changes nothing. *)
Theorem writeChunk_without_staging_directory
  (session : TorrinUploadSession) (chunkIndex : Z)
  (stream : Driver.Readable) (expectedSize : Z) (hash : option string)
  (fs : FS) :
  dirs fs !! getUploadTempDir options (uploadId session) = None →
  writeChunk options session chunkIndex stream expectedSize hash fs
  = (fs, Throw (Typed (mkError STORAGE_ERROR (CauseDetails "ENOENT")))).
Proof.
  intros Hd. unfold writeChunk, tryCatch, bind, writeFileIn.
  rewrite Hd. done.
Qed.

(** Staging chunks one after the other, each with its declared size. *)
Lemma stage_run (session : TorrinUploadSession) (content : Z → list Byte.byte)
  (arrival : list Z) :
  ∀ (fs : FS) (d : gmap string (list Byte.byte)),
    let dir := getUploadTempDir options (uploadId session) in
    dirs fs !! dir = Some d →
    Service.forOf arrival
      (λ i (_ : unit),
         writeChunk options session i (content i)
           (Z.of_nat (length (content i))) None) tt fs
    = (mkFS (<[dir := foldl (λ d i, <[chunkFileName i := content i]> d)
                            d arrival]> (dirs fs))
            (files fs), Ok tt).
Proof.
  induction arrival as [|i l IH]; intros fs d dir Hd.
  - cbn. unfold ret. rewrite insert_id by done. by destruct fs.
  - cbn [Service.forOf foldl]. unfold bind at 1.
    rewrite (writeChunk_run _ _ _ _ _ _ d Hd). rewrite Z.eqb_refl.
    fold dir.
    rewrite (IH _ (<[chunkFileName i := content i]> d))
      by (cbn; apply lookup_insert_eq).
    cbn [dirs files]. fold dir. by rewrite insert_insert_eq.
Qed.

Lemma staged_lookup (content : Z → list Byte.byte) (arrival : list Z) :
  ∀ (d : gmap string (list Byte.byte)) (name : string),
    NoDup (chunkFileName <$> arrival) →
    foldl (λ d i, <[chunkFileName i := content i]> d) d arrival !! name
    = match (list_to_map ((λ i, (chunkFileName i, content i)) <$> arrival)
              : gmap string (list Byte.byte)) !! name with
      | Some bytes => Some bytes
      | None => d !! name
      end.
Proof.
  induction arrival as [|i l IH]; intros d name Hnd; [done|].
  rewrite fmap_cons in Hnd. apply NoDup_cons in Hnd as [Hi Hnd].
  cbn [foldl]. rewrite IH by done.
  rewrite fmap_cons. cbn [list_to_map foldr fst snd uncurry].
  change (foldr (λ p, <[p.1:=p.2]>) ∅ ?x) with (list_to_map (M := gmap string (list Byte.byte)) x).
  destruct (decide (name = chunkFileName i)) as [->|Hne].
  - rewrite (not_elem_of_list_to_map_1 _ (chunkFileName i))
      by (by rewrite <- list_fmap_compose).
    by rewrite !lookup_insert_eq.
  - rewrite !(lookup_insert_ne _ (chunkFileName i)) by done. done.
Qed.

Lemma staged_map (content : Z → list Byte.byte) (arrival : list Z) :
  NoDup (chunkFileName <$> arrival) →
  foldl (λ d i, <[chunkFileName i := content i]> d)
        (∅ : gmap string (list Byte.byte)) arrival
  = list_to_map ((λ i, (chunkFileName i, content i)) <$> arrival).
Proof.
  intros Hnd. apply map_eq. intros name. rewrite staged_lookup by done.
  destruct (list_to_map _ !! name); [done|apply lookup_empty].
Qed.

(** [finalizeUpload] on a staging directory that holds the chunks of
    [indices]: the whole outcome. *)
Lemma finalizeUpload_staged (session : TorrinUploadSession) (fs : FS)
  (indices : list Z) (content : Z → list Byte.byte) :
  let dir := getUploadTempDir options (uploadId session) in
  NoDup indices →
  Forall (λ i, 0 ≤ i < 1000000) indices →
  dirs fs !! dir
  = Some (list_to_map ((λ i, (chunkFileName i, content i)) <$> indices)) →
  let r := finalizeUpload options session fs in
  resultOf r = Ok (LocalLocation (getFinalPath options session))
  ∧ files (stateOf r)
    = <[getFinalPath options session :=
          mjoin (content <$> merge_sort Z.le indices)]> (files fs)
  ∧ dirs (stateOf r) !! dir = None.
Proof.
  intros dir Hnd Hrange Hdir. cbn zeta.
  set (staged := (λ i, (chunkFileName i, content i)) <$> indices) in *.
  assert (Hkeys : staged.*1 = chunkFileName <$> indices).
  { unfold staged. rewrite <- list_fmap_compose. done. }
  assert (Hnames : NoDup (chunkFileName <$> indices)).
  { apply NoDup_fmap_2_strong; [|done].
    rewrite Forall_forall in Hrange.
    intros i j Hi Hj. apply chunkFileName_inj; auto. }
  destruct (finalizeUpload options session fs) as [fs' r] eqn:Hrun.
  unfold finalizeUpload in Hrun. unfold tryCatch, bind at 1 in Hrun.
  destruct (mkdir_lookup (getFinalDir options session) _ fs _ Hdir)
    as (fs1 & Hmk & Hdir1 & Hfiles1).
  rewrite Hmk in Hrun. unfold bind at 1, readdir in Hrun.
  fold dir in Hrun. rewrite Hdir1 in Hrun.
  erewrite sort_chunkFileNames in Hrun; [|done|];
    [|by rewrite map_to_list_to_map, Hkeys by (by rewrite Hkeys)].
  unfold bind at 1 in Hrun.
  rewrite (concatChunks_run _ _ content) in Hrun.
  - unfold bind, writeFile, rmdir, ret in Hrun.
    injection Hrun as <- <-. unfold resultOf, stateOf.
    cbn [fst snd files dirs]. rewrite Hfiles1.
    split; [done|]. split; [done|]. apply lookup_delete_eq.
  - intros i Hi. rewrite elem_of_sorted_received in Hi.
    rewrite Hdir1. cbn.
    apply elem_of_list_to_map_1; [by rewrite Hkeys|].
    unfold staged. apply list_elem_of_fmap. exists i.
    split; [reflexivity|exact Hi].
Qed.

(** [initUpload], the chunks, [finalizeUpload]: the run of the model
    from any state without the staging directory. *)
Lemma assembles_in_index_order
  (session : TorrinUploadSession) (fs : FS)
  (arrival : list Z) (content : Z → list Byte.byte) :
  let dir := getUploadTempDir options (uploadId session) in
  NoDup arrival →
  Forall (λ i, 0 ≤ i < 1000000) arrival →
  dirs fs !! dir = None →
  let upload :=
    let* _ := initUpload options session in
    let* _ :=
      Service.forOf arrival
        (λ i (_ : unit),
           writeChunk options session i (content i)
             (Z.of_nat (length (content i))) None) tt in
    finalizeUpload options session in
  let r := upload fs in
  resultOf r = Ok (LocalLocation (getFinalPath options session))
  ∧ files (stateOf r)
    = <[getFinalPath options session :=
          mjoin (content <$> merge_sort Z.le arrival)]> (files fs)
  ∧ dirs (stateOf r) !! dir = None.
Proof.
  intros dir Hnd Hrange Hfresh upload r.
  assert (Hnames : NoDup (chunkFileName <$> arrival)).
  { apply NoDup_fmap_2_strong; [|done].
    rewrite Forall_forall in Hrange.
    intros i j Hi Hj. apply chunkFileName_inj; auto. }
  assert (Hrun : upload fs
                 = finalizeUpload options session
                     (mkFS (<[dir := list_to_map
                                       ((λ i, (chunkFileName i, content i))
                                          <$> arrival)]> (dirs fs))
                           (files fs))).
  { subst upload. unfold bind at 1.
    unfold initUpload, tryCatch, mkdir. fold dir. rewrite Hfresh.
    unfold bind at 1.
    rewrite (stage_run session content arrival _ ∅)
      by (cbn; apply lookup_insert_eq).
    cbn [dirs files]. fold dir. rewrite insert_insert_eq.
    by rewrite staged_map by done. }
  subst r. rewrite Hrun.
  apply (finalizeUpload_staged session
           (mkFS (<[dir := list_to_map
                             ((λ i, (chunkFileName i, content i))
                                <$> arrival)]> (dirs fs))
                 (files fs))
           arrival content Hnd Hrange).
  cbn. apply lookup_insert_eq.
Qed.

(** X13.  What goes into the local driver comes out in index order.
    For an upload with plain paths ([Paths.plain]: normalised
    directories, plain names, the final path and the staging directory
    not inside one another) on a disk that holds nothing yet: after
    [initUpload], chunks with distinct indices below a million, written
    in any order of arrival and each with the size it declares, are all
    accepted; then [finalizeUpload] returns the final path, the file at
    that path holds the chunks in ascending order of their indices, and
    the staging directory is gone. *)
Theorem local_driver_assembles_in_index_order
  (session : TorrinUploadSession)
  (arrival : list Z) (content : Z → list Byte.byte) :
  let dir := getUploadTempDir options (uploadId session) in
  Paths.plain options session = true →
  NoDup arrival →
  Forall (λ i, 0 ≤ i < 1000000) arrival →
  let upload :=
    let* _ := initUpload options session in
    let* _ :=
      Service.forOf arrival
        (λ i (_ : unit),
           writeChunk options session i (content i)
             (Z.of_nat (length (content i))) None) tt in
    finalizeUpload options session in
  let r := upload emptyFS in
  resultOf r = Ok (LocalLocation (getFinalPath options session))
  ∧ files (stateOf r)
    = {[ getFinalPath options session :=
           mjoin (content <$> merge_sort Z.le arrival) ]}
  ∧ dirs (stateOf r) !! dir = None
  ∧ Paths.under dir (getFinalPath options session) = false.
Proof.
  intros dir Hplain Hnd Hrange upload r.
  destruct (assembles_in_index_order session emptyFS arrival content
              Hnd Hrange) as (Hres & Hfiles & Hdir); [done|].
  fold upload r dir in Hres, Hfiles, Hdir.
  split; [done|]. split; [by rewrite Hfiles|]. split; [done|].
  unfold Paths.plain in Hplain. fold dir in Hplain.
  repeat (apply andb_true_iff in Hplain as [Hplain ?]).
  by apply negb_true_iff.
Qed.

Lemma prefix_app (p s : string) : String.prefix p (p ++ s) = true.
Proof.
  induction p as [|c p IH]; [by destruct s|].
  change (String.prefix (String c p) (String c (p ++ s)) = true).
  simpl. by destruct (ascii_dec c c).
Qed.

Lemma getFinalPath_join (session : TorrinUploadSession) :
  getFinalPath options session
  = join (getFinalDir options session) (Paths.finalName options session).
Proof.
  unfold getFinalPath, getFinalDir, Paths.finalName.
  destruct (fileName session) as [name|]; [|done].
  by destruct (preserveFileName options && negb (String.eqb name "")).
Qed.

(** With plain paths, the directory of the final file is not the
    staging directory. *)
Lemma plain_finalDir (session : TorrinUploadSession) :
  Paths.plain options session = true →
  getFinalDir options session
  ≠ getUploadTempDir options (uploadId session).
Proof.
  intros Hplain Heq. unfold Paths.plain in Hplain.
  repeat (apply andb_true_iff in Hplain as [Hplain ?]).
  match goal with H : negb (Paths.under _ (getFinalPath _ _)) = true |- _ =>
    apply negb_true_iff in H; rename H into Hunder end.
  rewrite getFinalPath_join, Heq in Hunder.
  unfold Paths.under, join in Hunder.
  apply orb_false_iff in Hunder as [_ Hunder].
  set (staging := getUploadTempDir options (uploadId session)) in *.
  replace (staging ++ "/" ++ Paths.finalName options session)%string
    with ((staging ++ "/") ++ Paths.finalName options session)%string
    in Hunder by apply string_app_assoc.
  by rewrite prefix_app in Hunder.
Qed.

(** X14.  Once the staging directory of an upload is gone, the upload
    cannot be finalized.  For an upload with plain paths
    ([Paths.plain]) on a disk that holds nothing else inside the staging
    directory ([Paths.selfContained]): when [abortUpload] returns, it
    has removed the staging directory and has changed nothing else; and
    [finalizeUpload] on such a disk without the staging directory (after
    [abortUpload], after a [finalizeUpload], or without [initUpload])
    fails with [STORAGE_ERROR] and leaves the files as they are. *)
Theorem released_staging_cannot_be_finalized
  (session : TorrinUploadSession) (fs : FS) :
  let dir := getUploadTempDir options (uploadId session) in
  Paths.plain options session = true →
  Paths.selfContained dir fs →
  let aborted := abortUpload options session fs in
  (resultOf aborted = Ok tt →
   dirs (stateOf aborted) = delete dir (dirs fs)
   ∧ files (stateOf aborted) = files fs
   ∧ ∃ cause,
       resultOf (finalizeUpload options session (stateOf aborted))
       = Throw (Typed (mkError STORAGE_ERROR (CauseDetails cause))))
  ∧ ∀ fs', Paths.selfContained dir fs' →
           dirs fs' !! dir = None →
           let r := finalizeUpload options session fs' in
           (∃ cause,
               resultOf r
               = Throw (Typed (mkError STORAGE_ERROR (CauseDetails cause))))
           ∧ files (stateOf r) = files fs'.
Proof.
  intros dir Hplain _ aborted.
  pose proof (plain_finalDir session Hplain) as Hdirs. fold dir in Hdirs.
  assert (Hfinal : ∀ fs', dirs fs' !! dir = None →
             let r := finalizeUpload options session fs' in
             (∃ cause,
                 resultOf r
                 = Throw (Typed (mkError STORAGE_ERROR
                                   (CauseDetails cause))))
             ∧ files (stateOf r) = files fs');
    [|split; [|intros fs' _; exact (Hfinal fs')];
      intros _; subst aborted;
      unfold abortUpload, tryCatch, rmdir, resultOf, stateOf;
      cbn [fst snd dirs files]; fold dir;
      split; [done|]; split; [done|];
      apply (Hfinal (mkFS (delete dir (dirs fs)) (files fs)));
      cbn; apply lookup_delete_eq].
  intros fs' Hgone. cbn zeta.
  destruct (finalizeUpload options session fs') as [fs'' r] eqn:Hrun.
  unfold finalizeUpload, tryCatch, bind, mkdir, readdir in Hrun.
  fold dir in Hrun.
  destruct (dirs fs' !! getFinalDir options session) eqn:Hfinal'.
  - rewrite Hgone in Hrun. injection Hrun as <- <-. by eauto.
  - cbn [dirs] in Hrun. rewrite lookup_insert_ne in Hrun by done.
    rewrite Hgone in Hrun. injection Hrun as <- <-. by eauto.
Qed.

End LocalDriver.

(** ** From the client's chunks to the file on disk *)

Section ChunkedUpload.

Import Local Chunker.

Context (options : LocalStorageOptions).

Lemma forOf_ext {W A B : Type} (l : list A) (body body' : A → B → Run W B) :
  (∀ x acc w, x ∈ l → body x acc w = body' x acc w) →
  ∀ acc w, Service.forOf l body acc w = Service.forOf l body' acc w.
Proof.
  induction l as [|x l IH]; intros Hext acc w; [done|].
  cbn [Service.forOf]. unfold bind. rewrite Hext by (by left).
  destruct (body' x acc w) as [w' [acc'|t]]; [|done].
  apply IH. intros; apply Hext; by right.
Qed.

Lemma merge_sort_seqZ (arrival : list Z) (n : Z) :
  arrival ≡ₚ seqZ 0 n → merge_sort Z.le arrival = seqZ 0 n.
Proof.
  intros Hperm. apply (StronglySorted_unique Z.le).
  - apply StronglySorted_merge_sort; apply _.
  - clear Hperm. generalize (StronglySorted_seqZ 0 n).
    generalize (seqZ 0 n). intros l.
    induction 1 as [|x l Hl IH Hx]; constructor; [done|].
    eapply Forall_impl; [exact Hx|]. intros y Hy. cbn in *. lia.
  - by rewrite merge_sort_Permutation.
Qed.

Lemma length_slice (bytes : list Byte.byte) (first final : Z) :
  0 ≤ first ≤ final → final ≤ Z.of_nat (length bytes) →
  Z.of_nat (length (slice bytes first final)) = final - first.
Proof.
  intros H1 H2. unfold slice, relativeIndex.
  destruct (Z.ltb_spec first 0); [lia|].
  destruct (Z.ltb_spec final 0); [lia|].
  rewrite length_take, length_drop. lia.
Qed.

(** The pieces of a source, in index order, are the source. *)
Lemma slices_in_order (bytes : list Byte.byte) (chunkSize : Z)
  (arrival : list Z) :
  let fileSize := Z.of_nat (length bytes) in
  let info := getChunkInfo chunkSize fileSize in
  0 < chunkSize → 0 < fileSize →
  arrival ≡ₚ seqZ 0 (Core.calculateTotalChunks fileSize chunkSize) →
  mjoin ((λ i, slice bytes (ci_start (info i)) (ci_end (info i)))
           <$> merge_sort Z.le arrival)
  = bytes.
Proof.
  intros fileSize info Hc Hf Hperm.
  set (totalChunks := Core.calculateTotalChunks fileSize chunkSize) in *.
  rewrite (merge_sort_seqZ arrival totalChunks) by done.
  pose proof (calculateTotalChunks_ge_1 fileSize chunkSize Hf Hc) as Hge.
  pose proof (calculateTotalChunks_ceiling fileSize chunkSize Hc) as Hceil.
  cbn zeta in Hceil. fold totalChunks in Hge, Hceil.
  rewrite <- (Z2Nat.id totalChunks) by lia.
  pose proof (slices_take fileSize chunkSize Hf Hc bytes
                (Z.to_nat totalChunks) eq_refl) as Htake.
  rewrite <- list_fmap_compose in Htake. unfold compose in Htake.
  subst info. rewrite Htake.
  rewrite Z2Nat.id by lia. rewrite Z.min_r by lia.
  subst fileSize. rewrite Nat2Z.id. apply firstn_all.
Qed.

(** X15.  A file cut by the client and staged through the local driver
    is put together again as it was, for an upload with plain paths
    ([Paths.plain]) on a disk that holds nothing yet.  The chunks are
    those of
    [getChunkInfo], read with [getChunkBlob]'s [slice]; each is written
    with the size [getChunkInfo] gives it; they arrive in any order, each
    once; there are at most a million of them.  Then [finalizeUpload]
    succeeds and the file at the final path holds the bytes of the
    source. *)
Theorem chunked_upload_reassembles_file (session : TorrinUploadSession)
  (bytes : list Byte.byte) (chunkSize : Z) (arrival : list Z) :
  let fileSize := Z.of_nat (length bytes) in
  let totalChunks := Core.calculateTotalChunks fileSize chunkSize in
  let info := getChunkInfo chunkSize fileSize in
  Paths.plain options session = true →
  0 < chunkSize → 0 < fileSize → totalChunks ≤ 1000000 →
  arrival ≡ₚ seqZ 0 totalChunks →
  let upload :=
    let* _ := initUpload options session in
    let* _ :=
      Service.forOf arrival
        (λ i (_ : unit),
           writeChunk options session i
             (slice bytes (ci_start (info i)) (ci_end (info i)))
             (ci_size (info i)) None) tt in
    finalizeUpload options session in
  let r := upload emptyFS in
  resultOf r = Ok (LocalLocation (getFinalPath options session))
  ∧ files (stateOf r) = {[ getFinalPath options session := bytes ]}.
Proof.
  intros fileSize totalChunks info _ Hc Hf Htotal Hperm upload r.
  set (fs := emptyFS) in *.
  set (content := λ i, slice bytes (ci_start (info i)) (ci_end (info i))).
  assert (Hin : ∀ i, i ∈ arrival → 0 ≤ i < totalChunks).
  { intros i Hi. rewrite Hperm in Hi. apply elem_of_seqZ in Hi. lia. }
  assert (Hsize : ∀ i, i ∈ arrival →
                       ci_size (info i) = Z.of_nat (length (content i))).
  { intros i Hi. apply Hin in Hi.
    destruct (getChunkInfo_bounds fileSize chunkSize Hf Hc i Hi) as (Hs & He).
    subst content info. cbn beta. by rewrite length_slice. }
  assert (Hrun : upload fs
                 = (let* _ := initUpload options session in
                    let* _ :=
                      Service.forOf arrival
                        (λ i (_ : unit),
                           writeChunk options session i (content i)
                             (Z.of_nat (length (content i))) None) tt in
                    finalizeUpload options session) fs).
  { subst upload. unfold bind.
    destruct (initUpload options session fs) as [fs1 [[]|t]]; [|done].
    rewrite (forOf_ext arrival _
               (λ i (_ : unit),
                  writeChunk options session i (content i)
                    (Z.of_nat (length (content i))) None)); [done|].
    intros i acc w Hi. by rewrite Hsize. }
  subst r. rewrite Hrun.
  destruct (assembles_in_index_order options session fs
              arrival content) as (Hres & Hfiles & _).
  { rewrite Hperm. apply NoDup_seqZ. }
  { apply Forall_forall. intros i Hi. apply Hin in Hi. lia. }
  { done. }
  split; [exact Hres|]. rewrite Hfiles. subst fs. cbn [files emptyFS].
  rewrite insert_empty. f_equal.
  by apply slices_in_order.
Qed.

End ChunkedUpload.

(** A second copy of chunk 0 with one byte instead of five: the good copy
    is gone. *)
Lemma writeChunk_size_mismatch_removes_chunk_witness :
  let dir := Local.getUploadTempDir Examples.localOptions "u_1" in
  let r := Local.writeChunk Examples.localOptions Examples.expiringSession 0
             [Byte.x01] 5 None Scenarios.stagedChunk in
  Local.dirs Scenarios.stagedChunk !! dir
  = Some {[ Local.chunkFileName 0 := Examples.fiveBytes ]}
  ∧ resultOf r
    = Throw (Typed (mkError CHUNK_SIZE_MISMATCH (SizeDetails 5 1)))
  ∧ Local.dirs (stateOf r) !! dir ≫= (λ d, d !! Local.chunkFileName 0) = None.
Proof.
  cbn zeta. split; [vm_compute; reflexivity|].
  destruct (writeChunk_size_mismatch_removes_chunk Examples.localOptions
              Examples.expiringSession 0 [Byte.x01] 5 None
              Scenarios.stagedChunk
              {[ Local.chunkFileName 0 := Examples.fiveBytes ]})
    as (Hresult & Hgone & _).
  - vm_compute. reflexivity.
  - vm_compute. discriminate.
  - split; [exact Hresult|exact Hgone].
Defined.

Lemma writeChunk_without_staging_directory_witness :
  Local.writeChunk Examples.localOptions Examples.expiringSession 0
    Examples.fiveBytes 5 None Local.emptyFS
  = (Local.emptyFS,
     Throw (Typed (mkError STORAGE_ERROR (CauseDetails "ENOENT")))).
Proof.
  apply (writeChunk_without_staging_directory Examples.localOptions
           Examples.expiringSession 0 Examples.fiveBytes 5 None Local.emptyFS).
  vm_compute. reflexivity.
Defined.

(** Chunk 1 arrives before chunk 0. *)
Lemma local_driver_assembles_in_index_order_witness :
  let upload :=
    let* _ := Local.initUpload Examples.localOptions Examples.expiringSession in
    let* _ :=
      Service.forOf [1; 0]
        (λ i (_ : unit),
           Local.writeChunk Examples.localOptions Examples.expiringSession i
             (Scenarios.twoChunks i)
             (Z.of_nat (length (Scenarios.twoChunks i))) None) tt in
    Local.finalizeUpload Examples.localOptions Examples.expiringSession in
  Paths.plain Examples.localOptions Examples.expiringSession = true
  ∧ Local.files (stateOf (upload Local.emptyFS))
    = {[ Local.getFinalPath Examples.localOptions Examples.expiringSession
         := [Byte.x01; Byte.x02; Byte.x03] ]}.
Proof.
  cbn zeta. split; [vm_compute; reflexivity|].
  destruct (local_driver_assembles_in_index_order Examples.localOptions
              Examples.expiringSession [1; 0]
              Scenarios.twoChunks) as (_ & Hfiles & _).
  - vm_compute. reflexivity.
  - apply (bool_decide_unpack _). vm_compute. reflexivity.
  - repeat constructor; lia.
  - rewrite Hfiles. vm_compute. reflexivity.
Defined.

Lemma released_staging_cannot_be_finalized_witness :
  let aborted :=
    Local.abortUpload Examples.localOptions Examples.expiringSession
      Scenarios.stagedChunk in
  resultOf aborted = Ok tt
  ∧ ∃ cause,
      resultOf (Local.finalizeUpload Examples.localOptions
                  Examples.expiringSession (stateOf aborted))
      = Throw (Typed (mkError STORAGE_ERROR (CauseDetails cause))).
Proof.
  cbn zeta.
  destruct (released_staging_cannot_be_finalized Examples.localOptions
              Examples.expiringSession Scenarios.stagedChunk)
    as (Haborted & _).
  - vm_compute. reflexivity.
  - split.
    + intros path [content Hpath]. cbn in Hpath.
      by rewrite lookup_empty in Hpath.
    + intros d [chunks Hd] _. cbn in Hd.
      by apply lookup_singleton_Some in Hd as [<- _].
  - split; [reflexivity|].
    destruct (Haborted eq_refl) as (_ & _ & Hfinal). exact Hfinal.
Defined.

(** Five bytes cut in chunks of two, arriving as 2, 0, 1. *)
Lemma chunked_upload_reassembles_file_witness :
  let info := Chunker.getChunkInfo 2 5 in
  let upload :=
    let* _ := Local.initUpload Examples.localOptions Examples.expiringSession in
    let* _ :=
      Service.forOf [2; 0; 1]
        (λ i (_ : unit),
           Local.writeChunk Examples.localOptions Examples.expiringSession i
             (Chunker.slice Examples.fiveBytes
                (Chunker.ci_start (info i)) (Chunker.ci_end (info i)))
             (Chunker.ci_size (info i)) None) tt in
    Local.finalizeUpload Examples.localOptions Examples.expiringSession in
  Local.files (stateOf (upload Local.emptyFS))
  = {[ Local.getFinalPath Examples.localOptions Examples.expiringSession
       := Examples.fiveBytes ]}.
Proof.
  cbn zeta.
  apply (chunked_upload_reassembles_file Examples.localOptions
           Examples.expiringSession Examples.fiveBytes 2
           [2; 0; 1]).
  - vm_compute. reflexivity.
  - lia.
  - vm_compute. reflexivity.
  - vm_compute. discriminate.
  - apply (bool_decide_unpack _). vm_compute. reflexivity.
Defined.

(** ** The life of an upload on the in-memory store *)

Section UploadLife.

Import Service.

Context {D : Type} {driverImpl : Driver.TorrinStorageDriver D}.
Context (clock : nat → Z) (generateUploadId : nat → string).

Lemma getSession_visible (uploadId : string) (st : Memory.State)
  (stored : Memory.StoredSession) :
  Memory.sessions st !! uploadId = Some stored →
  Memory.isExpired (Memory.session stored) (clock (Memory.clockReads st))
  = false →
  ∃ reads,
    Memory.getSession clock uploadId st
    = (Memory.mkState (Memory.sessions st) reads (Memory.idReads st),
       Ok (Some (Memory.session stored))).
Proof.
  intros Hst Hexp. destruct (getSession_run clock uploadId st) as [reads ->].
  exists reads. rewrite Hst. cbn. by rewrite Hexp.
Qed.

Lemma getSession_hidden (uploadId : string) (w : World Memory.State D) :
  System.visibleSession clock uploadId w = None →
  ∃ reads,
    Memory.getSession clock uploadId (store w)
    = (Memory.mkState (Memory.sessions (store w)) reads
         (Memory.idReads (store w)),
       Ok None).
Proof.
  unfold System.visibleSession. rewrite getSession_result.
  destruct (getSession_run clock uploadId (store w)) as [reads ->].
  exists reads. f_equal.
  destruct (_ ≫= _) as [s|]; [done|done].
Qed.

(** X16.  An upload that [getSession] does not return (its id is
    unknown, or its [expiresAt] has passed) is refused by every method
    of the service with [UPLOAD_NOT_FOUND]; the only call made is
    [getSession]: the driver is not called, and the sessions of the
    store and the state of the driver are left as they were. *)
Theorem hidden_upload_is_not_found (uploadId : string)
  (w : World Memory.State D) :
  System.visibleSession clock uploadId w = None →
  let refused {A : Type} (r : World Memory.State D * Result A) : Prop :=
    resultOf r = Throw (Typed (mkError UPLOAD_NOT_FOUND NoDetails))
    ∧ Memory.sessions (store (stateOf r)) = Memory.sessions (store w)
    ∧ storage (stateOf r) = storage w
    ∧ log (stateOf r) = log w ++ [StoreGetSession uploadId] in
  (∀ index size hash stream,
      refused (System.handleChunk clock generateUploadId
                 (mkChunkInput uploadId index size hash stream) w))
  ∧ refused (System.getStatus clock generateUploadId uploadId w)
  ∧ (∀ hash,
        refused (System.completeUpload clock generateUploadId uploadId
                   hash w))
  ∧ refused (System.abortUpload clock generateUploadId uploadId w).
Proof.
  intros Hhidden refused.
  destruct (getSession_hidden uploadId w Hhidden) as [reads Hget].
  subst refused. cbn beta.
  split; [intros index size hash stream|split; [|split; [intros hash|]]];
    memory_unfold;
    unfold handleChunk, getStatus, completeUpload, abortUpload;
    run_unfold; memory_simpl; rewrite Hget; memory_simpl; done.
Qed.

(** [handleChunk] past its checks. *)
Lemma handleChunk_accepted (input : HandleChunkInput)
  (w : World Memory.State D) (stored : Memory.StoredSession) :
  let session := Memory.session stored in
  Memory.sessions (store w) !! hc_uploadId input = Some stored →
  Memory.isExpired session (System.now (D := D) clock w) = false →
  status session ≠ completed →
  status session ≠ canceled →
  Core.getExpectedChunkSize (hc_index input) (totalChunks session)
    (fileSize session) (chunkSize session) = Some (hc_size input) →
  let written :=
    Driver.writeChunk session (hc_index input) (hc_stream input)
      (hc_size input) (hc_hash input) (storage w) in
  let r := System.handleChunk clock generateUploadId input w in
  storage (stateOf r) = stateOf written
  ∧ match resultOf written with
    | Throw error =>
        resultOf r = Throw error
        ∧ Memory.sessions (store (stateOf r)) = Memory.sessions (store w)
    | Ok _ =>
        resultOf r = Ok tt
        ∧ ∃ stored',
            Memory.sessions (store (stateOf r))
            = <[hc_uploadId input := stored']> (Memory.sessions (store w))
            ∧ Memory.receivedChunks stored'
              = Memory.Set_add (hc_index input)
                  (Memory.receivedChunks stored)
            ∧ (hc_index input ∈ Memory.receivedChunks stored →
               Memory.receivedChunks stored' = Memory.receivedChunks stored)
            ∧ status (Memory.session stored')
              = (if decide (status session = pending) then in_progress
                 else status session)
            ∧ Lifecycle.sameRecord session (Memory.session stored')
    end.
Proof.
  intros session Hst Hexp Hc Hx Hsize written r.
  assert (Hrange : 0 ≤ hc_index input < totalChunks session).
  { destruct (decide (0 ≤ hc_index input < totalChunks session)); [done|].
    by rewrite getExpectedChunkSize_out_of_range in Hsize. }
  destruct (getSession_visible (hc_uploadId input) (store w) stored Hst Hexp)
    as [reads Hget].
  subst r written. memory_unfold. unfold handleChunk. run_unfold.
  memory_simpl. rewrite Hget. memory_simpl. fold session.
  destruct (decide (status session = completed)); [done|].
  destruct (decide (status session = canceled)); [done|]. memory_simpl.
  destruct (Z.ltb_spec (hc_index input) 0); [lia|].
  destruct (Z.geb_spec (hc_index input) (totalChunks session)); [lia|].
  memory_simpl. rewrite Hsize. memory_simpl. rewrite Z.eqb_refl.
  memory_simpl.
  destruct (Driver.writeChunk _ _ _ _ _ _) as [d1 [[]|t1]]; memory_simpl;
    [|done].
  rewrite (markChunkReceived_run clock _ _ _ stored) by done. memory_simpl.
  assert (Hdup : hc_index input ∈ Memory.receivedChunks stored →
                 Memory.Set_add (hc_index input) (Memory.receivedChunks stored)
                 = Memory.receivedChunks stored).
  { intros Hin. unfold Memory.Set_add. by destruct (decide _). }
  destruct (decide (status session = pending)) as [Hp|Hp]; memory_simpl.
  - erewrite updateSession_run by (cbn; apply lookup_insert_eq). cbn.
    split; [done|]. split; [done|]. eexists.
    split; [by rewrite insert_insert_eq|]. cbn.
    repeat split; done.
  - split; [done|]. split; [done|]. eexists. split; [reflexivity|].
    cbn. repeat split; done.
Qed.


(** [completeUpload] past its checks. *)
Lemma completeUpload_finalized (uploadId : string) (hash : option string)
  (w : World Memory.State D) (stored : Memory.StoredSession) :
  let session := Memory.session stored in
  Memory.sessions (store w) !! uploadId = Some stored →
  Memory.isExpired session (System.now (D := D) clock w) = false →
  status session ≠ completed →
  status session ≠ canceled →
  (∀ i, 0 ≤ i < totalChunks session → i ∈ Memory.receivedChunks stored) →
  let finalized := Driver.finalizeUpload session (storage w) in
  let r := System.completeUpload clock generateUploadId uploadId hash w in
  storage (stateOf r) = stateOf finalized
  ∧ match resultOf finalized with
    | Throw error =>
        resultOf r = Throw error
        ∧ Memory.sessions (store (stateOf r)) = Memory.sessions (store w)
    | Ok location =>
        resultOf r
        = Ok {| cr_uploadId := session_uploadId session;
                cr_fileName := fileName session;
                cr_fileSize := fileSize session;
                cr_location := location;
                cr_metadata := metadata session |}
        ∧ ∃ stored',
            Memory.sessions (store (stateOf r))
            = <[uploadId := stored']> (Memory.sessions (store w))
            ∧ status (Memory.session stored') = completed
            ∧ Memory.receivedChunks stored' = Memory.receivedChunks stored
            ∧ Lifecycle.sameRecord session (Memory.session stored')
    end.
Proof.
  intros session Hst Hexp Hc Hx Hall finalized r.
  destruct (getSession_visible uploadId (store w) stored Hst Hexp)
    as [reads Hget].
  subst r finalized. memory_unfold. unfold completeUpload. run_unfold.
  memory_simpl. rewrite Hget. memory_simpl. fold session.
  destruct (decide (status session = completed)); [done|].
  destruct (decide (status session = canceled)); [done|]. memory_simpl.
  rewrite (listReceivedChunks_run _ _ stored) by done. memory_simpl.
  assert (Core.getMissingChunks (totalChunks session)
            (merge_sort Z.le (Memory.receivedChunks stored)) = []) as ->.
  { apply elem_of_nil_inv. intros i.
    rewrite elem_of_getMissingChunks, elem_of_sorted_received.
    intros [Hi Hmiss]. by apply Hmiss, Hall. }
  change (0 <? Z.of_nat (length (@nil Z))) with false. memory_simpl.
  destruct (Driver.finalizeUpload _ _) as [d1 [location|t1]]; memory_simpl;
    [|done].
  erewrite updateSession_run by (cbn; exact Hst). cbn.
  split; [done|]. split; [done|]. eexists. split; [reflexivity|].
  cbn. repeat split; done.
Qed.



(** X20.  A [completed] upload is final.  Whatever the clock, every
    [handleChunk], [completeUpload] and [abortUpload] for it throws
    ([UPLOAD_ALREADY_COMPLETED], or [UPLOAD_NOT_FOUND] once it has
    expired), the driver is not called, and the sessions of the store
    are left as they were. *)
Theorem completed_upload_is_final (uploadId : string)
  (w : World Memory.State D) (stored : Memory.StoredSession) :
  Memory.sessions (store w) !! uploadId = Some stored →
  status (Memory.session stored) = completed →
  let refused {A : Type} (r : World Memory.State D * Result A) : Prop :=
    (∃ c, resultOf r = Throw (Typed (mkError c NoDetails))
          ∧ (c = UPLOAD_ALREADY_COMPLETED ∨ c = UPLOAD_NOT_FOUND))
    ∧ Memory.sessions (store (stateOf r)) = Memory.sessions (store w)
    ∧ storage (stateOf r) = storage w
    ∧ log (stateOf r) = log w ++ [StoreGetSession uploadId] in
  (∀ index size hash stream,
      refused (System.handleChunk clock generateUploadId
                 (mkChunkInput uploadId index size hash stream) w))
  ∧ (∀ hash,
        refused (System.completeUpload clock generateUploadId uploadId
                   hash w))
  ∧ refused (System.abortUpload clock generateUploadId uploadId w).
Proof.
  intros Hst Hdone refused. subst refused. cbn beta.
  destruct (getSession_run clock uploadId (store w)) as [reads Hget].
  rewrite Hst in Hget. cbn -[Memory.getSession] in Hget.
  split; [intros index size hash stream|split; [intros hash|]];
    memory_unfold; unfold handleChunk, completeUpload, abortUpload;
    run_unfold; memory_simpl; rewrite Hget;
    (destruct (Memory.isExpired _ _); memory_simpl;
     [split; [eauto|done]|]);
    rewrite Hdone; memory_simpl; (split; [eauto|done]).
Qed.

End UploadLife.

Section UploadStart.

Import Service.

Context {D : Type} {driverImpl : Driver.TorrinStorageDriver D}.
Context (clock : nat → Z) (generateUploadId : nat → string).
Context (this : TorrinService).

(** [initUpload], run. *)
Lemma initUpload_run (input : TorrinSessionInitInput)
  (w : World Memory.State D) :
  let st := store w in
  let now := clock (Memory.clockReads st) in
  let chunkSize :=
    Core.normalizeChunkSize
      (Some (default (defaultChunkSize this) (init_desiredChunkSize input)))
      (init_fileSize input) in
  let session :=
    {| uploadId := generateUploadId (Memory.idReads st);
       fileName := init_fileName input;
       fileSize := init_fileSize input;
       mimeType := init_mimeType input;
       chunkSize := chunkSize;
       totalChunks :=
         Core.calculateTotalChunks (init_fileSize input) chunkSize;
       metadata := init_metadata input;
       status := pending;
       createdAt := now;
       updatedAt := now;
       expiresAt := Lifecycle.expiryFrom this now |} in
  let initialized := Driver.initUpload session (storage w) in
  let r := System.initUpload clock generateUploadId this input w in
  if init_fileSize input <=? 0
  then r = (w, Throw (Typed (mkError INVALID_REQUEST NoDetails)))
  else
    Memory.sessions (store (stateOf r))
    = <[session_uploadId session := Memory.mkStored session []]>
        (Memory.sessions st)
    ∧ storage (stateOf r) = stateOf initialized
    ∧ log (stateOf r)
      = log w ++ [StoreCreateSession input chunkSize (Some (uploadTtlMs this));
                  DriverInitUpload session]
    ∧ resultOf r
      = match resultOf initialized with
        | Ok _ => Ok session
        | Throw error => Throw error
        end.
Proof.
  cbn zeta. memory_unfold. unfold initUpload.
  destruct (Z.leb_spec (init_fileSize input) 0) as [|Hf]; [done|].
  unfold Lifecycle.expiryFrom. run_simpl.
  destruct (Driver.initUpload _ _) as [d' [[]|t]]; cbn;
    rewrite <- app_assoc; done.
Qed.


End UploadStart.

(** ** Requests that interleave *)

Section Interleaving.

Import Service Lifecycle.

Context {D : Type} {driverImpl : Driver.TorrinStorageDriver D}.
Context (clock : nat → Z) (generateUploadId : nat → string).
Context (this : TorrinService).
Context (others : nat → Memory.State → Memory.State).

Local Abbreviation mv := (move this generateUploadId).
Local Abbreviation ok := (soundStore this generateUploadId).
Local Abbreviation storeI :=
  (Interleaved.interleavedStore clock generateUploadId others).
Local Abbreviation W := (World Interleaved.State D).
Local Abbreviation mem w := (Interleaved.memory (store w)).

Lemma sameRecord_refl (s : TorrinUploadSession) : sameRecord s s.
Proof. by repeat split. Qed.

Lemma sameRecord_trans (a b c : TorrinUploadSession) :
  sameRecord a b → sameRecord b c → sameRecord a c.
Proof.
  unfold sameRecord.
  intros (?&?&?&?&?&?&?&?&?) (?&?&?&?&?&?&?&?&?).
  repeat split; congruence.
Qed.

Lemma sameRecord_withUpdatedAt (s : TorrinUploadSession) (now : Z) :
  sameRecord s (Memory.withUpdatedAt s now).
Proof. by repeat split. Qed.

Lemma sameRecord_statusPatch (s : TorrinUploadSession) (st : UploadStatus)
  (now : Z) :
  sameRecord s
    (Memory.withUpdatedAt (Memory.applyPatch s (statusPatch st)) now).
Proof. by repeat split. Qed.

(** A record that keeps its fields stays sound, if its new status fits
    the chunks. *)
Lemma sound_sameRecord (stored : Memory.StoredSession)
  (s' : TorrinUploadSession) (received' : list Z) :
  sound this stored →
  sameRecord (Memory.session stored) s' →
  status s' ≠ failed →
  (status s' = in_progress → received' ≠ []) →
  (status s' = completed →
   ∀ i, 0 ≤ i < totalChunks (Memory.session stored) → i ∈ received') →
  sound this (Memory.mkStored s' received').
Proof.
  intros (_ & Hf & Hcs & Hle & Ht & He & _ & _)
         (_ & _ & Hfs & _ & Hchunk & Htot & _ & Hcr & Hex)
         Hfailed Hprog Hdone.
  unfold sound, counted in *. cbn.
  rewrite Hfs, Hchunk, Htot, Hcr, Hex.
  do 7 (split; [done|]). done.
Qed.

Lemma fresh_sound (s : TorrinUploadSession) :
  fresh this s → sound this (Memory.mkStored s []).
Proof.
  intros (Hp & Hf & [desired Hc] & Ht & He). unfold sound. cbn.
  pose proof (normalizeChunkSize_bounds desired (fileSize s) Hf)
    as (Hb1 & Hb2 & _).
  cbn zeta in Hb1, Hb2. rewrite <- Hc in Hb1, Hb2.
  rewrite Hp. repeat split; try done; lia.
Qed.

Lemma soundStore_empty : ok Memory.empty.
Proof.
  split.
  - intros id [stored Hst]. cbn in Hst. by rewrite lookup_empty in Hst.
  - intros id stored Hst. cbn in Hst. by rewrite lookup_empty in Hst.
Qed.

(** Every move keeps the store sound. *)
Lemma move_soundStore (m m' : Memory.State) : mv m m' → ok m → ok m'.
Proof.
  intros Hmove [Hissued Hsound].
  assert (Hupdate :
    ∀ id stored x,
      Memory.sessions m !! id = Some stored →
      Memory.sessions m' = <[id := x]> (Memory.sessions m) →
      Memory.idReads m' = Memory.idReads m →
      sound this x → ok m').
  { intros id stored x Hst Hm Hid Hx. split.
    - intros id' His. rewrite Hm in His.
      apply lookup_insert_is_Some in His. rewrite Hid.
      destruct His as [<-|[_ His]]; apply Hissued; [by rewrite Hst|done].
    - intros id' stored' Hst'. rewrite Hm in Hst'.
      apply lookup_insert_Some in Hst' as [[_ <-]|[_ Hst']];
        [done|by eapply Hsound]. }
  destruct Hmove as [Hm Hid|s Hs Hsid Hnew Hm Hid
                    |id stored s' i Hst Hi Hsame Hstatus Hm Hid
                    |id stored s' Hst Hne Hsame Hstatus Hm Hid
                    |id stored s' Hst Hall Hsame Hstatus Hm Hid
                    |id stored s' Hst Hsame Hstatus Hm Hid
                    |id Hm Hid].
  - split.
    + intros id His. rewrite Hm in His. rewrite Hid. by apply Hissued.
    + intros id stored Hst. rewrite Hm in Hst. by eapply Hsound.
  - split.
    + intros id His. rewrite Hm in His.
      apply lookup_insert_is_Some in His. rewrite Hid.
      destruct His as [<-|[_ His]].
      * exists (Memory.idReads m). split; [lia|done].
      * destruct (Hissued id His) as (k & Hk & ->). exists k.
        split; [lia|done].
    + intros id stored Hst. rewrite Hm in Hst.
      apply lookup_insert_Some in Hst as [[_ <-]|[_ Hst]];
        [by apply fresh_sound|by eapply Hsound].
  - apply (Hupdate _ _ _ Hst Hm Hid).
    pose proof (Hsound _ _ Hst) as Hold.
    apply (sound_sameRecord stored); [done|done| | |].
    + rewrite Hstatus. by destruct Hold.
    + intros _ Hnil.
      assert (i ∈ Memory.Set_add i (Memory.receivedChunks stored)) as Hin
        by (apply elem_of_Set_add; by left).
      rewrite Hnil in Hin. by apply elem_of_nil in Hin.
    + rewrite Hstatus. intros Hc j Hj. apply elem_of_Set_add. right.
      destruct Hold as (_ & _ & _ & _ & _ & _ & _ & Hdone).
      by apply Hdone.
  - apply (Hupdate _ _ _ Hst Hm Hid).
    apply (sound_sameRecord stored); [by eapply Hsound|done| | |];
      rewrite Hstatus; done.
  - apply (Hupdate _ _ _ Hst Hm Hid).
    apply (sound_sameRecord stored); [by eapply Hsound|done| | |];
      rewrite Hstatus; done.
  - apply (Hupdate _ _ _ Hst Hm Hid).
    apply (sound_sameRecord stored); [by eapply Hsound|done| | |];
      rewrite Hstatus; done.
  - split.
    + intros id' His. rewrite Hm in His.
      apply lookup_delete_is_Some in His as [_ His]. rewrite Hid.
      by apply Hissued.
    + intros id' stored Hst. rewrite Hm in Hst.
      apply lookup_delete_Some in Hst as [_ Hst]. by eapply Hsound.
Qed.

Lemma moves_soundStore (m m' : Memory.State) : rtc mv m m' → ok m → ok m'.
Proof. induction 1; [done|]. intros Hok. eauto using move_soundStore. Qed.

(** What a request knows of an upload it has read as [s] and to which it
    has seen the chunks [chunks] added: the id has been issued, and if
    the upload is still stored, its record is [s] but for [status] and
    [updatedAt], and it holds [chunks]. *)
Let holds (id : string) (s : TorrinUploadSession) (chunks : list Z)
  (m : Memory.State) : Prop :=
  (∃ k, (k < Memory.idReads m)%nat ∧ id = generateUploadId k)
  ∧ ∀ stored,
      Memory.sessions m !! id = Some stored →
      sameRecord s (Memory.session stored)
      ∧ chunks ⊆ Memory.receivedChunks stored.

Hypothesis unique_ids : Inj (=) (=) generateUploadId.

(** No move of another request takes this knowledge away. *)
Lemma holds_move (id : string) (s : TorrinUploadSession) (chunks : list Z)
  (m m' : Memory.State) :
  mv m m' → holds id s chunks m → holds id s chunks m'.
Proof.
  intros Hmove [(k & Hk & Hgen) Hstored].
  assert (Hupdate :
    ∀ id0 stored0 s' received',
      Memory.sessions m !! id0 = Some stored0 →
      Memory.sessions m'
      = <[id0 := Memory.mkStored s' received']> (Memory.sessions m) →
      Memory.idReads m' = Memory.idReads m →
      sameRecord (Memory.session stored0) s' →
      Memory.receivedChunks stored0 ⊆ received' →
      holds id s chunks m').
  { intros id0 stored0 s' received' Hst Hm Hid Hsame Hsub. split.
    - exists k. rewrite Hid. done.
    - intros stored'. rewrite Hm.
      intros [[<- <-]|[_ Hst']]%lookup_insert_Some; [|by apply Hstored].
      destruct (Hstored _ Hst) as [Hs Hc]. cbn. split.
      + by eapply sameRecord_trans.
      + by etrans. }
  destruct Hmove as [Hm Hid|s0 Hs Hsid Hnew Hm Hid
                    |id0 stored0 s' i Hst Hi Hsame Hstatus Hm Hid
                    |id0 stored0 s' Hst Hne Hsame Hstatus Hm Hid
                    |id0 stored0 s' Hst Hall Hsame Hstatus Hm Hid
                    |id0 stored0 s' Hst Hsame Hstatus Hm Hid
                    |id0 Hm Hid].
  - split; [exists k; by rewrite Hid|]. rewrite Hm. apply Hstored.
  - split; [exists k; rewrite Hid; split; [lia|done]|].
    intros stored'. rewrite Hm.
    intros [[Heq _]|[_ Hst']]%lookup_insert_Some; [|by apply Hstored].
    rewrite Hsid, Hgen in Heq. apply unique_ids in Heq. lia.
  - apply (Hupdate _ _ _ _ Hst Hm Hid Hsame).
    intros x Hx. apply elem_of_Set_add. by right.
  - by apply (Hupdate _ _ _ _ Hst Hm Hid Hsame).
  - by apply (Hupdate _ _ _ _ Hst Hm Hid Hsame).
  - by apply (Hupdate _ _ _ _ Hst Hm Hid Hsame).
  - split; [exists k; by rewrite Hid|].
    intros stored'. rewrite Hm.
    intros [_ Hst']%lookup_delete_Some. by apply Hstored.
Qed.

Lemma holds_moves (id : string) (s : TorrinUploadSession) (chunks : list Z)
  (m m' : Memory.State) :
  rtc mv m m' → holds id s chunks m → holds id s chunks m'.
Proof. induction 1; [done|]. eauto using holds_move. Qed.

Lemma holds_stored (id : string) (stored : Memory.StoredSession)
  (m : Memory.State) :
  ok m → Memory.sessions m !! id = Some stored →
  holds id (Memory.session stored) (Memory.receivedChunks stored) m.
Proof.
  intros [Hissued _] Hst. split.
  - apply Hissued. by rewrite Hst.
  - intros stored'. rewrite Hst. intros [= <-].
    split; [apply sameRecord_refl|done].
Qed.

(** *** The calls of the in-memory store are moves *)

Lemma getSession_move (id : string) (m : Memory.State) :
  ok m →
  let r := Memory.getSession clock id m in
  mv m (stateOf r)
  ∧ ∀ s, resultOf r = Ok (Some s) → holds id s [] (stateOf r).
Proof.
  intros Hok r. subst r.
  destruct (getSession_run clock id m) as [reads ->].
  unfold stateOf, resultOf. cbn. split; [by apply move_read|].
  intros s Hs.
  destruct (Memory.sessions m !! id) as [stored|] eqn:Hst; [|done].
  cbn in Hs. destruct (Memory.isExpired _ _); [done|].
  injection Hs as <-.
  destruct (holds_stored _ _ _ Hok Hst) as [Hk Hrecord].
  split; [exact Hk|]. cbn. intros stored' Hst'.
  destruct (Hrecord _ Hst') as [Hsame _]. split; [done|].
  apply list_subseteq_nil.
Qed.

Lemma markChunkReceived_throws (id : string) (i : Z) (m : Memory.State) :
  Memory.sessions m !! id = None →
  Memory.markChunkReceived clock id i m
  = (m, Throw (Typed (mkError UPLOAD_NOT_FOUND NoDetails))).
Proof.
  intros Hst. unfold Memory.markChunkReceived, Memory.sessions_get.
  run_simpl. by rewrite Hst.
Qed.

Lemma updateSession_throws (id : string) (patch : SessionPatch)
  (m : Memory.State) :
  Memory.sessions m !! id = None →
  Memory.updateSession clock id patch m
  = (m, Throw (Typed (mkError UPLOAD_NOT_FOUND NoDetails))).
Proof.
  intros Hst. unfold Memory.updateSession, Memory.sessions_get.
  run_simpl. by rewrite Hst.
Qed.

Lemma listReceivedChunks_throws (id : string) (m : Memory.State) :
  Memory.sessions m !! id = None →
  Memory.listReceivedChunks id m
  = (m, Throw (Typed (mkError UPLOAD_NOT_FOUND NoDetails))).
Proof.
  intros Hst. unfold Memory.listReceivedChunks, Memory.sessions_get.
  run_simpl. by rewrite Hst.
Qed.

Lemma markChunkReceived_move (id : string) (s : TorrinUploadSession)
  (i : Z) (m : Memory.State) :
  0 ≤ i < totalChunks s →
  holds id s [] m →
  let r := Memory.markChunkReceived clock id i m in
  mv m (stateOf r) ∧ (resultOf r = Ok tt → holds id s [i] (stateOf r)).
Proof.
  intros Hi Hholds r. subst r.
  destruct (Memory.sessions m !! id) as [stored|] eqn:Hst.
  - rewrite (markChunkReceived_run clock id i m stored Hst).
    unfold stateOf, resultOf. cbn.
    destruct Hholds as [Hk Hrecord].
    destruct (Hrecord _ Hst) as [Hsame _].
    split.
    + eapply (move_chunk _ _ _ _ id stored); cbn;
        [exact Hst| |apply sameRecord_withUpdatedAt|done|done|done].
      destruct Hsame as (_ & _ & _ & _ & _ & -> & _). done.
    + intros ?. split; [exact Hk|]. cbn. intros stored'.
      rewrite lookup_insert_eq. intros [= <-]. cbn. split.
      * eapply sameRecord_trans; [exact Hsame|].
        apply sameRecord_withUpdatedAt.
      * intros x ->%list_elem_of_singleton. apply elem_of_Set_add.
        by left.
  - rewrite (markChunkReceived_throws id i m Hst).
    unfold stateOf, resultOf. cbn. split; [by apply move_read|done].
Qed.

Lemma updateSession_move (id : string) (s : TorrinUploadSession)
  (chunks : list Z) (st : UploadStatus) (m : Memory.State) :
  (st = in_progress ∧ chunks ≠ []
   ∨ st = completed ∧ (∀ i, 0 ≤ i < totalChunks s → i ∈ chunks)
   ∨ st = canceled) →
  holds id s chunks m →
  mv m (stateOf (Memory.updateSession clock id (statusPatch st) m)).
Proof.
  intros Hst [Hk Hrecord].
  destruct (Memory.sessions m !! id) as [stored|] eqn:Hstored.
  - rewrite (updateSession_run clock id _ m stored Hstored).
    unfold stateOf. cbn.
    destruct (Hrecord _ eq_refl) as [Hsame Hchunks].
    destruct Hst as [[-> Hne]|[[-> Hall]| ->]].
    + eapply (move_progress _ _ _ _ id stored); cbn;
        [exact Hstored| |apply sameRecord_statusPatch|done|done|done].
      intros Hnil. rewrite Hnil in Hchunks.
      destruct chunks as [|x chunks]; [done|].
      specialize (Hchunks x). rewrite elem_of_nil in Hchunks.
      apply Hchunks. by left.
    + eapply (move_complete _ _ _ _ id stored); cbn;
        [exact Hstored| |apply sameRecord_statusPatch|done|done|done].
      intros i Hi. apply Hchunks, Hall.
      destruct Hsame as (_ & _ & _ & _ & _ & Htot & _).
      by rewrite <- Htot.
    + eapply (move_cancel _ _ _ _ id stored); cbn;
        [exact Hstored|apply sameRecord_statusPatch|done|done|done].
  - rewrite (updateSession_throws id _ m Hstored).
    by apply move_read.
Qed.

Lemma listReceivedChunks_move (id : string) (s : TorrinUploadSession)
  (m : Memory.State) :
  holds id s [] m →
  let r := Memory.listReceivedChunks id m in
  mv m (stateOf r)
  ∧ ∀ received, resultOf r = Ok received → holds id s received (stateOf r).
Proof.
  intros [Hk Hrecord] r. subst r.
  destruct (Memory.sessions m !! id) as [stored|] eqn:Hst.
  - rewrite (listReceivedChunks_run id m stored Hst).
    unfold stateOf, resultOf. cbn. split; [by apply move_read|].
    intros received [= <-]. split; [exact Hk|].
    intros stored'. rewrite Hst. intros [= <-].
    destruct (Hrecord _ eq_refl) as [Hsame _]. split; [done|].
    intros x. by rewrite elem_of_sorted_received.
  - rewrite (listReceivedChunks_throws id m Hst).
    unfold stateOf, resultOf. cbn. split; [by apply move_read|done].
Qed.

Lemma deleteSession_move (id : string) (m : Memory.State) :
  mv m (stateOf (Memory.deleteSession id m)).
Proof. by apply (move_delete _ _ _ _ id). Qed.

Lemma listExpiredSessions_move (m : Memory.State) :
  mv m (stateOf (Memory.listExpiredSessions clock m)).
Proof. by apply move_read. Qed.

Lemma listAllSessions_move (m : Memory.State) :
  mv m (stateOf (Memory.listAllSessions m)).
Proof. by apply move_read. Qed.

Lemma createSession_move (input : TorrinSessionInitInput) (m : Memory.State) :
  ok m →
  0 < init_fileSize input →
  let chunkSize :=
    Core.normalizeChunkSize
      (Some (default (defaultChunkSize this) (init_desiredChunkSize input)))
      (init_fileSize input) in
  mv m (stateOf (Memory.createSession clock generateUploadId input chunkSize
                   (Some (uploadTtlMs this)) m)).
Proof.
  intros [Hissued _] Hsize chunkSize.
  unfold Memory.createSession, Memory.freshUploadId, Memory.newDate,
    Memory.sessions_set.
  run_simpl.
  match goal with
  | |- context [Memory.mkStored ?s []] =>
      apply (move_create _ _ _ _ s); cbn; [|done| |done|done]
  end.
  - pose proof (normalizeChunkSize_bounds
                  (Some (default (defaultChunkSize this)
                                 (init_desiredChunkSize input)))
                  (init_fileSize input) Hsize) as (Hb1 & Hb2 & _).
    cbn zeta in Hb1, Hb2. fold chunkSize in Hb1, Hb2.
    split; [done|]. split; [done|]. split; [by eexists|].
    split; [|done].
    intros Hsafe. cbn in *. apply calculateTotalChunks_safe; [lia|].
    unfold Float64.MAX_SAFE_INTEGER, MAX_CHUNK_SIZE in *. lia.
  - destruct (Memory.sessions m !! generateUploadId (Memory.idReads m))
      as [stored|] eqn:Hst; [|done].
    destruct (Hissued (generateUploadId (Memory.idReads m)))
      as (k & Hk & Heq); [by rewrite Hst|].
    apply unique_ids in Heq. lia.
Qed.

(** *** What a request does, while others write *)

(** The log [steps] of a run that starts on [m]: if the others made
    moves before its first call, that call is a move, and so on to the
    last call; then [Φ] holds of the state that the last call left. *)
Let chain (Φ : Memory.State → Prop)
  (steps : list (Memory.State * Memory.State)) : Memory.State → Prop :=
  foldr (λ step K m, rtc mv m step.1 → mv step.1 step.2 ∧ K step.2)
    Φ steps.

(** The log is the one [atomically] writes: call [k] finds what the
    others have made of the state that call [k - 1] left, and the last
    call leaves [m']. *)
Let linked (m' : Memory.State)
  (steps : list (Memory.State * Memory.State))
  : nat → Memory.State → Prop :=
  foldr (λ step K k m, step.1 = others k m ∧ K (S k) step.2)
    (λ _ m, m' = m) steps.

Lemma chain_app Φ s1 s2 m :
  chain Φ (s1 ++ s2) m ↔ chain (chain Φ s2) s1 m.
Proof. unfold chain. by rewrite foldr_app. Qed.

Lemma chain_mono (Φ Ψ : Memory.State → Prop) steps m :
  (∀ m', Φ m' → Ψ m') → chain Φ steps m → chain Ψ steps m.
Proof.
  intros Himpl. revert m.
  induction steps as [|[found after] steps IH]; intros m; cbn; [auto|].
  intros Hstep Hfound. destruct (Hstep Hfound) as [Hmove Hrest].
  split; [exact Hmove|]. apply IH, Hrest.
Qed.

Lemma linked_app m' s1 s2 k m :
  linked m' (s1 ++ s2) k m
  ↔ ∃ m1, linked m1 s1 k m ∧ linked m' s2 (k + length s1)%nat m1.
Proof.
  unfold linked. revert k m.
  induction s1 as [|[found after] s1 IH]; intros k m; cbn.
  - rewrite Nat.add_0_r. split.
    + intros H. by exists m.
    + by intros (m1 & <- & H).
  - rewrite IH. replace (k + S (length s1))%nat with (S k + length s1)%nat
      by lia.
    split.
    + intros (Hfound & m1 & H1 & H2). by exists m1.
    + intros (m1 & (Hfound & H1) & H2). split; [done|]. by exists m1.
Qed.

(** The calls of a run [c] are in its log; and with [P] known of the
    store and the store sound when it starts, [c] makes moves for as
    long as the others do, and [Q] is then known of its result. *)
Let triple {A : Type} (P : Memory.State → Prop) (c : Run W A)
  (Q : A → Memory.State → Prop) : Prop :=
  ∀ w, ∃ steps,
    Interleaved.writes (store (stateOf (c w)))
    = Interleaved.writes (store w) ++ steps
    ∧ Interleaved.calls (store (stateOf (c w)))
      = (Interleaved.calls (store w) + length steps)%nat
    ∧ linked (mem (stateOf (c w))) steps (Interleaved.calls (store w))
        (mem w)
    ∧ (ok (mem w) → P (mem w) →
       chain (λ m', m' = mem (stateOf (c w)) ∧ ok m'
                    ∧ ∀ a, resultOf (c w) = Ok a → Q a m')
         steps (mem w)).

Let stable (P : Memory.State → Prop) : Prop :=
  ∀ m m', mv m m' → P m → P m'.

Lemma stable_moves (P : Memory.State → Prop) (m m' : Memory.State) :
  stable P → rtc mv m m' → P m → P m'.
Proof. intros HP. induction 1; [done|]. eauto. Qed.

Lemma stable_True : stable (λ _, True).
Proof. done. Qed.

Lemma stable_holds id s chunks : stable (holds id s chunks).
Proof. intros m m'. apply holds_move. Qed.

Lemma triple_ret {A : Type} (a : A) (P : Memory.State → Prop)
  (Q : A → Memory.State → Prop) :
  (∀ m, P m → Q a m) → triple P (ret a) Q.
Proof.
  intros HQ w. exists []. cbn.
  split; [by rewrite app_nil_r|]. split; [lia|]. split; [done|].
  intros Hok HP. split; [done|]. split; [done|].
  intros a' [= <-]. by apply HQ.
Qed.

Lemma triple_throw {A : Type} (t : Thrown) (P : Memory.State → Prop)
  (Q : A → Memory.State → Prop) :
  triple P (throw t) Q.
Proof.
  intros w. exists []. cbn.
  split; [by rewrite app_nil_r|]. split; [lia|]. split; [done|].
  intros Hok HP. done.
Qed.

Lemma triple_bind {A B : Type} (P : Memory.State → Prop) (c : Run W A)
  (Q : A → Memory.State → Prop) (k : A → Run W B)
  (R : B → Memory.State → Prop) :
  triple P c Q → (∀ a, triple (Q a) (k a) R) → triple P (bind c k) R.
Proof.
  intros Hc Hk w. unfold bind.
  destruct (Hc w) as (s1 & Hw1 & Hc1 & Hl1 & Hch1).
  destruct (c w) as [w1 [a|t]]; unfold stateOf, resultOf in *; cbn in *.
  - destruct (Hk a w1) as (s2 & Hw2 & Hc2 & Hl2 & Hch2).
    exists (s1 ++ s2).
    split; [by rewrite Hw2, Hw1, app_assoc|].
    split; [rewrite Hc2, Hc1, length_app; lia|].
    split; [apply linked_app; exists (mem w1); by rewrite <- Hc1|].
    intros Hok HP. apply chain_app.
    eapply chain_mono; [|by apply Hch1].
    intros m1 (-> & Hok1 & HQ).
    eapply chain_mono; [|apply Hch2; [done|by apply HQ]].
    by intros m2 (-> & Hok2 & HR).
  - exists s1. do 3 (split; [done|]).
    intros Hok HP. eapply chain_mono; [|by apply Hch1].
    by intros m1 (-> & Hok1 & _).
Qed.

Lemma triple_bind_ret {A B : Type} (P : Memory.State → Prop) (a : A)
  (k : A → Run W B) (R : B → Memory.State → Prop) :
  triple P (k a) R → triple P (bind (ret a) k) R.
Proof. intros Hk. exact Hk. Qed.

Lemma triple_bind_throw {A B : Type} (P : Memory.State → Prop)
  (t : Thrown) (k : A → Run W B) (R : B → Memory.State → Prop) :
  triple P (bind (throw t) k) R.
Proof. exact (triple_throw t P R). Qed.

Lemma triple_tryCatch {A : Type} (P : Memory.State → Prop) (c : Run W A)
  (h : Thrown → Run W A) (Q : A → Memory.State → Prop) :
  triple P c Q → (∀ t, triple (λ _, True) (h t) Q) →
  triple P (tryCatch c h) Q.
Proof.
  intros Hc Hh w. unfold tryCatch.
  destruct (Hc w) as (s1 & Hw1 & Hc1 & Hl1 & Hch1).
  destruct (c w) as [w1 [a|t]]; unfold stateOf, resultOf in *; cbn in *.
  - exists s1. do 3 (split; [done|]). done.
  - destruct (Hh t w1) as (s2 & Hw2 & Hc2 & Hl2 & Hch2).
    exists (s1 ++ s2).
    split; [by rewrite Hw2, Hw1, app_assoc|].
    split; [rewrite Hc2, Hc1, length_app; lia|].
    split; [apply linked_app; exists (mem w1); by rewrite <- Hc1|].
    intros Hok HP. apply chain_app.
    eapply chain_mono; [|by apply Hch1].
    intros m1 (-> & Hok1 & _). by apply Hch2.
Qed.

Lemma triple_onDriver {A : Type} (call : Call) (op : Run D A)
  (P : Memory.State → Prop) :
  triple P (onDriver call op) (λ _, P).
Proof.
  intros w. exists []. unfold onDriver, stateOf, resultOf.
  destruct (op (storage w)) as [d' r]. cbn.
  split; [by rewrite app_nil_r|]. split; [lia|]. split; [done|].
  intros Hok HP. done.
Qed.

Lemma triple_onStore {A : Type} (call : Call) (op : Run Memory.State A)
  (P : Memory.State → Prop) (Q : A → Memory.State → Prop) :
  stable P →
  (∀ m, ok m → P m →
        mv m (stateOf (op m))
        ∧ ∀ a, resultOf (op m) = Ok a → Q a (stateOf (op m))) →
  triple P (onStore call (Interleaved.atomically others op)) Q.
Proof.
  intros Hstable Hop w.
  unfold onStore, Interleaved.atomically, stateOf, resultOf in *.
  set (found := others _ _) in *.
  specialize (Hop found).
  destruct (op found) as [after r]. cbn in *.
  exists [(found, after)]. cbn.
  split; [done|]. split; [lia|]. split; [done|].
  intros Hok HP Hothers.
  destruct Hop as [Hmove HQ];
    [by eapply moves_soundStore|by eapply stable_moves|].
  split; [exact Hmove|]. split; [done|].
  split; [|exact HQ].
  eapply move_soundStore; [exact Hmove|]. by eapply moves_soundStore.
Qed.

Lemma triple_forOf {A B : Type} (l : list A) (body : A → B → Run W B)
  (P : Memory.State → Prop) :
  (∀ x acc, triple P (body x acc) (λ _, P)) →
  ∀ acc, triple P (forOf l body acc) (λ _, P).
Proof.
  intros Hbody. induction l as [|x l IH]; intros acc; cbn.
  - by apply triple_ret.
  - eapply triple_bind; [apply Hbody|]. intros acc'. apply IH.
Qed.

Lemma getSessionOrThrow_triple (id : string) :
  triple (λ _, True) (getSessionOrThrow (storeImpl := storeI) id)
    (λ s, holds id s []).
Proof.
  unfold getSessionOrThrow.
  eapply triple_bind.
  - apply (triple_onStore _ _ _ (λ r m, ∀ s, r = Some s → holds id s [] m));
      [apply stable_True|].
    intros m Hok _. destruct (getSession_move id m Hok) as [Hmove Hs].
    split; [exact Hmove|]. intros r Hr s ->. by apply Hs.
  - intros [s|]; [|apply triple_throw].
    apply triple_ret. intros m Hm. by apply Hm.
Qed.

Lemma initUpload_triple (input : TorrinSessionInitInput) :
  triple (λ _, True) (initUpload (storeImpl := storeI) this input)
    (λ _ _, True).
Proof.
  unfold initUpload.
  destruct (Z.leb_spec (init_fileSize input) 0) as [|Hsize];
    [apply triple_throw|].
  eapply triple_bind.
  - apply (triple_onStore _ _ _ (λ _ _, True)); [apply stable_True|].
    intros m Hok _. split; [|done]. by apply createSession_move.
  - intros session. eapply triple_bind; [apply triple_onDriver|].
    intros ?. by apply triple_ret.
Qed.

Lemma handleChunk_triple (input : HandleChunkInput) :
  triple (λ _, True) (handleChunk (storeImpl := storeI) input)
    (λ _ _, True).
Proof.
  unfold handleChunk.
  eapply triple_bind; [apply getSessionOrThrow_triple|]. intros s.
  unfold validateSessionForChunk.
  destruct (decide (status s = completed)); [apply triple_bind_throw|].
  destruct (decide (status s = canceled)); [apply triple_bind_throw|].
  apply triple_bind_ret. unfold validateChunkIndex.
  destruct ((hc_index input <? 0) || (hc_index input >=? totalChunks s))
    eqn:Hrange; [apply triple_bind_throw|].
  apply orb_false_elim in Hrange as [Hlo Hhi].
  apply triple_bind_ret.
  destruct (Core.getExpectedChunkSize _ _ _ _) as [expected|];
    [|apply triple_bind_throw].
  apply triple_bind_ret.
  destruct (negb _); [apply triple_throw|].
  eapply triple_bind; [apply triple_onDriver|]. intros ?.
  eapply triple_bind.
  - apply (triple_onStore _ _ _
             (λ _, holds (hc_uploadId input) s [hc_index input]));
      [apply stable_holds|].
    intros m _ Hholds.
    destruct (markChunkReceived_move (hc_uploadId input) s
                (hc_index input) m) as [Hmove Hnew]; [lia|done|].
    split; [exact Hmove|]. intros []. exact Hnew.
  - intros ?. destruct (decide (status s = pending)).
    + eapply triple_bind; [|intros ?; by apply triple_ret].
      apply (triple_onStore _ _ _ (λ _ _, True)); [apply stable_holds|].
      intros m _ Hholds. split; [|done].
      eapply updateSession_move; [|exact Hholds]. by left.
    + by apply triple_ret.
Qed.

Lemma getStatus_triple (id : string) :
  triple (λ _, True) (getStatus (storeImpl := storeI) id) (λ _ _, True).
Proof.
  unfold getStatus.
  eapply triple_bind; [apply getSessionOrThrow_triple|]. intros s.
  eapply triple_bind; [|intros received; by apply triple_ret].
  apply (triple_onStore _ _ _ (λ _ _, True)); [apply stable_holds|].
  intros m _ Hholds. split; [|done].
  by destruct (listReceivedChunks_move id s m Hholds).
Qed.

Lemma completeUpload_triple (id : string) (hash : option string) :
  triple (λ _, True) (completeUpload (storeImpl := storeI) id hash)
    (λ _ _, True).
Proof.
  unfold completeUpload.
  eapply triple_bind; [apply getSessionOrThrow_triple|]. intros s.
  destruct (decide (status s = completed)); [apply triple_throw|].
  destruct (decide (status s = canceled)); [apply triple_throw|].
  eapply triple_bind.
  - apply (triple_onStore _ _ _ (λ received, holds id s received));
      [apply stable_holds|].
    intros m _ Hholds. by apply listReceivedChunks_move.
  - intros received.
    destruct (Core.getMissingChunks _ _) as [|j missing] eqn:Hmissing;
      [|apply triple_throw].
    change (0 <? Z.of_nat (length (@nil Z))) with false. cbv iota.
    eapply triple_bind; [apply triple_onDriver|]. intros location.
    eapply triple_bind; [|intros ?; by apply triple_ret].
    apply (triple_onStore _ _ _ (λ _ _, True)); [apply stable_holds|].
    intros m _ Hholds. split; [|done].
    eapply updateSession_move; [|exact Hholds].
    right. left. split; [done|]. intros i Hi.
    destruct (decide (i ∈ received)) as [|Hn]; [done|].
    assert (i ∈ Core.getMissingChunks (totalChunks s) received) as Hin
      by (by rewrite elem_of_getMissingChunks).
    rewrite Hmissing in Hin. by apply elem_of_nil in Hin.
Qed.

Lemma abortUpload_triple (id : string) :
  triple (λ _, True) (abortUpload (storeImpl := storeI) id) (λ _ _, True).
Proof.
  unfold abortUpload.
  eapply triple_bind; [apply getSessionOrThrow_triple|]. intros s.
  destruct (decide (status s = completed)); [apply triple_throw|].
  eapply triple_bind; [apply triple_onDriver|]. intros ?.
  eapply triple_bind; [|intros ?; by apply triple_ret].
  apply (triple_onStore _ _ _ (λ _ _, True)); [apply stable_holds|].
  intros m _ Hholds. split; [|done].
  eapply updateSession_move; [|exact Hholds]. by right; right.
Qed.

Lemma deleteSession_triple (id : string) :
  triple (λ _, True)
    (onStore (StoreDeleteSession id)
       (Store.deleteSession (TorrinUploadStore := storeI) id))
    (λ _ _, True).
Proof.
  apply (triple_onStore _ _ _ (λ _ _, True)); [apply stable_True|].
  intros m _ _. split; [apply deleteSession_move|done].
Qed.

Lemma cleanupExpiredOne_triple (session : TorrinUploadSession)
  (acc : CleanupResult) :
  triple (λ _, True)
    (cleanupExpiredOne (storeImpl := storeI) session acc) (λ _ _, True).
Proof.
  unfold cleanupExpiredOne.
  apply triple_tryCatch; [|intros t; by apply triple_ret].
  eapply triple_bind.
  - destruct (decide (status session ≠ completed));
      [apply triple_onDriver|by apply triple_ret].
  - intros ?. eapply triple_bind; [apply deleteSession_triple|].
    intros ?. by apply triple_ret.
Qed.

Lemma cleanupStaleOne_triple (maxAgeMs now : Z)
  (session : TorrinUploadSession) (acc : CleanupResult) :
  triple (λ _, True)
    (cleanupStaleOne (storeImpl := storeI) maxAgeMs now session acc)
    (λ _ _, True).
Proof.
  unfold cleanupStaleOne. cbv zeta.
  destruct (_ && _); [|by apply triple_ret].
  apply triple_tryCatch; [|intros t; by apply triple_ret].
  eapply triple_bind; [apply triple_onDriver|]. intros ?.
  eapply triple_bind; [apply deleteSession_triple|].
  intros ?. by apply triple_ret.
Qed.

Lemma cleanupExpiredUploads_triple :
  triple (λ _, True) (cleanupExpiredUploads (storeImpl := storeI))
    (λ _ _, True).
Proof.
  unfold cleanupExpiredUploads.
  cbn [Store.listExpiredSessions Interleaved.interleavedStore].
  eapply triple_bind.
  - apply (triple_onStore _ _ _ (λ _ _, True)); [apply stable_True|].
    intros m _ _. split; [apply listExpiredSessions_move|done].
  - intros expired. apply triple_forOf. intros session acc.
    apply cleanupExpiredOne_triple.
Qed.

Lemma cleanupStaleUploads_triple (maxAgeMs now : Z) :
  triple (λ _, True)
    (cleanupStaleUploads (storeImpl := storeI) maxAgeMs now)
    (λ _ _, True).
Proof.
  unfold cleanupStaleUploads.
  cbn [Store.listAllSessions Interleaved.interleavedStore].
  eapply triple_bind.
  - apply (triple_onStore _ _ _ (λ _ _, True)); [apply stable_True|].
    intros m _ _. split; [apply listAllSessions_move|done].
  - intros allSessions. apply triple_forOf. intros session acc.
    apply cleanupStaleOne_triple.
Qed.

(** The [updateSession] of an [abortUpload] is a move wherever it
    runs. *)
Lemma updateSession_canceled_move (id : string) (m : Memory.State) :
  ok m →
  mv m (stateOf (Memory.updateSession clock id (statusPatch canceled) m)).
Proof.
  intros Hok.
  destruct (Memory.sessions m !! id) as [stored|] eqn:Hst.
  - eapply updateSession_move; [by right; right|].
    by apply holds_stored.
  - rewrite (updateSession_throws id _ m Hst). by apply move_read.
Qed.

Lemma serve_triple (r : System.Request) :
  triple (λ _, True)
    (λ w, (Interleaved.serve clock generateUploadId this others r w,
           Ok tt))
    (λ _ _, True).
Proof.
  assert (Hstate : ∀ (A : Type) (c : Run W A),
             triple (λ _, True) c (λ _ _, True) →
             triple (λ _, True) (λ w, (stateOf (c w), Ok tt))
               (λ _ _, True)).
  { intros A c Hc w. destruct (Hc w) as (steps & Hw & Hcalls & Hl & Hch).
    exists steps. unfold stateOf, resultOf in *. cbn.
    do 3 (split; [done|]). intros Hok _.
    eapply chain_mono; [|by apply Hch]. by intros m' (-> & Hok' & _). }
  destruct r; unfold Interleaved.serve; apply Hstate.
  - apply initUpload_triple.
  - apply handleChunk_triple.
  - apply getStatus_triple.
  - apply completeUpload_triple.
  - apply abortUpload_triple.
  - apply cleanupExpiredUploads_triple.
  - apply cleanupStaleUploads_triple.
Qed.

(** As long as the others made moves, the calls of the log were moves
    between sound states. *)
Lemma chain_take Φ steps m n :
  ok m → chain Φ steps m → relied this generateUploadId m (take n steps) →
  Forall (λ step, ok step.1 ∧ mv step.1 step.2 ∧ ok step.2)
    (take n steps).
Proof.
  revert m n. induction steps as [|[found after] steps IH];
    intros m n Hok Hchain Hrelied.
  - by rewrite take_nil.
  - destruct n as [|n]; [done|]. cbn in *.
    destruct Hrelied as [Hfound Hrelied].
    destruct (Hchain Hfound) as [Hmove Hrest].
    assert (ok found) by (by eapply moves_soundStore).
    assert (ok after) by (by eapply move_soundStore).
    constructor; [done|]. by apply (IH after).
Qed.

Lemma chain_last Φ steps m :
  chain Φ steps m → relied this generateUploadId m steps →
  ∃ m', Φ m' ∧ rtc mv m m'.
Proof.
  revert m. induction steps as [|[found after] steps IH];
    intros m Hchain Hrelied; cbn in *.
  - by exists m.
  - destruct Hrelied as [Hfound Hrelied].
    destruct (Hchain Hfound) as [Hmove Hrest].
    destruct (IH after Hrest Hrelied) as (m' & HΦ & Hmoves).
    exists m'. split; [done|].
    etrans; [exact Hfound|]. by eapply rtc_l.
Qed.

(** When the others make moves whatever they find, they have made
    moves all along the log. *)
Lemma linked_relied Φ m' steps k m :
  (∀ k m, ok m → rtc mv m (others k m)) →
  ok m → linked m' steps k m → chain Φ steps m →
  relied this generateUploadId m steps.
Proof.
  intros Hothers. revert k m.
  induction steps as [|[found after] steps IH];
    intros k m Hok Hlinked Hchain; cbn in *; [done|].
  destruct Hlinked as [-> Hlinked].
  pose proof (Hothers k m Hok) as Hfound.
  destruct (Hchain Hfound) as [Hmove Hrest].
  split; [done|]. apply (IH (S k)); [|done|done].
  eapply move_soundStore; [exact Hmove|]. by eapply moves_soundStore.
Qed.

Lemma serve_relied (r : System.Request) (w : W) steps :
  (∀ k m, ok m → rtc mv m (others k m)) →
  ok (mem w) →
  Interleaved.writes
    (store (Interleaved.serve clock generateUploadId this others r w))
  = Interleaved.writes (store w) ++ steps →
  relied this generateUploadId (mem w) steps.
Proof.
  intros Hothers Hok Hwrites.
  destruct (serve_triple r w) as (steps' & Hw & _ & Hlinked & Hchain).
  unfold stateOf in *. cbn in *.
  rewrite Hw in Hwrites. apply app_inv_head in Hwrites as <-.
  eapply linked_relied; [done|done|exact Hlinked|by apply Hchain].
Qed.

Lemma serve_soundStore (r : System.Request) (w : W) :
  (∀ k m, ok m → rtc mv m (others k m)) →
  ok (mem w) →
  ok (mem (Interleaved.serve clock generateUploadId this others r w)).
Proof.
  intros Hothers Hok.
  destruct (serve_triple r w) as (steps & _ & _ & Hlinked & Hchain).
  unfold stateOf in *. cbn in *. specialize (Hchain Hok I).
  pose proof (linked_relied _ _ _ _ _ Hothers Hok Hlinked Hchain)
    as Hrelied.
  by destruct (chain_last _ _ _ Hchain Hrelied) as (m' & (-> & ? & _) & _).
Qed.

(** X21.  Requests are served concurrently: between any two calls that a
    request makes on the in-memory store (at each [await] of the
    service), other requests write to the store.  A move of the upload
    life cycle is one of: a [pending] upload without chunks is created
    under a new id; a chunk is added to a stored upload; a stored upload
    that holds a chunk is set to [in_progress]; one that holds every
    chunk is set to [completed]; a stored upload is set to [canceled];
    an entry is deleted; nothing is changed.  Let the ids of
    [generateUploadId] be unique and the store be sound when the request
    starts.  Then, for as long as the other requests have changed the
    store by moves only, every call of this request on the store is a
    move, whatever the others did in between.  And if they did so up to
    its last call, an upload that is stored at the start and at the end
    of the request has changed no field other than [status] and
    [updatedAt], and has lost no chunk. *)
Theorem interleaved_calls_are_lifecycle_moves (r : System.Request) (w : W) :
  ok (mem w) →
  let w' := Interleaved.serve clock generateUploadId this others r w in
  ∃ steps,
    Interleaved.writes (store w') = Interleaved.writes (store w) ++ steps
    ∧ (∀ n, relied this generateUploadId (mem w) (take n steps) →
            Forall (λ step, mv step.1 step.2) (take n steps))
    ∧ (relied this generateUploadId (mem w) steps →
       ∀ uploadId stored stored',
         Memory.sessions (mem w) !! uploadId = Some stored →
         Memory.sessions (mem w') !! uploadId = Some stored' →
         sameRecord (Memory.session stored) (Memory.session stored')
         ∧ Memory.receivedChunks stored ⊆ Memory.receivedChunks stored').
Proof.
  intros Hok w'.
  destruct (serve_triple r w) as (steps & Hwrites & _ & _ & Hchain).
  unfold stateOf in *. cbn in *. specialize (Hchain Hok I).
  exists steps. split; [exact Hwrites|]. split.
  - intros n Hrelied.
    eapply Forall_impl; [by eapply chain_take|].
    by intros step (_ & Hstep & _).
  - intros Hrelied uploadId stored stored' Hst Hst'.
    destruct (chain_last _ _ _ Hchain Hrelied) as (m' & (-> & _) & Hmoves).
    pose proof (holds_stored _ _ _ Hok Hst) as Hholds.
    apply (holds_moves _ _ _ _ _ Hmoves) in Hholds as [_ Hrecord].
    by apply Hrecord.
Qed.

(** X22.  Requests are served concurrently, as in X21, and the ids of
    [generateUploadId] are unique.  If every stored upload is sound when
    a request starts, then, for as long as the other requests have
    changed the store by moves of the upload life cycle only, every
    stored upload is sound in the state that each call of the request
    finds and in the state it leaves; and it is when the request ends,
    if they did so up to its last call.  Sound means: the status is not
    [failed]; the file is not empty; the chunk size is between 1 and
    100 MiB and not larger than the file; [totalChunks] is what
    [calculateTotalChunks] returns, for a file size up to
    [Number.MAX_SAFE_INTEGER]; the expiry is the creation time plus the
    time to live of the service (none when that is 0); an [in_progress]
    upload holds at least one chunk and a [completed] upload holds them
    all.  (A [pending] upload may hold chunks, and the empty store is
    sound.) *)
Theorem interleaved_uploads_stay_sound (r : System.Request) (w : W) :
  ok (mem w) →
  let w' := Interleaved.serve clock generateUploadId this others r w in
  ∃ steps,
    Interleaved.writes (store w') = Interleaved.writes (store w) ++ steps
    ∧ (∀ n, relied this generateUploadId (mem w) (take n steps) →
            Forall (λ step, ok step.1 ∧ ok step.2) (take n steps))
    ∧ (relied this generateUploadId (mem w) steps → ok (mem w')).
Proof.
  intros Hok w'.
  destruct (serve_triple r w) as (steps & Hwrites & _ & _ & Hchain).
  unfold stateOf in *. cbn in *. specialize (Hchain Hok I).
  exists steps. split; [exact Hwrites|]. split.
  - intros n Hrelied.
    eapply Forall_impl; [by eapply chain_take|].
    by intros step (Hfound & _ & Hafter).
  - intros Hrelied.
    by destruct (chain_last _ _ _ Hchain Hrelied) as (m' & (-> & ? & _) & _).
Qed.

End Interleaving.

(** ** A whole upload, from the client's bytes to the file *)

Section WholeUpload.

Import Service Local Chunker.

Context (options : LocalStorageOptions).
Context (clock : nat → Z) (generateUploadId : nat → string).
Context (this : TorrinService).

Lemma not_expired (session : TorrinUploadSession) (now : Z) :
  (∀ e, expiresAt session = Some e → now ≤ e) →
  Memory.isExpired session now = false.
Proof.
  intros Hlive. unfold Memory.isExpired.
  destruct (expiresAt session) as [e|]; [|done].
  apply Z.ltb_ge. by apply Hlive.
Qed.

(** [c] moves the count of the readings of the clock forward, by at
    most [k]. *)
Let reads {A : Type} (k : nat) (c : Run (World Memory.State FS) A) : Prop :=
  ∀ w, (Memory.clockReads (store w)
        ≤ Memory.clockReads (store (stateOf (c w)))
        ≤ Memory.clockReads (store w) + k)%nat.

Lemma reads_ret {A : Type} (a : A) : reads 0 (ret a).
Proof. intros w. cbn. lia. Qed.

Lemma reads_throw {A : Type} (t : Thrown) : reads (A := A) 0 (throw t).
Proof. intros w. cbn. lia. Qed.

Lemma reads_le {A : Type} (k k' : nat) (c : Run _ A) :
  (k ≤ k')%nat → reads k c → reads k' c.
Proof. intros Hk Hc w. specialize (Hc w). lia. Qed.

Lemma reads_bind {A B : Type} (k1 k2 : nat) (c : Run _ A)
  (f : A → Run _ B) :
  reads k1 c → (∀ a, reads k2 (f a)) → reads (k1 + k2) (bind c f).
Proof.
  intros Hc Hf w. specialize (Hc w). unfold bind, stateOf in *.
  destruct (c w) as [w1 [a|t]]; cbn [fst] in *; [|lia].
  specialize (Hf a w1). unfold stateOf in Hf. lia.
Qed.

Lemma reads_onDriver {A : Type} (call : Call) (op : Run FS A) :
  reads 0 (onDriver call op).
Proof.
  intros w. unfold onDriver, stateOf.
  destruct (op (storage w)) as [d r]. cbn. lia.
Qed.

Lemma reads_onStore {A : Type} (call : Call) (op : Run Memory.State A) :
  (∀ st, (Memory.clockReads st ≤ Memory.clockReads (stateOf (op st))
          ≤ S (Memory.clockReads st))%nat) →
  reads 1 (onStore call op).
Proof.
  intros Hop w. specialize (Hop (store w)). unfold onStore, stateOf in *.
  destruct (op (store w)) as [st r]. cbn in *. lia.
Qed.

(** [handleChunk] reads the clock at most three times. *)
Lemma handleChunk_clock (input : HandleChunkInput) :
  reads 3 (System.handleChunk (driverImpl := Transfer.driver options)
             clock generateUploadId input).
Proof.
  memory_unfold. unfold handleChunk.
  apply (reads_bind 1 2).
  { unfold getSessionOrThrow. apply (reads_bind 1 0).
    - apply reads_onStore. intros st. cbn.
      unfold Memory.getSession. run_unfold. cbn.
      repeat case_match; cbn; lia.
    - intros [session|]; [apply reads_ret|apply reads_throw]. }
  intros session. apply (reads_bind 0 2).
  { unfold validateSessionForChunk.
    repeat case_match; first [apply reads_ret|apply reads_throw]. }
  intros _. apply (reads_bind 0 2).
  { unfold validateChunkIndex.
    case_match; first [apply reads_ret|apply reads_throw]. }
  intros _. apply (reads_bind 0 2).
  { case_match; first [apply reads_ret|apply reads_throw]. }
  intros expectedSize.
  case_match; [apply (reads_le 0); [lia|apply reads_throw]|].
  apply (reads_bind 0 2); [apply reads_onDriver|].
  intros _. apply (reads_bind 1 1).
  { apply reads_onStore. intros st. cbn.
    unfold Memory.markChunkReceived. run_unfold. cbn.
    repeat case_match; cbn; lia. }
  intros _. case_match; [|apply (reads_le 0); [lia|apply reads_ret]].
  apply (reads_bind 1 0); [|intros; apply reads_ret].
  apply reads_onStore. intros st. cbn.
  unfold Memory.updateSession. run_unfold. cbn.
  repeat case_match; cbn; lia.
Qed.

(** [initUpload] reads the clock at most once. *)
Lemma initUpload_clock (input : TorrinSessionInitInput) :
  reads 1 (System.initUpload (driverImpl := Transfer.driver options)
             clock generateUploadId this input).
Proof.
  memory_unfold. unfold Service.initUpload.
  case_match; [apply (reads_le 0); [lia|apply reads_throw]|].
  apply (reads_bind 1 0).
  - apply reads_onStore. intros st. cbn.
    unfold Memory.createSession. run_unfold. cbn. lia.
  - intros session. apply (reads_bind 0 0); [apply reads_onDriver|].
    intros; apply reads_ret.
Qed.

Lemma getFinalPath_ext (s s' : TorrinUploadSession) :
  uploadId s' = uploadId s → fileName s' = fileName s →
  getFinalPath options s' = getFinalPath options s.
Proof. intros Hid Hname. unfold getFinalPath. by rewrite Hid, Hname. Qed.

(** The chunk requests, served in the order [arrival] after the chunks
    of [done_] have been served. *)
Lemma sendChunks_run (bytes : list Byte.byte) (session0 : TorrinUploadSession) :
  let fileSize_ := Z.of_nat (length bytes) in
  let dir := getUploadTempDir options (uploadId session0) in
  let info := getChunkInfo (chunkSize session0) fileSize_ in
  let content := λ i, slice bytes (ci_start (info i)) (ci_end (info i)) in
  0 < fileSize_ → 0 < chunkSize session0 →
  fileSize session0 = fileSize_ →
  totalChunks session0
  = Core.calculateTotalChunks fileSize_ (chunkSize session0) →
  ∀ first limit : nat,
  (∀ n e, expiresAt session0 = Some e → (first ≤ n ≤ limit)%nat →
          clock n ≤ e) →
  ∀ (arrival done_ : list Z) (w : World Memory.State FS)
    (stored : Memory.StoredSession),
    (first ≤ Memory.clockReads (store w))%nat →
    (Memory.clockReads (store w) + 3 * length arrival ≤ limit)%nat →
    Memory.sessions (store w) !! uploadId session0 = Some stored →
    Lifecycle.sameRecord session0 (Memory.session stored) →
    status (Memory.session stored) ≠ completed →
    status (Memory.session stored) ≠ canceled →
    (∀ i, i ∈ Memory.receivedChunks stored ↔ i ∈ done_) →
    dirs (storage w) !! dir
    = Some (foldl (λ d i, <[chunkFileName i := content i]> d) ∅ done_) →
    (∀ i, i ∈ arrival → 0 ≤ i < totalChunks session0) →
    ∃ w' stored',
      Service.forOf arrival
        (λ index (_ : unit),
           System.handleChunk (driverImpl := Transfer.driver options)
             clock generateUploadId
             (Transfer.chunkInput bytes (chunkSize session0)
                (uploadId session0) index))
        tt w
      = (w', Ok tt)
      ∧ Memory.sessions (store w') !! uploadId session0 = Some stored'
      ∧ Lifecycle.sameRecord session0 (Memory.session stored')
      ∧ status (Memory.session stored') ≠ completed
      ∧ status (Memory.session stored') ≠ canceled
      ∧ (∀ i, i ∈ Memory.receivedChunks stored' ↔ i ∈ done_ ++ arrival)
      ∧ dirs (storage w') !! dir
        = Some (foldl (λ d i, <[chunkFileName i := content i]> d) ∅
                      (done_ ++ arrival))
      ∧ files (storage w') = files (storage w)
      ∧ (Memory.clockReads (store w) ≤ Memory.clockReads (store w')
         ≤ Memory.clockReads (store w) + 3 * length arrival)%nat.
Proof.
  intros fileSize_ dir info content Hf Hchunk Hsize Htotal first limit Hlive.
  induction arrival as [|i l IH];
    intros done_ w stored Hfirst Hlimit Hst Hsame Hc Hx Hrec Hdir Hin.
  - exists w, stored. rewrite app_nil_r. cbn. unfold ret.
    do 8 (split; [done|]). lia.
  - cbn [Service.forOf]. unfold bind.
    set (input := Transfer.chunkInput bytes (chunkSize session0)
                    (uploadId session0) i).
    destruct Hsame as (Hid & Hfn & Hfs & Hmt & Hcs & Htc & Hmd & Hcr & Hex).
    assert (Hi : 0 ≤ i < Core.calculateTotalChunks fileSize_
                              (chunkSize session0))
      by (rewrite <- Htotal; apply Hin; by left).
    destruct (getChunkInfo_bounds fileSize_ (chunkSize session0) Hf Hchunk
                i Hi) as (Hb1 & Hb2).
    assert (Hlen : Z.of_nat (length (content i)) = ci_size (info i))
      by (subst content; cbn beta; by rewrite length_slice).
    assert (Hwritten :
              Driver.writeChunk (D := FS)
                (TorrinStorageDriver := Transfer.driver options)
                (Memory.session stored) (hc_index input) (hc_stream input)
                (hc_size input) (hc_hash input) (storage w)
              = (mkFS (<[dir := <[chunkFileName i := content i]>
                                  (foldl (λ d i, <[chunkFileName i
                                                   := content i]> d) ∅
                                         done_)]>
                         (dirs (storage w)))
                      (files (storage w)), Ok tt)).
    { change (Driver.writeChunk (Memory.session stored) (hc_index input)
                (hc_stream input) (hc_size input) (hc_hash input)
                (storage w))
        with (writeChunk options (Memory.session stored) i (content i)
                (Z.of_nat (length (content i))) None (storage w)).
      erewrite writeChunk_run by (rewrite Hid; exact Hdir).
      rewrite Z.eqb_refl, Hid. done. }
    pose proof (handleChunk_accepted (driverImpl := Transfer.driver options)
                  clock generateUploadId input w stored) as Haccepted.
    cbn zeta in Haccepted.
    destruct Haccepted as [Hstorage Hresult].
    + exact Hst.
    + apply not_expired. intros e He. rewrite Hex in He.
      unfold System.now. eapply Hlive; [exact He|].
      cbn [length] in Hlimit. lia.
    + done.
    + done.
    + rewrite Htc, Hfs, Hcs, Htotal, Hsize.
      change (hc_index input) with i.
      change (hc_size input) with (Z.of_nat (length (content i))).
      rewrite (getChunkInfo_expected fileSize_ (chunkSize session0) Hf Hchunk
                 i Hi).
      f_equal. symmetry. exact Hlen.
    + rewrite Hwritten in Hstorage, Hresult.
      pose proof (handleChunk_clock input w) as Hclock.
      destruct (System.handleChunk clock generateUploadId input w)
        as [w1 r1].
      unfold stateOf, resultOf in Hstorage, Hresult, Hclock.
      cbn [fst snd] in *. cbn [length] in Hlimit.
      destruct Hresult as (-> & stored' & Hsessions & Hreceived & _
                           & Hstatus & Hsame').
      destruct Hsame' as (Hid' & Hfn' & Hfs' & Hmt' & Hcs' & Htc' & Hmd'
                          & Hcr' & Hex').
      destruct (IH (done_ ++ [i]) w1 stored')
        as (w' & stored'' & Hrun & Hst'' & Hsame'' & Hc'' & Hx'' & Hrec''
            & Hdir'' & Hfiles'' & Hclock'').
      * lia.
      * lia.
      * rewrite Hsessions. apply lookup_insert_eq.
      * repeat split; congruence.
      * rewrite Hstatus. destruct (decide _); [done|done].
      * rewrite Hstatus. destruct (decide _); [done|done].
      * intros j. rewrite Hreceived, elem_of_Set_add, elem_of_app,
          list_elem_of_singleton, Hrec. tauto.
      * rewrite Hstorage. cbn [dirs]. rewrite lookup_insert_eq.
        by rewrite foldl_app.
      * intros j Hj. apply Hin. by right.
      * exists w', stored''. rewrite <- app_assoc in Hrec'', Hdir''.
        rewrite Hrun. rewrite Hfiles'', Hstorage.
        do 8 (split; [done|]). cbn [length]. lia.
Qed.

(** X24.  A whole upload, request by request.  The service runs on the
    in-memory store and the local driver, on a disk that holds nothing
    yet; the requests of one upload of a source that is not empty are
    served one after the other: [initUpload], then one [handleChunk] per
    chunk (the piece of the source at the offsets of [getChunkInfo], with
    its length as size) in any order, each once, then [completeUpload].
    The paths of the upload are plain ([Paths.plain]), there are at most
    a million chunks, and the clock readings made on the way do not pass
    the expiry of the upload.  Then every request succeeds,
    [completeUpload] returns the final path with the id, name, size and
    metadata of the upload, the file at that path holds the bytes of the
    source and is the only file written, the upload is [completed] with
    every chunk received, and the staging directory is gone. *)
Theorem whole_upload_stores_the_file (name mime : option string)
  (meta : option Metadata) (desired : option Z)
  (bytes : list Byte.byte) (arrival : list Z)
  (w : World Memory.State FS) :
  let fileSize_ := Z.of_nat (length bytes) in
  let first := Memory.clockReads (store w) in
  let chunkSize_ :=
    Core.normalizeChunkSize
      (Some (default (defaultChunkSize this) desired)) fileSize_ in
  let totalChunks_ := Core.calculateTotalChunks fileSize_ chunkSize_ in
  let session :=
    {| uploadId := generateUploadId (Memory.idReads (store w));
       fileName := name;
       fileSize := fileSize_;
       mimeType := mime;
       chunkSize := chunkSize_;
       totalChunks := totalChunks_;
       metadata := meta;
       status := pending;
       createdAt := clock first;
       updatedAt := clock first;
       expiresAt := Lifecycle.expiryFrom this (clock first) |} in
  let id := uploadId session in
  let path := getFinalPath options session in
  bytes ≠ [] →
  totalChunks_ ≤ 1000000 →
  arrival ≡ₚ seqZ 0 totalChunks_ →
  storage w = emptyFS →
  Paths.plain options session = true →
  (∀ n e,
      expiresAt session = Some e →
      (first ≤ n ≤ first + 3 * length arrival + 1)%nat →
      clock n ≤ e) →
  let r :=
    Transfer.upload options clock generateUploadId this name mime meta
      desired bytes arrival w in
  ∃ stored,
    resultOf r
    = Ok {| cr_uploadId := id; cr_fileName := name;
            cr_fileSize := fileSize_;
            cr_location := LocalLocation path;
            cr_metadata := meta |}
    ∧ files (storage (stateOf r)) = {[ path := bytes ]}
    ∧ Memory.sessions (store (stateOf r)) !! id = Some stored
    ∧ status (Memory.session stored) = completed
    ∧ (∀ i, i ∈ Memory.receivedChunks stored ↔ 0 ≤ i < totalChunks_)
    ∧ dirs (storage (stateOf r)) !! getUploadTempDir options id = None.
Proof.
  intros fileSize_ first chunkSize_ totalChunks_ session id path
    Hbytes Hmax Hperm Hempty _ Hlive r.
  assert (Hfresh : dirs (storage w) !! getUploadTempDir options id = None).
  { rewrite Hempty. apply lookup_empty. }
  assert (Hf : 0 < fileSize_).
  { subst fileSize_. destruct bytes; [done|cbn; lia]. }
  pose proof (normalizeChunkSize_bounds
                (Some (default (defaultChunkSize this) desired))
                fileSize_ Hf) as (Hb & _).
  cbn zeta in Hb. fold chunkSize_ in Hb.
  set (input := mkInit name fileSize_ mime meta desired).
  pose proof (initUpload_run (driverImpl := Transfer.driver options)
                clock generateUploadId this input w) as Hinit.
  cbn zeta in Hinit. cbn [init_fileSize input] in Hinit.
  destruct (Z.leb_spec fileSize_ 0) as [|_]; [lia|].
  cbn [init_fileName init_mimeType init_metadata init_desiredChunkSize
       init_fileSize input] in Hinit.
  fold chunkSize_ totalChunks_ first in Hinit.
  fold session in Hinit. set (session0 := session) in *.
  change (Driver.initUpload session0 (storage w))
    with (initUpload options session0 (storage w)) in Hinit.
  unfold initUpload, tryCatch, mkdir in Hinit.
  change (getUploadTempDir options (uploadId session0))
    with (getUploadTempDir options id) in Hinit.
  rewrite Hfresh in Hinit. unfold stateOf, resultOf in Hinit.
  cbn [fst snd] in Hinit.
  pose proof (initUpload_clock input w) as Hclock1.
  unfold stateOf in Hclock1.
  destruct (System.initUpload clock generateUploadId this input w)
    as [w1 r1] eqn:Hinit1.
  cbn [fst snd] in Hinit, Hclock1. fold first in Hclock1.
  destruct Hinit as (Hsessions1 & Hstorage1 & _ & ->).
  destruct (sendChunks_run bytes session0 Hf ltac:(cbn; lia) eq_refl eq_refl
              first (first + 3 * length arrival + 1)%nat
              Hlive arrival [] w1
              (Memory.mkStored session0 []))
    as (w2 & stored2 & Hrun & Hst2 & Hsame2 & Hc2 & Hx2 & Hrec2 & Hdir2
        & Hfiles2 & Hclock2).
  { lia. }
  { lia. }
  { rewrite Hsessions1. apply lookup_insert_eq. }
  { by repeat split. }
  { done. }
  { done. }
  { done. }
  { rewrite Hstorage1. cbn. apply lookup_insert_eq. }
  { intros i Hi. rewrite Hperm in Hi. apply elem_of_seqZ in Hi. cbn. lia. }
  assert (Hr : r = System.completeUpload
                     (driverImpl := Transfer.driver options)
                     clock generateUploadId id None w2).
  { subst r. unfold Transfer.upload, bind. fold fileSize_. fold input.
    rewrite Hinit1. by rewrite Hrun. }
  rewrite Hr. clear Hr r.
  cbn [app] in Hrec2, Hdir2.
  destruct Hsame2 as (Hid & Hfn & Hfs & Hmt & Hcs & Htc & Hmd & Hcr & Hex).
  subst session0 id path session.
  cbn [uploadId fileName fileSize mimeType chunkSize totalChunks
       metadata createdAt expiresAt] in *.
  set (id := generateUploadId (Memory.idReads (store w))) in *.
  set (content := λ i, slice bytes
                         (ci_start (getChunkInfo chunkSize_ fileSize_ i))
                         (ci_end (getChunkInfo chunkSize_ fileSize_ i))) in *.
  assert (Hnd : NoDup arrival) by (rewrite Hperm; apply NoDup_seqZ).
  assert (Hrange : Forall (λ i, 0 ≤ i < 1000000) arrival).
  { apply Forall_forall. intros i Hi. rewrite Hperm in Hi.
    apply elem_of_seqZ in Hi. lia. }
  assert (Hnames : NoDup (chunkFileName <$> arrival)).
  { apply NoDup_fmap_2_strong; [|done].
    rewrite Forall_forall in Hrange.
    intros i j Hi Hj. apply chunkFileName_inj; auto. }
  rewrite staged_map in Hdir2 by done.
  destruct (finalizeUpload_staged options (Memory.session stored2)
              (storage w2) arrival content Hnd Hrange)
    as (Hfinal & Hfiles & Hgone); [by rewrite Hid|].
  pose proof (completeUpload_finalized
                (driverImpl := Transfer.driver options)
                clock generateUploadId id None w2 stored2) as Hcomplete.
  cbn zeta in Hcomplete.
  change (Driver.finalizeUpload (Memory.session stored2) (storage w2))
    with (finalizeUpload options (Memory.session stored2) (storage w2))
    in Hcomplete.
  destruct Hcomplete as [Hstorage3 Hresult3].
  { exact Hst2. }
  { apply not_expired. intros e He. rewrite Hex in He.
    unfold System.now. eapply Hlive; [exact He|]. lia. }
  { done. }
  { done. }
  { intros i Hi. apply Hrec2. rewrite Hperm. apply elem_of_seqZ.
    rewrite Htc in Hi. lia. }
  rewrite Hfinal in Hresult3.
  destruct Hresult3 as (Hresult & stored3 & Hsessions3 & Hstatus3 & Hrec3 & _).
  match goal with
  | |- context [LocalLocation (getFinalPath options ?s)] =>
      assert (Hpath : getFinalPath options (Memory.session stored2)
                      = getFinalPath options s)
        by (apply getFinalPath_ext; [exact Hid|exact Hfn])
  end.
  rewrite Hpath in *.
  exists stored3.
  split; [rewrite Hresult; by rewrite Hid, Hfn, Hfs, Hmd|].
  rewrite Hstorage3.
  split.
  { rewrite Hfiles, Hfiles2, Hstorage1. cbn [files].
    rewrite Hempty. cbn [files emptyFS]. rewrite insert_empty. f_equal.
    apply (slices_in_order bytes chunkSize_ arrival); [lia|done|done]. }
  split; [rewrite Hsessions3; apply lookup_insert_eq|].
  split; [done|].
  split; [|by rewrite <- Hid].
  intros i. rewrite Hrec3, Hrec2, Hperm, elem_of_seqZ. lia.
Qed.

End WholeUpload.

(** ** The life of [u_0] *)

Lemma created_reachable :
  System.reachable (driverImpl := Examples.localDriver) Examples.clock
    Examples.generateUploadId Examples.service Local.emptyFS
    Scenarios.created.
Proof. apply System.reachable_serve, System.reachable_start. Qed.

Lemma uploaded_reachable :
  System.reachable (driverImpl := Examples.localDriver) Examples.clock
    Examples.generateUploadId Examples.service Local.emptyFS
    Scenarios.uploaded.
Proof. apply System.reachable_serve, created_reachable. Qed.

Lemma finished_reachable :
  System.reachable (driverImpl := Examples.localDriver) Examples.clock
    Examples.generateUploadId Examples.service Local.emptyFS
    Scenarios.finished.
Proof. apply System.reachable_serve, uploaded_reachable. Qed.

Lemma uploaded_stored :
  Memory.sessions (Service.store Scenarios.uploaded) !! "u_0"
  = Some Scenarios.uploadedStored.
Proof. vm_compute. reflexivity. Qed.

Lemma hidden_upload_is_not_found_witness :
  let r := Examples.getStatus "u_404" Scenarios.uploaded in
  resultOf r = Throw (Typed (mkError UPLOAD_NOT_FOUND NoDetails))
  ∧ Service.storage (stateOf r) = Service.storage Scenarios.uploaded.
Proof.
  cbn zeta.
  destruct (hidden_upload_is_not_found (driverImpl := Examples.localDriver)
              Examples.clock Examples.generateUploadId "u_404"
              Scenarios.uploaded)
    as (_ & (Hresult & _ & Hstorage & _) & _); [vm_compute; reflexivity|].
  split; [exact Hresult|exact Hstorage].
Defined.




(** Once [u_0] is completed, aborting it is refused. *)
Lemma completed_upload_is_final_witness :
  Memory.sessions (Service.store Scenarios.finished) !! "u_0"
  = Some Scenarios.finishedStored
  ∧ ∃ c,
      resultOf (System.abortUpload (driverImpl := Examples.localDriver)
                  Examples.clock Examples.generateUploadId "u_0"
                  Scenarios.finished)
      = Throw (Typed (mkError c NoDetails))
      ∧ (c = UPLOAD_ALREADY_COMPLETED ∨ c = UPLOAD_NOT_FOUND).
Proof.
  split; [vm_compute; reflexivity|].
  destruct (completed_upload_is_final (driverImpl := Examples.localDriver)
              Examples.clock Examples.generateUploadId "u_0"
              Scenarios.finished Scenarios.finishedStored)
    as (_ & _ & (Hrefused & _)).
  - vm_compute. reflexivity.
  - reflexivity.
  - exact Hrefused.
Defined.

(** *** A chunk and an abort at once *)

Lemma generateUploadId_inj : Inj (=) (=) Examples.generateUploadId.
Proof.
  intros a b Heq. unfold Examples.generateUploadId in Heq.
  cbn in Heq. injection Heq as Heq.
  apply toString_inj in Heq. lia.
Qed.

Lemma alone_moves (k : nat) (m : Memory.State) :
  Lifecycle.soundStore Examples.service Examples.generateUploadId m →
  rtc (Lifecycle.move Examples.service Examples.generateUploadId) m
    (Scenarios.alone k m).
Proof. done. Qed.

Lemma abortedMeanwhile_moves (k : nat) (m : Memory.State) :
  Lifecycle.soundStore Examples.service Examples.generateUploadId m →
  rtc (Lifecycle.move Examples.service Examples.generateUploadId) m
    (Scenarios.abortedMeanwhile k m).
Proof.
  intros Hok. unfold Scenarios.abortedMeanwhile.
  destruct (k =? 1)%nat; [|done].
  apply rtc_once. by apply updateSession_canceled_move.
Qed.

Lemma racing_sound :
  Lifecycle.soundStore Examples.service Examples.generateUploadId
    (Interleaved.memory (Service.store Scenarios.racing)).
Proof.
  apply (serve_soundStore (driverImpl := Examples.localDriver));
    [apply generateUploadId_inj|apply alone_moves|].
  apply soundStore_empty.
Qed.

(** The abort comes between the first and the second call of
    [handleChunk] on the store: the second call finds [u_0] canceled, and
    the request leaves it [in_progress] with its chunk.  The three calls
    are moves. *)
Lemma interleaved_calls_are_lifecycle_moves_witness :
  let w' := Scenarios.raced in
  (length (Interleaved.writes (Service.store w')) = 3%nat
   ∧ Forall (λ step,
               Lifecycle.move Examples.service Examples.generateUploadId
                 step.1 step.2)
       (Interleaved.writes (Service.store w')))
  ∧ (found ← fst <$> Interleaved.writes (Service.store w') !! 1%nat;
     stored ← Memory.sessions found !! "u_0";
     Some (status (Memory.session stored)))
    = Some canceled
  ∧ (stored ← Memory.sessions (Interleaved.memory (Service.store w'))
               !! "u_0";
     Some (status (Memory.session stored), Memory.receivedChunks stored))
    = Some (in_progress, [0]).
Proof.
  cbn zeta. split; [split|split].
  - vm_compute. reflexivity.
  - destruct (interleaved_calls_are_lifecycle_moves
                (driverImpl := Examples.localDriver) Examples.clock
                Examples.generateUploadId Examples.service
                Scenarios.abortedMeanwhile generateUploadId_inj
                (System.HandleChunk
                   (Service.mkChunkInput "u_0" 0 5 None Examples.fiveBytes))
                Scenarios.racing racing_sound)
      as (steps & Hwrites & Hmoves & _).
    pose proof (serve_relied (driverImpl := Examples.localDriver) _ _ _ _
                  generateUploadId_inj _ _ _ abortedMeanwhile_moves
                  racing_sound Hwrites) as Hrelied.
    change (Interleaved.writes (Service.store Scenarios.raced) = steps)
      in Hwrites.
    rewrite Hwrites. rewrite <- (firstn_all steps). apply Hmoves.
    by rewrite firstn_all.
  - vm_compute. reflexivity.
  - vm_compute. reflexivity.
Defined.

(** The same run: the store is sound at every call, also where it holds a
    canceled upload that is about to become [in_progress]. *)
Lemma interleaved_uploads_stay_sound_witness :
  let w' := Scenarios.raced in
  Lifecycle.soundStore Examples.service Examples.generateUploadId
    (Interleaved.memory (Service.store w'))
  ∧ Forall (λ step,
              Lifecycle.soundStore Examples.service
                Examples.generateUploadId step.1
              ∧ Lifecycle.soundStore Examples.service
                  Examples.generateUploadId step.2)
      (Interleaved.writes (Service.store w')).
Proof.
  cbn zeta.
  destruct (interleaved_uploads_stay_sound
              (driverImpl := Examples.localDriver) Examples.clock
              Examples.generateUploadId Examples.service
              Scenarios.abortedMeanwhile generateUploadId_inj
              (System.HandleChunk
                 (Service.mkChunkInput "u_0" 0 5 None Examples.fiveBytes))
              Scenarios.racing racing_sound)
    as (steps & Hwrites & Hsound & Hend).
  pose proof (serve_relied (driverImpl := Examples.localDriver) _ _ _ _
                generateUploadId_inj _ _ _ abortedMeanwhile_moves
                racing_sound Hwrites) as Hrelied.
  change (Interleaved.writes (Service.store Scenarios.raced) = steps)
    in Hwrites.
  split; [exact (Hend Hrelied)|].
  rewrite Hwrites. rewrite <- (firstn_all steps). apply Hsound.
  by rewrite firstn_all.
Defined.

Lemma length_zeroBytes (n : Z) :
  0 ≤ n → Z.of_nat (length (Examples.zeroBytes n)) = n.
Proof.
  intros Hn. unfold Examples.zeroBytes. rewrite length_replicate. lia.
Qed.

(** 600000 bytes in three chunks that arrive as 2, 0, 1, on a service
    whose uploads expire after a day. *)
Lemma whole_upload_stores_the_file_witness :
  let bytes := Examples.zeroBytes 600000 in
  let r :=
    Transfer.upload Examples.localOptions Examples.clock
      Examples.generateUploadId Examples.service (Some "video.bin") None
      None (Some 262144) bytes [2; 0; 1] Examples.start in
  ∃ stored,
    resultOf r
    = Ok {| cr_uploadId := "u_0"; cr_fileName := Some "video.bin";
            cr_fileSize := Z.of_nat (length bytes);
            cr_location := LocalLocation "uploads/u_0.bin";
            cr_metadata := None |}
    ∧ Local.files (Service.storage (stateOf r))
      = {[ "uploads/u_0.bin" := bytes ]}
    ∧ Memory.sessions (Service.store (stateOf r)) !! "u_0" = Some stored
    ∧ status (Memory.session stored) = completed.
Proof.
  cbn zeta.
  destruct (whole_upload_stores_the_file Examples.localOptions Examples.clock
              Examples.generateUploadId Examples.service
              (Some "video.bin") None None (Some 262144)
              (Examples.zeroBytes 600000) [2; 0; 1] Examples.start)
    as (stored & Hresult & Hfile & Hstored & Hstatus & _).
  - intros Hnil. apply (f_equal length) in Hnil.
    apply (f_equal Z.of_nat) in Hnil.
    rewrite length_zeroBytes in Hnil by lia. discriminate Hnil.
  - rewrite length_zeroBytes by lia. vm_compute. discriminate.
  - rewrite length_zeroBytes by lia.
    apply (bool_decide_unpack _). vm_compute. reflexivity.
  - reflexivity.
  - vm_compute. reflexivity.
  - intros n e He Hn. cbn in He. injection He as <-.
    unfold Examples.clock, DEFAULT_UPLOAD_TTL_MS. cbn in Hn. lia.
  - exists stored.
    split; [exact Hresult|split; [exact Hfile|split; [exact Hstored|exact Hstatus]]].
Defined.

(** ** The sweep of stale uploads *)

Section CleanupStale.

Import Service.

Context {D : Type} {driverImpl : Driver.TorrinStorageDriver D}.
Context (clock : nat → Z) (generateUploadId : nat → string).
Context (maxAgeMs now : Z).

Lemma elem_of_allSessions (st : Memory.State) (s : TorrinUploadSession) :
  s ∈ Memory.session <$> (map_to_list (Memory.sessions st)).*2
  ↔ ∃ id stored,
      Memory.sessions st !! id = Some stored ∧ Memory.session stored = s.
Proof.
  rewrite list_elem_of_fmap. split.
  - intros (stored & -> & Hin).
    apply list_elem_of_fmap in Hin as ([id st'] & -> & Hin).
    apply elem_of_map_to_list in Hin. eauto.
  - intros (id & stored & Hst & <-). exists stored. split; [done|].
    apply list_elem_of_fmap. exists (id, stored). split; [done|].
    by apply elem_of_map_to_list.
Qed.

(** One turn of the loop. *)
Lemma cleanupStaleOne_run (x : TorrinUploadSession) (acc : CleanupResult)
  (w : World Memory.State D) :
  ∃ w1 acc1,
    cleanupStaleOne (storeImpl := System.memoryStore clock generateUploadId)
      maxAgeMs now x acc w = (w1, Ok acc1)
    ∧ (Memory.sessions (store w1) = Memory.sessions (store w)
       ∧ (Lifecycle.isStale maxAgeMs now x = true →
          ∃ e, FailedToCleanup (uploadId x) e ∈ errors acc1)
       ∨ Memory.sessions (store w1)
         = delete (uploadId x) (Memory.sessions (store w))
         ∧ Lifecycle.isStale maxAgeMs now x = true)
    ∧ (∀ e, e ∈ errors acc → e ∈ errors acc1)
    ∧ ∃ calls,
        log w1 = log w ++ calls
        ∧ Forall (λ c, ∀ s, c = DriverAbortUpload s →
                            Lifecycle.isStale maxAgeMs now s = true) calls.
Proof.
  unfold cleanupStaleOne. fold (Lifecycle.isStale maxAgeMs now x).
  destruct (Lifecycle.isStale maxAgeMs now x) eqn:Hstale.
  - memory_unfold. run_unfold.
    destruct (Driver.abortUpload x (storage w)) as [d1 [[]|t1]]; cbn.
    + do 2 eexists. split; [done|]. cbn. split; [by right|].
      split; [done|]. rewrite <- app_assoc. eexists. split; [done|].
      repeat constructor; by intros ? [= <-].
    + do 2 eexists. split; [done|]. cbn. split.
      { left. split; [done|]. intros _. exists t1.
        apply elem_of_app. right. by left. }
      split; [intros e He; apply elem_of_app; by left|].
      eexists. split; [done|]. repeat constructor. by intros ? [= <-].
  - do 2 eexists. split; [done|]. split; [by left|]. split; [done|].
    exists []. split; [by rewrite app_nil_r|constructor].
Qed.

Lemma cleanupStale_swept (l : list TorrinUploadSession) :
  ∀ acc w,
    let r :=
      forOf l
        (cleanupStaleOne
           (storeImpl := System.memoryStore clock generateUploadId)
           maxAgeMs now)
        acc w in
    ∃ acc',
      resultOf r = Ok acc'
      ∧ (∀ id, (∀ s, s ∈ l → Lifecycle.isStale maxAgeMs now s = true →
                     uploadId s ≠ id) →
               Memory.sessions (store (stateOf r)) !! id
               = Memory.sessions (store w) !! id)
      ∧ (∀ id, Memory.sessions (store w) !! id = None →
               Memory.sessions (store (stateOf r)) !! id = None)
      ∧ (∀ s, s ∈ l → Lifecycle.isStale maxAgeMs now s = true →
              Memory.sessions (store (stateOf r)) !! uploadId s = None
              ∨ ∃ e, FailedToCleanup (uploadId s) e ∈ errors acc')
      ∧ (∀ e, e ∈ errors acc → e ∈ errors acc')
      ∧ ∃ calls,
          log (stateOf r) = log w ++ calls
          ∧ Forall (λ c, ∀ s, c = DriverAbortUpload s →
                              Lifecycle.isStale maxAgeMs now s = true) calls.
Proof.
  induction l as [|x l IH]; intros acc w; cbn zeta.
  - exists acc. cbn. repeat split; try done.
    + by intros s ?%elem_of_nil.
    + exists []. by rewrite app_nil_r.
  - cbn [forOf]. unfold bind at 1 2 3 4 5.
    destruct (cleanupStaleOne_run x acc w)
      as (w1 & acc1 & -> & Hsess & Herr1 & calls1 & Hlog1 & Hcalls1).
    destruct (IH acc1 w1)
      as (acc' & Hres & Hother & Hnone & Hstale & Herr & calls & Hlog
          & Hcalls).
    exists acc'. split; [done|]. split; [|split; [|split; [|split]]].
    + intros id Hid.
      rewrite Hother by (intros s Hs Hst; apply Hid; [by right|done]).
      destruct Hsess as [[-> _]|[-> Hx]]; [done|].
      apply lookup_delete_ne. apply Hid; [by left|done].
    + intros id Hid. apply Hnone.
      destruct Hsess as [[-> _]|[-> _]]; [done|].
      by apply lookup_delete_None; right.
    + intros s [->|Hs]%elem_of_cons Hst; [|by apply Hstale].
      destruct Hsess as [[_ Hfailed]|[Hdeleted _]].
      * right. destruct (Hfailed Hst) as [e He]. exists e. by apply Herr.
      * left. apply Hnone. rewrite Hdeleted. apply lookup_delete_eq.
    + intros e He. by apply Herr, Herr1.
    + exists (calls1 ++ calls). rewrite Hlog, Hlog1, app_assoc.
      split; [done|]. by apply Forall_app.
Qed.

Context (this : TorrinService).

(** X25.  The sweep of stale uploads.  [cleanupStaleUploads] never
    throws.  An upload is stale when it has not been updated for more
    than [maxAgeMs] and is not [completed].  The record of an upload that
    is not stale is kept as it is, so a [completed] upload is never
    removed by this sweep, however old; the record of a stale upload is
    removed, or an error with its id is reported; no record is created;
    and the driver is asked to abort stale uploads only. *)
Theorem cleanupStaleUploads_sweeps_stale_uploads (d0 : D)
  (w : World Memory.State D) :
  System.reachable clock generateUploadId this d0 w →
  let r := System.cleanupStaleUploads clock generateUploadId maxAgeMs now w in
  ∃ result,
    resultOf r = Ok result
    ∧ (∀ id stored,
          Memory.sessions (store w) !! id = Some stored →
          if Lifecycle.isStale maxAgeMs now (Memory.session stored)
          then Memory.sessions (store (stateOf r)) !! id = None
               ∨ ∃ e, FailedToCleanup id e ∈ errors result
          else Memory.sessions (store (stateOf r)) !! id = Some stored)
    ∧ (∀ id, Memory.sessions (store w) !! id = None →
             Memory.sessions (store (stateOf r)) !! id = None)
    ∧ (∀ s, DriverAbortUpload s ∈ log (stateOf r) →
            DriverAbortUpload s ∈ log w
            ∨ Lifecycle.isStale maxAgeMs now s = true).
Proof.
  intros Hreach. cbn zeta.
  destruct (reachable_consistent _ _ _ _ _ Hreach) as (Hkey & _ & _).
  unfold System.cleanupStaleUploads, cleanupStaleUploads.
  cbn [Store.listAllSessions System.memoryStore
       Memory.createInMemoryStore].
  unfold bind at 1 2 3 4 5, onStore.
  change (Memory.listAllSessions (store w))
    with (store w,
          @Ok (list TorrinUploadSession)
            (Memory.session <$> (map_to_list (Memory.sessions (store w))).*2)).
  cbn iota beta.
  match goal with
  | |- context [forOf ?l ?body ?acc ?w1] =>
      destruct (cleanupStale_swept l acc w1)
        as (result & Hres & Hother & Hnone & Hstale & _ & calls & Hlog
            & Hcalls);
      set (r := forOf l body acc w1) in *
  end.
  cbn [store log Memory.sessions] in *.
  exists result. split; [done|]. split; [|split; [done|]].
  - intros id stored Hst.
    destruct (Lifecycle.isStale _ _ _) eqn:Hs.
    + rewrite <- (Hkey _ _ Hst). apply Hstale; [|done].
      apply elem_of_allSessions. eauto.
    + rewrite Hother; [done|].
      intros s (id' & stored' & Hst' & <-)%elem_of_allSessions Hs'.
      rewrite (Hkey _ _ Hst'). intros ->. congruence.
  - intros s. rewrite Hlog, <- app_assoc, !elem_of_app.
    intros [?|[Hin|Hin]]; [by left| |].
    + by apply list_elem_of_singleton in Hin.
    + right. rewrite Forall_forall in Hcalls. by eapply Hcalls.
Qed.

End CleanupStale.

(** The completed upload [u_0] survives a sweep long after its last
    update. *)
Lemma cleanupStaleUploads_sweeps_stale_uploads_witness :
  Memory.sessions
    (Service.store
       (stateOf (System.cleanupStaleUploads
                   (driverImpl := Examples.localDriver) Examples.clock
                   Examples.generateUploadId 10 1000000 Scenarios.finished)))
  !! "u_0"
  = Some Scenarios.finishedStored.
Proof.
  destruct (cleanupStaleUploads_sweeps_stale_uploads
              (driverImpl := Examples.localDriver) Examples.clock
              Examples.generateUploadId 10 1000000 Examples.service
              Local.emptyFS Scenarios.finished)
    as (result & _ & Hkept & _).
  - apply System.reachable_serve, System.reachable_serve,
      System.reachable_serve, System.reachable_start.
  - apply (Hkept "u_0" Scenarios.finishedStored). vm_compute. reflexivity.
Defined.

(** ** The in-memory resume store *)

Section ResumeStore.

Import ResumeStores.

(** X26.  What the in-memory resume store remembers and forgets.  A
    state saved under an id that is not empty, with a file key saved for
    that id, is what [findByFile] returns for the key.  After
    [remove(uploadId)], [load] returns [null] for that id and
    [findByFile] returns [null] for every file key that pointed to it;
    the answers for all other ids and keys are as before. *)
Theorem remove_forgets_the_upload (m : InMemory) (uploadId : string) :
  (∀ fileKey state,
      uploadId ≠ "" →
      findByFile fileKey (saveFileKey fileKey uploadId (save uploadId state m))
      = Some state)
  ∧ load uploadId (remove uploadId m) = None
  ∧ (∀ other, other ≠ uploadId →
              load other (remove uploadId m) = load other m)
  ∧ (∀ fileKey,
        findByFile fileKey (remove uploadId m)
        = if decide (fileIndex m !! fileKey = Some uploadId) then None
          else findByFile fileKey m).
Proof.
  split; [|split; [|split]].
  - intros fileKey state Hid. unfold findByFile, saveFileKey, save. cbn.
    rewrite lookup_insert_eq.
    destruct (String.eqb_spec uploadId ""); [done|].
    apply lookup_insert_eq.
  - unfold load, remove. cbn. apply lookup_delete_eq.
  - intros other Hother. unfold load, remove. cbn.
    by apply lookup_delete_ne.
  - intros fileKey. unfold findByFile, remove. cbn.
    destruct (fileIndex m !! fileKey) as [id|] eqn:Hkey.
    + destruct (decide (Some id = Some uploadId)) as [[= ->]|Hne].
      * rewrite map_lookup_filter_None_2; [done|].
        right. intros id' Hid'. cbn. congruence.
      * rewrite (map_lookup_filter_Some_2 _ _ fileKey id);
          [|done|cbn; congruence].
        destruct (String.eqb id ""); [done|].
        apply lookup_delete_ne. congruence.
    + rewrite map_lookup_filter_None_2 by (by left).
      by destruct (decide _).
Qed.

End ResumeStore.

(** ** Waiting between attempts *)

Section TotalBackoff.

Import Client Backoff.

Context (retryAttempts retryDelay : Z) (env : Z → AttemptEnv).

Lemma slept_app (l1 l2 : list Event) : slept (l1 ++ l2) = slept l1 + slept l2.
Proof. unfold slept. by rewrite omap_app, sumZ_app. Qed.

Lemma slept_retried (n : nat) :
  ∀ first, 1 ≤ first →
    slept (retried retryDelay first n)
    = retryDelay * 2 ^ (first - 1) * (2 ^ Z.of_nat n - 1).
Proof.
  induction n as [|n IH]; intros first Hfirst.
  - cbn. lia.
  - cbn [retried].
    change (slept (Attempt first :: Sleep (backoff retryDelay first)
                     :: retried retryDelay (first + 1) n))
      with (backoff retryDelay first
            + slept (retried retryDelay (first + 1) n)).
    rewrite IH by lia. unfold backoff.
    replace (first + 1 - 1) with (Z.succ (first - 1)) by lia.
    rewrite Nat2Z.inj_succ, !Z.pow_succ_r by lia. ring.
Qed.

(** X27.  How long a chunk waits.  When the upload is not canceled,
    [uploadChunkWithRetry] makes some [n + 1] attempts in a row, with
    [n + 1 ≤ max(1, retryAttempts)]; it returns when the last of them
    succeeds and throws that attempt's error otherwise; and between
    them it has slept [retryDelay * (2^n - 1)] ms in all.  With a
    delay that is not negative, that is at most
    [retryDelay * (2^(max(1, retryAttempts) - 1) - 1)] ms. *)
Theorem retry_total_backoff :
  (∀ k, canceledOnEntry (env k) = false
        ∧ canceledAfterPause (env k) = false
        ∧ canceledInCatch (env k) = false) →
  let r := uploadChunkWithRetry retryAttempts retryDelay env 1 in
  let last := Z.max 1 retryAttempts in
  ∃ n : nat,
    Z.of_nat n + 1 ≤ last
    ∧ fst r = retried retryDelay 1 n ++ [Attempt (1 + Z.of_nat n)]
    ∧ snd r = outcome (env (1 + Z.of_nat n))
    ∧ slept (fst r) = retryDelay * (2 ^ Z.of_nat n - 1)
    ∧ (0 ≤ retryDelay →
       slept (fst r) ≤ retryDelay * (2 ^ (last - 1) - 1)).
Proof.
  intros Hlive r last.
  destruct (uploadChunkWithRetry_trace retryAttempts retryDelay env 1)
    as (n & Hk & Hcase).
  cbn zeta in Hcase. fold r in Hcase.
  destruct Hcase as [[_ Hcanceled] | (result & Hr & Hfinal)].
  { destruct (Hlive (1 + Z.of_nat n)) as (? & ? & _).
    destruct Hcanceled; congruence. }
  exists n. rewrite Hr. cbn [fst snd].
  assert (Hbound : Z.of_nat n + 1 ≤ last).
  { subst last. destruct n; [lia|]. specialize (Hk (Z.of_nat (S n))). lia. }
  assert (Hslept : slept (retried retryDelay 1 n ++ [Attempt (1 + Z.of_nat n)])
                   = retryDelay * (2 ^ Z.of_nat n - 1)).
  { rewrite slept_app, slept_retried by lia.
    change (slept [Attempt (1 + Z.of_nat n)]) with 0.
    change (2 ^ (1 - 1)) with 1. lia. }
  split; [done|]. split; [done|]. split.
  { destruct Hfinal as [[-> ->]|(e & He & [[Hc _]|(_ & _ & ->)])];
      [done| |done].
    destruct (Hlive (1 + Z.of_nat n)) as (_ & _ & ?). congruence. }
  split; [done|]. intros Hdelay. rewrite Hslept.
  apply Z.mul_le_mono_nonneg_l; [done|].
  assert (2 ^ Z.of_nat n ≤ 2 ^ (last - 1))
    by (apply Z.pow_le_mono_r; lia).
  lia.
Qed.

End TotalBackoff.

Lemma retry_total_backoff_witness :
  let env := λ _ : Z,
    Client.mkAttemptEnv false false (Throw (Untyped "offline")) false in
  let r := Client.uploadChunkWithRetry 3 1000 env 1 in
  Backoff.slept (fst r) = 3000 ∧ snd r = Throw (Untyped "offline").
Proof.
  cbn zeta.
  destruct (retry_total_backoff 3 1000
              (λ _, Client.mkAttemptEnv false false
                      (Throw (Untyped "offline")) false))
    as (n & _ & _ & Hresult & _); [done|].
  split; [vm_compute; reflexivity|exact Hresult].
Defined.

(** ** The S3 driver *)

Section S3Driver.

Import S3.

Context (options : S3StorageOptions).
Context (send : nat → Command → Result Response) (date : nat → Z * Z).

(** [buildObjectKey] only reads the clock. *)
Lemma buildObjectKey_run (session : TorrinUploadSession) (st : State) :
  ∃ key reads,
    buildObjectKey options date session st
    = (mkState (multipartUploads st) (sent st) reads, Ok key).
Proof.
  unfold buildObjectKey. destruct (opt_getObjectKey options) as [f|].
  - exists (f session), (dateReads st). by destruct st.
  - by eexists _, _.
Qed.

Lemma buildObjectKey_default (session : TorrinUploadSession) (st : State) :
  opt_getObjectKey options = None →
  buildObjectKey options date session st
  = (mkState (multipartUploads st) (sent st) (S (dateReads st)),
     Ok (defaultKey options (date (dateReads st)).1
           (date (dateReads st)).2 session)).
Proof. unfold buildObjectKey. by intros ->. Qed.

Lemma s3_initUpload_run (session : TorrinUploadSession) (st : State)
  (key : string) (reads : nat) :
  buildObjectKey options date session st
  = (mkState (multipartUploads st) (sent st) reads, Ok key) →
  let command :=
    CreateMultipartUpload (bucket options) key (mimeType session)
      (uploadId session) (default "" (fileName session)) in
  let multipart :=
    match send (length (sent st)) command with
    | Ok response =>
        match res_UploadId response with
        | Some id =>
            if String.eqb id "" then None else Some (mkMultipart id [])
        | None => None
        end
    | Throw _ => None
    end in
  stateOf (initUpload options send date session st)
  = mkState
      (match multipart with
       | Some state => <[uploadId session := state]> (multipartUploads st)
       | None => multipartUploads st
       end)
      (sent st ++ [command]) reads
  ∧ match multipart with
    | Some _ => resultOf (initUpload options send date session st) = Ok tt
    | None =>
        ∃ details,
          resultOf (initUpload options send date session st)
          = Throw (Typed (mkError STORAGE_ERROR details))
    end.
Proof.
  intros Hkey. cbn zeta.
  remember (initUpload options send date session st) as r eqn:Hr.
  unfold initUpload, bind at 1 in Hr. rewrite Hkey in Hr.
  unfold tryCatch, bind, clientSend, multipartUploads_set, storageError,
    throwError, throw in Hr.
  cbn [multipartUploads sent dateReads] in Hr.
  destruct (send _ _) as [response|error]; [|subst r; cbn; by eauto].
  destruct (res_UploadId response) as [id|]; [|subst r; cbn; by eauto].
  destruct (String.eqb id ""); subst r; cbn; by eauto.
Qed.

Lemma s3_writeChunk_run (session : TorrinUploadSession) (chunkIndex : Z)
  (stream : Driver.Readable) (expectedSize : Z) (hash : option string)
  (st : State) (state : MultipartState) (key : string) (reads : nat) :
  multipartUploads st !! uploadId session = Some state →
  buildObjectKey options date session st
  = (mkState (multipartUploads st) (sent st) reads, Ok key) →
  let command :=
    UploadPart (bucket options) key (mp_uploadId state) (chunkIndex + 1)
      stream expectedSize in
  writeChunk options send date session chunkIndex stream expectedSize
    hash st
  = if Z.of_nat (length stream) =? expectedSize
    then
      match send (length (sent st)) command with
      | Ok response =>
          (mkState
             (<[uploadId session :=
                  mkMultipart (mp_uploadId state)
                    (arraySet chunkIndex
                       (mkPart (res_ETag response) (chunkIndex + 1))
                       (parts state))]> (multipartUploads st))
             (sent st ++ [command]) reads,
           Ok tt)
      | Throw error =>
          (mkState (multipartUploads st) (sent st ++ [command]) reads,
           Throw (Typed
                    match error with
                    | Typed e => e
                    | Untyped m => mkError STORAGE_ERROR (CauseDetails m)
                    end))
      end
    else
      (mkState (multipartUploads st) (sent st) reads,
       Throw (Typed (mkError CHUNK_SIZE_MISMATCH
                       (SizeDetails expectedSize
                          (Z.of_nat (length stream)))))).
Proof.
  intros Hstate Hkey. unfold writeChunk, multipartUploads_get, bind at 1.
  rewrite Hstate. unfold bind at 1. rewrite Hkey.
  unfold tryCatch, bind, clientSend, multipartUploads_set, storageError,
    throwError, throw.
  destruct (Z.of_nat (length stream) =? expectedSize); [|done].
  cbn [negb multipartUploads sent dateReads].
  by destruct (send _ _) as [response|[e|m]].
Qed.

Lemma s3_finalizeUpload_run (session : TorrinUploadSession) (st : State)
  (state : MultipartState) (key : string) (reads : nat) :
  multipartUploads st !! uploadId session = Some state →
  buildObjectKey options date session st
  = (mkState (multipartUploads st) (sent st) reads, Ok key) →
  let command :=
    CompleteMultipartUpload (bucket options) key (mp_uploadId state)
      (sortedParts (parts state)) in
  finalizeUpload options send date session st
  = match send (length (sent st)) command with
    | Ok response =>
        (mkState (delete (uploadId session) (multipartUploads st))
           (sent st ++ [command]) reads,
         Ok (S3Location (bucket options) key (res_Location response)
               (res_ETag response)))
    | Throw error =>
        (mkState (multipartUploads st) (sent st ++ [command]) reads,
         Throw (Typed (mkError STORAGE_ERROR
                         (CauseDetails match error with
                                       | Untyped m => m
                                       | Typed _ => "TorrinError"
                                       end))))
    end.
Proof.
  intros Hstate Hkey. unfold finalizeUpload, multipartUploads_get, bind at 1.
  rewrite Hstate. unfold bind at 1. rewrite Hkey.
  unfold tryCatch, bind, clientSend, multipartUploads_delete, storageError,
    throwError, throw, ret.
  cbn [multipartUploads sent dateReads].
  by destruct (send _ _) as [response|error].
Qed.

Lemma s3_abortUpload_run (session : TorrinUploadSession) (st : State)
  (state : MultipartState) (key : string) (reads : nat) :
  multipartUploads st !! uploadId session = Some state →
  buildObjectKey options date session st
  = (mkState (multipartUploads st) (sent st) reads, Ok key) →
  let command :=
    AbortMultipartUpload (bucket options) key (mp_uploadId state) in
  abortUpload options send date session st
  = match send (length (sent st)) command with
    | Ok response =>
        (mkState (delete (uploadId session) (multipartUploads st))
           (sent st ++ [command]) reads,
         Ok tt)
    | Throw error =>
        (mkState (multipartUploads st) (sent st ++ [command]) reads,
         Throw (Typed (mkError STORAGE_ERROR
                         (CauseDetails match error with
                                       | Untyped m => m
                                       | Typed _ => "TorrinError"
                                       end))))
    end.
Proof.
  intros Hstate Hkey. unfold abortUpload, multipartUploads_get, bind at 1.
  rewrite Hstate. unfold bind at 1. rewrite Hkey.
  unfold tryCatch, bind, clientSend, multipartUploads_delete, storageError,
    throwError, throw, ret.
  cbn [multipartUploads sent dateReads].
  by destruct (send _ _) as [response|error].
Qed.

(** X28.  What [writeChunk] of the S3 driver sends.  For an upload
    without a multipart upload (never initiated, or finalized or aborted
    since) it throws [STORAGE_ERROR] and does nothing.  For a chunk
    whose bytes do not have the expected length it throws
    [CHUNK_SIZE_MISMATCH] and sends nothing; the parts uploaded so far
    are kept, the part of that chunk too.  Otherwise it sends one
    [UploadPart], with part number [chunkIndex + 1], the bytes and their
    length; when S3 answers, the part is recorded at [chunkIndex] with
    the [ETag] of the answer; when S3 fails, a [TorrinError] is thrown
    and the parts are as before. *)
Theorem s3_writeChunk_uploads_one_part (session : TorrinUploadSession)
  (chunkIndex : Z) (stream : Driver.Readable) (expectedSize : Z)
  (hash : option string) (st : State) :
  let r :=
    writeChunk options send date session chunkIndex stream expectedSize
      hash st in
  match multipartUploads st !! uploadId session with
  | None => r = (st, Throw (Typed (mkError STORAGE_ERROR NoDetails)))
  | Some state =>
      if Z.of_nat (length stream) =? expectedSize
      then
        ∃ key,
          let command :=
            UploadPart (bucket options) key (mp_uploadId state)
              (chunkIndex + 1) stream expectedSize in
          sent (stateOf r) = sent st ++ [command]
          ∧ match send (length (sent st)) command with
            | Ok response =>
                resultOf r = Ok tt
                ∧ multipartUploads (stateOf r)
                  = <[uploadId session :=
                        mkMultipart (mp_uploadId state)
                          (arraySet chunkIndex
                             (mkPart (res_ETag response) (chunkIndex + 1))
                             (parts state))]> (multipartUploads st)
            | Throw error =>
                (∃ e, resultOf r = Throw (Typed e))
                ∧ multipartUploads (stateOf r) = multipartUploads st
            end
      else
        resultOf r
        = Throw (Typed (mkError CHUNK_SIZE_MISMATCH
                          (SizeDetails expectedSize
                             (Z.of_nat (length stream)))))
        ∧ sent (stateOf r) = sent st
        ∧ multipartUploads (stateOf r) = multipartUploads st
  end.
Proof.
  cbn zeta.
  destruct (multipartUploads st !! uploadId session) as [state|] eqn:Hstate.
  - destruct (buildObjectKey_run session st) as (key & reads & Hkey).
    rewrite (s3_writeChunk_run session chunkIndex stream expectedSize hash
               st state key reads Hstate Hkey).
    destruct (Z.of_nat (length stream) =? expectedSize); [|done].
    exists key. destruct (send _ _) as [response|error]; by eauto.
  - unfold writeChunk, multipartUploads_get, bind. by rewrite Hstate.
Qed.

Lemma arraySet_aligned (parts : list (option CompletedPart))
  (chunkIndex : Z) (etag : option string) :
  aligned parts →
  aligned (arraySet chunkIndex (mkPart etag (chunkIndex + 1)) parts).
Proof.
  intros Hparts. unfold arraySet.
  destruct (Z.ltb_spec chunkIndex 0); [done|].
  destruct (Z.ltb_spec chunkIndex (Z.of_nat (length parts))).
  - intros i part. destruct (decide (i = Z.to_nat chunkIndex)) as [->|Hne].
    + rewrite list_lookup_insert_eq by lia. intros [= <-]. cbn. lia.
    + rewrite list_lookup_insert_ne by done. apply Hparts.
  - intros i part Hi.
    apply lookup_app_Some in Hi as [Hi|[Hlen Hi]]; [by apply Hparts|].
    apply lookup_app_Some in Hi as [Hi|[Hlen' Hi]].
    + apply lookup_replicate in Hi as [[=] _].
    + rewrite length_replicate in Hlen', Hi.
      apply list_lookup_singleton_Some in Hi as [Hi [= <-]]. cbn. lia.
Qed.

Lemma call_aligned (c : Call) (st : State) :
  (∀ id state, multipartUploads st !! id = Some state →
               aligned (parts state)) →
  ∀ id state,
    multipartUploads (call options send date c st) !! id = Some state →
    aligned (parts state).
Proof.
  intros Hst id state. destruct c as [s|s i stream size hash|s|s];
    cbn [call]; destruct (buildObjectKey_run s st) as (key & reads & Hkey).
  - destruct (s3_initUpload_run s st key reads Hkey) as [-> _].
    cbn [multipartUploads]. destruct (send _ _) as [response|error];
      [|apply Hst].
    destruct (res_UploadId response) as [mpid|]; [|apply Hst].
    destruct (String.eqb mpid ""); [apply Hst|].
    intros [[_ <-]|[_ Hid]]%lookup_insert_Some; [|by eapply Hst].
    intros j part. cbn. by rewrite lookup_nil.
  - destruct (multipartUploads st !! uploadId s) as [state0|] eqn:Hstate.
    + rewrite (s3_writeChunk_run s i stream size hash st state0 key reads
                 Hstate Hkey).
      destruct (Z.of_nat (length stream) =? size); [|apply Hst].
      destruct (send _ _) as [response|error]; [|apply Hst].
      cbn [stateOf fst multipartUploads].
      intros [[_ <-]|[_ Hid]]%lookup_insert_Some; [|by eapply Hst].
      cbn [parts]. apply arraySet_aligned. by eapply Hst.
    + unfold writeChunk, multipartUploads_get, bind. rewrite Hstate.
      apply Hst.
  - destruct (multipartUploads st !! uploadId s) as [state0|] eqn:Hstate.
    + rewrite (s3_finalizeUpload_run s st state0 key reads Hstate Hkey).
      destruct (send _ _) as [response|error]; [|apply Hst].
      cbn [stateOf fst multipartUploads].
      intros [_ Hid]%lookup_delete_Some. by eapply Hst.
    + unfold finalizeUpload, multipartUploads_get, bind. rewrite Hstate.
      apply Hst.
  - destruct (multipartUploads st !! uploadId s) as [state0|] eqn:Hstate.
    + rewrite (s3_abortUpload_run s st state0 key reads Hstate Hkey).
      destruct (send _ _) as [response|error]; [|apply Hst].
      cbn [stateOf fst multipartUploads].
      intros [_ Hid]%lookup_delete_Some. by eapply Hst.
    + unfold abortUpload, multipartUploads_get, bind. rewrite Hstate.
      apply Hst.
Qed.

Lemma reachable_aligned (st : State) :
  reachable options send date st →
  ∀ id state, multipartUploads st !! id = Some state →
              aligned (parts state).
Proof.
  induction 1 as [|st c _ IH]; [|by apply call_aligned].
  intros id state. cbn. by rewrite lookup_empty.
Qed.

(** The parts of an aligned array, in the order of the array, have
    ascending part numbers. *)
Lemma aligned_ascending (k : Z) (parts : list (option CompletedPart)) :
  (∀ (i : nat) part, parts !! i = Some (Some part) →
                     PartNumber part = k + Z.of_nat i + 1) →
  StronglySorted (λ a b, PartNumber a < PartNumber b) (omap id parts)
  ∧ Forall (λ part, k < PartNumber part) (omap id parts).
Proof.
  revert k. induction parts as [|o parts IH]; intros k Hparts.
  - split; constructor.
  - destruct (IH (k + 1)) as [Hsorted Hall].
    { intros i part Hi. rewrite (Hparts (S i) part Hi). lia. }
    destruct o as [part|]; cbn.
    + pose proof (Hparts 0%nat part eq_refl) as Hpart.
      split.
      * constructor; [done|]. eapply Forall_impl; [exact Hall|].
        cbn. intros; lia.
      * constructor; [lia|]. eapply Forall_impl; [exact Hall|].
        cbn. intros; lia.
    + split; [done|]. eapply Forall_impl; [exact Hall|]. cbn. intros; lia.
Qed.

Lemma sortedParts_aligned (parts : list (option CompletedPart)) :
  aligned parts →
  sortedParts parts = omap id parts
  ∧ StronglySorted Z.lt (PartNumber <$> omap id parts).
Proof.
  intros Hparts.
  destruct (aligned_ascending 0 parts) as [Hsorted _].
  { intros i part Hi. rewrite (Hparts i part Hi). lia. }
  assert (Htrans : Transitive byPartNumber).
  { intros a b c. unfold byPartNumber. lia. }
  assert (Htotal : Total byPartNumber).
  { intros a b. unfold byPartNumber. lia. }
  split; [|by eapply StronglySorted_fmap; [|exact Hsorted]].
  unfold sortedParts.
  apply (StronglySorted_unique_strong byPartNumber).
  - intros a b Ha Hb Hab Hba.
    rewrite merge_sort_Permutation in Ha.
    apply list_elem_of_omap in Ha as (oa & Ha & Hoa).
    apply list_elem_of_omap in Hb as (ob & Hb & Hob).
    cbn in Hoa, Hob. subst oa ob.
    apply list_elem_of_lookup in Ha as [i Hi], Hb as [j Hj].
    pose proof (Hparts i a Hi). pose proof (Hparts j b Hj).
    unfold byPartNumber in Hab, Hba.
    assert (i = j) as -> by lia. congruence.
  - by apply StronglySorted_merge_sort.
  - clear -Hsorted.
    induction Hsorted as [|a l _ IH Hall]; constructor; [done|].
    eapply Forall_impl; [exact Hall|].
    unfold byPartNumber. cbn. intros; lia.
  - apply merge_sort_Permutation.
Qed.

(** X29.  In a driver that started empty, whatever was called on it and
    whatever S3 answered, [finalizeUpload] of an upload with a multipart
    upload sends one [CompleteMultipartUpload] that lists the parts
    recorded, each one once, in the order of their chunks: the part of
    chunk [i] has number [i + 1], so the numbers are strictly ascending
    and the sort of the source changes nothing.  When S3 answers, its
    location and [ETag] are returned and the multipart upload is
    forgotten; when S3 fails, [STORAGE_ERROR] is thrown and the
    multipart upload is kept. *)
Theorem s3_finalizeUpload_lists_parts_in_chunk_order
  (session : TorrinUploadSession) (st : State) (state : MultipartState) :
  reachable options send date st →
  multipartUploads st !! uploadId session = Some state →
  let r := finalizeUpload options send date session st in
  ∃ key,
    let command :=
      CompleteMultipartUpload (bucket options) key (mp_uploadId state)
        (omap id (parts state)) in
    sent (stateOf r) = sent st ++ [command]
    ∧ StronglySorted Z.lt (PartNumber <$> omap id (parts state))
    ∧ (∀ (i : nat) part, parts state !! i = Some (Some part) →
                         PartNumber part = Z.of_nat i + 1)
    ∧ match send (length (sent st)) command with
      | Ok response =>
          resultOf r
          = Ok (S3Location (bucket options) key (res_Location response)
                  (res_ETag response))
          ∧ multipartUploads (stateOf r)
            = delete (uploadId session) (multipartUploads st)
      | Throw error =>
          (∃ details,
             resultOf r = Throw (Typed (mkError STORAGE_ERROR details)))
          ∧ multipartUploads (stateOf r) = multipartUploads st
      end.
Proof.
  intros Hreach Hstate. cbn zeta.
  pose proof (reachable_aligned st Hreach _ _ Hstate) as Haligned.
  destruct (sortedParts_aligned (parts state) Haligned) as [Hsort Hasc].
  destruct (buildObjectKey_run session st) as (key & reads & Hkey).
  rewrite (s3_finalizeUpload_run session st state key reads Hstate Hkey).
  rewrite Hsort. exists key.
  destruct (send _ _) as [response|error]; cbn; by eauto 10.
Qed.

(** Strings are cancelled on the left. *)
Lemma string_app_inv_head (p a b : string) :
  (p ++ a = p ++ b)%string → a = b.
Proof.
  induction p as [|c p IH]; [done|].
  change (String c (p ++ a) = String c (p ++ b) → a = b)%string.
  intros [= Heq]. by apply IH.
Qed.

(** A string is cut in one way only at the slash behind its leading run
    of digits. *)
Lemma split_at_first_slash (a : string) :
  ∀ b r1 r2,
    Js.allDigits a = true → Js.allDigits b = true →
    (a ++ String "/" r1 = b ++ String "/" r2)%string →
    a = b ∧ r1 = r2.
Proof.
  induction a as [|c a IH]; intros [|c' b] r1 r2 Ha Hb Heq.
  - by injection Heq as ->.
  - injection Heq as <- _. done.
  - injection Heq as -> _. done.
  - injection Heq as -> Heq.
    cbn [Js.allDigits] in Ha, Hb.
    apply andb_true_iff in Ha as [_ Ha], Hb as [_ Hb].
    destruct (IH b r1 r2 Ha Hb Heq) as [-> ->]. done.
Qed.

Lemma month_digits (month : Z) :
  0 ≤ month < 12 →
  Js.allDigits (Local.padStart 2 (Local.toString (month + 1))) = true
  ∧ Js.parseInt (Local.padStart 2 (Local.toString (month + 1)))
    = Some (month + 1).
Proof.
  intros Hmonth.
  assert (month = 0 ∨ month = 1 ∨ month = 2 ∨ month = 3 ∨ month = 4
          ∨ month = 5 ∨ month = 6 ∨ month = 7 ∨ month = 8 ∨ month = 9
          ∨ month = 10 ∨ month = 11) as Hcases by lia.
  destruct_or!; subst month; vm_compute; done.
Qed.

Lemma defaultKey_inj (session : TorrinUploadSession)
  (year1 month1 year2 month2 : Z) :
  0 ≤ year1 → 0 ≤ year2 → 0 ≤ month1 < 12 → 0 ≤ month2 < 12 →
  defaultKey options year1 month1 session
  = defaultKey options year2 month2 session →
  year1 = year2 ∧ month1 = month2.
Proof.
  intros Hy1 Hy2 Hm1 Hm2. unfold defaultKey. cbn zeta.
  intros Heq%string_app_inv_head.
  apply split_at_first_slash in Heq as [Hyear Heq];
    [|by apply allDigits_toString..].
  destruct (month_digits month1 Hm1) as [Hd1 Hp1].
  destruct (month_digits month2 Hm2) as [Hd2 Hp2].
  apply split_at_first_slash in Heq as [Hmonth _]; [|done..].
  apply toString_inj in Hyear. split; [done|].
  rewrite Hmonth, Hp2 in Hp1. injection Hp1. lia.
Qed.

(** X30.  Without [getObjectKey] the S3 driver computes the object key
    from the clock at every call.  The key that [finalizeUpload] names
    is the key that [initUpload] named exactly when the two calls read
    the same year and the same month: an upload that is initiated in one
    month and finalized in the next is completed under another key. *)
Theorem s3_default_key_follows_the_clock (session : TorrinUploadSession)
  (st st' : State) (state' : MultipartState) :
  opt_getObjectKey options = None →
  multipartUploads st' !! uploadId session = Some state' →
  let began := date (dateReads st) in
  let ended := date (dateReads st') in
  0 ≤ began.1 → 0 ≤ ended.1 → 0 ≤ began.2 < 12 → 0 ≤ ended.2 < 12 →
  ∃ key key',
    sent (stateOf (initUpload options send date session st))
    = sent st ++ [CreateMultipartUpload (bucket options) key
                    (mimeType session) (uploadId session)
                    (default "" (fileName session))]
    ∧ sent (stateOf (finalizeUpload options send date session st'))
      = sent st' ++ [CompleteMultipartUpload (bucket options) key'
                       (mp_uploadId state') (sortedParts (parts state'))]
    ∧ (key = key' ↔ began = ended).
Proof.
  intros Hdefault Hstate began ended Hy1 Hy2 Hm1 Hm2.
  pose proof (buildObjectKey_default session st Hdefault) as Hkey.
  pose proof (buildObjectKey_default session st' Hdefault) as Hkey'.
  fold began in Hkey. fold ended in Hkey'.
  destruct (s3_initUpload_run session st _ _ Hkey) as [Hinit _].
  pose proof (s3_finalizeUpload_run session st' state' _ _ Hstate Hkey')
    as Hfinal.
  exists (defaultKey options began.1 began.2 session),
         (defaultKey options ended.1 ended.2 session).
  split; [rewrite Hinit; reflexivity|]. split.
  { rewrite Hfinal. clear. by destruct (send _ _). }
  split.
  - intros Heq. apply defaultKey_inj in Heq as [Hyear Hmonth]; [|done..].
    destruct began, ended. cbn in Hyear, Hmonth. congruence.
  - by intros ->.
Qed.

End S3Driver.

Lemma s3_uploaded_reachable :
  S3.reachable Scenarios.s3Options Scenarios.s3Send Scenarios.s3Date
    Scenarios.s3Uploaded.
Proof.
  unfold Scenarios.s3Uploaded. cbn [foldl].
  repeat apply S3.reachable_call. apply S3.reachable_empty.
Qed.

Lemma s3_uploaded_parts :
  S3.multipartUploads Scenarios.s3Uploaded !! uploadId Scenarios.s3Session
  = Some (S3.mkMultipart "mp-1"
            [Some (S3.mkPart (Some "etag") 1);
             Some (S3.mkPart (Some "etag") 2)]).
Proof. vm_compute. reflexivity. Qed.

(** Chunk 1 arrived before chunk 0; the parts are listed 1, 2. *)
Lemma s3_finalizeUpload_lists_parts_in_chunk_order_witness :
  ∃ key,
    S3.sent (stateOf (S3.finalizeUpload Scenarios.s3Options Scenarios.s3Send
                        Scenarios.s3Date Scenarios.s3Session
                        Scenarios.s3Uploaded))
    = S3.sent Scenarios.s3Uploaded
      ++ [S3.CompleteMultipartUpload "bucket" key "mp-1"
            [S3.mkPart (Some "etag") 1; S3.mkPart (Some "etag") 2]].
Proof.
  destruct (s3_finalizeUpload_lists_parts_in_chunk_order
              Scenarios.s3Options Scenarios.s3Send Scenarios.s3Date
              Scenarios.s3Session Scenarios.s3Uploaded _
              s3_uploaded_reachable s3_uploaded_parts)
    as (key & Hsent & _).
  exists key. exact Hsent.
Defined.

(** The upload is initiated in December 2025 and finalized in January
    2026. *)
Lemma s3_default_key_follows_the_clock_witness :
  ∃ key key',
    S3.sent (stateOf (S3.initUpload Scenarios.s3Options Scenarios.s3Send
                        Scenarios.s3Date Scenarios.s3Session S3.empty))
    = [S3.CreateMultipartUpload "bucket" key None "u_2" "a.txt"]
    ∧ S3.sent (stateOf (S3.finalizeUpload Scenarios.s3Options
                          Scenarios.s3Send Scenarios.s3Date
                          Scenarios.s3Session Scenarios.s3Uploaded))
      = S3.sent Scenarios.s3Uploaded
        ++ [S3.CompleteMultipartUpload "bucket" key' "mp-1"
              (S3.sortedParts
                 [Some (S3.mkPart (Some "etag") 1);
                  Some (S3.mkPart (Some "etag") 2)])]
    ∧ (key = key' ↔ (2025, 11) = (2026, 0)).
Proof.
  apply (s3_default_key_follows_the_clock Scenarios.s3Options
           Scenarios.s3Send Scenarios.s3Date Scenarios.s3Session S3.empty
           Scenarios.s3Uploaded _ eq_refl s3_uploaded_parts);
    vm_compute; try split; congruence.
Defined.
